(** * A shallow embedding of the mold linker driver (main.cc)

    The development follows the phases of [main]: the [split] helper,
    section binning and intra-section layout, relocation-slot assignment
    and the synthetic-table prefix sums, the writer pass for
    GOT/PLT/GOTPLT/RELPLT, output-chunk layout and the [-filler] option.

    Unsigned 64-bit quantities ([u64], ELF header fields) are integers in
    [Z] with the wrap-around written out through [wrap64]. *)

From Stdlib Require Import ZArith List Lia Bool String Ascii.
From stdpp Require Import base list.
Import ListNotations.
Local Open Scope Z_scope.

(** ** Machine integers *)

Definition wrap64 (z : Z) : Z := z mod 2 ^ 64.
Definition wrap32 (z : Z) : Z := z mod 2 ^ 32.
Definition wrap8 (z : Z) : Z := z mod 2 ^ 8.

(** Conversion of an unsigned value to [int]. *)
Definition to_int (z : Z) : Z := (z + 2 ^ 31) mod 2 ^ 32 - 2 ^ 31.

(** Modelled from the spec: [PAGE_SIZE] is a constant of mold.h, which is
    not among the sources; the spec gives "Page size is 4096". *)
Definition PAGE_SIZE : Z := 4096.

(** ELF constants used by main.cc (values of llvm/BinaryFormat/ELF.h). *)
Definition SHT_NOBITS : Z := 8.
Definition SHF_ALLOC : Z := 2.
Definition SHF_TLS : Z := 1024.
Definition STT_GNU_IFUNC : Z := 10.
Definition R_X86_64_GLOB_DAT : Z := 6.
Definition R_X86_64_JUMP_SLOT : Z := 7.
Definition R_X86_64_IRELATIVE : Z := 37.
Definition sizeof_Rela : Z := 24.
Definition sizeof_Sym : Z := 24.

(** A C condition [x & FLAG] is true when the masked value is non-zero. *)
Definition has_flag (x flag : Z) : bool := negb (Z.land x flag =? 0).

(** The exact rounding, before it is reduced to 64 bits. *)
Definition align_up (val align : Z) : Z := (val + align - 1) / align * align.

(** Modelled from the spec: [align_to] is declared in mold.h, which is not
    among the sources.  The spec uses it as "round [vaddr] up to page
    size" and "align both [fileoff] and [vaddr] to [sh_addralign]": the
    least multiple of [align] that is not below [val], as a [u64]. *)
Definition align_to (val align : Z) : Z := wrap64 (align_up val align).

(** Alignments of ELF sections are powers of two. *)
Definition is_pow2 (a : Z) : bool := (0 <? a) && (a =? 2 ^ Z.log2 a).

(** ** Output chunks and their section headers *)

Record Shdr := mkShdr {
  sh_type : Z;
  sh_flags : Z;
  sh_addr : Z;
  sh_offset : Z;
  sh_size : Z;
  sh_addralign : Z
}.

Record OutputChunk := mkChunk {
  shdr : Shdr;
  starts_new_ptload : bool
}.

Definition set_sh_offset (h : Shdr) (v : Z) : Shdr :=
  mkShdr (sh_type h) (sh_flags h) (sh_addr h) v (sh_size h) (sh_addralign h).

Definition set_sh_addr (h : Shdr) (v : Z) : Shdr :=
  mkShdr (sh_type h) (sh_flags h) v (sh_offset h) (sh_size h) (sh_addralign h).

Definition is_nobits (c : OutputChunk) : bool := sh_type (shdr c) =? SHT_NOBITS.
Definition is_alloc (c : OutputChunk) : bool := has_flag (sh_flags (shdr c)) SHF_ALLOC.
Definition is_tbss (c : OutputChunk) : bool :=
  is_nobits c && has_flag (sh_flags (shdr c)) SHF_TLS.

(** ** set_osec_offsets (main.cc, 566-600) *)

Module Layout.

(** The two running variables of the loop. *)
Record cursor := mkCursor { fileoff : Z; vaddr : Z }.

Definition start_cursor : cursor := mkCursor 0 2097152.

(** First half of the loop body: page rounding for a new PT_LOAD, the
    congruence fix of [fileoff] and the two [align_to] calls.  The result
    holds the values that are recorded in the header. *)
Definition place (cur : cursor) (chunk : OutputChunk) : cursor :=
  let vaddr0 :=
    if starts_new_ptload chunk then align_to (vaddr cur) PAGE_SIZE else vaddr cur in
  let fileoff0 :=
    if negb (is_nobits chunk) then
      if vaddr0 mod PAGE_SIZE >? fileoff cur mod PAGE_SIZE then
        wrap64 (fileoff cur + (vaddr0 mod PAGE_SIZE - fileoff cur mod PAGE_SIZE))
      else if vaddr0 mod PAGE_SIZE <? fileoff cur mod PAGE_SIZE then
        wrap64 (align_to (fileoff cur) PAGE_SIZE + vaddr0 mod PAGE_SIZE)
      else fileoff cur
    else fileoff cur in
  mkCursor (align_to fileoff0 (sh_addralign (shdr chunk)))
           (align_to vaddr0 (sh_addralign (shdr chunk))).

(** The header after [sh_offset] and, for SHF_ALLOC chunks, [sh_addr] are
    recorded. *)
Definition record_header (placed : cursor) (chunk : OutputChunk) : OutputChunk :=
  let h := set_sh_offset (shdr chunk) (fileoff placed) in
  let h := if is_alloc chunk then set_sh_addr h (vaddr placed) else h in
  mkChunk h (starts_new_ptload chunk).

(** Second half of the loop body: the two advances by [sh_size]. *)
Definition advance (placed : cursor) (chunk : OutputChunk) : cursor :=
  mkCursor
    (if negb (is_nobits chunk) then wrap64 (fileoff placed + sh_size (shdr chunk))
     else fileoff placed)
    (if negb (is_tbss chunk) then wrap64 (vaddr placed + sh_size (shdr chunk))
     else vaddr placed).

(** One iteration, with the intermediate values kept for the statements. *)
Record iteration := mkIteration {
  it_before : cursor;
  it_placed : cursor;
  it_chunk : OutputChunk;
  it_after : cursor
}.

Definition iterate (cur : cursor) (chunk : OutputChunk) : iteration :=
  let placed := place cur chunk in
  mkIteration cur placed (record_header placed chunk) (advance placed chunk).

Fixpoint run (cur : cursor) (chunks : list OutputChunk) : list iteration :=
  match chunks with
  | [] => []
  | c :: cs => let it := iterate cur c in it :: run (it_after it) cs
  end.

(** The cursor when the loop ends. *)
Fixpoint final_cursor (cur : cursor) (chunks : list OutputChunk) : cursor :=
  match chunks with
  | [] => cur
  | c :: cs => final_cursor (it_after (iterate cur c)) cs
  end.

(** [set_osec_offsets]: the chunks with their headers filled in, and the
    returned file size. *)
Definition set_osec_offsets (chunks : list OutputChunk) : list OutputChunk * Z :=
  (map it_chunk (run start_cursor chunks), fileoff (final_cursor start_cursor chunks)).

(** No 64-bit addition on [fileoff] wraps during the iteration: the exact
    values of the congruence fix, of the alignment and of the advance all
    fit in a [u64]. *)
Definition fits (cur : cursor) (chunk : OutputChunk) : bool :=
  let vaddr0 :=
    if starts_new_ptload chunk then align_to (vaddr cur) PAGE_SIZE else vaddr cur in
  let fix_exact :=
    if negb (is_nobits chunk) then
      if vaddr0 mod PAGE_SIZE >? fileoff cur mod PAGE_SIZE then
        fileoff cur + (vaddr0 mod PAGE_SIZE - fileoff cur mod PAGE_SIZE)
      else if vaddr0 mod PAGE_SIZE <? fileoff cur mod PAGE_SIZE then
        align_up (fileoff cur) PAGE_SIZE + vaddr0 mod PAGE_SIZE
      else fileoff cur
    else fileoff cur in
  let aligned_exact := align_up fix_exact (sh_addralign (shdr chunk)) in
  let end_exact :=
    if negb (is_nobits chunk) then aligned_exact + sh_size (shdr chunk)
    else aligned_exact in
  (fix_exact <? 2 ^ 64) && (aligned_exact <? 2 ^ 64) && (end_exact <? 2 ^ 64).

(** Header fields are unsigned; an alignment of zero is excluded. *)
Definition chunk_sized (c : OutputChunk) : Prop :=
  1 <= sh_addralign (shdr c) /\ 0 <= sh_size (shdr c).

Fixpoint run_fits (cur : cursor) (chunks : list OutputChunk) : bool :=
  match chunks with
  | [] => true
  | c :: cs => fits cur c && run_fits (it_after (iterate cur c)) cs
  end.

(** What one iteration of a run without wrap-around guarantees. *)
Definition forward_step (it : iteration) : Prop :=
  fileoff (it_before it) <= fileoff (it_placed it) /\
  sh_offset (shdr (it_chunk it)) = fileoff (it_placed it) /\
  fileoff (it_after it) =
    fileoff (it_placed it) +
    (if is_nobits (it_chunk it) then 0 else sh_size (shdr (it_chunk it))) /\
  0 <= sh_size (shdr (it_chunk it)).

(** A small chunk list in segment order: ELF header, .text, .tdata,
    .tbss, .data, .bss and a non-allocated .symtab. *)
Definition sample_chunks : list OutputChunk :=
  [ mkChunk (mkShdr 0 2 0 0 64 8) true;
    mkChunk (mkShdr 1 6 0 0 100 16) true;
    mkChunk (mkShdr 1 1027 0 0 12 8) true;
    mkChunk (mkShdr 8 1027 0 0 40 8) false;
    mkChunk (mkShdr 1 3 0 0 10 32) false;
    mkChunk (mkShdr 8 3 0 0 5000 8192) false;
    mkChunk (mkShdr 2 0 0 0 48 8) false ].

End Layout.

(** ** split (main.cc, 146-158) *)

(** [unit] is an [int]; in the loop test [arr.size() >= unit] and in the
    two [slice] calls it is converted to [size_t]. *)
Definition to_size_t (unit : Z) : Z := wrap64 unit.

(** The [while] loop with its trailing [if]; one unit of fuel per
    evaluation of the loop test.  [None] means that the fuel ran out with
    the loop still running.  The slices are produced in the order in which
    [push_back] appends them. *)
Fixpoint split {T} (fuel : nat) (arr : list T) (unit : Z) : option (list (list T)) :=
  match fuel with
  | O => None
  | S fuel' =>
    if Z.of_nat (length arr) >=? to_size_t unit then
      match split fuel' (drop (Z.to_nat (to_size_t unit)) arr) unit with
      | Some vec => Some (take (Z.to_nat (to_size_t unit)) arr :: vec)
      | None => None
      end
    else
      Some (match arr with [] => [] | _ :: _ => [arr] end)
  end.

(** ** bin_sections and set_isec_offsets (main.cc, 252-331) *)

Module Binning.

(** An input section as the two passes see it: the index of its output
    section ([output_section->idx], the position in
    [OutputSection::instances]), its header and its assigned offset. *)
Record InputChunk := mkInput {
  output_section : nat;
  isec_shdr : Shdr;
  offset : Z
}.

Definition set_offset (isec : InputChunk) (off : Z) : InputChunk :=
  mkInput (output_section isec) (isec_shdr isec) off.

(** The part of an object file that binning reads: its section slots,
    where a null slot is [None]. *)
Record ObjectFile := mkFile { sections : list (option InputChunk) }.

(** An output section: the chunk it is, and its member list. *)
Record OutputSection := mkOsec {
  chunk : OutputChunk;
  members : list InputChunk
}.

(** [int unit = (files.size() + 127) / 128]: computed in [size_t], then
    converted to [int]. *)
Definition bin_unit (files : list ObjectFile) : Z :=
  to_int (wrap64 (Z.of_nat (length files) + 127) / 128).

(** [groups[i][osec->idx].push_back(isec)] for one section slot. *)
Definition push_section (group : list (list InputChunk)) (slot : option InputChunk)
  : list (list InputChunk) :=
  match slot with
  | None => group
  | Some isec => alter (fun v => v ++ [isec]) (output_section isec) group
  end.

(** The body of the first [parallel_for] for one shard: all section slots
    of all files of the shard, in order. *)
Definition bin_shard (num_osec : nat) (shard : list ObjectFile) : list (list InputChunk) :=
  foldl (fun group file => foldl push_section group (sections file))
        (replicate num_osec []) shard.

(** The body of the second [parallel_for] for output section [j]: the
    contributions of all shards are appended in shard order. *)
Definition append_groups (groups : list (list (list InputChunk))) (j : nat)
    (osec : OutputSection) : OutputSection :=
  mkOsec (chunk osec)
         (foldl (fun secs group => secs ++ default [] (group !! j)) (members osec) groups).

(** [bin_sections]; the fuel is that of the [split] call. *)
Definition bin_sections (fuel : nat) (files : list ObjectFile)
    (instances : list OutputSection) : option (list OutputSection) :=
  match split fuel files (bin_unit files) with
  | None => None
  | Some slices =>
    let groups := map (bin_shard (length instances)) slices in
    Some (imap (append_groups groups) instances)
  end.

(** The sections of a file that go to output section [j], in section
    order, and the same for a shard in file-then-section order. *)
Definition file_contribution (j : nat) (file : ObjectFile) : list InputChunk :=
  filter (fun isec => output_section isec = j) (omap id (sections file)).

Definition shard_contribution (j : nat) (shard : list ObjectFile) : list InputChunk :=
  flat_map (file_contribution j) shard.





(** [isec->offset += start[i]] for the members of one slice. *)
Definition shift_slice (s : Z) (slice : list InputChunk) : list InputChunk :=
  map (fun isec => set_offset isec (wrap64 (offset isec + s))) slice.








(** The largest alignment of a member list, 1 for the empty list. *)
Definition max_align (l : list InputChunk) : Z :=
  fold_right (fun isec acc => Z.max (sh_addralign (isec_shdr isec)) acc) 1 l.





(** Two object files with sections for two output sections; the second
    slot of the first file is a discarded (null) section. *)
Definition sample_files : list ObjectFile :=
  [ mkFile [ Some (mkInput 0 (mkShdr 1 6 0 0 10 16) 0);
             None;
             Some (mkInput 1 (mkShdr 1 3 0 0 8 8) 0);
             Some (mkInput 0 (mkShdr 1 6 0 0 3 1) 0) ];
    mkFile [ Some (mkInput 0 (mkShdr 1 6 0 0 7 4) 0);
             Some (mkInput 1 (mkShdr 1 3 0 0 5 1) 0);
             Some (mkInput 0 (mkShdr 1 6 0 0 20 32) 0) ] ].

Definition sample_instances : list OutputSection :=
  [ mkOsec (mkChunk (mkShdr 1 6 0 0 0 0) true) [];
    mkOsec (mkChunk (mkShdr 1 3 0 0 0 0) true) [] ].

Definition sample_text : OutputSection :=
  mkOsec (mkChunk (mkShdr 1 6 0 0 0 0) true)
    [ mkInput 0 (mkShdr 1 6 0 0 10 16) 0;
      mkInput 0 (mkShdr 1 6 0 0 3 1) 0;
      mkInput 0 (mkShdr 1 6 0 0 7 4) 0;
      mkInput 0 (mkShdr 1 6 0 0 20 32) 0 ].

Definition sample_data : OutputSection :=
  mkOsec (mkChunk (mkShdr 1 3 0 0 0 0) true)
    [ mkInput 1 (mkShdr 1 3 0 0 8 8) 0;
      mkInput 1 (mkShdr 1 3 0 0 5 1) 0 ].




End Binning.

(** ** Relocation scanning and synthetic-table sizing (main.cc, 333-442) *)

(** Outcome of a pass that may call [error], which ends the process. *)
Inductive outcome (A : Type) : Type :=
| Done (a : A)
| Fatal (msg : string).
Arguments Done {A} a.
Arguments Fatal {A} msg.

Module Scan.

(** Modelled from the spec: the relocation-need bits of [Symbol::rels] are
    declared in mold.h; the spec lists them as [HAS_GOT_REL, HAS_PLT_REL,
    HAS_GOTTP_REL, HAS_TLSGD_REL, HAS_TLSLD_REL], five distinct bits of a
    [u8]. *)
Definition HAS_GOT_REL : Z := 1.
Definition HAS_PLT_REL : Z := 2.
Definition HAS_GOTTP_REL : Z := 4.
Definition HAS_TLSGD_REL : Z := 8.
Definition HAS_TLSLD_REL : Z := 16.

(** Modelled from the spec: [GOT_SIZE] is a constant of mold.h; the spec
    has the tables grow "by [num_got * 8]". *)
Definition GOT_SIZE : Z := 8.

(** A symbol: its defining file (a pointer, here the file's identity, or
    null), its ELF type, the relocation-need bits and the slot indices,
    each -1 until assigned. *)
Record Symbol := mkSymbol {
  sym_file : option nat;
  sym_type : Z;
  rels : Z;
  got_idx : Z;
  plt_idx : Z;
  gotplt_idx : Z;
  relplt_idx : Z;
  gottp_idx : Z;
  gotgd_idx : Z;
  gotld_idx : Z;
  dynsym_idx : Z
}.

(** A symbol on which no slot has been assigned. *)
Definition new_symbol (file : option nat) (type rels : Z) : Symbol :=
  mkSymbol file type rels (-1) (-1) (-1) (-1) (-1) (-1) (-1) (-1).

(** The part of an object file that slot assignment and the prefix sums
    use.  [symbols] holds pointers to shared [Symbol] objects: indices
    into the symbol store.  The counters are [int]-like counts of
    symbols, kept in [Z]. *)
Record ObjectFile := mkFile {
  file_id : nat;
  symbols : list nat;
  num_got : Z;
  num_plt : Z;
  num_gotplt : Z;
  num_relplt : Z;
  num_reldyn : Z;
  got_offset : Z;
  plt_offset : Z;
  gotplt_offset : Z;
  relplt_offset : Z;
  reldyn_offset : Z;
  dynsyms : list nat
}.

Definition new_file (id : nat) (symbols : list nat) : ObjectFile :=
  mkFile id symbols 0 0 0 0 0 0 0 0 0 0 [].

(** The synthetic tables that are sized per file ([.got], [.plt],
    [.got.plt], [.rela.plt], [.rela.dyn]), and the slot fields of a symbol
    that index the first four. *)
Inductive table := TGot | TPlt | TGotPlt | TRelPlt | TRelDyn.

Inductive slot := SGot | SPlt | SGotPlt | SRelPlt | SGotTp | SGotGd.

Definition slot_table (s : slot) : table :=
  match s with
  | SGot | SGotTp | SGotGd => TGot
  | SPlt => TPlt
  | SGotPlt => TGotPlt
  | SRelPlt => TRelPlt
  end.

Definition slot_value (s : slot) (sym : Symbol) : Z :=
  match s with
  | SGot => got_idx sym
  | SPlt => plt_idx sym
  | SGotPlt => gotplt_idx sym
  | SRelPlt => relplt_idx sym
  | SGotTp => gottp_idx sym
  | SGotGd => gotgd_idx sym
  end.

Definition set_slot (s : slot) (sym : Symbol) (v : Z) : Symbol :=
  match s with
  | SGot => mkSymbol (sym_file sym) (sym_type sym) (rels sym) v (plt_idx sym)
              (gotplt_idx sym) (relplt_idx sym) (gottp_idx sym) (gotgd_idx sym)
              (gotld_idx sym) (dynsym_idx sym)
  | SPlt => mkSymbol (sym_file sym) (sym_type sym) (rels sym) (got_idx sym) v
              (gotplt_idx sym) (relplt_idx sym) (gottp_idx sym) (gotgd_idx sym)
              (gotld_idx sym) (dynsym_idx sym)
  | SGotPlt => mkSymbol (sym_file sym) (sym_type sym) (rels sym) (got_idx sym)
              (plt_idx sym) v (relplt_idx sym) (gottp_idx sym) (gotgd_idx sym)
              (gotld_idx sym) (dynsym_idx sym)
  | SRelPlt => mkSymbol (sym_file sym) (sym_type sym) (rels sym) (got_idx sym)
              (plt_idx sym) (gotplt_idx sym) v (gottp_idx sym) (gotgd_idx sym)
              (gotld_idx sym) (dynsym_idx sym)
  | SGotTp => mkSymbol (sym_file sym) (sym_type sym) (rels sym) (got_idx sym)
              (plt_idx sym) (gotplt_idx sym) (relplt_idx sym) v (gotgd_idx sym)
              (gotld_idx sym) (dynsym_idx sym)
  | SGotGd => mkSymbol (sym_file sym) (sym_type sym) (rels sym) (got_idx sym)
              (plt_idx sym) (gotplt_idx sym) (relplt_idx sym) (gottp_idx sym) v
              (gotld_idx sym) (dynsym_idx sym)
  end.

Definition count (t : table) (f : ObjectFile) : Z :=
  match t with
  | TGot => num_got f
  | TPlt => num_plt f
  | TGotPlt => num_gotplt f
  | TRelPlt => num_relplt f
  | TRelDyn => num_reldyn f
  end.

Definition bump (t : table) (n : Z) (f : ObjectFile) : ObjectFile :=
  match t with
  | TGot => mkFile (file_id f) (symbols f) (num_got f + n) (num_plt f) (num_gotplt f)
              (num_relplt f) (num_reldyn f) (got_offset f) (plt_offset f)
              (gotplt_offset f) (relplt_offset f) (reldyn_offset f) (dynsyms f)
  | TPlt => mkFile (file_id f) (symbols f) (num_got f) (num_plt f + n) (num_gotplt f)
              (num_relplt f) (num_reldyn f) (got_offset f) (plt_offset f)
              (gotplt_offset f) (relplt_offset f) (reldyn_offset f) (dynsyms f)
  | TGotPlt => mkFile (file_id f) (symbols f) (num_got f) (num_plt f) (num_gotplt f + n)
              (num_relplt f) (num_reldyn f) (got_offset f) (plt_offset f)
              (gotplt_offset f) (relplt_offset f) (reldyn_offset f) (dynsyms f)
  | TRelPlt => mkFile (file_id f) (symbols f) (num_got f) (num_plt f) (num_gotplt f)
              (num_relplt f + n) (num_reldyn f) (got_offset f) (plt_offset f)
              (gotplt_offset f) (relplt_offset f) (reldyn_offset f) (dynsyms f)
  | TRelDyn => mkFile (file_id f) (symbols f) (num_got f) (num_plt f) (num_gotplt f)
              (num_relplt f) (num_reldyn f + n) (got_offset f) (plt_offset f)
              (gotplt_offset f) (relplt_offset f) (reldyn_offset f) (dynsyms f)
  end.

(** [file->num_reldyn += n] *)
Definition bump_reldyn (n : Z) (f : ObjectFile) : ObjectFile := bump TRelDyn n f.

(** [file->dynsyms.push_back(sym)] *)
Definition push_dynsym (id : nat) (f : ObjectFile) : ObjectFile :=
  mkFile (file_id f) (symbols f) (num_got f) (num_plt f) (num_gotplt f)
    (num_relplt f) (num_reldyn f) (got_offset f) (plt_offset f)
    (gotplt_offset f) (relplt_offset f) (reldyn_offset f) (dynsyms f ++ [id]).

(** [sym->X_idx = file->num_T; file->num_T += n]; with [n = 1] this is
    [sym->X_idx = file->num_T++]. *)
Definition assign (s : slot) (n : Z) (st : Symbol * ObjectFile) : Symbol * ObjectFile :=
  (set_slot s (fst st) (count (slot_table s) (snd st)), bump (slot_table s) n (snd st)).

(** The loop body of [scan_rels_static] for a symbol the file defines. *)
Definition static_body (st : Symbol * ObjectFile) : outcome (Symbol * ObjectFile) :=
  let r := rels (fst st) in
  let st := if has_flag r HAS_GOT_REL then assign SGot 1 st else st in
  let st :=
    if has_flag r HAS_PLT_REL && (sym_type (fst st) =? STT_GNU_IFUNC) then
      assign SRelPlt 1 (assign SGotPlt 1 (assign SPlt 1 st))
    else st in
  if has_flag r HAS_TLSGD_REL then Fatal "not implemented"
  else if has_flag r HAS_TLSLD_REL then Fatal "not implemented"
  else
    Done (if has_flag r HAS_GOTTP_REL then assign SGotTp 1 st else st).

(** The loop body of [scan_rels_dynamic] for symbol [id], defined by the
    file.  The TLSLD branch stores into [gotgd_idx], as the source does. *)
Definition dynamic_body (id : nat) (st : Symbol * ObjectFile) : Symbol * ObjectFile :=
  let r := rels (fst st) in
  let '(st, needs_dynsym) :=
    if has_flag r HAS_GOT_REL then
      let st := assign SGot 1 st in ((fst st, bump_reldyn 1 (snd st)), true)
    else (st, false) in
  let '(st, needs_dynsym) :=
    if has_flag r HAS_PLT_REL then
      let st := assign SPlt 1 st in
      (if got_idx (fst st) =? -1 then assign SRelPlt 1 (assign SGotPlt 1 st) else st, true)
    else (st, needs_dynsym) in
  let '(st, needs_dynsym) :=
    if has_flag r HAS_TLSGD_REL then
      let st := assign SGotGd 2 st in ((fst st, bump_reldyn 2 (snd st)), true)
    else (st, needs_dynsym) in
  let '(st, needs_dynsym) :=
    if has_flag r HAS_TLSLD_REL then
      let st := assign SGotGd 1 st in ((fst st, bump_reldyn 1 (snd st)), true)
    else (st, needs_dynsym) in
  let st := if has_flag r HAS_GOTTP_REL then assign SGotTp 1 st else st in
  if needs_dynsym then (fst st, push_dynsym id (snd st)) else st.

(** Does the symbol pass the test [sym->file != file] of the loops? *)
Definition defined_by (f : ObjectFile) (sym : Symbol) : bool :=
  match sym_file sym with
  | Some id => Nat.eqb id (file_id f)
  | None => false
  end.

(** One iteration over [file->symbols]: the symbol is read from the store
    and written back, so a pointer that occurs twice sees its own update. *)
Definition static_visit (st : list Symbol * ObjectFile) (id : nat)
  : outcome (list Symbol * ObjectFile) :=
  match fst st !! id with
  | None => Done st
  | Some sym =>
    if defined_by (snd st) sym then
      match static_body (sym, snd st) with
      | Done (sym', f') => Done (<[id := sym']> (fst st), f')
      | Fatal msg => Fatal msg
      end
    else Done st
  end.

Definition dynamic_visit (st : list Symbol * ObjectFile) (id : nat)
  : list Symbol * ObjectFile :=
  match fst st !! id with
  | None => st
  | Some sym =>
    if defined_by (snd st) sym then
      let '(sym', f') := dynamic_body id (sym, snd st) in (<[id := sym']> (fst st), f')
    else st
  end.

Fixpoint visit_all (st : list Symbol * ObjectFile) (ids : list nat)
  : outcome (list Symbol * ObjectFile) :=
  match ids with
  | [] => Done st
  | id :: rest =>
    match static_visit st id with
    | Done st' => visit_all st' rest
    | Fatal msg => Fatal msg
    end
  end.

Definition scan_rels_static (store : list Symbol) (file : ObjectFile)
  : outcome (list Symbol * ObjectFile) :=
  visit_all (store, file) (symbols file).

Definition scan_rels_dynamic (store : list Symbol) (file : ObjectFile)
  : list Symbol * ObjectFile :=
  foldl dynamic_visit (store, file) (symbols file).

(** The second [parallel_for_each] of [scan_rels] for one file.  Each file
    writes only its own counters and the symbols it defines, so the files
    are taken one after the other. *)
Definition scan_file (is_static : bool) (store : list Symbol) (file : ObjectFile)
  : outcome (list Symbol * ObjectFile) :=
  if is_static then scan_rels_static store file
  else Done (scan_rels_dynamic store file).

Fixpoint scan_files (is_static : bool) (store : list Symbol) (files : list ObjectFile)
  : outcome (list Symbol * list ObjectFile) :=
  match files with
  | [] => Done (store, [])
  | f :: rest =>
    match scan_file is_static store f with
    | Fatal msg => Fatal msg
    | Done (store', f') =>
      match scan_files is_static store' rest with
      | Fatal msg => Fatal msg
      | Done (store'', rest') => Done (store'', f' :: rest')
      end
    end
  end.

(** [sh_size] of the synthetic sections ([out::reldyn] is null in a static
    link), and the symbols collected in [.dynsym]. *)
Record Tables := mkTables {
  got_size : Z;
  gotplt_size : Z;
  plt_size : Z;
  relplt_size : Z;
  reldyn_size : option Z;
  dynsym_symbols : list nat
}.

Section Sizing.

(** [PLT_SIZE] is a constant of mold.h. *)
Variable PLT_SIZE : Z.

Definition entry_size (t : table) : Z :=
  match t with
  | TGot | TGotPlt => GOT_SIZE
  | TPlt => PLT_SIZE
  | TRelPlt | TRelDyn => sizeof_Rela
  end.

(** One iteration of the sequential loop of [scan_rels]: the file's base
    offsets are the current table sizes, which then grow by the file's
    share. *)
Definition reserve (tabs : Tables) (f : ObjectFile) : Tables * ObjectFile :=
  (mkTables
     (wrap64 (got_size tabs + num_got f * GOT_SIZE))
     (wrap64 (gotplt_size tabs + num_gotplt f * GOT_SIZE))
     (wrap64 (plt_size tabs + num_plt f * PLT_SIZE))
     (wrap64 (relplt_size tabs + num_relplt f * sizeof_Rela))
     (match reldyn_size tabs with
      | Some s => Some (wrap64 (s + num_reldyn f * sizeof_Rela))
      | None => None
      end)
     (dynsym_symbols tabs),
   mkFile (file_id f) (symbols f) (num_got f) (num_plt f) (num_gotplt f)
     (num_relplt f) (num_reldyn f)
     (got_size tabs) (plt_size tabs) (gotplt_size tabs) (relplt_size tabs)
     (match reldyn_size tabs with Some s => s | None => reldyn_offset f end)
     (dynsyms f)).

Fixpoint reserve_all (tabs : Tables) (files : list ObjectFile) : Tables * list ObjectFile :=
  match files with
  | [] => (tabs, [])
  | f :: rest =>
    let '(tabs', f') := reserve tabs f in
    let '(tabs'', rest') := reserve_all tabs' rest in
    (tabs'', f' :: rest')
  end.

(** Modelled from the spec: [DynsymSection::add_symbols] is declared in
    mold.h; the spec says that "each file's [dynsyms] list is appended to
    [.dynsym] in file order". *)
Definition add_symbols (tabs : Tables) (ids : list nat) : Tables :=
  mkTables (got_size tabs) (gotplt_size tabs) (plt_size tabs) (relplt_size tabs)
    (reldyn_size tabs) (dynsym_symbols tabs ++ ids).

(** [scan_rels] after the relocations have been classified into the
    [rels] bits of the symbols (that pass, [scan_relocations], is not in
    main.cc). *)
Definition scan_rels (is_static : bool) (store : list Symbol) (files : list ObjectFile)
    (tabs : Tables) : outcome (list Symbol * list ObjectFile * Tables) :=
  match scan_files is_static store files with
  | Fatal msg => Fatal msg
  | Done (store', files') =>
    let '(tabs', files'') := reserve_all tabs files' in
    Done (store', files'', foldl (fun t f => add_symbols t (dynsyms f)) tabs' files'')
  end.

End Sizing.

Definition base_offset (t : table) (f : ObjectFile) : Z :=
  match t with
  | TGot => got_offset f
  | TPlt => plt_offset f
  | TGotPlt => gotplt_offset f
  | TRelPlt => relplt_offset f
  | TRelDyn => reldyn_offset f
  end.

Definition table_size (t : table) (tabs : Tables) : option Z :=
  match t with
  | TGot => Some (got_size tabs)
  | TPlt => Some (plt_size tabs)
  | TGotPlt => Some (gotplt_size tabs)
  | TRelPlt => Some (relplt_size tabs)
  | TRelDyn => reldyn_size tabs
  end.

(** The number of entries of table [t] that a list of files needs. *)
Definition total_count (t : table) (files : list ObjectFile) : Z :=
  fold_right (fun f acc => count t f + acc) 0 files.

#[global] Instance table_eq_dec : EqDecision table.
Proof. solve_decision. Defined.

#[global] Instance slot_eq_dec : EqDecision slot.
Proof. solve_decision. Defined.

(** The slot values of a symbol are -1 or indices below the file's
    counters, and two slots of one table never share an index. *)
Definition pair_inv (st : Symbol * ObjectFile) : Prop :=
  (forall s, -1 <= slot_value s (fst st) < count (slot_table s) (snd st)) /\
  (forall s1 s2, s1 <> s2 -> slot_table s1 = slot_table s2 ->
     slot_value s1 (fst st) = slot_value s2 (fst st) -> slot_value s1 (fst st) = -1).

(** Symbols keep their defining file, type and relocation bits. *)
Definition same_meta (a b : Symbol) : Prop :=
  sym_file b = sym_file a /\ sym_type b = sym_type a /\ rels b = rels a /\
  gotld_idx b = gotld_idx a /\ dynsym_idx b = dynsym_idx a.

(** Files keep their identity, symbol list and base offsets; counters
    only grow. *)
Definition grows (f0 f : ObjectFile) : Prop :=
  (forall t, count t f0 <= count t f) /\
  file_id f = file_id f0 /\ symbols f = symbols f0 /\
  (forall t, base_offset t f = base_offset t f0).

(** Relative to the state [(sym0, f0)] at the start of a loop body, every
    slot is either untouched or holds an index handed out since. *)
Definition since (sym0 : Symbol) (f0 : ObjectFile) (st : Symbol * ObjectFile) : Prop :=
  pair_inv st /\ grows f0 (snd st) /\ same_meta sym0 (fst st) /\
  (forall s, slot_value s (fst st) = slot_value s sym0 \/
             count (slot_table s) f0 <= slot_value s (fst st)).

(** All slots of the symbols that file [f] defines are -1 or below the
    counters of [f], and no two of them share an index of one table. *)
Definition store_inv (store : list Symbol) (f : ObjectFile) : Prop :=
  (forall (id : nat) sym, store !! id = Some sym -> defined_by f sym = true ->
     forall s, -1 <= slot_value s sym < count (slot_table s) f) /\
  (forall (id1 id2 : nat) sym1 sym2 s1 s2,
     store !! id1 = Some sym1 -> store !! id2 = Some sym2 ->
     defined_by f sym1 = true -> defined_by f sym2 = true ->
     slot_table s1 = slot_table s2 ->
     slot_value s1 sym1 = slot_value s2 sym2 -> slot_value s1 sym1 <> -1 ->
     id1 = id2 /\ s1 = s2).

(** How a pass over file [f] changes the store: entries keep their
    defining file, type and bits, and only entries defined by [f] change. *)
Definition evolves (f : ObjectFile) (store store' : list Symbol) : Prop :=
  Forall2 (fun a b => same_meta a b /\ (defined_by f a = false -> b = a)) store store'.

(** What a pass over the symbols of one file establishes. *)
Definition pass_ok (st st' : list Symbol * ObjectFile) : Prop :=
  store_inv (fst st') (snd st') /\ grows (snd st) (snd st') /\
  evolves (snd st) (fst st) (fst st').

(** The same for a pass over several files. *)
Definition evolves_in (fs : list ObjectFile) (store store' : list Symbol) : Prop :=
  Forall2 (fun a b => same_meta a b /\
                      ((forall f, In f fs -> defined_by f a = false) -> b = a))
          store store'.

(** A store on which no slot has been assigned yet. *)
Definition unassigned (sym : Symbol) : Prop := forall s, slot_value s sym = -1.


Definition tls_need (sym : Symbol) : bool :=
  has_flag (rels sym) HAS_TLSGD_REL || has_flag (rels sym) HAS_TLSLD_REL.

(** What every pass keeps of a file. *)
Definition same_file (f f' : ObjectFile) : Prop :=
  file_id f' = file_id f /\ symbols f' = symbols f.

Definition kept (st st' : list Symbol * ObjectFile) : Prop :=
  Forall2 same_meta (fst st) (fst st') /\ same_file (snd st) (snd st') /\
  num_reldyn (snd st') = num_reldyn (snd st).

(** After the loop body of [scan_rels_dynamic]: a PLT index for every
    symbol with [HAS_PLT_REL]; GOTPLT and RELPLT indices exactly when the
    symbol has no GOT slot. *)
Definition dynamic_plt_slots (a : Symbol) : Prop :=
  (has_flag (rels a) HAS_PLT_REL = true ->
     plt_idx a <> -1 /\
     (if has_flag (rels a) HAS_GOT_REL
      then gotplt_idx a = -1 /\ relplt_idx a = -1
      else gotplt_idx a <> -1 /\ relplt_idx a <> -1)) /\
  (if has_flag (rels a) HAS_GOT_REL then got_idx a <> -1 else got_idx a = -1).

(** After the loop body of [scan_rels_static]: PLT, GOTPLT and RELPLT
    indices for IFUNC symbols with [HAS_PLT_REL], and for no other. *)
Definition static_plt_slots (a : Symbol) : Prop :=
  if has_flag (rels a) HAS_PLT_REL && (sym_type a =? STT_GNU_IFUNC)
  then plt_idx a <> -1 /\ gotplt_idx a <> -1 /\ relplt_idx a <> -1
  else plt_idx a = -1 /\ gotplt_idx a = -1 /\ relplt_idx a = -1.

Definition no_plt_slots (a : Symbol) : Prop :=
  got_idx a = -1 /\ plt_idx a = -1 /\ gotplt_idx a = -1 /\ relplt_idx a = -1.

Definition no_plt_triple (a : Symbol) : Prop :=
  plt_idx a = -1 /\ gotplt_idx a = -1 /\ relplt_idx a = -1.

(** Loop invariant: every symbol of the file satisfies [Q], those visited
    so far (the set [D]) satisfy [P]. *)
Definition visited (Q P : Symbol -> Prop) (st : list Symbol * ObjectFile)
    (D : nat -> Prop) : Prop :=
  (forall (i : nat) a, fst st !! i = Some a -> defined_by (snd st) a = true -> Q a) /\
  (forall (i : nat) a, D i -> fst st !! i = Some a ->
     defined_by (snd st) a = true -> P a).

(** The fields that decide [dynamic_plt_slots] and [static_plt_slots]. *)
Definition same_plt_fields (a b : Symbol) : Prop :=
  rels b = rels a /\ sym_type b = sym_type a /\ got_idx b = got_idx a /\
  plt_idx b = plt_idx a /\ gotplt_idx b = gotplt_idx a /\ relplt_idx b = relplt_idx a.

(** A dynamic link of two files: the first defines a function that is
    called through the GOT, one called through the PLT and one used both
    ways, and refers to an undefined symbol; the second defines an IFUNC
    and a TLS variable and refers to a symbol of the first. *)
Definition sample_store : list Symbol :=
  [ new_symbol (Some 0%nat) 2 HAS_GOT_REL;
    new_symbol (Some 0%nat) 2 HAS_PLT_REL;
    new_symbol (Some 0%nat) 2 (Z.lor HAS_GOT_REL HAS_PLT_REL);
    new_symbol (Some 1%nat) STT_GNU_IFUNC HAS_PLT_REL;
    new_symbol (Some 1%nat) 6 HAS_GOTTP_REL;
    new_symbol None 2 HAS_PLT_REL ].

Definition sample_files : list ObjectFile :=
  [ new_file 0 [0; 1; 2; 5]%nat; new_file 1 [3; 4; 0]%nat ].

Definition sample_tables : Tables := mkTables 0 0 0 0 (Some 0) [].

End Scan.

(** ** write_got_plt (main.cc, 444-505) *)

Module Writer.
Import Scan.

(** The effects of the pass on the output buffer, by byte position:
    a 64-bit store, a relocation record written by [write_dynamic_rel]
    (type, [r_offset], symbol index, [r_addend]), and a PLT entry written
    by [PltSection::write_entry]. *)
Inductive write :=
| Store64 (pos value : Z)
| StoreRela (pos type r_offset dynsym addend : Z)
| PltEntry (id : nat).

(** [sh_offset] of the synthetic sections ([out::reldyn] only matters in a
    dynamic link). *)
Record Sections := mkSections {
  got_sh_offset : Z;
  gotplt_sh_offset : Z;
  plt_sh_offset : Z;
  relplt_sh_offset : Z;
  reldyn_sh_offset : Z
}.

Section WriteGotPlt.

(** The address getters of [Symbol] are declared in mold.h. *)
Variables get_addr get_got_addr get_gotplt_addr get_plt_addr : Symbol -> Z.
Variable tls_end : Z.
Variable is_static : bool.
Variable out : Sections.

(** The loop body for a symbol the file defines; [reldyn_idx] is the
    running index into the file's part of [.rela.dyn]. *)
Definition write_symbol (file : ObjectFile) (id : nat) (sym : Symbol) (reldyn_idx : Z)
  : outcome (list write * Z) :=
  let got_buf := got_sh_offset out + got_offset file in
  let gotplt_buf := gotplt_sh_offset out + gotplt_offset file in
  let relplt_buf := relplt_sh_offset out + relplt_offset file in
  let '(w1, reldyn_idx) :=
    if negb (got_idx sym =? -1) then
      if is_static then
        ([Store64 (got_buf + got_idx sym * GOT_SIZE) (get_addr sym)], reldyn_idx)
      else
        let reldyn_buf := reldyn_sh_offset out + reldyn_offset file in
        ([StoreRela (reldyn_buf + reldyn_idx * sizeof_Rela) R_X86_64_GLOB_DAT
            (get_got_addr sym) (dynsym_idx sym) 0], reldyn_idx + 1)
    else ([], reldyn_idx) in
  let w2 :=
    if negb (gottp_idx sym =? -1) then
      [Store64 (got_buf + gottp_idx sym * GOT_SIZE) (wrap64 (get_addr sym - tls_end))]
    else [] in
  if negb (gotgd_idx sym =? -1) then Fatal "unimplemented"
  else if negb (gotld_idx sym =? -1) then Fatal "unimplemented"
  else
    let w3 := if negb (plt_idx sym =? -1) then [PltEntry id] else [] in
    let w4 :=
      if negb (relplt_idx sym =? -1) then
        if sym_type sym =? STT_GNU_IFUNC then
          [StoreRela (relplt_buf + relplt_idx sym * sizeof_Rela) R_X86_64_IRELATIVE
             (get_gotplt_addr sym) (dynsym_idx sym) (get_addr sym)]
        else
          [StoreRela (relplt_buf + relplt_idx sym * sizeof_Rela) R_X86_64_JUMP_SLOT
             (get_gotplt_addr sym) (dynsym_idx sym) 0;
           Store64 (gotplt_buf + gotplt_idx sym * sizeof_Sym)
             (wrap64 (get_plt_addr sym + 6))]
      else [] in
    Done (w1 ++ w2 ++ w3 ++ w4, reldyn_idx).

(** The loop over [file->symbols]. *)
Fixpoint write_symbols (store : list Symbol) (file : ObjectFile) (ids : list nat)
    (reldyn_idx : Z) : outcome (list write) :=
  match ids with
  | [] => Done []
  | id :: rest =>
    match store !! id with
    | None => write_symbols store file rest reldyn_idx
    | Some sym =>
      if defined_by file sym then
        match write_symbol file id sym reldyn_idx with
        | Fatal msg => Fatal msg
        | Done (ws, reldyn_idx') =>
          match write_symbols store file rest reldyn_idx' with
          | Fatal msg => Fatal msg
          | Done ws' => Done (ws ++ ws')
          end
        end
      else write_symbols store file rest reldyn_idx
    end
  end.

(** The body of the [parallel_for_each] of [write_got_plt] for one file. *)
Definition write_file (store : list Symbol) (file : ObjectFile) : outcome (list write) :=
  write_symbols store file (symbols file) 0.

End WriteGotPlt.

(** The bytes of a 64-bit store. *)
Definition covers (w : write) (lo hi : Z) : Prop :=
  match w with
  | Store64 pos _ => pos < hi /\ lo < pos + 8
  | _ => False
  end.

(** Two functions that each need only a PLT entry, defined by one file of
    a dynamic link, as [scan_rels] leaves them: the symbols have the PLT,
    GOTPLT and RELPLT indices 0 and 1 and the file has
    [num_plt = num_gotplt = num_relplt = 2]; its base offsets depend on
    what precedes it in the tables.  ([dynsym_idx] is set by
    [DynsymSection::add_symbols], which is in mold.h; it stays -1 here.) *)
Definition two_plt_store : list Symbol :=
  [ mkSymbol (Some 0%nat) 2 HAS_PLT_REL (-1) 0 0 0 (-1) (-1) (-1) (-1);
    mkSymbol (Some 0%nat) 2 HAS_PLT_REL (-1) 1 1 1 (-1) (-1) (-1) (-1) ].

Definition two_plt_file (got_off plt_off gotplt_off relplt_off reldyn_off : Z)
  : ObjectFile :=
  mkFile 0 [0; 1]%nat 0 2 2 2 0 got_off plt_off gotplt_off relplt_off reldyn_off
    [0; 1]%nat.

(** The tables after [scan_rels] when they start empty and [PLT_SIZE] is
    16: [.got.plt] has 16 bytes. *)
Definition two_plt_tables : Tables := mkTables 0 16 32 48 (Some 0) [0; 1]%nat.

End Writer.

(** ** parse_filler and the prefill of the output (main.cc, 684-700, 747-759) *)

Module Filler.

(** The last [-filler] argument: its value and its rendering in
    diagnostics ([Arg::getAsString]). *)
Record Arg := mkArg { getValue : string; getAsString : string }.

Section ParseFiller.

(** [llvm::to_integer(StringRef, int &, 16)]: the parsed number, or
    [None] when the library reports failure. *)
Variable to_integer16 : string -> option Z.

Definition parse_filler (arg : option Arg) : outcome Z :=
  match arg with
  | None => Done (-1)
  | Some a =>
    let val := getValue a in
    if negb (String.prefix "0x" val) then
      Fatal ("invalid argument: " ++ getAsString a)
    else
      match to_integer16 (String.substring 2 (String.length val - 2) val) with
      | None => Fatal ("invalid argument: " ++ getAsString a)
      | Some ret => Done (wrap8 ret)
      end
  end.

End ParseFiller.

(** The byte that [memset(buf, config.filler, filesize)] stores, when
    [config.filler != -1]. *)
Definition prefill_byte (filler : Z) : option Z :=
  if filler =? -1 then None else Some (wrap8 filler).

(** [llvm::to_integer (StringRef, int &, 16)] as the LLVM library reads a
    number (the library is not among the sources): an optional minus
    sign, then at least one hexadecimal digit and nothing else, and a
    value that fits the [int] it is stored in; with an explicit base the
    library does not skip a "0x" prefix. *)
Definition hex_digit (c : ascii) : option Z :=
  let n := Z.of_nat (nat_of_ascii c) in
  if (48 <=? n) && (n <=? 57) then Some (n - 48)
  else if (97 <=? n) && (n <=? 102) then Some (n - 87)
  else if (65 <=? n) && (n <=? 70) then Some (n - 55)
  else None.

Fixpoint hex_digits (acc : Z) (s : string) : option Z :=
  match s with
  | EmptyString => Some acc
  | String c rest =>
    match hex_digit c with
    | Some d => hex_digits (16 * acc + d) rest
    | None => None
    end
  end.

Definition hex_to_integer (s : string) : option Z :=
  let signed :=
    match s with
    | EmptyString => None
    | String "-"%char EmptyString => None
    | String "-"%char rest => option_map Z.opp (hex_digits 0 rest)
    | _ => hex_digits 0 s
    end in
  match signed with
  | Some v => if (- 2 ^ 31 <=? v) && (v <? 2 ^ 31) then Some v else None
  | None => None
  end.

End Filler.

(** ** get_section_rank (main.cc, 548-564) *)

Definition SHF_WRITE : Z := 1.
Definition SHF_EXECINSTR : Z := 4.

Module Rank.

(** A [bool] operand of [<<] or [|] is promoted to [int]. *)
Definition bool_int (b : bool) : Z := if b then 1 else 0.

Definition get_section_rank (h : Shdr) : Z :=
  let alloc := has_flag (sh_flags h) SHF_ALLOC in
  let writable := has_flag (sh_flags h) SHF_WRITE in
  let exec := has_flag (sh_flags h) SHF_EXECINSTR in
  let tls := has_flag (sh_flags h) SHF_TLS in
  let nobits := sh_type h =? SHT_NOBITS in
  Z.lor (Z.lor (Z.lor (Z.lor (Z.shiftl (bool_int alloc) 5)
                             (Z.shiftl (bool_int (negb writable)) 4))
                      (Z.shiftl (bool_int (negb exec)) 3))
               (Z.shiftl (bool_int tls) 2))
        (bool_int (negb nobits)).

End Rank.

(** ** The address side of set_osec_offsets (main.cc, 566-600) *)

Module Address.
Import Layout.

(** No 64-bit addition on [vaddr] wraps during the iteration: the exact
    values of the page rounding, of the alignment and of the advance all
    fit in a [u64]. *)
Definition vaddr_fits (cur : cursor) (chunk : OutputChunk) : bool :=
  let page_exact :=
    if starts_new_ptload chunk then align_up (vaddr cur) PAGE_SIZE else vaddr cur in
  let aligned_exact := align_up page_exact (sh_addralign (shdr chunk)) in
  let end_exact :=
    if negb (is_tbss chunk) then aligned_exact + sh_size (shdr chunk)
    else aligned_exact in
  (page_exact <? 2 ^ 64) && (aligned_exact <? 2 ^ 64) && (end_exact <? 2 ^ 64).

Fixpoint run_vaddr_fits (cur : cursor) (chunks : list OutputChunk) : bool :=
  match chunks with
  | [] => true
  | c :: cs => vaddr_fits cur c && run_vaddr_fits (it_after (iterate cur c)) cs
  end.

(** What one iteration without wrap-around does to [vaddr]. *)
Definition address_step (it : iteration) : Prop :=
  vaddr (it_before it) <= vaddr (it_placed it) /\
  vaddr (it_after it) =
    vaddr (it_placed it) +
    (if is_tbss (it_chunk it) then 0 else sh_size (shdr (it_chunk it))).

End Address.

(** ** clear_padding (main.cc, 533-546) *)

Module Padding.

(** The mapped output file is a list of bytes, [buf !! i] being the byte
    at file offset [i].  [memset (buf + pos, c, len)] with unsigned [pos]
    and [len]: a range that leaves the mapping is undefined behaviour,
    which is [None] here. *)
Definition memset (buf : list Z) (pos c len : Z) : option (list Z) :=
  if pos + len <=? Z.of_nat (length buf) then
    Some (take (Z.to_nat pos) buf ++ replicate (Z.to_nat len) c ++
          drop (Z.to_nat (pos + len)) buf)
  else None.

(** The lambda [zero]: [pos] and the length [next_start - pos] are [u64]. *)
Definition zero (buf : list Z) (chunk : OutputChunk) (next_start : Z)
  : option (list Z) :=
  let pos := sh_offset (shdr chunk) in
  let pos :=
    if negb (is_nobits chunk) then wrap64 (pos + sh_size (shdr chunk)) else pos in
  memset buf pos 0 (wrap64 (next_start - pos)).

(** The body of the [for] loop at index [i]. *)
Definition clear_step (chunks : list OutputChunk) (acc : option (list Z)) (i : nat)
  : option (list Z) :=
  match acc, chunks !! (i - 1)%nat, chunks !! i with
  | Some b, Some prev, Some next => zero b prev (sh_offset (shdr next))
  | _, _, _ => None
  end.

(** [clear_padding]: the loop over [i = 1 .. chunks.size() - 1], then the
    call on [chunks.back()], which is undefined for an empty vector. *)
Definition clear_padding (buf : list Z) (chunks : list OutputChunk) (filesize : Z)
  : option (list Z) :=
  match foldl (clear_step chunks) (Some buf) (seq 1 (length chunks - 1)),
        last chunks with
  | Some b, Some back => zero b back filesize
  | _, _ => None
  end.

(** Offset [k] lies in the file range [sh_offset, sh_offset + sh_size) of
    a chunk that is not SHT_NOBITS. *)
Definition in_payload (k : Z) (chunks : list OutputChunk) : bool :=
  existsb (fun c => negb (is_nobits c) && (sh_offset (shdr c) <=? k) &&
                    (k <? sh_offset (shdr c) + sh_size (shdr c))) chunks.

(** Two chunks with a one-byte gap between them: three bytes at offset 0,
    then two bytes aligned to 4. *)
Definition two_chunks : list OutputChunk :=
  [ mkChunk (mkShdr 1 2 0 0 3 1) false; mkChunk (mkShdr 1 2 0 0 2 4) false ].

End Padding.

(** ** What the scan passes reserve for a symbol (main.cc, 333-403) *)

Module Demand.
Import Scan.

Definition flag_count (sym : Symbol) (flag : Z) : Z :=
  if has_flag (rels sym) flag then 1 else 0.

(** Entries of table [t] that one run of the loop body of
    [scan_rels_static] reserves for a symbol. *)
Definition static_need (t : table) (sym : Symbol) : Z :=
  match t with
  | TGot => flag_count sym HAS_GOT_REL + flag_count sym HAS_GOTTP_REL
  | TPlt | TGotPlt | TRelPlt =>
    if has_flag (rels sym) HAS_PLT_REL && (sym_type sym =? STT_GNU_IFUNC) then 1 else 0
  | TRelDyn => 0
  end.

(** The same for [scan_rels_dynamic], for a symbol that has a GOT slot
    only if it has the GOT bit. *)
Definition dynamic_need (t : table) (sym : Symbol) : Z :=
  match t with
  | TGot =>
    flag_count sym HAS_GOT_REL + 2 * flag_count sym HAS_TLSGD_REL +
    flag_count sym HAS_TLSLD_REL + flag_count sym HAS_GOTTP_REL
  | TPlt => flag_count sym HAS_PLT_REL
  | TGotPlt | TRelPlt =>
    if has_flag (rels sym) HAS_PLT_REL && negb (has_flag (rels sym) HAS_GOT_REL)
    then 1 else 0
  | TRelDyn =>
    flag_count sym HAS_GOT_REL + 2 * flag_count sym HAS_TLSGD_REL +
    flag_count sym HAS_TLSLD_REL
  end.

(** [needs_dynsym] at the end of the dynamic loop body. *)
Definition needs_dynsym (sym : Symbol) : bool :=
  has_flag (rels sym) HAS_GOT_REL || has_flag (rels sym) HAS_PLT_REL ||
  has_flag (rels sym) HAS_TLSGD_REL || has_flag (rels sym) HAS_TLSLD_REL.

(** The symbol behind entry [id] of [file->symbols], when the loops do
    not skip it. *)
Definition visited_symbol (store : list Symbol) (f : ObjectFile) (id : nat)
  : option Symbol :=
  match store !! id with
  | Some sym => if defined_by f sym then Some sym else None
  | None => None
  end.

(** The sum of a per-symbol need over the loop's iterations: an entry
    that occurs twice in [file->symbols] is visited twice. *)
Definition total_need (need : Symbol -> Z) (store : list Symbol) (f : ObjectFile)
    (ids : list nat) : Z :=
  fold_right
    (fun id acc =>
       match visited_symbol store f id with Some sym => need sym | None => 0 end + acc)
    0 ids.

(** The entries of [file->symbols] for which the dynamic loop pushes to
    [file->dynsyms], in loop order. *)
Definition dynsym_ids (store : list Symbol) (f : ObjectFile) (ids : list nat) : list nat :=
  omap (fun id =>
          match visited_symbol store f id with
          | Some sym => if needs_dynsym sym then Some id else None
          | None => None
          end) ids.

(** A symbol has a GOT slot only if it has the GOT bit. *)
Definition got_by_need (sym : Symbol) : Prop :=
  got_idx sym <> -1 -> has_flag (rels sym) HAS_GOT_REL = true.

(** The state of a loop body relative to its start [(sym0, f0)]: the
    counters have grown by [d], [dynsyms] is as it was, the GOT slot is
    [g] and the relocation bits are unchanged. *)
Definition effect (sym0 : Symbol) (f0 : ObjectFile) (d : table -> Z) (g : Z)
    (st : Symbol * ObjectFile) : Prop :=
  (forall t, count t (snd st) = count t f0 + d t) /\
  dynsyms (snd st) = dynsyms f0 /\
  got_idx (fst st) = g /\
  rels (fst st) = rels sym0.

(** 1 for table [t0], 0 for the others. *)
Definition only (t0 t : table) : Z :=
  match t0, t with
  | TGot, TGot | TPlt, TPlt | TGotPlt, TGotPlt | TRelPlt, TRelPlt
  | TRelDyn, TRelDyn => 1
  | _, _ => 0
  end.

End Demand.

(** ** The relocation records among the effects of write_got_plt *)

Module Relocs.
Import Scan Writer.

(** The buffer positions of the records of one relocation type, in the
    order in which they are written. *)
Definition rela_positions (type : Z) (ws : list write) : list Z :=
  omap (fun w =>
          match w with
          | StoreRela pos ty _ _ _ => if ty =? type then Some pos else None
          | _ => None
          end) ws.

(** The slots [first, first + 1, ..., first + n - 1] of a table of
    [Elf64_Rela] records that starts at [buf]. *)
Definition rela_slots (buf first : Z) (n : nat) : list Z :=
  map (fun i => buf + (first + Z.of_nat i) * sizeof_Rela) (seq 0 n).

(** What the writer needs of a scanned symbol in a dynamic link without
    TLSGD and TLSLD: no TLS slot, and a GOT slot exactly for the GOT bit. *)
Definition got_only (sym : Symbol) : Prop :=
  gotgd_idx sym = -1 /\ gotld_idx sym = -1 /\
  (has_flag (rels sym) HAS_GOT_REL = true <-> got_idx sym <> -1).

End Relocs.

(** ** File priorities (main.cc, 829-837) *)

Module Priority.

(** The two fields of an object file that the loops use. *)
Record InputFile := mkInput { is_in_archive : bool; priority : Z }.

Definition set_priority (file : InputFile) (p : Z) : InputFile :=
  mkInput (is_in_archive file) p.

(** One of the two loops, for the files whose [is_in_archive] is
    [archive]: [file->priority = priority++].  The result carries the
    running [priority], a count of files. *)
Fixpoint number_files (archive : bool) (priority : Z) (files : list InputFile)
  : list InputFile * Z :=
  match files with
  | [] => ([], priority)
  | file :: rest =>
    if Bool.eqb (is_in_archive file) archive then
      let r := number_files archive (priority + 1) rest in
      (set_priority file priority :: fst r, snd r)
    else
      let r := number_files archive priority rest in
      (file :: fst r, snd r)
  end.

(** Both loops: the files given on the command line first, then the
    archive members.  The returned [priority] is the one the internal
    file gets later (main.cc, 892). *)
Definition set_priorities (files : list InputFile) : list InputFile * Z :=
  let r := number_files false 1 files in
  number_files true (snd r) (fst r).

(** The number of files of one kind. *)
Definition count_kind (archive : bool) (files : list InputFile) : Z :=
  Z.of_nat (length (List.filter (fun f => Bool.eqb (is_in_archive f) archive) files)).

Definition sample_inputs : list InputFile :=
  [ mkInput false 0; mkInput true 0; mkInput false 0; mkInput true 0; mkInput false 0 ].

End Priority.

(** ** The chunk list of main: sorting, headers, section indices
       (main.cc, 882-952), and the end symbols (main.cc, 655-667) *)

Module Chunks.

(** Modelled from the spec: [OutputChunk::kind] is declared in mold.h;
    main.cc names [HEADER] and [REGULAR], the spec lists also the
    synthetic chunks. *)
Inductive Kind := HEADER | REGULAR | SYNTHETIC.

(** An output chunk with the fields that [main] and
    [fix_synthetic_symbols] use besides the header. *)
Record Chunk := mkEntry {
  body : OutputChunk;
  kind : Kind;
  shndx : Z;
  name : string
}.

Definition is_header (c : Chunk) : bool :=
  match kind c with HEADER => true | _ => false end.

Definition set_shndx (c : Chunk) (v : Z) : Chunk := mkEntry (body c) (kind c) v (name c).

Definition set_body (c : Chunk) (b : OutputChunk) : Chunk :=
  mkEntry b (kind c) (shndx c) (name c).

Definition rank (c : Chunk) : Z := Rank.get_section_rank (shdr (body c)).

(** [std::stable_sort] with the comparator
    [get_section_rank(a) > get_section_rank(b)]: the one arrangement that
    is sorted and keeps the order of chunks of equal rank, computed by
    insertion.  [c] goes in front of the first chunk whose rank is not
    above its own. *)
Fixpoint insert_chunk (c : Chunk) (sorted : list Chunk) : list Chunk :=
  match sorted with
  | [] => [c]
  | x :: rest => if rank c <? rank x then x :: insert_chunk c rest else c :: x :: rest
  end.

Definition stable_sort (chunks : list Chunk) : list Chunk :=
  fold_right insert_chunk [] chunks.

(** The loop that sets the section indices, from the running [shndx]. *)
Fixpoint set_indices (next : Z) (chunks : list Chunk) : list Chunk :=
  match chunks with
  | [] => []
  | c :: rest =>
    if is_header c then c :: set_indices next rest
    else set_shndx c next :: set_indices (next + 1) rest
  end.

(** Ranks never increase along the list. *)
Fixpoint descending (l : list Chunk) : Prop :=
  match l with
  | [] => True
  | x :: rest => Forall (fun y => rank y <= rank x) rest /\ descending rest
  end.

(** The number of chunks that get an index. *)
Definition indexed (l : list Chunk) : Z :=
  Z.of_nat (length (List.filter (fun c => negb (is_header c)) l)).

Definition has_size (c : Chunk) : bool := negb (sh_size (shdr (body c)) =? 0).

(** The chunk list as [main] builds it: the output sections and merged
    sections that are not empty, the synthetic sections that exist, all
    sorted by rank; the ELF header and the program header in front,
    [.interp] after them if there is one, the section header at the end;
    then the section indices. *)
Definition assemble (ehdr phdr shdr : Chunk) (interp : option Chunk)
    (osecs merged : list Chunk) (synthetic : list (option Chunk)) : list Chunk :=
  let chunks := List.filter has_size osecs ++ List.filter has_size merged in
  let chunks := chunks ++ omap id synthetic in
  let chunks := stable_sort chunks in
  let chunks :=
    ehdr :: phdr :: match interp with Some i => [i] | None => [] end ++ chunks in
  set_indices 1 (chunks ++ [shdr]).

End Chunks.

(** ** write_symtab and the sizes of .symtab and .strtab
       (main.cc, 702-734 and 905-915) *)

Module Symtab.

(** The four sizes that [ObjectFile::compute_symtab] leaves in a file. *)
Record FileSizes := mkSizes {
  local_symtab_size : Z;
  local_strtab_size : Z;
  global_symtab_size : Z;
  global_strtab_size : Z
}.

(** The loop [off[i] = off[i - 1] + size of files[i - 1]] on a vector of
    [files.size() + 1] values of type [u64], from [off[0]] on. *)
Fixpoint offsets (first : Z) (sizes : list Z) : list Z :=
  match sizes with
  | [] => [first]
  | s :: rest => first :: offsets (wrap64 (first + s)) rest
  end.

(** What [write_symtab] computes before the files write their parts:
    [sh_info] (a 32-bit field) and the four offset vectors. *)
Record Plan := mkPlan {
  sh_info : Z;
  local_symtab_off : list Z;
  local_strtab_off : list Z;
  global_symtab_off : list Z;
  global_strtab_off : list Z
}.

Definition plan (files : list FileSizes) : Plan :=
  let lsym := offsets sizeof_Sym (map local_symtab_size files) in
  let lstr := offsets 1 (map local_strtab_size files) in
  mkPlan (wrap32 (List.last lsym 0 / sizeof_Sym)) lsym lstr
    (offsets (List.last lsym 0) (map global_symtab_size files))
    (offsets (List.last lstr 0) (map global_strtab_size files)).

(** [write_symtab] up to its two [assert]s; [None] when one of them
    fails.  [symtab_size] and [strtab_size] are [sh_size] of [.symtab]
    and [.strtab]. *)
Definition write_symtab (files : list FileSizes) (symtab_size strtab_size : Z)
  : option Plan :=
  let p := plan files in
  if (List.last (global_symtab_off p) 0 =? symtab_size) &&
     (List.last (global_strtab_off p) 0 =? strtab_size)
  then Some p else None.

(** The loop of [main] that adds the sizes of all files to [sh_size] of
    [.symtab] and [.strtab]. *)
Definition add_sizes (symtab_size strtab_size : Z) (files : list FileSizes) : Z * Z :=
  foldl (fun acc file =>
           (wrap64 (fst acc + wrap64 (local_symtab_size file + global_symtab_size file)),
            wrap64 (snd acc + wrap64 (local_strtab_size file + global_strtab_size file))))
        (symtab_size, strtab_size) files.

Definition sum (l : list Z) : Z := fold_right Z.add 0 l.

Definition sample_sizes : list FileSizes :=
  [ mkSizes 48 10 24 7; mkSizes 0 0 72 30; mkSizes 24 5 0 0 ].

End Symtab.

(** ** The end symbols of fix_synthetic_symbols (main.cc, 602-616, 655-667) *)

Module Synthetic.
Import Chunks.


Definition stop (c : Chunk) : Z * Z :=
  (shndx c, wrap64 (sh_addr (shdr (body c)) + sh_size (shdr (body c)))).

(** The values stored for [_end], [_etext] and [_edata]; [None] while
    the loop has stored nothing. *)
Record Ends := mkEnds {
  end_sym : option (Z * Z);
  etext_sym : option (Z * Z);
  edata_sym : option (Z * Z)
}.

(** The body of the loop: header chunks are skipped, a later chunk
    overwrites what an earlier one stored. *)
Definition mark (m : Ends) (c : Chunk) : Ends :=
  if is_header c then m
  else
    let m :=
      if has_flag (sh_flags (shdr (body c))) SHF_ALLOC
      then mkEnds (Some (stop c)) (etext_sym m) (edata_sym m) else m in
    let m :=
      if has_flag (sh_flags (shdr (body c))) SHF_EXECINSTR
      then mkEnds (end_sym m) (Some (stop c)) (edata_sym m) else m in
    if negb (sh_type (shdr (body c)) =? SHT_NOBITS) &&
       has_flag (sh_flags (shdr (body c))) SHF_ALLOC
    then mkEnds (end_sym m) (etext_sym m) (Some (stop c)) else m.

Definition end_symbols (chunks : list Chunk) : Ends :=
  foldl mark (mkEnds None None None) chunks.

(** [set_osec_offsets] on the chunk list of [main]: the headers of the
    chunks are filled in, the other fields stay. *)
Definition lay_out (chunks : list Chunk) : list Chunk * Z :=
  (zip_with set_body chunks (fst (Layout.set_osec_offsets (map body chunks))),
   snd (Layout.set_osec_offsets (map body chunks))).

(** The chunks that set [_end], and those that set [_edata]. *)
Definition sets_end (c : Chunk) : bool :=
  negb (is_header c) && is_alloc (body c).

Definition sets_edata (c : Chunk) : bool :=
  negb (is_header c) && negb (is_nobits (body c)) && is_alloc (body c).

(** An ELF header, .text, .tdata, .tbss, .data, .bss, .symtab and the
    section header, as [main] orders them. *)
Definition sample_list : list Chunk :=
  [ mkEntry (mkChunk (mkShdr 0 2 0 0 64 8) true) HEADER 0 "";
    mkEntry (mkChunk (mkShdr 1 6 0 0 100 16) true) REGULAR 1 ".text";
    mkEntry (mkChunk (mkShdr 1 1027 0 0 12 8) true) REGULAR 2 ".tdata";
    mkEntry (mkChunk (mkShdr 8 1027 0 0 40 8) false) REGULAR 3 ".tbss";
    mkEntry (mkChunk (mkShdr 1 3 0 0 10 32) false) REGULAR 4 ".data";
    mkEntry (mkChunk (mkShdr 8 3 0 0 5000 8192) false) REGULAR 5 ".bss";
    mkEntry (mkChunk (mkShdr 2 0 0 0 48 8) false) SYNTHETIC 6 ".symtab";
    mkEntry (mkChunk (mkShdr 0 0 0 0 64 8) false) HEADER 0 "" ].

End Synthetic.

(** ** handle_mergeable_strings and write_merged_strings
       (main.cc, 202-244 and 517-531) *)

Module Merge.

(** A pointer to a [MergeableSection]: the position of its file in the
    file vector and its own position in [file->mergeable_sections]. *)
Definition SectionRef : Type := nat * nat.

(** Modelled from the spec: [StringPiece] is declared in mold.h; the spec
    gives it the "data; an atomic reference to the winning
    MergeableSection", null at first, and an "[output_offset] (-1 until
    assigned)". *)
Record StringPiece := mkPiece {
  data : list Z;
  isec : option SectionRef;
  output_offset : Z
}.

(** Modelled from the spec: [MergeableSection] is declared in mold.h; the
    spec gives it a "parent MergedSection; unique pieces; total size;
    offset in parent". [parent] is the position of the [MergedSection]
    among the objects of that class, [pieces] holds pointers to shared
    [StringPiece] objects (indices into the piece store), and [size] and
    [offset] hold what main.cc stores in them. *)
Record MergeableSection := mkSection {
  parent : nat;
  pieces : list nat;
  size : Z;
  offset : Z
}.

(** Modelled from the spec: of the attributes of [ObjectFile], "a
    priority" and the "mergeable section vector". *)
Record ObjectFile := mkFile {
  priority : Z;
  mergeable_sections : list MergeableSection
}.

Definition set_size (sec : MergeableSection) (v : Z) : MergeableSection :=
  mkSection (parent sec) (pieces sec) v (offset sec).

Definition set_offset (sec : MergeableSection) (v : Z) : MergeableSection :=
  mkSection (parent sec) (pieces sec) (size sec) v.

(** [s->file->priority] for a section pointer [s]. *)
Definition file_priority (files : list ObjectFile) (s : SectionRef) : Z :=
  match files !! fst s with
  | Some file => priority file
  | None => 0
  end.

(** What the loop [while (!cur || cur->file->priority >
    isec.file->priority) if (compare_exchange_strong(cur, &isec)) break;]
    of section [me] does to a piece. The loop ends either with an
    exchange that succeeds, which replaces in one step an owner [cur]
    that is null or of higher priority by [me], or with a load or a
    failed exchange that has read an owner that is neither, and then it
    changes nothing: in both cases its whole effect is this function,
    applied to the piece as it is at that moment. *)
Definition claimed (files : list ObjectFile) (me : SectionRef) (piece : StringPiece)
  : StringPiece :=
  let wins :=
    match isec piece with
    | None => true
    | Some cur => file_priority files cur >? file_priority files me
    end in
  if wins then mkPiece (data piece) (Some me) (output_offset piece) else piece.

Definition claim (files : list ObjectFile) (me : SectionRef) (store : list StringPiece)
    (ref : nat) : list StringPiece :=
  match store !! ref with
  | None => store
  | Some piece => <[ref := claimed files me piece]> store
  end.

(** One run of the body of the inner loop: the section and the piece. *)
Definition Event : Type := SectionRef * nat.

(** The events of the task of file [fi], in program order, from section
    [si] on. *)
Fixpoint events_from (fi si : nat) (sections : list MergeableSection) : list Event :=
  match sections with
  | [] => []
  | sec :: rest => map (pair (fi, si)) (pieces sec) ++ events_from fi (S si) rest
  end.

Definition events_of_file (files : list ObjectFile) (fi : nat) : list Event :=
  match files !! fi with
  | Some file => events_from fi 0 (mergeable_sections file)
  | None => []
  end.

(** [tbb::parallel_for_each(files, ...)]: the tasks of the files run
    concurrently, so the events happen in some order [steps] that keeps
    the program order of every task: the events of file [fi] in [steps]
    are those of its task, in its order. *)
Definition of_file (fi : nat) (e : Event) : bool := (fst (fst e) =? fi)%nat.

Definition interleaving (files : list ObjectFile) (steps : list Event) : Prop :=
  Forall (fun e : Event => (fst (fst e) < length files)%nat) steps /\
  Forall (fun fi => List.filter (of_file fi) steps = events_of_file files fi)
         (seq 0 (length files)).

(** The first pass under the schedule [steps]. *)
Definition run_events (files : list ObjectFile) (store : list StringPiece)
    (steps : list Event) : list StringPiece :=
  foldl (fun st (e : Event) => claim files (fst e) st (snd e)) store steps.

(** The schedule of a run on one thread: file after file. *)
Definition sequential (files : list ObjectFile) : list Event :=
  concat (map (events_of_file files) (seq 0 (length files))).

(** The pieces a section refers to. *)
Definition refs_of (files : list ObjectFile) (s : SectionRef) : list nat :=
  match files !! fst s with
  | Some file =>
    match mergeable_sections file !! snd s with
    | Some sec => pieces sec
    | None => []
    end
  | None => []
  end.

(** [m] is at least as good an owner as [s]: a lower priority, or the
    same file and not a later section. *)
Definition beats (files : list ObjectFile) (m s : SectionRef) : Prop :=
  file_priority files m < file_priority files s \/
  (fst m = fst s /\ (snd m <= snd s)%nat).

(** The state of the first pass when the events [done] have happened:
    an unowned piece has not been visited, an owned piece is owned by a
    section that has visited it and beats all the others that have. *)
Definition elected (files : list ObjectFile) (done : list Event)
    (store : list StringPiece) : Prop :=
  forall (p : nat) piece, store !! p = Some piece ->
    match isec piece with
    | None => forall s, ~ In (s, p) done
    | Some m => In (m, p) done /\ forall s, In (s, p) done -> beats files m s
    end.

(** A pass that only changes owners: the store keeps its length, and
    every piece its bytes and its [output_offset]. *)
Definition same_content (store store' : list StringPiece) : Prop :=
  length store' = length store /\
  forall (p : nat) piece', store' !! p = Some piece' ->
    exists piece, store !! p = Some piece /\
      data piece' = data piece /\ output_offset piece' = output_offset piece.

(** Two files do not share a priority. *)
Definition distinct_priorities (files : list ObjectFile) : Prop :=
  forall (i j : nat) fi fj, files !! i = Some fi -> files !! j = Some fj ->
    priority fi = priority fj -> i = j.

(** *** The second pass: offsets of the pieces in their sections *)

Definition set_output_offset (piece : StringPiece) (v : Z) : StringPiece :=
  mkPiece (data piece) (isec piece) v.

Definition same_section (a b : SectionRef) : bool :=
  (fst a =? fst b)%nat && (snd a =? snd b)%nat.

(** [piece.isec == &isec] *)
Definition owned_by (me : SectionRef) (piece : StringPiece) : bool :=
  match isec piece with
  | Some m => same_section m me
  | None => false
  end.

(** [piece.data.size()] *)
Definition data_size (piece : StringPiece) : Z := Z.of_nat (length (data piece)).

(** The body of the loop over [isec.pieces], on the store and the local
    [u32 offset]. *)
Definition place (me : SectionRef) (acc : list StringPiece * Z) (ref : nat)
  : list StringPiece * Z :=
  match fst acc !! ref with
  | Some piece =>
    if owned_by me piece && (output_offset piece =? -1)
    then (<[ref := set_output_offset piece (snd acc)]> (fst acc),
          wrap32 (snd acc + data_size piece))
    else acc
  | None => acc
  end.

(** [u32 offset = 0; for (ref : isec.pieces) ...; isec.size = offset;] *)
Definition size_section (me : SectionRef) (sec : MergeableSection)
    (store : list StringPiece) : MergeableSection * list StringPiece :=
  let r := foldl (place me) (store, 0) (pieces sec) in
  (set_size sec (snd r), fst r).

(** [for (file : files) for (MergeableSection &isec :
    file->mergeable_sections) body]: the sections are visited in
    file-then-section order, and [body] gets the address of each. *)
Section Visit.
Context {State : Type}.
Variable body : SectionRef -> MergeableSection -> State -> MergeableSection * State.

Fixpoint visit_sections (fi si : nat) (sections : list MergeableSection) (st : State)
  : list MergeableSection * State :=
  match sections with
  | [] => ([], st)
  | sec :: rest =>
    let r := body (fi, si) sec st in
    let rs := visit_sections fi (S si) rest (snd r) in
    (fst r :: fst rs, snd rs)
  end.

Fixpoint visit_files (fi : nat) (files : list ObjectFile) (st : State)
  : list ObjectFile * State :=
  match files with
  | [] => ([], st)
  | file :: rest =>
    let r := visit_sections fi 0 (mergeable_sections file) st in
    let rs := visit_files (S fi) rest (snd r) in
    (mkFile (priority file) (fst r) :: fst rs, snd rs)
  end.

(** The same loop over the list of the sections with their addresses. *)
Fixpoint visit_flat (l : list (SectionRef * MergeableSection)) (st : State)
  : list (SectionRef * MergeableSection) * State :=
  match l with
  | [] => ([], st)
  | x :: rest =>
    let r := body (fst x) (snd x) st in
    let rs := visit_flat rest (snd r) in
    ((fst x, fst r) :: fst rs, snd rs)
  end.

End Visit.

(** The sections with their addresses, in file-then-section order. *)
Fixpoint tagged_from (fi si : nat) (sections : list MergeableSection)
  : list (SectionRef * MergeableSection) :=
  match sections with
  | [] => []
  | sec :: rest => ((fi, si), sec) :: tagged_from fi (S si) rest
  end.

Fixpoint tagged_files (fi : nat) (files : list ObjectFile)
  : list (SectionRef * MergeableSection) :=
  match files with
  | [] => []
  | file :: rest => tagged_from fi 0 (mergeable_sections file) ++ tagged_files (S fi) rest
  end.

Definition tagged (files : list ObjectFile) : list (SectionRef * MergeableSection) :=
  tagged_files 0 files.

(** The second pass. The tasks of the files run concurrently; a step of
    [place] reads and writes [output_offset] only in pieces that its
    section owns, so steps of different sections commute, and the tasks
    are run here one after the other. *)
Definition size_files (files : list ObjectFile) (store : list StringPiece)
  : list ObjectFile * list StringPiece :=
  visit_files size_section 0 files store.

(** *** The third pass: offsets of the sections in their parents *)

Definition set_sh_size (h : Shdr) (v : Z) : Shdr :=
  mkShdr (sh_type h) (sh_flags h) (sh_addr h) (sh_offset h) v (sh_addralign h).

(** [isec.offset = osec.shdr.sh_size; osec.shdr.sh_size += isec.size;]
    on the section headers of the [MergedSection] objects; [isec.parent]
    is a reference, so the lookup does not fail. *)
Definition offset_section (me : SectionRef) (sec : MergeableSection) (merged : list Shdr)
  : MergeableSection * list Shdr :=
  match merged !! parent sec with
  | Some h =>
    (set_offset sec (sh_size h),
     <[parent sec := set_sh_size h (wrap64 (sh_size h + size sec))]> merged)
  | None => (sec, merged)
  end.

Definition offset_files (files : list ObjectFile) (merged : list Shdr)
  : list ObjectFile * list Shdr :=
  visit_files offset_section 0 files merged.

(** [handle_mergeable_strings], the three passes (the counter of the
    last lines is a statistic). *)
Definition handle_mergeable_strings (files : list ObjectFile) (store : list StringPiece)
    (merged : list Shdr) (steps : list Event)
  : list ObjectFile * list StringPiece * list Shdr :=
  let store1 := run_events files store steps in
  let sized := size_files files store1 in
  let placed := offset_files (fst sized) merged in
  (fst placed, snd sized, snd placed).

(** *** write_merged_strings (main.cc, 517-531) *)

(** [memcpy (buf + pos, data, size)]: a range that leaves the mapping is
    undefined behaviour, which is [None] here. *)
Definition memcpy (buf : list Z) (pos : Z) (bytes : list Z) : option (list Z) :=
  if (0 <=? pos) && (pos + Z.of_nat (length bytes) <=? Z.of_nat (length buf)) then
    Some (take (Z.to_nat pos) buf ++ bytes ++
          drop (Z.to_nat pos + length bytes) buf)
  else None.

(** The body of the loop over [isec.pieces], with [base] as an offset
    into the buffer. *)
Definition copy_piece (store : list StringPiece) (me : SectionRef) (base : Z)
    (acc : option (list Z)) (ref : nat) : option (list Z) :=
  match acc, store !! ref with
  | Some buf, Some piece =>
    if owned_by me piece then memcpy buf (base + output_offset piece) (data piece)
    else Some buf
  | _, _ => acc
  end.

(** The body of the loop over the sections: [base = buf +
    isec.parent.shdr.sh_offset + isec.offset]. *)
Definition copy_section (store : list StringPiece) (merged : list Shdr)
    (me : SectionRef) (sec : MergeableSection) (acc : option (list Z))
  : MergeableSection * option (list Z) :=
  match merged !! parent sec with
  | Some h =>
    (sec, foldl (copy_piece store me (sh_offset h + offset sec)) acc (pieces sec))
  | None => (sec, acc)
  end.

(** The tasks of the files are run one after the other here. *)
Definition write_merged_strings (buf : list Z) (files : list ObjectFile)
    (store : list StringPiece) (merged : list Shdr) : option (list Z) :=
  snd (visit_files (copy_section store merged) 0 files (Some buf)).

(** The bytes [bytes] stand at offset [pos] of [buf]. *)
Definition holds_at (buf : list Z) (pos : Z) (bytes : list Z) : Prop :=
  0 <= pos /\ take (length bytes) (drop (Z.to_nat pos) buf) = bytes.

(** *** Invariants of the second and third pass *)

(** The input bytes of a list of references. *)
Definition bytes_of (store : list StringPiece) (refs : list nat) : Z :=
  foldr (fun ref acc =>
           match store !! ref with
           | Some piece => data_size piece + acc
           | None => acc
           end) 0 refs.

(** The pieces that [me] owns are unplaced or lie below [off]. *)
Definition below (me : SectionRef) (store : list StringPiece) (off : Z) : Prop :=
  forall (p : nat) piece, store !! p = Some piece -> owned_by me piece = true ->
    output_offset piece = -1 \/
    (0 <= output_offset piece /\ output_offset piece + data_size piece <= off).

(** Two placed pieces of [me] do not overlap. *)
Definition apart (me : SectionRef) (store : list StringPiece) : Prop :=
  forall (p q : nat) a b, p <> q ->
    store !! p = Some a -> store !! q = Some b ->
    owned_by me a = true -> owned_by me b = true ->
    output_offset a <> -1 -> output_offset b <> -1 ->
    output_offset a + data_size a <= output_offset b \/
    output_offset b + data_size b <= output_offset a.

(** The pieces that [me] owns are not placed yet. *)
Definition unplaced (me : SectionRef) (store : list StringPiece) : Prop :=
  forall (p : nat) piece, store !! p = Some piece -> owned_by me piece = true ->
    output_offset piece = -1.

(** Only the offsets of unplaced pieces of the sections in [who] differ. *)
Definition retained (who : SectionRef -> Prop) (store store' : list StringPiece) : Prop :=
  length store' = length store /\
  forall (p : nat) piece', store' !! p = Some piece' ->
    exists piece, store !! p = Some piece /\
      isec piece' = isec piece /\ data piece' = data piece /\
      ((forall m, isec piece = Some m -> who m -> output_offset piece <> -1) ->
       piece' = piece).

(** The section [me] with the references [refs] is laid out in [size]
    bytes: the pieces it owns and refers to are placed inside, apart from
    each other. *)
Definition laid_out (store : list StringPiece) (me : SectionRef) (refs : list nat)
    (size : Z) : Prop :=
  (forall (p : nat) piece, In p refs -> store !! p = Some piece ->
     owned_by me piece = true ->
     0 <= output_offset piece /\ output_offset piece + data_size piece <= size) /\
  (forall (p q : nat) a b, In p refs -> In q refs -> p <> q ->
     store !! p = Some a -> store !! q = Some b ->
     owned_by me a = true -> owned_by me b = true ->
     output_offset a + data_size a <= output_offset b \/
     output_offset b + data_size b <= output_offset a).

(** The sizes of a list of sections, and their input bytes. *)
Definition sizes_sum (l : list (SectionRef * MergeableSection)) : Z :=
  foldr (fun x acc => size (snd x) + acc) 0 l.

Definition total_bytes (store : list StringPiece) (l : list (SectionRef * MergeableSection))
  : Z :=
  foldr (fun x acc => bytes_of store (pieces (snd x)) + acc) 0 l.

(** What the second pass does to a section: [y] is [x] with a size in
    which it is laid out in [store]. *)
Definition sized (store0 store : list StringPiece) (x y : SectionRef * MergeableSection)
  : Prop :=
  fst y = fst x /\
  exists sz, snd y = set_size (snd x) sz /\
    0 <= sz <= bytes_of store0 (pieces (snd x)) /\
    laid_out store (fst x) (pieces (snd x)) sz.

(** What the third pass does to a section: [y] is [x] with an offset
    that puts it between what its parent held in [merged] and what it
    holds in [merged']. *)
Definition offset_in (merged merged' : list Shdr) (x y : SectionRef * MergeableSection)
  : Prop :=
  fst y = fst x /\
  exists h h', merged !! parent (snd x) = Some h /\
    merged' !! parent (snd x) = Some h' /\
    snd y = set_offset (snd x) (offset (snd y)) /\
    sh_size h <= offset (snd y) /\
    offset (snd y) + size (snd x) <= sh_size h'.

(** The copies of [write_merged_strings], as positions and bytes. *)
Definition apply_copy (acc : option (list Z)) (c : Z * list Z) : option (list Z) :=
  match acc with
  | Some buf => memcpy buf (fst c) (snd c)
  | None => None
  end.

Definition copy_of (store : list StringPiece) (me : SectionRef) (base : Z) (ref : nat)
  : option (Z * list Z) :=
  match store !! ref with
  | Some piece =>
    if owned_by me piece then Some (base + output_offset piece, data piece) else None
  | None => None
  end.

Definition copies_of_section (store : list StringPiece) (merged : list Shdr)
    (x : SectionRef * MergeableSection) : list (Z * list Z) :=
  match merged !! parent (snd x) with
  | Some h => omap (copy_of store (fst x) (sh_offset h + offset (snd x))) (pieces (snd x))
  | None => []
  end.

Definition copies (store : list StringPiece) (merged : list Shdr)
    (l : list (SectionRef * MergeableSection)) : list (Z * list Z) :=
  concat (map (copies_of_section store merged) l).

(** The end of a copy. *)
Definition copy_end (c : Z * list Z) : Z := fst c + Z.of_nat (length (snd c)).

(** Three files that all hold the string "hi": the second one has the
    lowest priority. *)
Definition sample_files : list ObjectFile :=
  [ mkFile 2 [ mkSection 0 [0; 1]%nat 0 0 ];
    mkFile 1 [ mkSection 0 [1]%nat 0 0; mkSection 0 [1; 2]%nat 0 0 ];
    mkFile 3 [ mkSection 0 [2; 1; 0]%nat 0 0 ] ].

Definition sample_pieces : list StringPiece :=
  [ mkPiece [97; 0] None (-1); mkPiece [104; 105; 0] None (-1); mkPiece [0] None (-1) ].

(** A schedule in which the three tasks take turns. *)
Definition sample_steps : list Event :=
  [ ((2, 0), 2); ((0, 0), 0); ((1, 0), 1); ((2, 0), 1); ((1, 1), 1);
    ((0, 0), 1); ((2, 0), 0); ((1, 1), 2) ]%nat.

(** One merged section, empty before the passes and placed at file
    offset 4 by the layout, and a buffer of twelve filler bytes. *)
Definition sample_merged : list Shdr := [ mkShdr 1 50 0 0 0 1 ].

Definition sample_out : list Shdr := [ mkShdr 1 50 0 4 6 1 ].

Definition sample_buf : list Z := replicate 12 204.

End Merge.

(** ** The end of the TLS segment (main.cc, 976-980) *)

Module Tls.
Import Chunks.

Definition is_tls (c : Chunk) : bool := has_flag (sh_flags (shdr (body c))) SHF_TLS.

(** The body of the loop on [out::tls_end]; the sum is a [u64]. *)
Definition tls_mark (tls_end : Z) (c : Chunk) : Z :=
  if is_tls c
  then align_to (wrap64 (sh_addr (shdr (body c)) + sh_size (shdr (body c))))
                (sh_addralign (shdr (body c)))
  else tls_end.

(** The loop, from the value [tls_end] that [out::tls_end] has before. *)
Definition find_tls_end (tls_end : Z) (chunks : list Chunk) : Z :=
  foldl tls_mark tls_end chunks.

(** The end of a chunk in memory. *)
Definition end_addr (c : Chunk) : Z :=
  sh_addr (shdr (body c)) + sh_size (shdr (body c)).

End Tls.

(** ** The order of the output sections (main.cc, 868-879) *)

Module SectionOrder.
Import Chunks.

(** [operator<] on names: the bytes are compared as unsigned numbers, and
    a proper prefix is smaller. *)
Fixpoint name_lt (a b : string) : bool :=
  match a, b with
  | EmptyString, EmptyString => false
  | EmptyString, String _ _ => true
  | String _ _, EmptyString => false
  | String x a', String y b' =>
    if (N_of_ascii x <? N_of_ascii y)%N then true
    else if (N_of_ascii y <? N_of_ascii x)%N then false
    else name_lt a' b'
  end.

(** [std::make_tuple(x->name, (u32)x->shdr.sh_type, (u64)x->shdr.sh_flags)] *)
Definition section_key (c : Chunk) : string * Z * Z :=
  (name c, wrap32 (sh_type (shdr (body c))), wrap64 (sh_flags (shdr (body c)))).

(** [operator<] on the tuples: the first component that differs decides. *)
Definition tuple_lt (x y : string * Z * Z) : bool :=
  if name_lt (fst (fst x)) (fst (fst y)) then true
  else if name_lt (fst (fst y)) (fst (fst x)) then false
  else if snd (fst x) <? snd (fst y) then true
  else if snd (fst y) <? snd (fst x) then false
  else snd x <? snd y.

Definition section_compare (x y : Chunk) : bool :=
  tuple_lt (section_key x) (section_key y).

(** [std::stable_sort] with [section_compare], computed by insertion:
    [c], which stood in front of the chunks of [sorted], goes in front of
    the first of them that is not smaller than it. *)
Fixpoint insert_section (c : Chunk) (sorted : list Chunk) : list Chunk :=
  match sorted with
  | [] => [c]
  | x :: rest =>
    if section_compare x c then x :: insert_section c rest else c :: x :: rest
  end.

Definition sort_sections (l : list Chunk) : list Chunk :=
  fold_right insert_section [] l.

(** No chunk is smaller than a chunk in front of it. *)
Fixpoint ascending (l : list Chunk) : Prop :=
  match l with
  | [] => True
  | x :: rest => Forall (fun y => section_compare y x = false) rest /\ ascending rest
  end.

(** Output sections as two runs may create them. *)
Definition created_first : list Chunk :=
  [ mkEntry (mkChunk (mkShdr 1 6 0 0 100 16) false) REGULAR 0 ".text";
    mkEntry (mkChunk (mkShdr 1 3 0 0 10 32) false) REGULAR 0 ".data";
    mkEntry (mkChunk (mkShdr 8 3 0 0 5000 32) false) REGULAR 0 ".bss";
    mkEntry (mkChunk (mkShdr 1 2 0 0 7 1) false) REGULAR 0 ".data" ].

Definition created_second : list Chunk :=
  [ mkEntry (mkChunk (mkShdr 1 2 0 0 7 1) false) REGULAR 0 ".data";
    mkEntry (mkChunk (mkShdr 8 3 0 0 5000 32) false) REGULAR 0 ".bss";
    mkEntry (mkChunk (mkShdr 1 6 0 0 100 16) false) REGULAR 0 ".text";
    mkEntry (mkChunk (mkShdr 1 3 0 0 10 32) false) REGULAR 0 ".data" ].

End SectionOrder.

(** * Properties *)

(** ** Arithmetic of [wrap64] and [align_to] *)

Lemma wrap64_range z : 0 <= wrap64 z < 2 ^ 64.
Proof. unfold wrap64. apply Z.mod_pos_bound. lia. Qed.

Lemma wrap64_small z : 0 <= z < 2 ^ 64 -> wrap64 z = z.
Proof. intros H. unfold wrap64. apply Z.mod_small. exact H. Qed.

Lemma wrap64_mod_page z : wrap64 z mod PAGE_SIZE = z mod PAGE_SIZE.
Proof.
  unfold wrap64, PAGE_SIZE. apply Z.mod_mod_divide.
  exists (2 ^ 52). reflexivity.
Qed.

Lemma align_up_bounds v a : 1 <= a -> v <= align_up v a < v + a.
Proof.
  intros Ha. unfold align_up.
  pose proof (Z.mod_pos_bound (v + a - 1) a ltac:(lia)) as Hm.
  pose proof (Z.div_mod (v + a - 1) a ltac:(lia)) as Hd.
  nia.
Qed.


Lemma is_pow2_spec a : is_pow2 a = true -> exists k, 0 <= k /\ a = 2 ^ k.
Proof.
  unfold is_pow2. intros H. apply andb_prop in H as [Hpos Heq].
  apply Z.ltb_lt in Hpos. apply Z.eqb_eq in Heq.
  exists (Z.log2 a). split; [apply Z.log2_nonneg | exact Heq].
Qed.

Lemma is_pow2_pos a : is_pow2 a = true -> 1 <= a.
Proof.
  unfold is_pow2. intros H. apply andb_prop in H as [Hpos _].
  apply Z.ltb_lt in Hpos. lia.
Qed.

(** Two values congruent modulo the page size stay congruent when both
    are rounded up to the same power of two. *)
Lemma align_up_page_congr f v a :
  is_pow2 a = true ->
  f mod PAGE_SIZE = v mod PAGE_SIZE ->
  align_up f a mod PAGE_SIZE = align_up v a mod PAGE_SIZE.
Proof.
  intros Hp Hfv. destruct (is_pow2_spec _ Hp) as (k & Hk & ->).
  unfold PAGE_SIZE in *.
  destruct (Z_le_gt_dec k 12) as [Hle | Hgt].
  - (* the alignment divides the page size *)
    assert (Hpage : 4096 = 2 ^ k * 2 ^ (12 - k)).
    { rewrite <- Z.pow_add_r by lia. replace (k + (12 - k)) with 12 by lia. reflexivity. }
    assert (Hpos : 0 < 2 ^ k) by (apply Z.pow_pos_nonneg; lia).
    pose proof (Z.div_mod f 4096 ltac:(lia)) as Hf.
    pose proof (Z.div_mod v 4096 ltac:(lia)) as Hv.
    set (t := f / 4096 - v / 4096).
    assert (Hft : f = v + 4096 * t) by (unfold t; lia).
    unfold align_up. rewrite Hft.
    replace (v + 4096 * t + 2 ^ k - 1)
      with (v + 2 ^ k - 1 + (2 ^ (12 - k) * t) * 2 ^ k) by (rewrite Hpage at 1; ring).
    rewrite Z.div_add by lia.
    rewrite Z.mul_add_distr_r.
    replace (2 ^ (12 - k) * t * 2 ^ k) with (t * 4096) by (rewrite Hpage; ring).
    apply Z.mod_add. lia.
  - (* the page size divides the alignment *)
    assert (Ha : 2 ^ k = 2 ^ (k - 12) * 4096).
    { change 4096 with (2 ^ 12). rewrite <- Z.pow_add_r by lia. f_equal. lia. }
    assert (Hz : forall x, ((x + 2 ^ k - 1) / 2 ^ k * 2 ^ k) mod 4096 = 0).
    { intros x. rewrite Ha at 3. rewrite Z.mul_assoc. apply Z.mod_mul. lia. }
    unfold align_up. rewrite !Hz. reflexivity.
Qed.

Lemma align_to_page_congr f v a :
  is_pow2 a = true ->
  f mod PAGE_SIZE = v mod PAGE_SIZE ->
  align_to f a mod PAGE_SIZE = align_to v a mod PAGE_SIZE.
Proof.
  intros Hp Hfv. unfold align_to. rewrite !wrap64_mod_page.
  apply align_up_page_congr; assumption.
Qed.

Lemma align_to_page_zero f : align_to f PAGE_SIZE mod PAGE_SIZE = 0.
Proof.
  unfold align_to. rewrite wrap64_mod_page. unfold align_up.
  apply Z.mod_mul. unfold PAGE_SIZE. lia.
Qed.

(** ** Output-chunk layout *)

Section LayoutFacts.
Import Layout.

Lemma record_header_type p c : sh_type (shdr (record_header p c)) = sh_type (shdr c).
Proof. unfold record_header. destruct (is_alloc c); reflexivity. Qed.

Lemma record_header_flags p c : sh_flags (shdr (record_header p c)) = sh_flags (shdr c).
Proof. unfold record_header. destruct (is_alloc c); reflexivity. Qed.

Lemma record_header_nobits p c : is_nobits (record_header p c) = is_nobits c.
Proof. unfold is_nobits. rewrite record_header_type. reflexivity. Qed.

Lemma record_header_alloc p c : is_alloc (record_header p c) = is_alloc c.
Proof. unfold is_alloc. rewrite record_header_flags. reflexivity. Qed.

Lemma record_header_tbss p c : is_tbss (record_header p c) = is_tbss c.
Proof.
  unfold is_tbss. rewrite record_header_nobits, record_header_flags. reflexivity.
Qed.

Lemma record_header_size p c : sh_size (shdr (record_header p c)) = sh_size (shdr c).
Proof. unfold record_header. simpl. destruct (is_alloc c); reflexivity. Qed.

Lemma record_header_offset p c : sh_offset (shdr (record_header p c)) = fileoff p.
Proof. unfold record_header. simpl. destruct (is_alloc c); reflexivity. Qed.

Lemma record_header_addr p c :
  is_alloc c = true -> sh_addr (shdr (record_header p c)) = vaddr p.
Proof. intros H. unfold record_header. simpl. rewrite H. reflexivity. Qed.

Lemma record_header_addr_kept p c :
  is_alloc c = false -> sh_addr (shdr (record_header p c)) = sh_addr (shdr c).
Proof. intros H. unfold record_header. simpl. rewrite H. reflexivity. Qed.

(** The congruence fix makes [fileoff] and [vaddr] agree modulo the page
    size, and the common alignment keeps them so. *)
Lemma place_congruent cur c :
  is_pow2 (sh_addralign (shdr c)) = true ->
  is_nobits c = false ->
  fileoff (place cur c) mod PAGE_SIZE = vaddr (place cur c) mod PAGE_SIZE.
Proof.
  intros Hp Hnb. unfold place. rewrite Hnb. cbn [negb fileoff vaddr].
  set (v0 := if starts_new_ptload c then _ else _).
  apply align_to_page_congr; [exact Hp |].
  assert (HP : 0 < PAGE_SIZE) by (unfold PAGE_SIZE; lia).
  pose proof (Z.mod_pos_bound v0 PAGE_SIZE HP) as Hv.
  pose proof (Z.mod_pos_bound (fileoff cur) PAGE_SIZE HP) as Hf.
  rewrite Z.gtb_ltb.
  destruct (Z.ltb_spec (fileoff cur mod PAGE_SIZE) (v0 mod PAGE_SIZE)) as [Hlt | Hge].
  - rewrite wrap64_mod_page.
    replace (fileoff cur + (v0 mod PAGE_SIZE - fileoff cur mod PAGE_SIZE))
      with (v0 mod PAGE_SIZE + (fileoff cur / PAGE_SIZE) * PAGE_SIZE)
      by (pose proof (Z.div_mod (fileoff cur) PAGE_SIZE ltac:(lia)); lia).
    rewrite Z.mod_add by lia. apply Z.mod_mod. lia.
  - destruct (Z.ltb_spec (v0 mod PAGE_SIZE) (fileoff cur mod PAGE_SIZE)) as [Hlt | Hge'].
    + rewrite wrap64_mod_page.
      rewrite Z.add_mod, align_to_page_zero, Z.add_0_l by lia.
      rewrite !Z.mod_mod by lia. reflexivity.
    + lia.
Qed.

(** When nothing wraps, one iteration only moves [fileoff] forward. *)
Lemma iterate_forward cur c :
  chunk_sized c ->
  0 <= fileoff cur < 2 ^ 64 ->
  fits cur c = true ->
  fileoff cur <= fileoff (place cur c) /\
  fileoff (advance (place cur c) c) =
    fileoff (place cur c) + (if is_nobits c then 0 else sh_size (shdr c)) /\
  0 <= fileoff (advance (place cur c) c) < 2 ^ 64.
Proof.
  intros [Ha Hs] Hcur Hfit. unfold fits in Hfit. unfold place, advance.
  cbn [fileoff vaddr].
  set (v0 := if starts_new_ptload c then _ else _) in *.
  assert (HP : 0 < PAGE_SIZE) by (unfold PAGE_SIZE; lia).
  pose proof (Z.mod_pos_bound v0 PAGE_SIZE HP) as Hv.
  pose proof (Z.mod_pos_bound (fileoff cur) PAGE_SIZE HP) as Hf.
  pose proof (align_up_bounds (fileoff cur) PAGE_SIZE ltac:(lia)) as Hup.
  apply andb_prop in Hfit as [Hfit H3]. apply andb_prop in Hfit as [H1 H2].
  apply Z.ltb_lt in H1, H2, H3.
  rewrite Z.gtb_ltb in *.
  set (fix_exact := if negb (is_nobits c) then _ else _) in H1, H2, H3.
  set (fix_real := if negb (is_nobits c) then _ else fileoff cur).
  assert (Hfix : fix_real = fix_exact /\ fileoff cur <= fix_exact).
  { unfold fix_real, fix_exact in *. destruct (is_nobits c); cbn [negb] in *; [lia |].
    destruct (Z.ltb_spec (fileoff cur mod PAGE_SIZE) (v0 mod PAGE_SIZE)).
    - split; [apply wrap64_small|]; lia.
    - destruct (Z.ltb_spec (v0 mod PAGE_SIZE) (fileoff cur mod PAGE_SIZE)).
      + unfold align_to. rewrite (wrap64_small (align_up _ _)) by lia.
        split; [apply wrap64_small|]; lia.
      + lia. }
  destruct Hfix as [-> Hge].
  pose proof (align_up_bounds fix_exact (sh_addralign (shdr c)) Ha) as Hal.
  unfold align_to. rewrite (wrap64_small (align_up fix_exact _)) by lia.
  destruct (is_nobits c); cbn [negb] in *.
  - lia.
  - rewrite wrap64_small by lia. lia.
Qed.

Lemma run_chunks_length cur chunks : length (run cur chunks) = length chunks.
Proof. revert cur. induction chunks as [| c cs IH]; intros cur; simpl; [| rewrite IH]; reflexivity. Qed.

Lemma last_cons_shift {A} (x d : A) (l : list A) :
  List.last (x :: l) d = List.last l x.
Proof.
  revert x d. induction l as [| y l IH]; intros x d; [reflexivity |].
  change (List.last (x :: y :: l) d) with (List.last (y :: l) d).
  rewrite (IH y d), (IH y x). reflexivity.
Qed.

Lemma final_cursor_last cur chunks :
  final_cursor cur chunks = List.last (map it_after (run cur chunks)) cur.
Proof.
  revert cur. induction chunks as [| c cs IH]; intros cur; [reflexivity |].
  cbn [final_cursor run map]. rewrite IH, last_cons_shift. reflexivity.
Qed.

Lemma run_forward chunks : forall cur,
  Forall chunk_sized chunks ->
  0 <= fileoff cur < 2 ^ 64 ->
  run_fits cur chunks = true ->
  Forall (fun it => fileoff cur <= fileoff (it_before it) /\ forward_step it)
    (run cur chunks) /\
  (forall (i j : nat) iti itj, (i < j)%nat ->
     run cur chunks !! i = Some iti -> run cur chunks !! j = Some itj ->
     fileoff (it_after iti) <= fileoff (it_before itj)).
Proof.
  induction chunks as [| c cs IH]; intros cur Hs Hcur Hfit.
  { split; [constructor |]. intros i j iti itj _ Hi. destruct i; discriminate Hi. }
  inversion Hs as [| ? ? Hc Hcs]; subst.
  cbn [run_fits] in Hfit. apply andb_prop in Hfit as [Hf Hrest].
  destruct (iterate_forward cur c Hc Hcur Hf) as (Hpl & Hadv & Hrange).
  destruct (IH _ Hcs Hrange Hrest) as [IHall IHpair].
  cbn [iterate it_after] in IHall, IHpair.
  assert (Hstep : forward_step (iterate cur c)).
  { unfold forward_step. cbn [iterate it_before it_placed it_chunk it_after].
    rewrite record_header_nobits, record_header_size, record_header_offset.
    destruct Hc as [_ Hsz]. auto. }
  cbn [run iterate it_after]. split.
  - constructor; [split; [cbn; lia | exact Hstep] |].
    eapply List.Forall_impl; [| exact IHall]. intros it [Hit Hst]. split; [| exact Hst].
    destruct Hc as [_ Hsz]. destruct (is_nobits c); lia.
  - intros i j iti itj Hij Hi Hj. destruct j as [| j]; [lia |].
    cbn in Hj. destruct i as [| i].
    + cbn in Hi. injection Hi as <-. cbn [it_after].
      rewrite List.Forall_forall in IHall.
      apply IHall. apply list_elem_of_In. eapply list_elem_of_lookup_2. exact Hj.
    + cbn in Hi. apply (IHpair i j); [lia | assumption | assumption].
Qed.

End LayoutFacts.

(** C1. In [set_osec_offsets], for every chunk of the list (alignments
    being powers of two): a chunk that is not SHT_NOBITS and is SHF_ALLOC
    gets [sh_offset] and [sh_addr] congruent modulo 4096; after a chunk
    that is not SHT_NOBITS the running file offset is [sh_offset + sh_size];
    the running address moves on by [sh_size] except for a tbss chunk,
    where it stays; and the returned file size is the running file offset
    after the last chunk. *)
Theorem set_osec_offsets_placement (chunks : list OutputChunk) :
  Forall (fun c => is_pow2 (sh_addralign (shdr c)) = true) chunks ->
  let its := Layout.run Layout.start_cursor chunks in
  fst (Layout.set_osec_offsets chunks) = map Layout.it_chunk its /\
  Forall (fun it =>
    let c := Layout.it_chunk it in
    sh_offset (shdr c) = Layout.fileoff (Layout.it_placed it) /\
    (is_alloc c = true -> sh_addr (shdr c) = Layout.vaddr (Layout.it_placed it)) /\
    (is_nobits c = false -> is_alloc c = true ->
       sh_offset (shdr c) mod 4096 = sh_addr (shdr c) mod 4096) /\
    (is_nobits c = false ->
       Layout.fileoff (Layout.it_after it) = wrap64 (sh_offset (shdr c) + sh_size (shdr c))) /\
    (is_tbss c = false ->
       Layout.vaddr (Layout.it_after it) =
       wrap64 (Layout.vaddr (Layout.it_placed it) + sh_size (shdr c))) /\
    (is_tbss c = true ->
       Layout.vaddr (Layout.it_after it) = Layout.vaddr (Layout.it_placed it))) its /\
  snd (Layout.set_osec_offsets chunks) =
    Layout.fileoff (List.last (map Layout.it_after its) Layout.start_cursor).
Proof.
  intros Hp its. split; [reflexivity |]. split.
  - subst its. generalize Layout.start_cursor as cur.
    induction Hp as [| c cs Hc Hcs IH]; intros cur; [constructor |].
    cbn [Layout.run]. constructor; [| apply IH].
    cbn [Layout.iterate Layout.it_chunk Layout.it_placed Layout.it_after].
    rewrite record_header_nobits, record_header_alloc, record_header_tbss,
      record_header_size, record_header_offset.
    split; [reflexivity |]. split; [apply record_header_addr |].
    split; [| split; [| split]].
    + intros Hnb Hal. rewrite (record_header_addr _ _ Hal).
      apply (place_congruent cur c Hc Hnb).
    + intros Hnb. unfold Layout.advance. rewrite Hnb. reflexivity.
    + intros Htb. unfold Layout.advance. rewrite Htb. reflexivity.
    + intros Htb. unfold Layout.advance. rewrite Htb. reflexivity.
  - unfold Layout.set_osec_offsets. cbn [snd]. rewrite final_cursor_last. reflexivity.
Qed.

Lemma set_osec_offsets_placement_witness :
  Forall (fun c => is_pow2 (sh_addralign (shdr c)) = true) Layout.sample_chunks /\
  snd (Layout.set_osec_offsets Layout.sample_chunks) =
    Layout.fileoff
      (List.last (map Layout.it_after (Layout.run Layout.start_cursor Layout.sample_chunks))
         Layout.start_cursor).
Proof.
  assert (H : Forall (fun c => is_pow2 (sh_addralign (shdr c)) = true) Layout.sample_chunks)
    by (repeat constructor).
  split; [exact H |].
  exact (proj2 (proj2 (set_osec_offsets_placement Layout.sample_chunks H))).
Defined.

(** C10. In [set_osec_offsets], when no 64-bit addition wraps and no
    alignment is zero, the running file offset never decreases: within an
    iteration it moves from its value before to the recorded [sh_offset]
    and on to its value after, and the value after an iteration is at
    most the value before any later one.  So for two chunks that are not
    SHT_NOBITS, the earlier one's file range [sh_offset, sh_offset +
    sh_size) ends at or before the later one's [sh_offset]. *)
Theorem set_osec_offsets_fileoff_monotone (chunks : list OutputChunk) :
  Forall Layout.chunk_sized chunks ->
  Layout.run_fits Layout.start_cursor chunks = true ->
  let its := Layout.run Layout.start_cursor chunks in
  Forall (fun it =>
    Layout.fileoff (Layout.it_before it) <= sh_offset (shdr (Layout.it_chunk it)) /\
    sh_offset (shdr (Layout.it_chunk it)) <= Layout.fileoff (Layout.it_after it)) its /\
  (forall (i j : nat) iti itj, (i < j)%nat ->
     its !! i = Some iti -> its !! j = Some itj ->
     Layout.fileoff (Layout.it_after iti) <= Layout.fileoff (Layout.it_before itj)) /\
  (forall (i j : nat) ci cj, (i < j)%nat ->
     fst (Layout.set_osec_offsets chunks) !! i = Some ci ->
     fst (Layout.set_osec_offsets chunks) !! j = Some cj ->
     is_nobits ci = false -> is_nobits cj = false ->
     sh_offset (shdr ci) + sh_size (shdr ci) <= sh_offset (shdr cj)).
Proof.
  intros Hs Hfit its.
  destruct (run_forward chunks Layout.start_cursor Hs ltac:(cbn; lia) Hfit)
    as [Hall Hpair].
  fold its in Hall, Hpair.
  assert (Hstep : forall it, In it its -> Layout.forward_step it).
  { rewrite List.Forall_forall in Hall. intros it Hin. apply (Hall it Hin). }
  split; [| split].
  - apply List.Forall_forall. intros it Hin.
    destruct (Hstep it Hin) as (H1 & H2 & H3 & H4).
    rewrite H2, H3. destruct (is_nobits (Layout.it_chunk it)); lia.
  - exact Hpair.
  - intros i j ci cj Hij Hi Hj Hni Hnj. cbn [Layout.set_osec_offsets fst] in Hi, Hj.
    fold its in Hi, Hj.
    rewrite list_lookup_fmap in Hi, Hj.
    destruct (its !! i) as [iti |] eqn:Ei; [| discriminate Hi].
    destruct (its !! j) as [itj |] eqn:Ej; [| discriminate Hj].
    cbn in Hi, Hj. injection Hi as <-. injection Hj as <-.
    pose proof (Hpair i j iti itj Hij Ei Ej) as Hle.
    assert (Hini : In iti its)
      by (apply list_elem_of_In; eapply list_elem_of_lookup_2; exact Ei).
    assert (Hinj : In itj its)
      by (apply list_elem_of_In; eapply list_elem_of_lookup_2; exact Ej).
    destruct (Hstep iti Hini) as (A1 & A2 & A3 & A4).
    destruct (Hstep itj Hinj) as (B1 & B2 & B3 & B4).
    rewrite Hni in A3. lia.
Qed.

Lemma set_osec_offsets_fileoff_monotone_witness :
  Forall Layout.chunk_sized Layout.sample_chunks /\
  Layout.run_fits Layout.start_cursor Layout.sample_chunks = true /\
  forall (i j : nat) ci cj, (i < j)%nat ->
    fst (Layout.set_osec_offsets Layout.sample_chunks) !! i = Some ci ->
    fst (Layout.set_osec_offsets Layout.sample_chunks) !! j = Some cj ->
    is_nobits ci = false -> is_nobits cj = false ->
    sh_offset (shdr ci) + sh_size (shdr ci) <= sh_offset (shdr cj).
Proof.
  assert (H : Forall Layout.chunk_sized Layout.sample_chunks)
    by (repeat constructor; cbn; lia).
  assert (F : Layout.run_fits Layout.start_cursor Layout.sample_chunks = true)
    by (vm_compute; reflexivity).
  split; [exact H |]. split; [exact F |].
  exact (proj2 (proj2 (set_osec_offsets_fileoff_monotone Layout.sample_chunks H F))).
Defined.

(** ** The [split] helper *)

Lemma split_more_fuel {T} (fuel : nat) : forall (arr : list T) unit vec,
  split fuel arr unit = Some vec -> split (S fuel) arr unit = Some vec.
Proof.
  induction fuel as [| fuel IH]; intros arr unit vec H; [discriminate H |].
  cbn [split] in H. change (split (S (S fuel)) arr unit) with
    (if Z.of_nat (length arr) >=? to_size_t unit then
       match split (S fuel) (drop (Z.to_nat (to_size_t unit)) arr) unit with
       | Some vec => Some (take (Z.to_nat (to_size_t unit)) arr :: vec)
       | None => None
       end
     else Some (match arr with [] => [] | _ :: _ => [arr] end)).
  destruct (Z.of_nat (length arr) >=? to_size_t unit); [| exact H].
  destruct (split fuel _ unit) as [v |] eqn:E; [| discriminate H].
  rewrite (IH _ _ _ E). exact H.
Qed.

(** With a non-zero unit the loop ends within [length arr + 1] tests and
    the slices concatenate to the input. *)
Lemma split_total {T} (unit : Z) :
  to_size_t unit <> 0 ->
  forall (fuel : nat) (arr : list T), (length arr < fuel)%nat ->
  exists vec, split fuel arr unit = Some vec /\ concat vec = arr.
Proof.
  intros Hu. pose proof (wrap64_range unit) as Hr. fold (to_size_t unit) in Hr.
  induction fuel as [| fuel IH]; intros arr Hlen; [lia |].
  cbn [split].
  destruct (Z.geb_spec (Z.of_nat (length arr)) (to_size_t unit)) as [Hge | Hlt].
  - destruct (IH (drop (Z.to_nat (to_size_t unit)) arr)) as (vec & -> & Hcat).
    { rewrite length_drop. lia. }
    eexists. split; [reflexivity |]. cbn [concat]. rewrite Hcat.
    apply take_drop.
  - destruct arr; eexists; (split; [reflexivity |]); cbn; [reflexivity |].
    rewrite app_nil_r. reflexivity.
Qed.

(** With unit zero the loop test is always true and the array never
    shrinks: no amount of fuel is enough. *)
Lemma split_zero_diverges {T} (fuel : nat) (arr : list T) : split fuel arr 0 = None.
Proof.
  revert arr. induction fuel as [| fuel IH]; intros arr; [reflexivity |].
  cbn [split]. change (to_size_t 0) with 0. cbn [Z.to_nat drop].
  destruct (Z.geb_spec (Z.of_nat (length arr)) 0) as [_ | Hlt]; [| lia].
  rewrite IH. reflexivity.
Qed.

Lemma split_concat {T} (fuel : nat) : forall (arr : list T) unit vec,
  split fuel arr unit = Some vec -> concat vec = arr.
Proof.
  induction fuel as [| fuel IH]; intros arr unit vec H; [discriminate H |].
  cbn [split] in H.
  destruct (Z.of_nat (length arr) >=? to_size_t unit).
  - destruct (split fuel _ unit) as [v |] eqn:E; [| discriminate H].
    injection H as <-. cbn [concat]. rewrite (IH _ _ _ E). apply take_drop.
  - injection H as <-. destruct arr; cbn; [reflexivity |].
    rewrite app_nil_r. reflexivity.
Qed.

(** ** Section binning *)

Section BinningFacts.
Import Binning.

Lemma push_sections_lookup (slots : list (option InputChunk)) :
  forall (group : list (list InputChunk)) (k : nat),
  foldl push_section group slots !! k =
  (fun v => v ++ filter (fun isec => output_section isec = k) (omap id slots))
    <$> group !! k.
Proof.
  induction slots as [| slot slots IH]; intros group k.
  - cbn. destruct (group !! k); cbn; [rewrite app_nil_r |]; reflexivity.
  - cbn [foldl]. rewrite IH. destruct slot as [isec |]; cbn [push_section].
    + change (omap id (Some isec :: slots)) with (isec :: omap id slots).
      rewrite list_lookup_alter, filter_cons.
      destruct (decide (output_section isec = k)) as [Heq | Hne].
      * rewrite Heq. destruct (group !! k); cbn; [| reflexivity].
        rewrite <- app_assoc. reflexivity.
      * reflexivity.
    + reflexivity.
Qed.

Lemma bin_files_lookup (shard : list ObjectFile) :
  forall (group : list (list InputChunk)) (k : nat),
  foldl (fun g file => foldl push_section g (sections file)) group shard !! k =
  (fun v => v ++ shard_contribution k shard) <$> group !! k.
Proof.
  induction shard as [| file shard IH]; intros group k.
  - cbn. destruct (group !! k); cbn; [rewrite app_nil_r |]; reflexivity.
  - cbn [foldl]. rewrite IH, push_sections_lookup.
    destruct (group !! k); cbn; [| reflexivity].
    unfold file_contribution. rewrite <- app_assoc. reflexivity.
Qed.

Lemma bin_shard_lookup (num_osec : nat) (shard : list ObjectFile) (k : nat) :
  (k < num_osec)%nat ->
  bin_shard num_osec shard !! k = Some (shard_contribution k shard).
Proof.
  intros Hk. unfold bin_shard. rewrite bin_files_lookup.
  rewrite lookup_replicate_2 by exact Hk. reflexivity.
Qed.

Lemma append_groups_members (num_osec j : nat) (slices : list (list ObjectFile)) :
  (j < num_osec)%nat ->
  forall secs,
  foldl (fun secs group => secs ++ default [] (group !! j)) secs
        (map (bin_shard num_osec) slices) =
  secs ++ flat_map (shard_contribution j) slices.
Proof.
  intros Hj. induction slices as [| shard slices IH]; intros secs.
  - cbn. rewrite app_nil_r. reflexivity.
  - cbn [map foldl flat_map]. rewrite IH, bin_shard_lookup by exact Hj.
    cbn [default]. rewrite <- app_assoc. reflexivity.
Qed.

(** Shard-major order is file order: the shards are consecutive runs of
    the file list. *)
Lemma shard_major_file_order (j : nat) (slices : list (list ObjectFile)) :
  flat_map (shard_contribution j) slices = shard_contribution j (concat slices).
Proof.
  induction slices as [| shard slices IH]; [reflexivity |].
  cbn [flat_map concat]. rewrite IH. unfold shard_contribution.
  rewrite flat_map_app. reflexivity.
Qed.

(** What [bin_sections] leaves in every member list. *)
Lemma bin_sections_members fuel files instances binned :
  bin_sections fuel files instances = Some binned ->
  exists slices,
    split fuel files (bin_unit files) = Some slices /\
    concat slices = files /\
    forall (j : nat) osec, instances !! j = Some osec ->
      binned !! j =
      Some (mkOsec (chunk osec) (members osec ++ flat_map (shard_contribution j) slices)).
Proof.
  unfold bin_sections. intros H.
  destruct (split fuel files (bin_unit files)) as [slices |] eqn:E; [| discriminate H].
  injection H as <-. exists slices. split; [reflexivity |].
  split; [apply (split_concat _ _ _ _ E) |].
  intros j osec Hj. rewrite list_lookup_imap, Hj. cbn. unfold append_groups.
  rewrite append_groups_members; [reflexivity |].
  apply lookup_lt_Some in Hj. exact Hj.
Qed.

End BinningFacts.

(** ** Intra-section offsets *)

Section IsecFacts.
Import Binning.










Lemma max_align_ge l : 1 <= max_align l.
Proof. induction l as [| m l IH]; cbn; [lia |]. fold (max_align l). lia. Qed.

Lemma max_align_app l1 l2 : max_align (l1 ++ l2) = Z.max (max_align l1) (max_align l2).
Proof.
  induction l1 as [| m l1 IH]; cbn.
  - fold (max_align l2). pose proof (max_align_ge l2). lia.
  - fold (max_align (l1 ++ l2)) (max_align l1). rewrite IH. lia.
Qed.









Lemma shift_slice_headers (P : Shdr -> Prop) s l :
  Forall (fun m => P (isec_shdr m)) l ->
  Forall (fun m => P (isec_shdr m)) (shift_slice s l).
Proof. induction 1; cbn; constructor; assumption. Qed.





















End IsecFacts.





(** ** Termination of [split] and of binning *)

Lemma bin_unit_exact files :
  (Z.of_nat (length files) + 127) / 128 < 2 ^ 31 ->
  Binning.bin_unit files = (Z.of_nat (length files) + 127) / 128.
Proof.
  intros Hb. unfold Binning.bin_unit, to_int.
  assert (Hlen : 0 <= Z.of_nat (length files) + 127 < 2 ^ 64).
  { split; [lia |].
    pose proof (Z.mul_div_le (Z.of_nat (length files) + 127) 128 ltac:(lia)).
    pose proof (Z.mod_pos_bound (Z.of_nat (length files) + 127) 128 ltac:(lia)).
    pose proof (Z.div_mod (Z.of_nat (length files) + 127) 128 ltac:(lia)). lia. }
  rewrite (wrap64_small _ Hlen).
  assert (0 <= (Z.of_nat (length files) + 127) / 128) by (apply Z.div_pos; lia).
  rewrite Z.mod_small by lia. lia.
Qed.

(** C8, as the code has it.  [split] ends and returns slices that
    concatenate to the input exactly when [unit] is not zero: for any
    non-zero [int], [length arr + 1] loop tests are enough (a negative
    unit is a huge [size_t] in the loop test); with unit 0 the loop never
    ends.  An empty file list makes [bin_sections] compute unit 0 and not
    return; a non-empty one gives a unit of at least 1 and a result. *)
Theorem split_terminates_iff_unit_nonzero :
  (forall (T : Type) (unit : Z) (arr : list T) (fuel : nat),
     - 2 ^ 31 <= unit < 2 ^ 31 -> unit <> 0 -> (length arr < fuel)%nat ->
     exists vec, split fuel arr unit = Some vec /\ concat vec = arr) /\
  (forall (T : Type) (arr : list T) (fuel : nat), split fuel arr 0 = None) /\
  (Binning.bin_unit [] = 0 /\
   forall fuel instances, Binning.bin_sections fuel [] instances = None) /\
  (forall files instances,
     files <> [] -> (Z.of_nat (length files) + 127) / 128 < 2 ^ 31 ->
     1 <= Binning.bin_unit files /\
     exists binned,
       Binning.bin_sections (S (length files)) files instances = Some binned).
Proof.
  split; [| split; [| split]].
  - intros T unit arr fuel Hr Hu Hlen. apply split_total; [| exact Hlen].
    unfold to_size_t, wrap64. intros Hz.
    apply Z.mod_divide in Hz; [| lia]. destruct Hz as [q Hq]. lia.
  - intros T arr fuel. apply split_zero_diverges.
  - split; [reflexivity |]. intros fuel instances. unfold Binning.bin_sections.
    change (Binning.bin_unit []) with 0. rewrite split_zero_diverges. reflexivity.
  - intros files instances Hne Hb. rewrite (bin_unit_exact files Hb).
    assert (Hunit : 1 <= (Z.of_nat (length files) + 127) / 128).
    { destruct files as [| f files]; [congruence |]. cbn [length].
      apply Z.div_le_lower_bound; lia. }
    split; [exact Hunit |].
    assert (Hu : to_size_t ((Z.of_nat (length files) + 127) / 128) <> 0).
    { unfold to_size_t. rewrite wrap64_small by lia. lia. }
    destruct (split_total _ Hu (S (length files)) files ltac:(lia)) as (vec & Hv & _).
    unfold Binning.bin_sections. rewrite (bin_unit_exact files Hb), Hv. eexists. reflexivity.
Qed.

Lemma split_terminates_iff_unit_nonzero_witness :
  (exists vec, split 4 [10; 20; 30] 2 = Some vec /\ concat vec = [10; 20; 30]) /\
  (exists vec, split 4 [10; 20; 30] (-1) = Some vec /\ concat vec = [10; 20; 30]) /\
  (exists binned,
     Binning.bin_sections 3 Binning.sample_files Binning.sample_instances = Some binned).
Proof.
  destruct split_terminates_iff_unit_nonzero as (Hnz & _ & _ & Hbin).
  split; [| split].
  - apply (Hnz Z 2 [10; 20; 30] 4%nat); [lia | lia | cbn; lia].
  - apply (Hnz Z (-1) [10; 20; 30] 4%nat); [lia | lia | cbn; lia].
  - apply (Hbin Binning.sample_files Binning.sample_instances); [discriminate | reflexivity].
Defined.

(** C8 as the spec words it ("only when unit >= 1") does not hold for a
    negative unit: [split] on a three-element input with unit -1 ends at
    the first loop test and returns the input as one slice. *)
Lemma split_negative_unit_terminates :
  ~ (forall (fuel : nat) (arr : list Z) (unit : Z) (vec : list (list Z)),
       split fuel arr unit = Some vec -> concat vec = arr -> 1 <= unit).
Proof.
  intros H.
  specialize (H 1%nat [10; 20; 30] (-1) [[10; 20; 30]] eq_refl eq_refl). lia.
Qed.

(** ** Slot assignment and synthetic-table sizing *)

Section ScanFacts.
Import Scan.
Lemma slot_value_set_same s sym v : slot_value s (set_slot s sym v) = v.
Proof. destruct s; reflexivity. Qed.

Lemma slot_value_set_other s s' sym v :
  s <> s' -> slot_value s' (set_slot s sym v) = slot_value s' sym.
Proof. destruct s, s'; intros H; try reflexivity; congruence. Qed.

Lemma set_slot_meta s sym v : same_meta sym (set_slot s sym v).
Proof. destruct s; repeat split. Qed.

Lemma count_bump_same t n f : count t (bump t n f) = count t f + n.
Proof. destruct t; reflexivity. Qed.

Lemma count_bump_other t t' n f : t <> t' -> count t' (bump t n f) = count t' f.
Proof. destruct t, t'; intros H; try reflexivity; congruence. Qed.

Lemma count_bump_le t t' n f : 0 <= n -> count t' f <= count t' (bump t n f).
Proof.
  intros Hn. destruct (decide (t = t')) as [-> | Hne].
  - rewrite count_bump_same. lia.
  - rewrite count_bump_other by exact Hne. lia.
Qed.


Lemma bump_grows t n f0 f : 0 <= n -> grows f0 f -> grows f0 (bump t n f).
Proof.
  intros Hn (Hc & Hid & Hsy & Hoff). split; [| split; [| split]].
  - intros t'. pose proof (count_bump_le t t' n f Hn). specialize (Hc t'). lia.
  - rewrite <- Hid. destruct t; reflexivity.
  - rewrite <- Hsy. destruct t; reflexivity.
  - intros t'. rewrite <- Hoff. destruct t, t'; reflexivity.
Qed.

Lemma push_dynsym_grows id f0 f : grows f0 f -> grows f0 (push_dynsym id f).
Proof.
  intros (Hc & Hid & Hsy & Hoff). split; [| split; [| split]].
  - intros t. specialize (Hc t). destruct t; exact Hc.
  - exact Hid.
  - exact Hsy.
  - intros t. rewrite <- Hoff. destruct t; reflexivity.
Qed.

Lemma grows_refl f : grows f f.
Proof. split; [intros; lia | repeat split]. Qed.

Lemma same_meta_refl a : same_meta a a.
Proof. repeat split. Qed.

Lemma same_meta_trans a b c : same_meta a b -> same_meta b c -> same_meta a c.
Proof.
  intros (A1 & A2 & A3 & A4 & A5) (B1 & B2 & B3 & B4 & B5).
  repeat split; congruence.
Qed.

(** [sym->X_idx = file->num_T; file->num_T += n] keeps the invariants. *)
Lemma since_assign sym0 f0 s n st :
  1 <= n -> since sym0 f0 st -> since sym0 f0 (assign s n st).
Proof.
  intros Hn ((Hb & Hd) & Hg & Hm & Hf). unfold assign.
  split; [split |]; [| | split; [| split]]; cbn [fst snd].
  - intros s'. destruct (decide (s = s')) as [<- | Hne].
    + rewrite slot_value_set_same, count_bump_same. specialize (Hb s). lia.
    + rewrite slot_value_set_other by exact Hne.
      pose proof (count_bump_le (slot_table s) (slot_table s') n (snd st) ltac:(lia)).
      specialize (Hb s'). lia.
  - intros s1 s2 Hne Ht Hv.
    destruct (decide (s = s1)) as [<- | H1]; destruct (decide (s = s2)) as [<- | H2];
      try congruence.
    + rewrite slot_value_set_same in *. rewrite slot_value_set_other in Hv by exact H2.
      specialize (Hb s2). rewrite <- Ht in Hb. lia.
    + rewrite slot_value_set_same in *. rewrite slot_value_set_other in * by exact H1.
      specialize (Hb s1). rewrite Ht in Hb. lia.
    + rewrite !slot_value_set_other in * by assumption. apply (Hd s1 s2); assumption.
  - apply bump_grows; [lia | exact Hg].
  - eapply same_meta_trans; [exact Hm | apply set_slot_meta].
  - intros s'. destruct (decide (s = s')) as [<- | Hne].
    + right. rewrite slot_value_set_same. destruct Hg as (Hc & _). apply Hc.
    + rewrite slot_value_set_other by exact Hne. apply Hf.
Qed.

Lemma since_file sym0 f0 sym f f' :
  (forall t, count t f <= count t f') -> grows f0 f' ->
  since sym0 f0 (sym, f) -> since sym0 f0 (sym, f').
Proof.
  intros Hc Hg' ((Hb & Hd) & Hg & Hm & Hf).
  split; [split |]; [| | split; [| split]]; cbn [fst snd] in *.
  - intros s. specialize (Hb s). specialize (Hc (slot_table s)). lia.
  - exact Hd.
  - exact Hg'.
  - exact Hm.
  - exact Hf.
Qed.

Lemma since_bump_reldyn sym0 f0 n st :
  0 <= n -> since sym0 f0 st -> since sym0 f0 (fst st, bump_reldyn n (snd st)).
Proof.
  intros Hn H. destruct st as [sym f]. cbn [fst snd].
  apply (since_file sym0 f0 sym f); [| | exact H].
  - intros t. apply count_bump_le. exact Hn.
  - apply bump_grows; [exact Hn | apply H].
Qed.

Lemma since_push_dynsym sym0 f0 id st :
  since sym0 f0 st -> since sym0 f0 (fst st, push_dynsym id (snd st)).
Proof.
  intros H. destruct st as [sym f]. cbn [fst snd].
  apply (since_file sym0 f0 sym f); [| | exact H].
  - intros t. destruct t; cbn; lia.
  - apply push_dynsym_grows. apply H.
Qed.

Lemma since_start sym f : pair_inv (sym, f) -> since sym f (sym, f).
Proof.
  intros H. split; [exact H |]. split; [apply grows_refl |].
  split; [apply same_meta_refl |]. intros s. left. reflexivity.
Qed.

Lemma static_body_since sym f st' :
  pair_inv (sym, f) -> static_body (sym, f) = Done st' -> since sym f st'.
Proof.
  intros Hinv. pose proof (since_start sym f Hinv) as H0.
  unfold static_body. cbn [fst snd].
  set (st1 := if has_flag (rels sym) HAS_GOT_REL then _ else _).
  assert (H1 : since sym f st1).
  { subst st1. destruct (has_flag _ HAS_GOT_REL); [apply since_assign; [lia |] |]; exact H0. }
  set (st2 := if _ && _ then _ else st1).
  assert (H2 : since sym f st2).
  { subst st2. destruct (_ && _); [| exact H1].
    repeat (apply since_assign; [lia |]). exact H1. }
  destruct (has_flag _ HAS_TLSGD_REL); [discriminate |].
  destruct (has_flag _ HAS_TLSLD_REL); [discriminate |].
  intros E. injection E as <-.
  destruct (has_flag _ HAS_GOTTP_REL); [apply since_assign; [lia |] |]; exact H2.
Qed.

Lemma dynamic_body_since id sym f :
  pair_inv (sym, f) -> since sym f (dynamic_body id (sym, f)).
Proof.
  intros Hinv. pose proof (since_start sym f Hinv) as H0.
  unfold dynamic_body. cbn [fst snd].
  set (p1 := if has_flag (rels sym) HAS_GOT_REL then _ else _).
  assert (H1 : since sym f (fst p1)).
  { subst p1. destruct (has_flag _ HAS_GOT_REL); cbn [fst]; [| exact H0].
    apply since_bump_reldyn; [lia |]. apply since_assign; [lia | exact H0]. }
  clearbody p1. destruct p1 as [st1 n1]. cbn [fst] in H1.
  set (p2 := if has_flag (rels sym) HAS_PLT_REL then _ else _).
  assert (H2 : since sym f (fst p2)).
  { subst p2. destruct (has_flag _ HAS_PLT_REL); cbn [fst]; [| exact H1].
    destruct (_ =? -1); repeat (apply since_assign; [lia |]); exact H1. }
  clearbody p2. destruct p2 as [st2 n2]. cbn [fst] in H2.
  set (p3 := if has_flag (rels sym) HAS_TLSGD_REL then _ else _).
  assert (H3 : since sym f (fst p3)).
  { subst p3. destruct (has_flag _ HAS_TLSGD_REL); cbn [fst]; [| exact H2].
    apply since_bump_reldyn; [lia |]. apply since_assign; [lia | exact H2]. }
  clearbody p3. destruct p3 as [st3 n3]. cbn [fst] in H3.
  set (p4 := if has_flag (rels sym) HAS_TLSLD_REL then _ else _).
  assert (H4 : since sym f (fst p4)).
  { subst p4. destruct (has_flag _ HAS_TLSLD_REL); cbn [fst]; [| exact H3].
    apply since_bump_reldyn; [lia |]. apply since_assign; [lia | exact H3]. }
  clearbody p4. destruct p4 as [st4 n4]. cbn [fst] in H4.
  set (st5 := if has_flag (rels sym) HAS_GOTTP_REL then _ else _).
  assert (H5 : since sym f st5).
  { subst st5. destruct (has_flag _ HAS_GOTTP_REL); [apply since_assign; [lia |] |]; exact H4. }
  clearbody st5. destruct n4; [apply since_push_dynsym |]; exact H5.
Qed.

Lemma defined_by_same f f' a b :
  file_id f' = file_id f -> sym_file b = sym_file a -> defined_by f' b = defined_by f a.
Proof. intros Hf Hs. unfold defined_by. rewrite Hf, Hs. reflexivity. Qed.

Lemma pair_inv_of_store store f (id : nat) sym :
  store_inv store f -> store !! id = Some sym -> defined_by f sym = true ->
  pair_inv (sym, f).
Proof.
  intros (Hb & Hd) Hid Hdef. split; cbn [fst snd].
  - apply (Hb id sym Hid Hdef).
  - intros s1 s2 Hne Ht Hv.
    destruct (decide (slot_value s1 sym = -1)) as [E | E]; [exact E |].
    destruct (Hd id id sym sym s1 s2 Hid Hid Hdef Hdef Ht Hv E) as [_ Hs]. congruence.
Qed.

Lemma evolves_refl f store : evolves f store store.
Proof.
  apply Forall2_same_length_lookup_2; [reflexivity |].
  intros i a b Ha Hb. rewrite Ha in Hb. injection Hb as <-.
  split; [apply same_meta_refl | reflexivity].
Qed.

Lemma evolves_trans f f' a b c :
  file_id f' = file_id f -> evolves f a b -> evolves f' b c -> evolves f a c.
Proof.
  intros Hid Hab Hbc. unfold evolves in *.
  eapply Forall2_trans; [| exact Hab | exact Hbc].
  cbn. intros x y z (M1 & U1) (M2 & U2). split; [eapply same_meta_trans; eassumption |].
  intros Hx. rewrite <- (U1 Hx). apply U2.
  rewrite (U1 Hx). rewrite <- Hx. apply defined_by_same; [exact Hid | reflexivity].
Qed.

Lemma evolves_insert f store (id : nat) sym sym' :
  store !! id = Some sym -> defined_by f sym = true -> same_meta sym sym' ->
  evolves f store (<[id := sym']> store).
Proof.
  intros Hid Hdef Hm.
  rewrite <- (list_insert_id store id sym Hid) at 1.
  apply Forall2_insert; [apply evolves_refl |].
  split; [exact Hm | congruence].
Qed.

(** Writing back the symbol of one loop body keeps the store invariant. *)
Lemma store_inv_step store f (id : nat) sym st' :
  store_inv store f -> store !! id = Some sym -> defined_by f sym = true ->
  since sym f st' ->
  store_inv (<[id := fst st']> store) (snd st').
Proof.
  intros Hinv Hid Hdef ((Hb' & Hd') & (Hc & Hfid & _) & Hm & Hfresh).
  pose proof Hinv as (Hb & Hd).
  assert (Hlt : (id < length store)%nat) by (eapply lookup_lt_Some; exact Hid).
  assert (Hdefs : forall a, defined_by (snd st') a = defined_by f a).
  { intros a. apply defined_by_same; [exact Hfid | reflexivity]. }
  split.
  - intros i a Hi Ha s. rewrite Hdefs in Ha.
    destruct (decide (id = i)) as [<- | Hne].
    + rewrite list_lookup_insert_eq in Hi by exact Hlt. injection Hi as <-. apply Hb'.
    + rewrite list_lookup_insert_ne in Hi by exact Hne.
      specialize (Hb i a Hi Ha s). specialize (Hc (slot_table s)). lia.
  - intros i1 i2 a1 a2 s1 s2 H1 H2 D1 D2 Ht Hv Hnz. rewrite Hdefs in D1, D2.
    destruct (decide (id = i1)) as [E1 | N1]; destruct (decide (id = i2)) as [E2 | N2].
    + subst i1 i2. rewrite list_lookup_insert_eq in H1, H2 by exact Hlt.
      injection H1 as <-. injection H2 as <-. split; [reflexivity |].
      destruct (decide (s1 = s2)) as [E | N]; [exact E |].
      exfalso. apply Hnz. apply (Hd' s1 s2 N Ht Hv).
    + subst i1. rewrite list_lookup_insert_eq in H1 by exact Hlt.
      rewrite list_lookup_insert_ne in H2 by exact N2. injection H1 as <-.
      destruct (Hfresh s1) as [Hold | Hnew].
      * rewrite Hold in Hv, Hnz. apply (Hd id i2 sym a2 s1 s2); assumption.
      * specialize (Hb i2 a2 H2 D2 s2). rewrite <- Ht in Hb. lia.
    + subst i2. rewrite list_lookup_insert_eq in H2 by exact Hlt.
      rewrite list_lookup_insert_ne in H1 by exact N1. injection H2 as <-.
      destruct (Hfresh s2) as [Hold | Hnew].
      * rewrite Hold in Hv. apply (Hd i1 id a1 sym s1 s2); assumption.
      * specialize (Hb i1 a1 H1 D1 s1). rewrite Ht in Hb. lia.
    + rewrite list_lookup_insert_ne in H1, H2 by assumption.
      apply (Hd i1 i2 a1 a2 s1 s2); assumption.
Qed.

Lemma pass_ok_refl st : store_inv (fst st) (snd st) -> pass_ok st st.
Proof. intros H. split; [exact H |]. split; [apply grows_refl | apply evolves_refl]. Qed.

Lemma grows_trans a b c : grows a b -> grows b c -> grows a c.
Proof.
  intros (C1 & I1 & S1 & O1) (C2 & I2 & S2 & O2). split; [| split; [| split]].
  - intros t. specialize (C1 t). specialize (C2 t). lia.
  - congruence.
  - congruence.
  - intros t. rewrite O2. apply O1.
Qed.

Lemma pass_ok_trans a b c : pass_ok a b -> pass_ok b c -> pass_ok a c.
Proof.
  intros (_ & G1 & E1) (I2 & G2 & E2). split; [exact I2 |].
  split; [eapply grows_trans; eassumption |].
  eapply evolves_trans; [| exact E1 | exact E2]. apply G1.
Qed.

Lemma pass_ok_body st (id : nat) sym st' :
  store_inv (fst st) (snd st) -> fst st !! id = Some sym ->
  defined_by (snd st) sym = true -> since sym (snd st) st' ->
  pass_ok st (<[id := fst st']> (fst st), snd st').
Proof.
  intros Hinv Hid Hdef Hs. split; [| split]; cbn [fst snd].
  - eapply store_inv_step; eassumption.
  - apply Hs.
  - eapply evolves_insert; [exact Hid | exact Hdef | apply Hs].
Qed.

Lemma static_visit_ok st (id : nat) st' :
  store_inv (fst st) (snd st) -> static_visit st id = Done st' -> pass_ok st st'.
Proof.
  intros Hinv. unfold static_visit.
  destruct (fst st !! id) as [sym |] eqn:Hid.
  2: { intros E. injection E as <-. apply pass_ok_refl, Hinv. }
  destruct (defined_by (snd st) sym) eqn:Hdef.
  2: { intros E. injection E as <-. apply pass_ok_refl, Hinv. }
  destruct (static_body (sym, snd st)) as [[sym' f'] | msg] eqn:Hbody; [| discriminate].
  intros E. injection E as <-.
  apply (pass_ok_body st id sym (sym', f') Hinv Hid Hdef).
  apply static_body_since; [| exact Hbody].
  eapply pair_inv_of_store; eassumption.
Qed.

Lemma dynamic_visit_ok st (id : nat) :
  store_inv (fst st) (snd st) -> pass_ok st (dynamic_visit st id).
Proof.
  intros Hinv. unfold dynamic_visit.
  destruct (fst st !! id) as [sym |] eqn:Hid; [| apply pass_ok_refl, Hinv].
  destruct (defined_by (snd st) sym) eqn:Hdef; [| apply pass_ok_refl, Hinv].
  destruct (dynamic_body id (sym, snd st)) as [sym' f'] eqn:Hbody.
  apply (pass_ok_body st id sym (sym', f') Hinv Hid Hdef).
  rewrite <- Hbody. apply dynamic_body_since.
  eapply pair_inv_of_store; eassumption.
Qed.

Lemma visit_all_ok ids : forall st st',
  store_inv (fst st) (snd st) -> visit_all st ids = Done st' -> pass_ok st st'.
Proof.
  induction ids as [| id ids IH]; intros st st' Hinv H; cbn [visit_all] in H.
  - injection H as <-. apply pass_ok_refl, Hinv.
  - destruct (static_visit st id) as [st1 | msg] eqn:Hv; [| discriminate].
    pose proof (static_visit_ok _ _ _ Hinv Hv) as H1.
    eapply pass_ok_trans; [exact H1 |]. apply IH; [apply H1 | exact H].
Qed.

Lemma dynamic_fold_ok ids : forall st,
  store_inv (fst st) (snd st) -> pass_ok st (foldl dynamic_visit st ids).
Proof.
  induction ids as [| id ids IH]; intros st Hinv; cbn [foldl].
  - apply pass_ok_refl, Hinv.
  - pose proof (dynamic_visit_ok st id Hinv) as H1.
    eapply pass_ok_trans; [exact H1 |]. apply IH, H1.
Qed.

Lemma scan_file_ok is_static store f store' f' :
  store_inv store f -> scan_file is_static store f = Done (store', f') ->
  pass_ok (store, f) (store', f').
Proof.
  intros Hinv. unfold scan_file, scan_rels_static, scan_rels_dynamic.
  destruct is_static.
  - apply (visit_all_ok (symbols f) (store, f) (store', f') Hinv).
  - intros E. injection E as E. rewrite <- E. apply dynamic_fold_ok. exact Hinv.
Qed.

Lemma defined_by_exclusive f g a :
  file_id f <> file_id g -> defined_by f a = true -> defined_by g a = false.
Proof.
  unfold defined_by. intros Hne. destruct (sym_file a) as [id |]; [| discriminate].
  intros Hf. apply Nat.eqb_eq in Hf. apply Nat.eqb_neq. congruence.
Qed.

Lemma evolves_single f store store' : evolves f store store' -> evolves_in [f] store store'.
Proof.
  intros H. eapply Forall2_impl; [exact H |]. cbn. intros a b (Hm & Hu).
  split; [exact Hm |]. intros Hall. apply Hu, Hall. left. reflexivity.
Qed.

Lemma evolves_in_app fs1 fs2 a b c :
  evolves_in fs1 a b -> evolves_in fs2 b c -> evolves_in (fs1 ++ fs2) a c.
Proof.
  intros Hab Hbc. eapply Forall2_trans; [| exact Hab | exact Hbc].
  cbn. intros x y z (M1 & U1) (M2 & U2). split; [eapply same_meta_trans; eassumption |].
  intros Hall.
  assert (Hy : y = x) by (apply U1; intros f Hf; apply Hall, in_or_app; left; exact Hf).
  subst y. apply U2. intros f Hf. apply Hall, in_or_app. right. exact Hf.
Qed.

(** A pass over other files leaves the invariant of file [f] alone. *)
Lemma store_inv_transfer f fs store store' :
  (forall g, In g fs -> file_id f <> file_id g) ->
  store_inv store f -> evolves_in fs store store' -> store_inv store' f.
Proof.
  intros Hne (Hb & Hd) Hev.
  assert (Hsame : forall (i : nat) b, store' !! i = Some b -> defined_by f b = true ->
                  store !! i = Some b).
  { intros i b Hi Hdef.
    destruct (Forall2_lookup_r _ _ _ _ _ Hev Hi) as (a & Ha & Hm & Hu).
    assert (Hdefa : defined_by f a = true).
    { rewrite <- Hdef. apply defined_by_same; [reflexivity |]. symmetry. apply Hm. }
    rewrite Ha. f_equal. symmetry. apply Hu. intros g Hg.
    apply (defined_by_exclusive f g a (Hne g Hg) Hdefa). }
  split.
  - intros i b Hi Hdef. apply (Hb i b (Hsame i b Hi Hdef) Hdef).
  - intros i1 i2 b1 b2 s1 s2 H1 H2 D1 D2.
    apply (Hd i1 i2 b1 b2 s1 s2 (Hsame _ _ H1 D1) (Hsame _ _ H2 D2) D1 D2).
Qed.

Lemma store_inv_counts store f g :
  file_id g = file_id f -> (forall t, count t g = count t f) ->
  store_inv store f -> store_inv store g.
Proof.
  intros Hid Hc (Hb & Hd).
  assert (Hdef : forall a, defined_by g a = defined_by f a).
  { intros a. apply defined_by_same; [exact Hid | reflexivity]. }
  split.
  - intros i a Hi Ha s. rewrite Hdef in Ha. rewrite Hc. apply (Hb i a Hi Ha).
  - intros i1 i2 a1 a2 s1 s2 H1 H2 D1 D2. rewrite Hdef in D1, D2.
    apply (Hd i1 i2 a1 a2 s1 s2 H1 H2 D1 D2).
Qed.

Lemma store_inv_unassigned store f :
  Forall unassigned store -> (forall t, count t f = 0) -> store_inv store f.
Proof.
  intros Hun Hc. rewrite List.Forall_forall in Hun.
  assert (Hv : forall (i : nat) a s, store !! i = Some a -> slot_value s a = -1).
  { intros i a s Hi. apply Hun. apply list_elem_of_In. eapply list_elem_of_lookup_2. exact Hi. }
  split.
  - intros i a Hi _ s. rewrite (Hv i a s Hi), Hc. lia.
  - intros i1 i2 a1 a2 s1 s2 H1 _ _ _ _ _ Hnz. exfalso. apply Hnz. apply (Hv i1 a1 s1 H1).
Qed.

Lemma scan_files_ok is_static files : forall store store' files',
  NoDup (map file_id files) ->
  Forall (store_inv store) files ->
  scan_files is_static store files = Done (store', files') ->
  Forall2 (fun f f' => grows f f' /\ store_inv store' f') files files' /\
  evolves_in files store store'.
Proof.
  induction files as [| f rest IH]; intros store store' files' Hnd Hinv H.
  { cbn in H. injection H as <- <-. split; [constructor |].
    apply Forall2_same_length_lookup_2; [reflexivity |].
    intros i a b Ha Hb. rewrite Ha in Hb. injection Hb as <-.
    split; [apply same_meta_refl | reflexivity]. }
  cbn [scan_files] in H.
  destruct (scan_file is_static store f) as [[store1 f'] | msg] eqn:Hf; [| discriminate].
  destruct (scan_files is_static store1 rest) as [[store2 rest'] | msg] eqn:Hr; [| discriminate].
  injection H as <- <-.
  cbn [map] in Hnd. apply NoDup_cons in Hnd as [Hnotin Hnd].
  inversion Hinv as [| ? ? Hinvf Hinvrest]; subst.
  destruct (scan_file_ok _ _ _ _ _ Hinvf Hf) as (Hinv1 & Hg1 & He1). cbn [fst snd] in *.
  assert (Hdiff : forall g, In g rest -> file_id f <> file_id g).
  { intros g Hg E. apply Hnotin. rewrite E. apply list_elem_of_In, in_map, Hg. }
  assert (Hinvrest1 : Forall (store_inv store1) rest).
  { apply List.Forall_forall. intros g Hg. rewrite List.Forall_forall in Hinvrest.
    apply (store_inv_transfer g [f] store); [| apply Hinvrest, Hg | apply evolves_single, He1].
    intros h [<- | []]. intros E. apply (Hdiff g Hg). congruence. }
  destruct (IH store1 store2 rest' Hnd Hinvrest1 Hr) as (IH1 & IH2).
  split.
  - constructor; [| exact IH1]. split; [exact Hg1 |].
    apply (store_inv_transfer f' rest store1); [| exact Hinv1 | exact IH2].
    intros g Hg. destruct Hg1 as (_ & -> & _). apply Hdiff, Hg.
  - apply (evolves_in_app [f] rest store store1 store2); [apply evolves_single, He1 | exact IH2].
Qed.

Section SizingFacts.
Variable PLT_SIZE : Z.
Hypothesis PLT_SIZE_pos : 0 < PLT_SIZE.

Lemma entry_size_pos t : 0 < entry_size PLT_SIZE t.
Proof using PLT_SIZE_pos. destruct t; cbn; unfold GOT_SIZE, sizeof_Rela; lia. Qed.

Lemma reserve_step t tabs f s0 :
  table_size t tabs = Some s0 ->
  table_size t (fst (reserve PLT_SIZE tabs f)) =
    Some (wrap64 (s0 + count t f * entry_size PLT_SIZE t)) /\
  base_offset t (snd (reserve PLT_SIZE tabs f)) = s0.
Proof.
  destruct t; cbn; intros H; try (injection H as <-; split; reflexivity).
  rewrite H. split; reflexivity.
Qed.

Lemma reserve_keeps tabs f :
  let f' := snd (reserve PLT_SIZE tabs f) in
  file_id f' = file_id f /\ symbols f' = symbols f /\ dynsyms f' = dynsyms f /\
  forall t, count t f' = count t f.
Proof. cbn. split; [reflexivity |]. split; [reflexivity |]. split; [reflexivity |]. intros t. destruct t; reflexivity. Qed.

Lemma reserve_all_keeps files : forall tabs,
  Forall2 (fun f f' => file_id f' = file_id f /\ forall t, count t f' = count t f)
    files (snd (reserve_all PLT_SIZE tabs files)).
Proof.
  induction files as [| f rest IH]; intros tabs; [constructor |].
  cbn [reserve_all]. destruct (reserve PLT_SIZE tabs f) as [tabs1 f1] eqn:E1.
  specialize (IH tabs1). destruct (reserve_all PLT_SIZE tabs1 rest) as [tabs2 rest'].
  cbn [snd] in *. constructor; [| exact IH].
  pose proof (reserve_keeps tabs f) as K. rewrite E1 in K. cbn in K.
  destruct K as (K1 & _ & _ & K4). split; assumption.
Qed.

Lemma total_count_nonneg t files :
  Forall (fun f => 0 <= count t f) files -> 0 <= total_count t files.
Proof.
  induction 1 as [| f rest Hf Hrest IH]; cbn; [lia |]. fold (total_count t rest). lia.
Qed.

Lemma total_count_app t l1 l2 :
  total_count t (l1 ++ l2) = total_count t l1 + total_count t l2.
Proof.
  induction l1 as [| f l1 IH]; cbn; [reflexivity |].
  fold (total_count t (l1 ++ l2)) (total_count t l1). rewrite IH. lia.
Qed.

Lemma total_count_ext t l1 l2 :
  Forall2 (fun f f' => file_id f' = file_id f /\ forall t, count t f' = count t f) l1 l2 ->
  total_count t l2 = total_count t l1.
Proof.
  induction 1 as [| f f' l1 l2 (_ & Hc) _ IH]; cbn; [reflexivity |].
  fold (total_count t l1) (total_count t l2). rewrite IH, Hc. reflexivity.
Qed.

(** The sequential loop of [scan_rels] computes prefix sums. *)
Lemma reserve_all_sums t files : forall tabs s0,
  table_size t tabs = Some s0 -> 0 <= s0 ->
  Forall (fun f => 0 <= count t f) files ->
  s0 + entry_size PLT_SIZE t * total_count t files < 2 ^ 64 ->
  table_size t (fst (reserve_all PLT_SIZE tabs files)) =
    Some (s0 + entry_size PLT_SIZE t * total_count t files) /\
  forall (i : nat) f', snd (reserve_all PLT_SIZE tabs files) !! i = Some f' ->
    base_offset t f' = s0 + entry_size PLT_SIZE t * total_count t (take i files).
Proof using PLT_SIZE_pos.
  pose proof (entry_size_pos t) as He.
  induction files as [| f rest IH]; intros tabs s0 Hs Hs0 Hnn Hb.
  { cbn. split; [rewrite Hs; f_equal; lia |]. intros i f' Hi. destruct i; discriminate Hi. }
  inversion Hnn as [| ? ? Hf Hrest]; subst.
  pose proof (total_count_nonneg t rest Hrest) as Htot.
  cbn [total_count fold_right] in Hb. fold (total_count t rest) in Hb.
  cbn [reserve_all].
  destruct (reserve_step t tabs f s0 Hs) as (Hsize1 & Hbase1).
  destruct (reserve PLT_SIZE tabs f) as [tabs1 f1]. cbn [fst snd] in Hsize1, Hbase1.
  rewrite wrap64_small in Hsize1 by nia.
  destruct (IH tabs1 (s0 + count t f * entry_size PLT_SIZE t) Hsize1 ltac:(nia) Hrest
              ltac:(nia)) as (IH1 & IH2).
  destruct (reserve_all PLT_SIZE tabs1 rest) as [tabs2 rest']. cbn [fst snd] in *.
  split.
  - rewrite IH1. f_equal. cbn [total_count fold_right]. fold (total_count t rest). lia.
  - intros i f' Hi. destruct i as [| i]; cbn in Hi.
    + injection Hi as <-. cbn. lia.
    + rewrite (IH2 i f' Hi). cbn [take total_count fold_right].
      fold (total_count t (take i rest)). lia.
Qed.

End SizingFacts.

Lemma add_symbols_sizes files : forall tabs t,
  table_size t (foldl (fun tb f => add_symbols tb (dynsyms f)) tabs files) = table_size t tabs.
Proof.
  induction files as [| f rest IH]; intros tabs t; cbn [foldl]; [reflexivity |].
  rewrite IH. destruct t; reflexivity.
Qed.

Lemma total_count_take_le t files (i k : nat) :
  Forall (fun f => 0 <= count t f) files -> (i <= k)%nat ->
  total_count t (take i files) <= total_count t (take k files).
Proof.
  intros Hnn Hik. replace k with (i + (k - i))%nat by lia.
  rewrite <- take_take_drop, total_count_app.
  assert (0 <= total_count t (take (k - i) (drop i files))); [| lia].
  apply total_count_nonneg. apply Forall_take, Forall_drop. exact Hnn.
Qed.

Lemma total_count_take_S t files (i : nat) f :
  files !! i = Some f ->
  total_count t (take (S i) files) = total_count t (take i files) + count t f.
Proof.
  intros Hi. rewrite (take_S_r files i f Hi), total_count_app. cbn. lia.
Qed.

(** C4. After [scan_rels] (slot assignment on symbols without slots and
    files with zero counters, then the sequential prefix sums), for every
    synthetic table [t] that exists, with [s0] its size when the loop
    starts: the base offset of a file is [s0] plus the entry size times
    the counts of the files before it (the plain sum when the table starts
    empty); the ranges of consecutive files are contiguous and those of
    distinct files disjoint; the final [sh_size] is [s0] plus the total;
    and every assigned slot index lies below its file's count and no two
    assigned slots of the table fall on the same position. *)
Theorem scan_rels_prefix_sums (PLT_SIZE : Z) (is_static : bool)
    (store store' : list Symbol) (files files' : list ObjectFile) (tabs tabs' : Tables) :
  0 < PLT_SIZE ->
  Forall unassigned store ->
  Forall (fun f => forall t, count t f = 0) files ->
  NoDup (map file_id files) ->
  scan_rels PLT_SIZE is_static store files tabs = Done (store', files', tabs') ->
  (forall t s0, table_size t tabs = Some s0 ->
     0 <= s0 /\ s0 + entry_size PLT_SIZE t * total_count t files' < 2 ^ 64) ->
  forall t s0, table_size t tabs = Some s0 ->
  (forall (i : nat) f, files' !! i = Some f ->
     base_offset t f = s0 + entry_size PLT_SIZE t * total_count t (take i files')) /\
  (forall (i : nat) f g, files' !! i = Some f -> files' !! S i = Some g ->
     base_offset t g = base_offset t f + entry_size PLT_SIZE t * count t f) /\
  (forall (i k : nat) f g, (i < k)%nat -> files' !! i = Some f -> files' !! k = Some g ->
     base_offset t f + entry_size PLT_SIZE t * count t f <= base_offset t g) /\
  table_size t tabs' = Some (s0 + entry_size PLT_SIZE t * total_count t files') /\
  (forall (i id : nat) f sym s, files' !! i = Some f -> store' !! id = Some sym ->
     defined_by f sym = true -> slot_table s = t -> slot_value s sym <> -1 ->
     0 <= slot_value s sym < count t f) /\
  (forall (i1 i2 id1 id2 : nat) f1 f2 sym1 sym2 s1 s2,
     files' !! i1 = Some f1 -> files' !! i2 = Some f2 ->
     store' !! id1 = Some sym1 -> store' !! id2 = Some sym2 ->
     defined_by f1 sym1 = true -> defined_by f2 sym2 = true ->
     slot_table s1 = t -> slot_table s2 = t ->
     slot_value s1 sym1 <> -1 -> slot_value s2 sym2 <> -1 ->
     base_offset t f1 + entry_size PLT_SIZE t * slot_value s1 sym1 =
     base_offset t f2 + entry_size PLT_SIZE t * slot_value s2 sym2 ->
     id1 = id2 /\ s1 = s2).
Proof.
  intros HPLT Hun Hzero Hnd Hscan Hfit t s0 Hs0.
  unfold scan_rels in Hscan.
  destruct (scan_files is_static store files) as [[store1 files1] | msg] eqn:Hsf;
    [| discriminate].
  destruct (reserve_all PLT_SIZE tabs files1) as [tabs1 files2] eqn:Hres.
  injection Hscan as <- <- <-.
  assert (Hinv0 : Forall (store_inv store) files).
  { eapply List.Forall_impl; [| exact Hzero]. intros f Hf.
    apply store_inv_unassigned; assumption. }
  destruct (scan_files_ok is_static files store store1 files1 Hnd Hinv0 Hsf) as (Hfs & _).
  pose proof (reserve_all_keeps PLT_SIZE files1 tabs) as Hkeep. rewrite Hres in Hkeep.
  cbn [snd] in Hkeep.
  (* counters are not negative *)
  assert (Hnn1 : forall t', Forall (fun f => 0 <= count t' f) files1).
  { intros t'. apply List.Forall_forall. intros f1 Hin.
    apply list_elem_of_In, list_elem_of_lookup_1 in Hin as [i Hi].
    destruct (Forall2_lookup_r _ _ _ _ _ Hfs Hi) as (f & Hf & (Hc & _) & _).
    rewrite List.Forall_forall in Hzero.
    assert (Hin0 : In f files) by (apply list_elem_of_In; eapply list_elem_of_lookup_2; exact Hf).
    specialize (Hzero f Hin0 t'). specialize (Hc t'). lia. }
  assert (Hnn2 : forall t', Forall (fun f => 0 <= count t' f) files2).
  { intros t'. apply List.Forall_forall. intros f2 Hin.
    apply list_elem_of_In, list_elem_of_lookup_1 in Hin as [i Hi].
    destruct (Forall2_lookup_r _ _ _ _ _ Hkeep Hi) as (f1 & Hf1 & _ & Hc).
    rewrite Hc. pose proof (Hnn1 t') as H1. rewrite List.Forall_forall in H1.
    apply H1. apply list_elem_of_In. eapply list_elem_of_lookup_2. exact Hf1. }
  assert (Htake : forall i, total_count t (take i files2) = total_count t (take i files1)).
  { intros i. apply total_count_ext. apply Forall2_take. exact Hkeep. }
  assert (Htot : total_count t files2 = total_count t files1)
    by (apply total_count_ext; exact Hkeep).
  destruct (Hfit t s0 Hs0) as (Hs0nn & Hbound).
  destruct (reserve_all_sums PLT_SIZE HPLT t files1 tabs s0 Hs0 Hs0nn (Hnn1 t)
              ltac:(rewrite <- Htot; exact Hbound)) as (Hsize & Hoff).
  rewrite Hres in Hsize, Hoff. cbn [fst snd] in Hsize, Hoff.
  pose proof (entry_size_pos PLT_SIZE HPLT t) as He.
  (* the invariant of slot assignment, for the files as they end up *)
  assert (Hinv2 : forall (i : nat) f, files2 !! i = Some f -> store_inv store1 f).
  { intros i f2 Hi.
    destruct (Forall2_lookup_r _ _ _ _ _ Hkeep Hi) as (f1 & Hf1 & Hid & Hc).
    destruct (Forall2_lookup_r _ _ _ _ _ Hfs Hf1) as (f & _ & _ & Hinv1).
    apply (store_inv_counts store1 f1 f2 Hid Hc Hinv1). }
  assert (Hprefix : forall (i : nat) f, files2 !! i = Some f ->
            base_offset t f = s0 + entry_size PLT_SIZE t * total_count t (take i files2)).
  { intros i f Hi. rewrite Htake. apply Hoff, Hi. }
  assert (Hdisj : forall (i k : nat) f g, (i < k)%nat ->
            files2 !! i = Some f -> files2 !! k = Some g ->
            base_offset t f + entry_size PLT_SIZE t * count t f <= base_offset t g).
  { intros i k f g Hik Hi Hk. rewrite (Hprefix i f Hi), (Hprefix k g Hk).
    pose proof (total_count_take_S t files2 i f Hi) as HS.
    pose proof (total_count_take_le t files2 (S i) k (Hnn2 t) ltac:(lia)) as Hle. nia. }
  assert (Hrange : forall (i id : nat) f sym s, files2 !! i = Some f ->
            store1 !! id = Some sym -> defined_by f sym = true -> slot_table s = t ->
            slot_value s sym <> -1 -> 0 <= slot_value s sym < count t f).
  { intros i id f sym s Hi Hid Hdef Ht Hnz.
    destruct (Hinv2 i f Hi) as (Hb & _). specialize (Hb id sym Hid Hdef s).
    rewrite Ht in Hb. lia. }
  split; [exact Hprefix |]. split; [| split; [exact Hdisj |]].
  { intros i f g Hi Hg. rewrite (Hprefix i f Hi), (Hprefix (S i) g Hg).
    rewrite (total_count_take_S t files2 i f Hi). lia. }
  split; [rewrite add_symbols_sizes, Hsize, Htot; reflexivity |].
  split; [exact Hrange |].
  intros i1 i2 id1 id2 f1 f2 sym1 sym2 s1 s2 Hf1 Hf2 H1 H2 D1 D2 T1 T2 N1 N2 Hpos.
  pose proof (Hrange i1 id1 f1 sym1 s1 Hf1 H1 D1 T1 N1) as R1.
  pose proof (Hrange i2 id2 f2 sym2 s2 Hf2 H2 D2 T2 N2) as R2.
  destruct (lt_eq_lt_dec i1 i2) as [[Hlt | Heq] | Hgt].
  - pose proof (Hdisj i1 i2 f1 f2 Hlt Hf1 Hf2). nia.
  - subst i2. rewrite Hf1 in Hf2. injection Hf2 as <-.
    destruct (Hinv2 i1 f1 Hf1) as (_ & Hd).
    apply (Hd id1 id2 sym1 sym2 s1 s2 H1 H2 D1 D2); [congruence | nia | exact N1].
  - pose proof (Hdisj i2 i1 f2 f1 Hgt Hf2 Hf1). nia.
Qed.

Lemma scan_rels_prefix_sums_witness :
  exists store' files' tabs',
    scan_rels 16 false sample_store sample_files sample_tables =
      Done (store', files', tabs') /\
    table_size TGot tabs' = Some (0 + entry_size 16 TGot * total_count TGot files') /\
    (forall (i : nat) f, files' !! i = Some f ->
       base_offset TGot f = 0 + entry_size 16 TGot * total_count TGot (take i files')).
Proof.
  destruct (scan_rels 16 false sample_store sample_files sample_tables)
    as [[[store' files'] tabs'] | msg] eqn:E; [| vm_compute in E; discriminate E].
  exists store', files', tabs'. split; [reflexivity |].
  assert (H : forall t s0, table_size t sample_tables = Some s0 ->
            0 <= s0 /\ s0 + entry_size 16 t * total_count t files' < 2 ^ 64).
  { vm_compute in E. injection E as <- <- <-.
    intros t s0 Hs. destruct t; vm_compute in Hs; injection Hs as <-; vm_compute; split; congruence. }
  destruct (scan_rels_prefix_sums 16 false sample_store store' sample_files files'
              sample_tables tabs' ltac:(lia)
              ltac:(repeat constructor; intros s; destruct s; reflexivity)
              ltac:(repeat constructor; intros t; destruct t; reflexivity)
              ltac:(apply (bool_decide_unpack _); vm_compute; exact I)
              E H TGot 0 eq_refl) as (H1 & _ & _ & H4 & _).
  split; [exact H4 | exact H1].
Defined.
Lemma assign_keeps s n st :
  same_meta (fst st) (fst (assign s n st)) /\
  same_file (snd st) (snd (assign s n st)) /\
  num_reldyn (snd (assign s n st)) = num_reldyn (snd st).
Proof. destruct s; repeat split. Qed.

Lemma static_body_keeps sym f sym' f' :
  static_body (sym, f) = Done (sym', f') ->
  same_meta sym sym' /\ same_file f f' /\ num_reldyn f' = num_reldyn f.
Proof.
  unfold static_body. cbn [fst snd].
  destruct (has_flag (rels sym) HAS_GOT_REL);
  destruct (has_flag (rels sym) HAS_PLT_REL);
  destruct (has_flag (rels sym) HAS_TLSGD_REL); try discriminate;
  destruct (has_flag (rels sym) HAS_TLSLD_REL); try discriminate;
  destruct (has_flag (rels sym) HAS_GOTTP_REL); cbn [andb fst snd assign];
  try destruct (_ =? STT_GNU_IFUNC);
  intros E; injection E as <- <-; repeat split.
Qed.

Lemma static_body_fatal sym f :
  tls_need sym = true -> static_body (sym, f) = Fatal "not implemented".
Proof.
  unfold tls_need, static_body. cbn [fst snd]. intros H.
  destruct (has_flag (rels sym) HAS_TLSGD_REL); [reflexivity |].
  destruct (has_flag (rels sym) HAS_TLSLD_REL); [reflexivity | discriminate H].
Qed.

Lemma static_body_total sym f :
  tls_need sym = false -> exists st', static_body (sym, f) = Done st'.
Proof.
  unfold tls_need, static_body. cbn [fst snd]. intros H.
  apply orb_false_elim in H as [-> ->]. eexists. reflexivity.
Qed.

Lemma static_body_message st msg :
  static_body st = Fatal msg -> msg = "not implemented"%string.
Proof.
  unfold static_body.
  destruct (has_flag _ HAS_TLSGD_REL); [intros E; injection E as <-; reflexivity |].
  destruct (has_flag _ HAS_TLSLD_REL); [intros E; injection E as <-; reflexivity |].
  discriminate.
Qed.

Lemma Forall2_same_meta_refl store : Forall2 same_meta store store.
Proof.
  apply Forall2_same_length_lookup_2; [reflexivity |].
  intros i a b Ha Hb. rewrite Ha in Hb. injection Hb as <-. apply same_meta_refl.
Qed.

Lemma kept_refl st : kept st st.
Proof. split; [apply Forall2_same_meta_refl | repeat split]. Qed.

Lemma kept_trans a b c : kept a b -> kept b c -> kept a c.
Proof.
  intros (M1 & (I1 & S1) & R1) (M2 & (I2 & S2) & R2). split; [| split; [split |]].
  - eapply Forall2_trans; [| exact M1 | exact M2]. intros x y z. apply same_meta_trans.
  - congruence.
  - congruence.
  - congruence.
Qed.

Lemma static_visit_kept st (id : nat) st' : static_visit st id = Done st' -> kept st st'.
Proof.
  unfold static_visit. destruct (fst st !! id) as [sym |] eqn:Hid.
  2: { intros E. injection E as <-. apply kept_refl. }
  destruct (defined_by (snd st) sym).
  2: { intros E. injection E as <-. apply kept_refl. }
  destruct (static_body (sym, snd st)) as [[sym' f'] | msg] eqn:Hb; [| discriminate].
  intros E. injection E as <-.
  destruct (static_body_keeps _ _ _ _ Hb) as (Hm & Hf & Hr).
  split; [| split; assumption]. cbn [fst].
  rewrite <- (list_insert_id (fst st) id sym Hid) at 1.
  apply Forall2_insert; [apply Forall2_same_meta_refl | exact Hm].
Qed.

Lemma visit_all_kept ids : forall st st', visit_all st ids = Done st' -> kept st st'.
Proof.
  induction ids as [| id ids IH]; intros st st' H; cbn [visit_all] in H.
  - injection H as <-. apply kept_refl.
  - destruct (static_visit st id) as [st1 | msg] eqn:Hv; [| discriminate].
    eapply kept_trans; [apply (static_visit_kept _ _ _ Hv) | apply IH, H].
Qed.

Lemma visit_all_message ids : forall st msg,
  visit_all st ids = Fatal msg -> msg = "not implemented"%string.
Proof.
  induction ids as [| id ids IH]; intros st msg H; cbn [visit_all] in H; [discriminate |].
  destruct (static_visit st id) as [st1 | msg1] eqn:Hv; [apply (IH _ _ H) |].
  injection H as <-. unfold static_visit in Hv.
  destruct (fst st !! id) as [sym |]; [| discriminate].
  destruct (defined_by (snd st) sym); [| discriminate].
  destruct (static_body (sym, snd st)) as [[sym' f'] | msg2] eqn:Hb; [discriminate |].
  injection Hv as <-. apply (static_body_message _ _ Hb).
Qed.

(** A symbol keeps being defined by the file, with the same bits. *)
Lemma kept_symbol st st' (id : nat) sym :
  kept st st' -> fst st !! id = Some sym -> defined_by (snd st) sym = true ->
  exists sym', fst st' !! id = Some sym' /\ defined_by (snd st') sym' = true /\
               tls_need sym' = tls_need sym.
Proof.
  intros (Hm & (Hid & _) & _) Hs Hd.
  destruct (Forall2_lookup_l _ _ _ _ _ Hm Hs) as (sym' & Hs' & (M1 & _ & M3 & _)).
  exists sym'. split; [exact Hs' |]. split.
  - rewrite <- Hd. apply defined_by_same; assumption.
  - unfold tls_need. rewrite M3. reflexivity.
Qed.

Lemma visit_all_fatal ids : forall st (id : nat) sym,
  In id ids -> fst st !! id = Some sym -> defined_by (snd st) sym = true ->
  tls_need sym = true ->
  visit_all st ids = Fatal "not implemented".
Proof.
  induction ids as [| id' ids IH]; intros st id sym Hin Hs Hd Ht; [destruct Hin |].
  cbn [visit_all].
  destruct (static_visit st id') as [st1 | msg] eqn:Hv.
  - destruct (kept_symbol st st1 id sym (static_visit_kept _ _ _ Hv) Hs Hd)
      as (sym1 & Hs1 & Hd1 & Ht1).
    destruct Hin as [-> | Hin].
    + exfalso. unfold static_visit in Hv. rewrite Hs, Hd in Hv.
      rewrite (static_body_fatal sym (snd st) Ht) in Hv. discriminate Hv.
    + apply (IH st1 id sym1 Hin Hs1 Hd1). congruence.
  - f_equal. apply (visit_all_message (id' :: ids) st). cbn [visit_all]. rewrite Hv. reflexivity.
Qed.

Lemma visit_all_total ids : forall st,
  (forall (id : nat) sym, In id ids -> fst st !! id = Some sym ->
     defined_by (snd st) sym = true -> tls_need sym = false) ->
  exists st', visit_all st ids = Done st'.
Proof.
  induction ids as [| id ids IH]; intros st Hno; cbn [visit_all]; [eexists; reflexivity |].
  assert (Hv : exists st1, static_visit st id = Done st1).
  { unfold static_visit. destruct (fst st !! id) as [sym |] eqn:Hs; [| eexists; reflexivity].
    destruct (defined_by (snd st) sym) eqn:Hd; [| eexists; reflexivity].
    destruct (static_body_total sym (snd st)) as ([sym' f'] & ->); [| eexists; reflexivity].
    apply (Hno id sym); [left; reflexivity | exact Hs | exact Hd]. }
  destruct Hv as (st1 & Hv). rewrite Hv. apply IH.
  intros id2 sym2 Hin Hs2 Hd2.
  pose proof (static_visit_kept _ _ _ Hv) as (Hm & (Hid & _) & _).
  destruct (Forall2_lookup_r _ _ _ _ _ Hm Hs2) as (sym0 & Hs0 & (M1 & _ & M3 & _)).
  assert (Hd0 : defined_by (snd st) sym0 = true).
  { rewrite <- Hd2. symmetry. apply defined_by_same; assumption. }
  pose proof (Hno id2 sym0 (or_intror Hin) Hs0 Hd0) as H0.
  unfold tls_need in *. rewrite M3. exact H0.
Qed.

Lemma scan_files_static_kept files : forall store store' files',
  scan_files true store files = Done (store', files') ->
  Forall2 same_meta store store' /\
  Forall2 (fun f f' => same_file f f' /\ num_reldyn f' = num_reldyn f) files files'.
Proof.
  induction files as [| f rest IH]; intros store store' files' H; cbn [scan_files] in H.
  { injection H as <- <-. split; [apply Forall2_same_meta_refl | constructor]. }
  unfold scan_file, scan_rels_static in H.
  destruct (visit_all (store, f) (symbols f)) as [[store1 f1] | msg] eqn:Hf; [| discriminate].
  destruct (scan_files true store1 rest) as [[store2 rest'] | msg] eqn:Hr; [| discriminate].
  injection H as <- <-.
  destruct (visit_all_kept _ _ _ Hf) as (M1 & F1 & R1). cbn [fst snd] in *.
  destruct (IH _ _ _ Hr) as (M2 & F2). split.
  - eapply Forall2_trans; [| exact M1 | exact M2]. intros x y z. apply same_meta_trans.
  - constructor; [split; assumption | exact F2].
Qed.

Lemma scan_files_static_message files : forall store msg,
  scan_files true store files = Fatal msg -> msg = "not implemented"%string.
Proof.
  induction files as [| f rest IH]; intros store msg H; cbn [scan_files] in H; [discriminate |].
  unfold scan_file, scan_rels_static in H.
  destruct (visit_all (store, f) (symbols f)) as [[store1 f1] | msg1] eqn:Hf.
  - destruct (scan_files true store1 rest) as [[store2 rest'] | msg2] eqn:Hr; [discriminate |].
    injection H as <-. apply (IH _ _ Hr).
  - injection H as <-. apply (visit_all_message _ _ _ Hf).
Qed.

Lemma scan_files_static_fatal files : forall store (i id : nat) f sym,
  files !! i = Some f -> In id (symbols f) -> store !! id = Some sym ->
  defined_by f sym = true -> tls_need sym = true ->
  scan_files true store files = Fatal "not implemented".
Proof.
  induction files as [| f0 rest IH]; intros store i id f sym Hi Hin Hs Hd Ht;
    [destruct i; discriminate Hi |].
  destruct (scan_files true store (f0 :: rest)) as [[store' files'] | msg] eqn:E;
    [| f_equal; apply (scan_files_static_message _ _ _ E)].
  exfalso. cbn [scan_files] in E. unfold scan_file, scan_rels_static in E.
  destruct (visit_all (store, f0) (symbols f0)) as [[store1 f1] | msg1] eqn:Hf; [| discriminate].
  destruct (scan_files true store1 rest) as [[store2 rest'] | msg2] eqn:Hr; [| discriminate].
  destruct i as [| i]; cbn in Hi.
  - injection Hi as ->.
    rewrite (visit_all_fatal (symbols f) (store, f) id sym Hin Hs Hd Ht) in Hf. discriminate Hf.
  - destruct (visit_all_kept _ _ _ Hf) as (M1 & _ & _). cbn [fst] in M1.
    destruct (Forall2_lookup_l _ _ _ _ _ M1 Hs) as (sym1 & Hs1 & (A1 & _ & A3 & _)).
    rewrite (IH store1 i id f sym1 Hi Hin Hs1) in Hr; [discriminate Hr | |].
    + rewrite <- Hd. apply defined_by_same; [reflexivity | exact A1].
    + unfold tls_need in *. rewrite A3. exact Ht.
Qed.

Lemma scan_files_static_total files : forall store,
  (forall f (id : nat) sym, In f files -> In id (symbols f) -> store !! id = Some sym ->
     defined_by f sym = true -> tls_need sym = false) ->
  exists st', scan_files true store files = Done st'.
Proof.
  induction files as [| f rest IH]; intros store Hno; cbn [scan_files]; [eexists; reflexivity |].
  unfold scan_file, scan_rels_static.
  destruct (visit_all_total (symbols f) (store, f)) as ([store1 f1] & Hv).
  { intros id sym Hin Hs Hd. apply (Hno f id sym); [left; reflexivity | assumption ..]. }
  rewrite Hv. destruct (IH store1) as ([store2 rest'] & ->); [| eexists; reflexivity].
  intros g id sym Hg Hin Hs Hd.
  destruct (visit_all_kept _ _ _ Hv) as (M1 & _ & _). cbn [fst] in M1.
  destruct (Forall2_lookup_r _ _ _ _ _ M1 Hs) as (sym0 & Hs0 & (A1 & _ & A3 & _)).
  assert (H0 : tls_need sym0 = false).
  { apply (Hno g id sym0); [right; exact Hg | exact Hin | exact Hs0 |].
    rewrite <- Hd. symmetry. apply defined_by_same; [reflexivity | exact A1]. }
  unfold tls_need in *. rewrite A3. exact H0.
Qed.

(** C6. In a static link, slot assignment ends with the fatal error
    "not implemented" as soon as some file defines, and lists, a symbol
    whose relocation bits contain [HAS_TLSGD_REL] or [HAS_TLSLD_REL]; when
    it returns, every file's [num_reldyn] is what it was before; and on
    inputs without such symbols it does return, leaving [num_reldyn] zero
    in every file where it was zero. *)
Theorem static_scan_tls_fatal_no_reldyn :
  (forall PLT_SIZE store files tabs (i id : nat) f sym,
     files !! i = Some f -> In id (symbols f) -> store !! id = Some sym ->
     defined_by f sym = true ->
     has_flag (rels sym) HAS_TLSGD_REL = true \/ has_flag (rels sym) HAS_TLSLD_REL = true ->
     scan_rels PLT_SIZE true store files tabs = Fatal "not implemented") /\
  (forall PLT_SIZE store files tabs store' files' tabs',
     scan_rels PLT_SIZE true store files tabs = Done (store', files', tabs') ->
     Forall2 (fun f f' => num_reldyn f' = num_reldyn f) files files') /\
  (forall PLT_SIZE store files tabs,
     (forall f (id : nat) sym, In f files -> In id (symbols f) -> store !! id = Some sym ->
        defined_by f sym = true ->
        has_flag (rels sym) HAS_TLSGD_REL = false /\
        has_flag (rels sym) HAS_TLSLD_REL = false) ->
     Forall (fun f => num_reldyn f = 0) files ->
     exists store' files' tabs',
       scan_rels PLT_SIZE true store files tabs = Done (store', files', tabs') /\
       Forall (fun f' => num_reldyn f' = 0) files').
Proof.
  assert (Hdone : forall PLT_SIZE store files tabs store' files' tabs',
     scan_rels PLT_SIZE true store files tabs = Done (store', files', tabs') ->
     Forall2 (fun f f' => num_reldyn f' = num_reldyn f) files files').
  { intros PLT_SIZE store files tabs store' files' tabs' H. unfold scan_rels in H.
    destruct (scan_files true store files) as [[store1 files1] | msg] eqn:Hsf; [| discriminate].
    destruct (reserve_all PLT_SIZE tabs files1) as [tabs1 files2] eqn:Hres.
    injection H as <- <- <-.
    destruct (scan_files_static_kept _ _ _ _ Hsf) as (_ & Hk).
    pose proof (reserve_all_keeps PLT_SIZE files1 tabs) as Hkeep. rewrite Hres in Hkeep.
    eapply Forall2_trans; [| exact Hk | exact Hkeep].
    cbn. intros x y z (_ & Hxy) (_ & Hyz). rewrite <- Hxy. apply (Hyz TRelDyn). }
  split; [| split; [exact Hdone |]].
  - intros PLT_SIZE store files tabs i id f sym Hi Hin Hs Hd Ht. unfold scan_rels.
    rewrite (scan_files_static_fatal files store i id f sym Hi Hin Hs Hd); [reflexivity |].
    unfold tls_need. destruct Ht as [-> | ->]; [reflexivity | apply orb_true_r].
  - intros PLT_SIZE store files tabs Hno Hzero.
    destruct (scan_files_static_total files store) as ([store1 files1] & Hsf).
    { intros f id sym Hf Hin Hs Hd. destruct (Hno f id sym Hf Hin Hs Hd) as [H1 H2].
      unfold tls_need. rewrite H1, H2. reflexivity. }
    destruct (scan_rels PLT_SIZE true store files tabs) as [[[store' files'] tabs'] | msg] eqn:E.
    + exists store', files', tabs'. split; [reflexivity |].
      pose proof (Hdone _ _ _ _ _ _ _ E) as H2.
      apply List.Forall_forall. intros f' Hin'.
      apply list_elem_of_In, list_elem_of_lookup_1 in Hin' as [i Hi'].
      destruct (Forall2_lookup_r _ _ _ _ _ H2 Hi') as (f & Hf & ->).
      rewrite List.Forall_forall in Hzero. apply Hzero.
      apply list_elem_of_In. eapply list_elem_of_lookup_2. exact Hf.
    + unfold scan_rels in E. rewrite Hsf in E.
      destruct (reserve_all PLT_SIZE tabs files1). discriminate E.
Qed.

Lemma static_scan_tls_fatal_no_reldyn_witness :
  scan_rels 16 true [new_symbol (Some 0%nat) 6 HAS_TLSGD_REL] [new_file 0 [0%nat]]
    sample_tables = Fatal "not implemented" /\
  exists store' files' tabs',
    scan_rels 16 true sample_store sample_files sample_tables =
      Done (store', files', tabs') /\
    Forall (fun f' => num_reldyn f' = 0) files'.
Proof.
  destruct static_scan_tls_fatal_no_reldyn as (Hfatal & _ & Hdone). split.
  - apply (Hfatal 16 [new_symbol (Some 0%nat) 6 HAS_TLSGD_REL] [new_file 0 [0%nat]]
             sample_tables 0%nat 0%nat (new_file 0 [0%nat])
             (new_symbol (Some 0%nat) 6 HAS_TLSGD_REL));
      [reflexivity | left; reflexivity | reflexivity | reflexivity | left; reflexivity].
  - apply (Hdone 16 sample_store sample_files sample_tables); [| repeat constructor].
    intros f id sym Hf Hin Hs Hd.
    destruct Hf as [<- | [<- | []]]; cbn [symbols new_file] in Hin;
      repeat (destruct Hin as [<- | Hin]; [vm_compute in Hs; injection Hs as <-;
                                            split; reflexivity |]);
      destruct Hin.
Defined.

Lemma pair_inv_counts sym f :
  pair_inv (sym, f) ->
  0 <= num_got f /\ 0 <= num_plt f /\ 0 <= num_gotplt f /\ 0 <= num_relplt f.
Proof.
  intros (Hb & _). cbn [fst snd] in Hb.
  pose proof (Hb SGot). pose proof (Hb SPlt). pose proof (Hb SGotPlt). pose proof (Hb SRelPlt).
  cbn in *. lia.
Qed.

Lemma same_plt_fields_refl a : same_plt_fields a a.
Proof. repeat split. Qed.

Lemma same_plt_fields_trans a b c :
  same_plt_fields a b -> same_plt_fields b c -> same_plt_fields a c.
Proof.
  intros (A1 & A2 & A3 & A4 & A5 & A6) (B1 & B2 & B3 & B4 & B5 & B6).
  repeat split; congruence.
Qed.

Lemma dynamic_plt_slots_fields a b :
  same_plt_fields a b -> dynamic_plt_slots a -> dynamic_plt_slots b.
Proof.
  intros (A1 & A2 & A3 & A4 & A5 & A6). unfold dynamic_plt_slots.
  rewrite A1, A3, A4, A5, A6. exact (fun H => H).
Qed.

Lemma static_plt_slots_fields a b :
  same_plt_fields a b -> static_plt_slots a -> static_plt_slots b.
Proof.
  intros (A1 & A2 & A3 & A4 & A5 & A6). unfold static_plt_slots.
  rewrite A1, A2, A4, A5, A6. exact (fun H => H).
Qed.

Lemma dynamic_body_plt_slots id sym f :
  pair_inv (sym, f) ->
  no_plt_slots sym \/ dynamic_plt_slots sym ->
  dynamic_plt_slots (fst (dynamic_body id (sym, f))).
Proof.
  intros Hinv HQ. destruct (pair_inv_counts sym f Hinv) as (C1 & C2 & C3 & C4).
  unfold dynamic_body. cbn [fst snd].
  set (p1 := if has_flag (rels sym) HAS_GOT_REL then _ else _).
  assert (H1 : rels (fst (fst p1)) = rels sym /\ plt_idx (fst (fst p1)) = plt_idx sym /\
               gotplt_idx (fst (fst p1)) = gotplt_idx sym /\
               relplt_idx (fst (fst p1)) = relplt_idx sym /\
               (if has_flag (rels sym) HAS_GOT_REL then got_idx (fst (fst p1)) <> -1
                else got_idx (fst (fst p1)) = got_idx sym) /\
               0 <= num_plt (snd (fst p1)) /\ 0 <= num_gotplt (snd (fst p1)) /\
               0 <= num_relplt (snd (fst p1))).
  { subst p1. destruct (has_flag _ HAS_GOT_REL); cbn; repeat split; lia. }
  clearbody p1. destruct p1 as [[sym1 f1] n1]. cbn [fst snd] in H1.
  destruct H1 as (R1 & P1 & GP1 & RP1 & G1 & N1 & N2 & N3).
  set (p2 := if has_flag (rels sym) HAS_PLT_REL then _ else _).
  assert (H2 : dynamic_plt_slots (fst (fst p2))).
  { subst p2. unfold dynamic_plt_slots, no_plt_slots in *.
    destruct (has_flag (rels sym) HAS_PLT_REL) eqn:EP; cbn [fst snd].
    - destruct (Z.eqb_spec (got_idx (fst (assign SPlt 1 (sym1, f1)))) (-1)) as [E | E];
        cbn in E |- *; rewrite R1, EP;
        destruct (has_flag (rels sym) HAS_GOT_REL);
        (split; [intros _ |]); repeat split; try lia; try congruence;
        destruct HQ as [(Q1 & Q2 & Q3 & Q4) | (Q1 & Q2)]; try lia; try congruence;
        try (destruct (Q1 eq_refl) as (_ & Q5 & Q6); congruence).
    - rewrite R1, EP. split; [discriminate |].
      destruct (has_flag (rels sym) HAS_GOT_REL); [exact G1 |].
      destruct HQ as [(Q1 & _) | (_ & Q2)]; congruence. }
  clearbody p2. destruct p2 as [st2 n2]. cbn [fst] in H2.
  set (p3 := if has_flag (rels sym) HAS_TLSGD_REL then _ else _).
  assert (H3 : same_plt_fields (fst st2) (fst (fst p3))).
  { subst p3. destruct (has_flag _ HAS_TLSGD_REL); repeat split. }
  clearbody p3. destruct p3 as [st3 n3]. cbn [fst] in H3.
  set (p4 := if has_flag (rels sym) HAS_TLSLD_REL then _ else _).
  assert (H4 : same_plt_fields (fst st3) (fst (fst p4))).
  { subst p4. destruct (has_flag _ HAS_TLSLD_REL); repeat split. }
  clearbody p4. destruct p4 as [st4 n4]. cbn [fst] in H4.
  set (st5 := if has_flag (rels sym) HAS_GOTTP_REL then _ else _).
  assert (H5 : same_plt_fields (fst st4) (fst st5)).
  { subst st5. destruct (has_flag _ HAS_GOTTP_REL); repeat split. }
  clearbody st5.
  apply (dynamic_plt_slots_fields (fst st2)); [| exact H2].
  eapply same_plt_fields_trans; [exact H3 |].
  eapply same_plt_fields_trans; [exact H4 |].
  eapply same_plt_fields_trans; [exact H5 |].
  destruct n4; repeat split.
Qed.

Lemma static_body_plt_slots sym f st' :
  pair_inv (sym, f) ->
  no_plt_triple sym \/ static_plt_slots sym ->
  static_body (sym, f) = Done st' ->
  static_plt_slots (fst st').
Proof.
  intros Hinv HQ. destruct (pair_inv_counts sym f Hinv) as (C1 & C2 & C3 & C4).
  unfold static_body. cbn [fst snd].
  set (st1 := if has_flag (rels sym) HAS_GOT_REL then _ else _).
  assert (H1 : rels (fst st1) = rels sym /\ sym_type (fst st1) = sym_type sym /\
               plt_idx (fst st1) = plt_idx sym /\ gotplt_idx (fst st1) = gotplt_idx sym /\
               relplt_idx (fst st1) = relplt_idx sym /\
               0 <= num_plt (snd st1) /\ 0 <= num_gotplt (snd st1) /\
               0 <= num_relplt (snd st1)).
  { subst st1. destruct (has_flag _ HAS_GOT_REL); cbn; repeat split; lia. }
  clearbody st1. destruct st1 as [sym1 f1]. cbn [fst snd] in H1.
  destruct H1 as (R1 & T1 & P1 & GP1 & RP1 & N1 & N2 & N3). cbn [fst snd]. rewrite T1.
  set (st2 := if _ && _ then _ else _).
  assert (H2 : static_plt_slots (fst st2)).
  { subst st2. unfold static_plt_slots, no_plt_triple in *.
    destruct (has_flag (rels sym) HAS_PLT_REL && (sym_type sym =? STT_GNU_IFUNC)) eqn:E.
    - destruct sym1, f1. cbn in *. subst. rewrite E. repeat split; lia.
    - cbn [fst]. rewrite R1, T1, E, P1, GP1, RP1. destruct HQ as [HQ | HQ]; exact HQ. }
  clearbody st2.
  destruct (has_flag _ HAS_TLSGD_REL); [discriminate |].
  destruct (has_flag _ HAS_TLSLD_REL); [discriminate |].
  intros E. injection E as <-.
  apply (static_plt_slots_fields (fst st2)); [| exact H2].
  destruct (has_flag _ HAS_GOTTP_REL); repeat split.
Qed.

Lemma visited_weaken Q P st (D D' : nat -> Prop) :
  (forall i, D' i -> D i) -> visited Q P st D -> visited Q P st D'.
Proof. intros H (HQ & HP). split; [exact HQ |]. intros i a Hi. apply HP, H, Hi. Qed.

Lemma visited_skip Q P st (D : nat -> Prop) (id : nat) :
  (forall a, fst st !! id = Some a -> defined_by (snd st) a = false) ->
  visited Q P st D -> visited Q P st (fun i => i = id \/ D i).
Proof.
  intros Hskip (HQ & HP). split; [exact HQ |].
  intros i a [-> | Hi] Ha Hd; [| apply (HP i a Hi Ha Hd)].
  rewrite (Hskip a Ha) in Hd. discriminate Hd.
Qed.

Lemma visited_step Q P st (D : nat -> Prop) (id : nat) sym' f' :
  (forall a, P a -> Q a) ->
  (id < length (fst st))%nat -> file_id f' = file_id (snd st) -> P sym' ->
  visited Q P st D ->
  visited Q P (<[id := sym']> (fst st), f') (fun i => i = id \/ D i).
Proof.
  intros HPQ Hlt Hfid Hsym (HQ & HP).
  assert (Hdef : forall a, defined_by f' a = defined_by (snd st) a).
  { intros a. apply defined_by_same; [exact Hfid | reflexivity]. }
  unfold visited. cbn [fst snd]. split.
  - intros i a Hi Hd. rewrite Hdef in Hd. destruct (decide (id = i)) as [<- | Hne].
    + rewrite list_lookup_insert_eq in Hi by exact Hlt. injection Hi as <-. apply HPQ, Hsym.
    + rewrite list_lookup_insert_ne in Hi by exact Hne. apply (HQ i a Hi Hd).
  - intros i a HD Hi Hd. rewrite Hdef in Hd. destruct (decide (id = i)) as [<- | Hne].
    + rewrite list_lookup_insert_eq in Hi by exact Hlt. injection Hi as <-. exact Hsym.
    + rewrite list_lookup_insert_ne in Hi by exact Hne.
      destruct HD as [-> | HD]; [congruence | apply (HP i a HD Hi Hd)].
Qed.

Section LoopPost.
Variables Q P : Symbol -> Prop.
Hypothesis P_Q : forall a, P a -> Q a.

Lemma dynamic_visit_visited st (D : nat -> Prop) (id : nat) :
  (forall sym f, pair_inv (sym, f) -> Q sym -> P (fst (dynamic_body id (sym, f)))) ->
  store_inv (fst st) (snd st) -> visited Q P st D ->
  visited Q P (dynamic_visit st id) (fun i => i = id \/ D i).
Proof using P_Q.
  intros Hbody Hinv Hv. unfold dynamic_visit.
  destruct (fst st !! id) as [sym |] eqn:Hid.
  2: { apply visited_skip; [| exact Hv]. intros a Ha. rewrite Hid in Ha. discriminate Ha. }
  destruct (defined_by (snd st) sym) eqn:Hdef.
  2: { apply visited_skip; [| exact Hv]. intros a Ha. rewrite Hid in Ha. congruence. }
  pose proof (pair_inv_of_store _ _ _ _ Hinv Hid Hdef) as Hpi.
  pose proof (dynamic_body_since id sym (snd st) Hpi) as (_ & (_ & Hfid & _) & _).
  pose proof (Hbody sym (snd st) Hpi (proj1 Hv id sym Hid Hdef)) as HP.
  destruct (dynamic_body id (sym, snd st)) as [sym' f']. cbn [fst snd] in *.
  apply visited_step; [exact P_Q | eapply lookup_lt_Some; exact Hid | exact Hfid | exact HP | exact Hv].
Qed.

Lemma dynamic_fold_visited ids :
  (forall id sym f, pair_inv (sym, f) -> Q sym -> P (fst (dynamic_body id (sym, f)))) ->
  forall st (D : nat -> Prop),
  store_inv (fst st) (snd st) -> visited Q P st D ->
  visited Q P (foldl dynamic_visit st ids) (fun i => D i \/ In i ids).
Proof using P_Q.
  intros Hbody. induction ids as [| id ids IH]; intros st D Hinv Hv; cbn [foldl].
  - eapply visited_weaken; [| exact Hv]. cbn. intros i [H | []]. exact H.
  - pose proof (dynamic_visit_visited st D id (Hbody id) Hinv Hv) as H1.
    pose proof (dynamic_visit_ok st id Hinv) as (Hinv1 & _).
    eapply visited_weaken; [| apply (IH _ _ Hinv1 H1)].
    cbn. intros i [H | [<- | H]]; auto.
Qed.

Lemma static_visit_visited st (D : nat -> Prop) (id : nat) st' :
  (forall sym f r, pair_inv (sym, f) -> Q sym -> static_body (sym, f) = Done r -> P (fst r)) ->
  store_inv (fst st) (snd st) -> visited Q P st D ->
  static_visit st id = Done st' ->
  visited Q P st' (fun i => i = id \/ D i).
Proof using P_Q.
  intros Hbody Hinv Hv. unfold static_visit.
  destruct (fst st !! id) as [sym |] eqn:Hid.
  2: { intros E. injection E as <-. apply visited_skip; [| exact Hv].
       intros a Ha. rewrite Hid in Ha. discriminate Ha. }
  destruct (defined_by (snd st) sym) eqn:Hdef.
  2: { intros E. injection E as <-. apply visited_skip; [| exact Hv].
       intros a Ha. rewrite Hid in Ha. congruence. }
  pose proof (pair_inv_of_store _ _ _ _ Hinv Hid Hdef) as Hpi.
  destruct (static_body (sym, snd st)) as [[sym' f'] | msg] eqn:Hb; [| discriminate].
  intros E. injection E as <-.
  destruct (static_body_keeps _ _ _ _ Hb) as (_ & (Hfid & _) & _).
  pose proof (Hbody sym (snd st) _ Hpi (proj1 Hv id sym Hid Hdef) Hb) as HP.
  apply visited_step; [exact P_Q | eapply lookup_lt_Some; exact Hid | exact Hfid | exact HP | exact Hv].
Qed.

Lemma visit_all_visited ids :
  (forall sym f r, pair_inv (sym, f) -> Q sym -> static_body (sym, f) = Done r -> P (fst r)) ->
  forall st st' (D : nat -> Prop),
  store_inv (fst st) (snd st) -> visited Q P st D ->
  visit_all st ids = Done st' ->
  visited Q P st' (fun i => D i \/ In i ids).
Proof using P_Q.
  intros Hbody. induction ids as [| id ids IH]; intros st st' D Hinv Hv H; cbn [visit_all] in H.
  - injection H as <-. eapply visited_weaken; [| exact Hv]. cbn. intros i [Hi | []]. exact Hi.
  - destruct (static_visit st id) as [st1 | msg] eqn:Hs; [| discriminate].
    pose proof (static_visit_visited st D id st1 Hbody Hinv Hv Hs) as H1.
    pose proof (static_visit_ok st id st1 Hinv Hs) as (Hinv1 & _).
    eapply visited_weaken; [| apply (IH _ _ _ Hinv1 H1 H)].
    cbn. intros i [Hi | [<- | Hi]]; auto.
Qed.

End LoopPost.

(** C3, as the code has it.  In [scan_rels_dynamic], started on symbols
    without slots, every symbol of the file's list that the file defines
    and that has [HAS_PLT_REL] gets a [plt_idx], whatever its type; it
    gets a [gotplt_idx] and a [relplt_idx] exactly when it has no
    [HAS_GOT_REL] (a symbol with a GOT slot keeps both at -1).  In
    [scan_rels_static], a defined IFUNC symbol with [HAS_PLT_REL] gets all
    three indices, and no other symbol gets any of them. *)
Theorem plt_slot_assignment :
  (forall store f (id : nat) sym,
     Forall unassigned store -> (forall t, count t f = 0) ->
     In id (symbols f) -> store !! id = Some sym -> defined_by f sym = true ->
     has_flag (rels sym) HAS_PLT_REL = true ->
     exists sym',
       fst (scan_rels_dynamic store f) !! id = Some sym' /\
       rels sym' = rels sym /\ sym_type sym' = sym_type sym /\
       plt_idx sym' <> -1 /\
       (has_flag (rels sym) HAS_GOT_REL = false ->
          gotplt_idx sym' <> -1 /\ relplt_idx sym' <> -1) /\
       (has_flag (rels sym) HAS_GOT_REL = true ->
          got_idx sym' <> -1 /\ gotplt_idx sym' = -1 /\ relplt_idx sym' = -1)) /\
  (forall store f store' f',
     Forall unassigned store -> (forall t, count t f = 0) ->
     scan_rels_static store f = Done (store', f') ->
     (forall (id : nat) sym,
        In id (symbols f) -> store !! id = Some sym -> defined_by f sym = true ->
        has_flag (rels sym) HAS_PLT_REL = true -> sym_type sym = STT_GNU_IFUNC ->
        exists sym', store' !! id = Some sym' /\
          plt_idx sym' <> -1 /\ gotplt_idx sym' <> -1 /\ relplt_idx sym' <> -1) /\
     (forall (id : nat) sym', store' !! id = Some sym' ->
        plt_idx sym' <> -1 \/ gotplt_idx sym' <> -1 \/ relplt_idx sym' <> -1 ->
        has_flag (rels sym') HAS_PLT_REL = true /\ sym_type sym' = STT_GNU_IFUNC)).
Proof.
  split.
  - intros store f id sym Hun Hzero Hin Hs Hd HP.
    pose proof (store_inv_unassigned store f Hun Hzero) as Hinv.
    assert (Hv0 : visited (fun a => no_plt_slots a \/ dynamic_plt_slots a) dynamic_plt_slots
                    (store, f) (fun _ => False)).
    { split; [| intros i a []]. intros i a Hi _. left.
      rewrite List.Forall_forall in Hun.
      assert (Ha : unassigned a)
        by (apply Hun, list_elem_of_In; eapply list_elem_of_lookup_2; exact Hi).
      repeat split; [apply (Ha SGot) | apply (Ha SPlt) | apply (Ha SGotPlt) | apply (Ha SRelPlt)]. }
    pose proof (dynamic_fold_visited _ _ (fun a H => or_intror H) (symbols f)
                  dynamic_body_plt_slots (store, f) _ Hinv Hv0) as (_ & HPost).
    pose proof (dynamic_fold_ok (symbols f) (store, f) Hinv) as (_ & (_ & Hfid & _) & Hev).
    fold (scan_rels_dynamic store f) in HPost, Hfid, Hev. cbn [fst snd] in Hfid, Hev.
    destruct (Forall2_lookup_l _ _ _ _ _ Hev Hs) as (sym' & Hs' & (M1 & M2 & M3 & _) & _).
    assert (Hd' : defined_by (snd (scan_rels_dynamic store f)) sym' = true).
    { rewrite <- Hd. apply defined_by_same; assumption. }
    destruct (HPost id sym' (or_intror Hin) Hs' Hd') as (P1 & P2).
    rewrite M3 in P1, P2. destruct (P1 HP) as (P3 & P4).
    exists sym'. split; [exact Hs' |]. split; [exact M3 |]. split; [exact M2 |].
    split; [exact P3 |]. split; intros HG; rewrite HG in P2, P4; [exact P4 |].
    split; [exact P2 | exact P4].
  - intros store f store' f' Hun Hzero Hscan.
    pose proof (store_inv_unassigned store f Hun Hzero) as Hinv.
    assert (Hv0 : visited (fun a => no_plt_triple a \/ static_plt_slots a) static_plt_slots
                    (store, f) (fun _ => False)).
    { split; [| intros i a []]. intros i a Hi _. left.
      rewrite List.Forall_forall in Hun.
      assert (Ha : unassigned a)
        by (apply Hun, list_elem_of_In; eapply list_elem_of_lookup_2; exact Hi).
      repeat split; [apply (Ha SPlt) | apply (Ha SGotPlt) | apply (Ha SRelPlt)]. }
    unfold scan_rels_static in Hscan.
    pose proof (visit_all_visited _ _ (fun a H => or_intror H) (symbols f)
                  static_body_plt_slots (store, f) (store', f') _ Hinv Hv0 Hscan)
      as (HQ & HPost).
    pose proof (visit_all_ok (symbols f) (store, f) (store', f') Hinv Hscan)
      as (_ & (_ & Hfid & _) & Hev).
    cbn [fst snd] in *. split.
    + intros id sym Hin Hs Hd HP Ht.
      destruct (Forall2_lookup_l _ _ _ _ _ Hev Hs) as (sym' & Hs' & (M1 & M2 & M3 & _) & _).
      assert (Hd' : defined_by f' sym' = true).
      { rewrite <- Hd. apply defined_by_same; assumption. }
      pose proof (HPost id sym' (or_intror Hin) Hs' Hd') as Hp.
      unfold static_plt_slots in Hp. rewrite M3, M2, HP, Ht in Hp.
      exists sym'. split; [exact Hs' | exact Hp].
    + intros id sym' Hs' Hassigned.
      destruct (Forall2_lookup_r _ _ _ _ _ Hev Hs') as (a & Ha & (M1 & _) & Hu).
      destruct (defined_by f a) eqn:Hda.
      * assert (Hd' : defined_by f' sym' = true).
        { rewrite <- Hda. apply defined_by_same; assumption. }
        destruct (HQ id sym' Hs' Hd') as [(Q1 & Q2 & Q3) | Hp]; [tauto |].
        unfold static_plt_slots in Hp.
        destruct (has_flag (rels sym') HAS_PLT_REL); [| cbn in Hp; tauto].
        destruct (Z.eqb_spec (sym_type sym') STT_GNU_IFUNC); [auto | cbn in Hp; tauto].
      * rewrite (Hu eq_refl) in Hassigned. rewrite List.Forall_forall in Hun.
        assert (Hua : unassigned a)
          by (apply Hun, list_elem_of_In; eapply list_elem_of_lookup_2; exact Ha).
        pose proof (Hua SPlt). pose proof (Hua SGotPlt). pose proof (Hua SRelPlt).
        cbn in *. tauto.
Qed.

Lemma plt_slot_assignment_witness :
  (exists sym',
     fst (scan_rels_dynamic sample_store (new_file 0 [0; 1; 2; 5]%nat)) !! 1%nat = Some sym' /\
     plt_idx sym' <> -1 /\ gotplt_idx sym' <> -1 /\ relplt_idx sym' <> -1) /\
  (exists sym',
     fst (scan_rels_dynamic sample_store (new_file 0 [0; 1; 2; 5]%nat)) !! 2%nat = Some sym' /\
     plt_idx sym' <> -1 /\ gotplt_idx sym' = -1 /\ relplt_idx sym' = -1).
Proof.
  assert (Hun : Forall unassigned sample_store)
    by (repeat constructor; intros s; destruct s; reflexivity).
  assert (Hz : forall t, count t (new_file 0 [0; 1; 2; 5]%nat) = 0)
    by (intros t; destruct t; reflexivity).
  split.
  - destruct (proj1 plt_slot_assignment sample_store (new_file 0 [0; 1; 2; 5]%nat) 1%nat
                (new_symbol (Some 0%nat) 2 HAS_PLT_REL) Hun Hz
                ltac:(cbn; tauto) eq_refl eq_refl eq_refl)
      as (sym' & H1 & _ & _ & H2 & H3 & _).
    exists sym'. split; [exact H1 |]. split; [exact H2 | exact (H3 eq_refl)].
  - destruct (proj1 plt_slot_assignment sample_store (new_file 0 [0; 1; 2; 5]%nat) 2%nat
                (new_symbol (Some 0%nat) 2 (Z.lor HAS_GOT_REL HAS_PLT_REL)) Hun Hz
                ltac:(cbn; tauto) eq_refl eq_refl eq_refl)
      as (sym' & H1 & _ & _ & H2 & _ & H3).
    exists sym'. split; [exact H1 |]. split; [exact H2 | exact (proj2 (H3 eq_refl))].
Defined.

(** C3 as the spec words it does not hold for a symbol that needs both a
    GOT and a PLT entry: it is not an IFUNC, has [HAS_PLT_REL], and leaves
    [scan_rels_dynamic] with a [plt_idx] but no GOTPLT or RELPLT slot. *)
Lemma dynamic_plt_with_got_has_no_gotplt :
  exists sym sym',
    sample_store !! 2%nat = Some sym /\
    defined_by (new_file 0 [0; 1; 2; 5]%nat) sym = true /\
    has_flag (rels sym) HAS_PLT_REL = true /\
    sym_type sym <> STT_GNU_IFUNC /\
    fst (scan_rels_dynamic sample_store (new_file 0 [0; 1; 2; 5]%nat)) !! 2%nat = Some sym' /\
    plt_idx sym' = 1 /\ gotplt_idx sym' = -1 /\ relplt_idx sym' = -1.
Proof.
  exists (new_symbol (Some 0%nat) 2 (Z.lor HAS_GOT_REL HAS_PLT_REL)),
         (mkSymbol (Some 0%nat) 2 3 1 1 (-1) (-1) (-1) (-1) (-1) (-1)).
  split; [vm_compute; reflexivity |]. split; [vm_compute; reflexivity |].
  split; [vm_compute; reflexivity |]. split; [vm_compute; discriminate |].
  split; [vm_compute; reflexivity |]. repeat split.
Qed.

End ScanFacts.

(** ** The writer pass for GOT, PLT, GOTPLT and RELPLT *)

Section WriterTheory.
Import Scan.

Section WriterFacts.
Variables get_addr get_got_addr get_gotplt_addr get_plt_addr : Symbol -> Z.
Variable tls_end : Z.
Variable is_static : bool.
Variable out : Writer.Sections.

(** What the pass writes for a symbol with a RELPLT index: an IRELATIVE
    relocation with the symbol's address as addend for an IFUNC, else a
    JUMP_SLOT relocation and [plt_addr + 6] at [gotplt_idx * 24] bytes
    into the file's GOTPLT range. *)
Lemma write_symbol_relplt file (id : nat) sym r ws r' :
  Writer.write_symbol get_addr get_got_addr get_gotplt_addr get_plt_addr
      tls_end is_static out file id sym r = Done (ws, r') ->
  relplt_idx sym <> -1 ->
  let relplt := Writer.relplt_sh_offset out + relplt_offset file in
  let gotplt := Writer.gotplt_sh_offset out + gotplt_offset file in
  if sym_type sym =? STT_GNU_IFUNC then
    In (Writer.StoreRela (relplt + relplt_idx sym * sizeof_Rela) R_X86_64_IRELATIVE
          (get_gotplt_addr sym) (dynsym_idx sym) (get_addr sym)) ws
  else
    In (Writer.StoreRela (relplt + relplt_idx sym * sizeof_Rela) R_X86_64_JUMP_SLOT
          (get_gotplt_addr sym) (dynsym_idx sym) 0) ws /\
    In (Writer.Store64 (gotplt + gotplt_idx sym * sizeof_Sym)
          (wrap64 (get_plt_addr sym + 6))) ws.
Proof.
  unfold Writer.write_symbol. intros H Hrel.
  set (p1 := if negb (got_idx sym =? -1) then _ else _) in H.
  destruct p1 as [w1 r1].
  destruct (negb (gotgd_idx sym =? -1)); [discriminate |].
  destruct (negb (gotld_idx sym =? -1)); [discriminate |].
  injection H as <- _.
  destruct (Z.eqb_spec (relplt_idx sym) (-1)) as [E | _]; [contradiction |].
  cbn [negb]. cbv zeta.
  destruct (sym_type sym =? STT_GNU_IFUNC).
  - apply in_or_app; right. apply in_or_app; right. apply in_or_app; right. left. reflexivity.
  - split; (apply in_or_app; right; apply in_or_app; right; apply in_or_app; right);
      [left | right; left]; reflexivity.
Qed.

Lemma write_symbols_member store file ids : forall r ws (id : nat) sym,
  Writer.write_symbols get_addr get_got_addr get_gotplt_addr get_plt_addr
      tls_end is_static out store file ids r = Done ws ->
  In id ids -> store !! id = Some sym -> defined_by file sym = true ->
  exists r0 ws0 r1,
    Writer.write_symbol get_addr get_got_addr get_gotplt_addr get_plt_addr
      tls_end is_static out file id sym r0 = Done (ws0, r1) /\ forall w, In w ws0 -> In w ws.
Proof.
  induction ids as [| id0 ids IH]; intros r ws id sym H Hin Hs Hd; [destruct Hin |].
  cbn [Writer.write_symbols] in H.
  destruct (store !! id0) as [sym0 |] eqn:Hs0.
  2: { destruct Hin as [-> | Hin]; [congruence | apply (IH _ _ _ _ H Hin Hs Hd)]. }
  destruct (defined_by file sym0) eqn:Hd0.
  2: { destruct Hin as [-> | Hin]; [congruence | apply (IH _ _ _ _ H Hin Hs Hd)]. }
  destruct (Writer.write_symbol get_addr get_got_addr get_gotplt_addr get_plt_addr
      tls_end is_static out file id0 sym0 r) as [[ws0 r1] | msg] eqn:Hw; [| discriminate].
  destruct (Writer.write_symbols get_addr get_got_addr get_gotplt_addr get_plt_addr
      tls_end is_static out store file ids r1) as [ws1 | msg] eqn:Hrest; [| discriminate].
  injection H as <-. destruct Hin as [-> | Hin].
  - rewrite Hs in Hs0. injection Hs0 as <-.
    exists r, ws0, r1. split; [exact Hw |]. intros w Hw0. apply in_or_app. left. exact Hw0.
  - destruct (IH _ _ _ _ Hrest Hin Hs Hd) as (r0 & wsx & rx & Hx & Hsub).
    exists r0, wsx, rx. split; [exact Hx |]. intros w Hw0. apply in_or_app. right. auto.
Qed.

End WriterFacts.

Lemma two_plt_scanned :
  scan_rels 16 false
    [new_symbol (Some 0%nat) 2 HAS_PLT_REL; new_symbol (Some 0%nat) 2 HAS_PLT_REL]
    [new_file 0 [0; 1]%nat] (mkTables 0 0 0 0 (Some 0) []) =
  Done (Writer.two_plt_store, [Writer.two_plt_file 0 0 0 0 0], Writer.two_plt_tables).
Proof. vm_compute. reflexivity. Qed.

(** C2 on the code.  For the file with two PLT-only functions, whatever
    the addresses, the section offsets and the file's base offsets: the
    pass writes the JUMP_SLOT relocations at the RELPLT slots 0 and 1, but
    the value [plt_addr + 6] of the second symbol goes to byte 24 of the
    file's GOTPLT range, which is past the [num_gotplt * GOT_SIZE = 16]
    bytes reserved for the file; no store touches the symbol's own slot,
    bytes 8 to 16 of the range. *)
Theorem write_got_plt_gotplt_slot_misplaced
    (get_addr get_got_addr get_gotplt_addr get_plt_addr : Symbol -> Z)
    (tls_end : Z) (out : Writer.Sections)
    (got_off plt_off gotplt_off relplt_off reldyn_off : Z) :
  let a := mkSymbol (Some 0%nat) 2 HAS_PLT_REL (-1) 0 0 0 (-1) (-1) (-1) (-1) in
  let b := mkSymbol (Some 0%nat) 2 HAS_PLT_REL (-1) 1 1 1 (-1) (-1) (-1) (-1) in
  let file := Writer.two_plt_file got_off plt_off gotplt_off relplt_off reldyn_off in
  let gotplt := Writer.gotplt_sh_offset out + gotplt_offset file in
  let relplt := Writer.relplt_sh_offset out + relplt_offset file in
  let ws :=
    [ Writer.PltEntry 0;
      Writer.StoreRela (relplt + 0 * 24) R_X86_64_JUMP_SLOT (get_gotplt_addr a) (-1) 0;
      Writer.Store64 (gotplt + 0 * 24) (wrap64 (get_plt_addr a + 6));
      Writer.PltEntry 1;
      Writer.StoreRela (relplt + 1 * 24) R_X86_64_JUMP_SLOT (get_gotplt_addr b) (-1) 0;
      Writer.Store64 (gotplt + 1 * 24) (wrap64 (get_plt_addr b + 6)) ] in
  Writer.write_file get_addr get_got_addr get_gotplt_addr get_plt_addr tls_end false out
    Writer.two_plt_store file = Done ws /\
  gotplt + num_gotplt file * GOT_SIZE <= gotplt + 1 * 24 /\
  Forall (fun w => ~ Writer.covers w (gotplt + gotplt_idx b * GOT_SIZE)
                                     (gotplt + gotplt_idx b * GOT_SIZE + GOT_SIZE)) ws.
Proof.
  cbv zeta. split; [reflexivity |]. split; [cbn; unfold GOT_SIZE; lia |].
  repeat constructor; cbn; unfold GOT_SIZE; try tauto; lia.
Qed.

End WriterTheory.

(** ** The filler option *)

Section FillerFacts.
Import Filler.

Lemma substring_all s : String.substring 0 (String.length s) s = s.
Proof. induction s as [| c s IH]; [reflexivity |]. cbn. rewrite IH. reflexivity. Qed.

(** The remainder after the two characters "0x". *)
Lemma remainder_after_0x rest :
  String.prefix "0x" ("0x" ++ rest) = true /\
  String.substring 2 (String.length ("0x" ++ rest) - 2) ("0x" ++ rest) = rest.
Proof.
  split; [destruct rest; reflexivity |].
  cbn [String.append String.length Nat.sub String.substring].
  rewrite Nat.sub_0_r. apply substring_all.
Qed.

Lemma hex_digit_range c d : hex_digit c = Some d -> 0 <= d < 16.
Proof.
  unfold hex_digit. set (n := Z.of_nat (nat_of_ascii c)).
  destruct (Z.leb_spec 48 n), (Z.leb_spec n 57); cbn [andb];
    [intros E; injection E as <-; lia | | |];
    (destruct (Z.leb_spec 97 n), (Z.leb_spec n 102); cbn [andb];
     [intros E; injection E as <-; lia | | |];
     (destruct (Z.leb_spec 65 n), (Z.leb_spec n 70); cbn [andb];
      [intros E; injection E as <-; lia | | |]; discriminate)).
Qed.

Lemma hex_digits_lower s : forall acc v, hex_digits acc s = Some v -> 0 <= acc -> acc <= v.
Proof.
  induction s as [| c s IH]; intros acc v H Hacc; cbn [hex_digits] in H.
  - injection H as <-. lia.
  - destruct (hex_digit c) as [d |] eqn:Hd; [| discriminate H].
    pose proof (hex_digit_range c d Hd). specialize (IH _ _ H ltac:(lia)). lia.
Qed.

(** A numeral that starts with a digit is read without a sign. *)
Lemma hex_to_integer_unsigned digits v :
  digits <> EmptyString -> hex_digits 0 digits = Some v ->
  hex_to_integer digits = if v <? 2 ^ 31 then Some v else None.
Proof.
  intros Hne Hv. pose proof (hex_digits_lower _ _ _ Hv ltac:(lia)) as H0.
  destruct digits as [| c rest]; [congruence |].
  assert (Hc : c <> "-"%char).
  { intros ->. cbn in Hv. discriminate Hv. }
  assert (E : hex_to_integer (String c rest) =
              match hex_digits 0 (String c rest) with
              | Some v => if (- 2 ^ 31 <=? v) && (v <? 2 ^ 31) then Some v else None
              | None => None
              end).
  { unfold hex_to_integer.
    destruct c as [[] [] [] [] [] [] [] []]; try reflexivity.
    contradiction Hc. reflexivity. }
  rewrite E, Hv. destruct (Z.leb_spec (- 2 ^ 31) v); [reflexivity | lia].
Qed.

(** A minus sign in front of the digits. *)
Lemma hex_to_integer_minus digits v :
  digits <> EmptyString -> hex_digits 0 digits = Some v ->
  hex_to_integer (String "-" digits) = if v <=? 2 ^ 31 then Some (- v) else None.
Proof.
  intros Hne Hv. pose proof (hex_digits_lower _ _ _ Hv ltac:(lia)) as H0.
  destruct digits as [| c rest]; [congruence |].
  unfold hex_to_integer. rewrite Hv. cbn [option_map].
  destruct (Z.leb_spec (- 2 ^ 31) (- v)), (Z.ltb_spec (- v) (2 ^ 31)),
    (Z.leb_spec v (2 ^ 31)); cbn [andb]; try reflexivity; lia.
Qed.

(** What is not a numeral is not read. *)
Lemma hex_to_integer_none rest :
  hex_digits 0 rest = None ->
  (forall tail, rest = String "-" tail -> hex_digits 0 tail = None) ->
  hex_to_integer rest = None.
Proof.
  intros Hv Hm. destruct rest as [| c tail]; [reflexivity |].
  destruct (ascii_dec c "-") as [-> | Hc].
  - unfold hex_to_integer. rewrite (Hm tail eq_refl).
    destruct tail; reflexivity.
  - assert (E : hex_to_integer (String c tail) =
              match hex_digits 0 (String c tail) with
              | Some v => if (- 2 ^ 31 <=? v) && (v <? 2 ^ 31) then Some v else None
              | None => None
              end).
    { unfold hex_to_integer.
      destruct c as [[] [] [] [] [] [] [] []]; try reflexivity.
      contradiction Hc. reflexivity. }
    rewrite E, Hv. reflexivity.
Qed.

Lemma prefill_byte_u8 v : prefill_byte (v mod 256) = Some (v mod 256).
Proof.
  pose proof (Z.mod_pos_bound v 256 ltac:(lia)) as Hr.
  unfold prefill_byte, wrap8.
  destruct (Z.eqb_spec (v mod 256) (-1)) as [E | _]; [lia |].
  change (2 ^ 8) with 256. rewrite Z.mod_mod by lia. reflexivity.
Qed.

Lemma parse_filler_0x rest text :
  parse_filler hex_to_integer (Some (mkArg ("0x" ++ rest) text)) =
  match hex_to_integer rest with
  | Some ret => Done (ret mod 256)
  | None => Fatal ("invalid argument: " ++ text)
  end.
Proof.
  unfold parse_filler. cbn [getValue getAsString].
  destruct (remainder_after_0x rest) as [-> ->]. reflexivity.
Qed.

End FillerFacts.

(** C9. [parse_filler] with [to_integer] reading into an [int]: without
    a [-filler] argument the result is -1 and nothing is prefilled.  An
    argument "0x" followed by hexadecimal digits of value [v] is accepted
    exactly when [v] is below 2^31; it then gives [v mod 256], between 0
    and 255, with no diagnostic however far [v] is above 0xFF, and this
    is the byte the output is prefilled with.  With a minus sign in front
    of the digits the value [- v] is accepted down to - 2^31 and gives
    [(- v) mod 256].  An argument that does not start with "0x", whose
    remainder is empty or not a numeral, or whose value does not fit an
    [int], is a fatal error. *)
Theorem parse_filler_int_range (text : string) :
  Filler.parse_filler Filler.hex_to_integer None = Done (-1) /\
  Filler.prefill_byte (-1) = None /\
  (forall digits v,
     digits <> EmptyString -> Filler.hex_digits 0 digits = Some v ->
     0 <= v /\
     (v < 2 ^ 31 ->
      Filler.parse_filler Filler.hex_to_integer (Some (Filler.mkArg ("0x" ++ digits) text))
        = Done (v mod 256) /\
      0 <= v mod 256 < 256 /\
      Filler.prefill_byte (v mod 256) = Some (v mod 256)) /\
     (2 ^ 31 <= v ->
      Filler.parse_filler Filler.hex_to_integer (Some (Filler.mkArg ("0x" ++ digits) text))
        = Fatal ("invalid argument: " ++ text)) /\
     (v <= 2 ^ 31 ->
      Filler.parse_filler Filler.hex_to_integer (Some (Filler.mkArg ("0x-" ++ digits) text))
        = Done ((- v) mod 256) /\
      Filler.prefill_byte ((- v) mod 256) = Some ((- v) mod 256)) /\
     (2 ^ 31 < v ->
      Filler.parse_filler Filler.hex_to_integer (Some (Filler.mkArg ("0x-" ++ digits) text))
        = Fatal ("invalid argument: " ++ text))) /\
  (forall val,
     String.prefix "0x" val = false ->
     Filler.parse_filler Filler.hex_to_integer (Some (Filler.mkArg val text))
       = Fatal ("invalid argument: " ++ text)) /\
  (forall rest,
     Filler.hex_digits 0 rest = None ->
     (forall tail, rest = String "-" tail -> Filler.hex_digits 0 tail = None) ->
     Filler.parse_filler Filler.hex_to_integer (Some (Filler.mkArg ("0x" ++ rest) text))
       = Fatal ("invalid argument: " ++ text)) /\
  Filler.parse_filler Filler.hex_to_integer (Some (Filler.mkArg "0x" text))
    = Fatal ("invalid argument: " ++ text) /\
  Filler.parse_filler Filler.hex_to_integer (Some (Filler.mkArg "0x-" text))
    = Fatal ("invalid argument: " ++ text).
Proof.
  split; [reflexivity |]. split; [reflexivity |].
  split; [| split; [| split; [| split; reflexivity]]].
  - intros digits v Hne Hv.
    pose proof (hex_digits_lower _ _ _ Hv ltac:(lia)) as H0.
    split; [exact H0 |]. split; [| split; [| split]].
    + intros Hlt. rewrite parse_filler_0x, (hex_to_integer_unsigned _ _ Hne Hv).
      destruct (Z.ltb_spec v (2 ^ 31)); [| lia].
      split; [reflexivity |]. split; [apply Z.mod_pos_bound; lia | apply prefill_byte_u8].
    + intros Hge. rewrite parse_filler_0x, (hex_to_integer_unsigned _ _ Hne Hv).
      destruct (Z.ltb_spec v (2 ^ 31)); [lia | reflexivity].
    + intros Hle.
      change ("0x-" ++ digits)%string with ("0x" ++ String "-" digits)%string.
      rewrite parse_filler_0x, (hex_to_integer_minus _ _ Hne Hv).
      destruct (Z.leb_spec v (2 ^ 31)); [| lia].
      split; [reflexivity | apply prefill_byte_u8].
    + intros Hgt.
      change ("0x-" ++ digits)%string with ("0x" ++ String "-" digits)%string.
      rewrite parse_filler_0x, (hex_to_integer_minus _ _ Hne Hv).
      destruct (Z.leb_spec v (2 ^ 31)); [lia | reflexivity].
  - intros val Hp. unfold Filler.parse_filler. cbn [Filler.getValue Filler.getAsString].
    rewrite Hp. reflexivity.
  - intros rest Hv Hm. rewrite parse_filler_0x, (hex_to_integer_none _ Hv Hm). reflexivity.
Qed.

Lemma parse_filler_int_range_witness :
  Filler.parse_filler Filler.hex_to_integer (Some (Filler.mkArg "0x1fe" "-filler 0x1fe")) =
    Done 254 /\
  Filler.parse_filler Filler.hex_to_integer
    (Some (Filler.mkArg "0x-1" "-filler 0x-1")) = Done 255 /\
  Filler.parse_filler Filler.hex_to_integer (Some (Filler.mkArg "254" "-filler 254")) =
    Fatal "invalid argument: -filler 254" /\
  Filler.parse_filler Filler.hex_to_integer (Some (Filler.mkArg "0xzz" "-filler 0xzz")) =
    Fatal "invalid argument: -filler 0xzz".
Proof.
  split; [| split; [| split]].
  - destruct (parse_filler_int_range "-filler 0x1fe") as (_ & _ & H & _).
    destruct (H "1fe"%string 510 ltac:(discriminate) eq_refl) as (_ & Hok & _).
    exact (proj1 (Hok ltac:(lia))).
  - destruct (parse_filler_int_range "-filler 0x-1") as (_ & _ & H & _).
    destruct (H "1"%string 1 ltac:(discriminate) eq_refl) as (_ & _ & _ & Hok & _).
    exact (proj1 (Hok ltac:(lia))).
  - destruct (parse_filler_int_range "-filler 254") as (_ & _ & _ & H & _).
    exact (H "254"%string eq_refl).
  - destruct (parse_filler_int_range "-filler 0xzz") as (_ & _ & _ & _ & H & _).
    apply (H "zz"%string eq_refl). intros tail E. discriminate E.
Defined.

(** C9, not every hexadecimal integer is accepted: the argument
    0x80000000 is "0x" followed by a hexadecimal integer, and it is
    refused, since the integer does not fit the [int] that [to_integer]
    fills. *)
Lemma parse_filler_rejects_hex_beyond_int :
  String.prefix "0x" "0x80000000" = true /\
  Filler.hex_digits 0 "80000000" = Some 2147483648 /\
  Filler.parse_filler Filler.hex_to_integer
    (Some (Filler.mkArg "0x80000000" "-filler 0x80000000")) =
    Fatal "invalid argument: -filler 0x80000000".
Proof. split; [reflexivity |]. split; vm_compute; reflexivity. Qed.

(** ** Shape of the slices of [split] *)

Lemma split_shape {T} (fuel : nat) : forall (arr : list T) unit vec,
  to_size_t unit <> 0 ->
  split fuel arr unit = Some vec ->
  Forall (fun sl => 1 <= Z.of_nat (length sl) <= to_size_t unit) vec /\
  (forall (i : nat) sl, vec !! i = Some sl -> (S i < length vec)%nat ->
     Z.of_nat (length sl) = to_size_t unit) /\
  Z.of_nat (length vec) =
    (Z.of_nat (length arr) + to_size_t unit - 1) / to_size_t unit.
Proof.
  induction fuel as [| fuel IH]; intros arr unit vec Hu H; [discriminate H |].
  pose proof (wrap64_range unit) as Hr. fold (to_size_t unit) in Hr.
  cbn [split] in H.
  destruct (Z.geb_spec (Z.of_nat (length arr)) (to_size_t unit)) as [Hge | Hlt].
  - destruct (split fuel _ unit) as [v |] eqn:E; [| discriminate H].
    injection H as <-. destruct (IH _ _ _ Hu E) as (Hall & Hfull & Hcnt).
    assert (Htake : Z.of_nat (length (take (Z.to_nat (to_size_t unit)) arr)) = to_size_t unit).
    { rewrite length_take. lia. }
    split; [| split].
    + constructor; [lia | exact Hall].
    + intros i sl Hi Hlt. destruct i as [| i].
      * cbn in Hi. injection Hi as <-. exact Htake.
      * cbn in Hi, Hlt. apply (Hfull i sl Hi). lia.
    + cbn [length]. rewrite Nat2Z.inj_succ, Hcnt, length_drop.
      replace (Z.of_nat (length arr) + to_size_t unit - 1)
        with (Z.of_nat (length arr - Z.to_nat (to_size_t unit)) + to_size_t unit - 1
              + 1 * to_size_t unit) by lia.
      rewrite Z.div_add by lia. lia.
  - injection H as <-. destruct arr as [| x arr].
    + split; [constructor |]. split; [intros i sl Hi; discriminate Hi |].
      cbn [length]. symmetry. apply Z.div_small. lia.
    + split; [| split].
      * constructor; [| constructor]. cbn [length] in *. lia.
      * intros i sl Hi Hl. cbn in Hl. lia.
      * cbn [length] in *.
        apply Z.div_unique with (r := Z.of_nat (S (length arr)) - 1); lia.
Qed.

(** X1. [split] with a positive [int] unit returns non-empty slices of at
    most [unit] elements; every slice but the last has exactly [unit]
    elements; and the number of slices is the input length divided by
    [unit], rounded up.  With a negative unit (a huge [size_t]) the loop
    body never runs and the result is the whole input as one slice, or no
    slice for an empty input. *)
Theorem split_slice_lengths (T : Type) (fuel : nat) (arr : list T) (unit : Z)
    (vec : list (list T)) :
  - 2 ^ 31 <= unit < 2 ^ 31 -> unit <> 0 ->
  Z.of_nat (length arr) < 2 ^ 63 ->
  split fuel arr unit = Some vec ->
  (0 < unit ->
     Forall (fun sl => 1 <= Z.of_nat (length sl) <= unit) vec /\
     (forall (i : nat) sl, vec !! i = Some sl -> (S i < length vec)%nat ->
        Z.of_nat (length sl) = unit) /\
     Z.of_nat (length vec) = (Z.of_nat (length arr) + unit - 1) / unit) /\
  (unit < 0 -> vec = match arr with [] => [] | _ :: _ => [arr] end).
Proof.
  intros Hr Hnz Hlen H. split.
  - intros Hpos.
    assert (Hu : to_size_t unit = unit) by (apply wrap64_small; lia).
    pose proof (split_shape fuel arr unit vec ltac:(lia) H) as Hs.
    rewrite Hu in Hs. exact Hs.
  - intros Hneg.
    assert (Hu : to_size_t unit = 2 ^ 64 + unit).
    { unfold to_size_t, wrap64. symmetry.
      apply (Z.mod_unique_pos unit (2 ^ 64) (-1) (2 ^ 64 + unit)); lia. }
    destruct fuel as [| fuel]; [discriminate H |]. cbn [split] in H. rewrite Hu in H.
    destruct (Z.geb_spec (Z.of_nat (length arr)) (2 ^ 64 + unit)) as [Hge | _]; [lia |].
    injection H as <-. reflexivity.
Qed.

Lemma split_slice_lengths_witness :
  split 4 [10; 20; 30; 40; 50] 2 = Some [[10; 20]; [30; 40]; [50]] /\
  Z.of_nat (length [[10; 20]; [30; 40]; [50]]) =
    (Z.of_nat (length [10; 20; 30; 40; 50]) + 2 - 1) / 2.
Proof.
  split; [reflexivity |].
  refine (proj2 (proj2 (proj1 (split_slice_lengths Z 4 [10; 20; 30; 40; 50] 2
            [[10; 20]; [30; 40]; [50]] _ _ _ _) _))).
  - lia.
  - lia.
  - cbn. lia.
  - reflexivity.
  - lia.
Defined.

(** X2. [bin_sections] on a non-empty file list works on at most 128
    shards, none of them empty and none longer than the unit; and what it
    appends to the member list of output section [j] is every live section
    of every file that points to [j], in file-then-section order, whatever
    the shard boundaries are: no section is dropped, duplicated or
    reordered by the sharding, and earlier members stay in front. *)
Theorem bin_sections_shards_and_order
    (fuel : nat) (files : list Binning.ObjectFile)
    (instances binned : list Binning.OutputSection) :
  files <> [] ->
  (Z.of_nat (length files) + 127) / 128 < 2 ^ 31 ->
  Binning.bin_sections fuel files instances = Some binned ->
  (exists shards,
     split fuel files (Binning.bin_unit files) = Some shards /\
     (length shards <= 128)%nat /\
     Forall (fun sh => 1 <= Z.of_nat (length sh) <= Binning.bin_unit files) shards) /\
  length binned = length instances /\
  forall (j : nat) osec, instances !! j = Some osec ->
    binned !! j =
    Some (Binning.mkOsec (Binning.chunk osec)
            (Binning.members osec ++ Binning.shard_contribution j files)).
Proof.
  intros Hne Hb Hbin.
  destruct (bin_sections_members _ _ _ _ Hbin) as (shards & Hsplit & Hcat & Hmem).
  pose proof (bin_unit_exact files Hb) as Hunit.
  assert (Hlen : 1 <= Z.of_nat (length files)).
  { destruct files; [congruence | cbn [length]; lia]. }
  assert (Hu1 : 1 <= (Z.of_nat (length files) + 127) / 128).
  { apply Z.div_le_lower_bound; lia. }
  assert (Hsz : to_size_t (Binning.bin_unit files) = Binning.bin_unit files).
  { unfold to_size_t. apply wrap64_small. lia. }
  destruct (split_shape _ _ _ _ ltac:(rewrite Hsz; lia) Hsplit) as (Hall & _ & Hcnt).
  rewrite Hsz in Hall, Hcnt.
  split; [| split].
  - exists shards. split; [exact Hsplit |]. split; [| exact Hall].
    set (n := Z.of_nat (length files)) in *. set (u := Binning.bin_unit files) in *.
    assert (Hn : n <= 128 * u).
    { rewrite Hunit.
      pose proof (Z.div_mod (n + 127) 128 ltac:(lia)).
      pose proof (Z.mod_pos_bound (n + 127) 128 ltac:(lia)). lia. }
    assert ((n + u - 1) / u <= 128).
    { apply Z.lt_succ_r. apply Z.div_lt_upper_bound; lia. }
    lia.
  - unfold Binning.bin_sections in Hbin. rewrite Hsplit in Hbin. injection Hbin as <-.
    apply length_imap.
  - intros j osec Hj. rewrite (Hmem j osec Hj), shard_major_file_order, Hcat. reflexivity.
Qed.

Lemma bin_sections_shards_and_order_witness :
  Binning.bin_sections 3 Binning.sample_files Binning.sample_instances =
    Some [Binning.sample_text; Binning.sample_data] /\
  length [Binning.sample_text; Binning.sample_data] = length Binning.sample_instances.
Proof.
  assert (Hbin : Binning.bin_sections 3 Binning.sample_files Binning.sample_instances =
                 Some [Binning.sample_text; Binning.sample_data]) by reflexivity.
  split; [exact Hbin |].
  exact (proj1 (proj2 (bin_sections_shards_and_order 3 Binning.sample_files
           Binning.sample_instances [Binning.sample_text; Binning.sample_data]
           ltac:(discriminate) ltac:(reflexivity) Hbin))).
Defined.

(** ** Order of the section ranks *)

Section RankFacts.
Import Rank.

Lemma get_section_rank_value h :
  get_section_rank h =
  32 * bool_int (has_flag (sh_flags h) SHF_ALLOC) +
  16 * bool_int (negb (has_flag (sh_flags h) SHF_WRITE)) +
  8 * bool_int (negb (has_flag (sh_flags h) SHF_EXECINSTR)) +
  4 * bool_int (has_flag (sh_flags h) SHF_TLS) +
  bool_int (negb (sh_type h =? SHT_NOBITS)).
Proof.
  unfold get_section_rank.
  destruct (has_flag (sh_flags h) SHF_ALLOC), (has_flag (sh_flags h) SHF_WRITE),
    (has_flag (sh_flags h) SHF_EXECINSTR), (has_flag (sh_flags h) SHF_TLS),
    (sh_type h =? SHT_NOBITS); reflexivity.
Qed.

Lemma bool_int_range b : 0 <= bool_int b <= 1.
Proof. destruct b; cbn; lia. Qed.

End RankFacts.

(** X3. [get_section_rank] orders headers as the comment above it says:
    the rank is between 0 and 63; a SHF_ALLOC header ranks above every
    header without SHF_ALLOC; among headers that agree on SHF_ALLOC a
    read-only one ranks above a writable one; then one without
    SHF_EXECINSTR above one with it; then a SHF_TLS one above one without;
    and last one that is not SHT_NOBITS above one that is.  Headers that
    agree on all five bits have the same rank. *)
Theorem get_section_rank_order (h1 h2 : Shdr) :
  let alloc h := has_flag (sh_flags h) SHF_ALLOC in
  let writable h := has_flag (sh_flags h) SHF_WRITE in
  let exec h := has_flag (sh_flags h) SHF_EXECINSTR in
  let tls h := has_flag (sh_flags h) SHF_TLS in
  let nobits h := sh_type h =? SHT_NOBITS in
  0 <= Rank.get_section_rank h1 < 64 /\
  (alloc h1 = true -> alloc h2 = false ->
     Rank.get_section_rank h2 < Rank.get_section_rank h1) /\
  (alloc h1 = alloc h2 -> writable h1 = false -> writable h2 = true ->
     Rank.get_section_rank h2 < Rank.get_section_rank h1) /\
  (alloc h1 = alloc h2 -> writable h1 = writable h2 ->
   exec h1 = false -> exec h2 = true ->
     Rank.get_section_rank h2 < Rank.get_section_rank h1) /\
  (alloc h1 = alloc h2 -> writable h1 = writable h2 -> exec h1 = exec h2 ->
   tls h1 = true -> tls h2 = false ->
     Rank.get_section_rank h2 < Rank.get_section_rank h1) /\
  (alloc h1 = alloc h2 -> writable h1 = writable h2 -> exec h1 = exec h2 ->
   tls h1 = tls h2 -> nobits h1 = false -> nobits h2 = true ->
     Rank.get_section_rank h2 < Rank.get_section_rank h1) /\
  (alloc h1 = alloc h2 -> writable h1 = writable h2 -> exec h1 = exec h2 ->
   tls h1 = tls h2 -> nobits h1 = nobits h2 ->
     Rank.get_section_rank h1 = Rank.get_section_rank h2).
Proof.
  intros alloc writable exec tls nobits.
  rewrite !get_section_rank_value.
  fold (alloc h1) (alloc h2) (writable h1) (writable h2) (exec h1) (exec h2)
    (tls h1) (tls h2) (nobits h1) (nobits h2).
  pose proof (bool_int_range (alloc h1)). pose proof (bool_int_range (alloc h2)).
  pose proof (bool_int_range (negb (writable h1))).
  pose proof (bool_int_range (negb (writable h2))).
  pose proof (bool_int_range (negb (exec h1))).
  pose proof (bool_int_range (negb (exec h2))).
  pose proof (bool_int_range (tls h1)). pose proof (bool_int_range (tls h2)).
  pose proof (bool_int_range (negb (nobits h1))).
  pose proof (bool_int_range (negb (nobits h2))).
  split; [lia |].
  split; [intros -> ->; cbn [Rank.bool_int]; lia |].
  split; [intros -> -> ->; cbn [Rank.bool_int negb]; lia |].
  split; [intros -> -> -> ->; cbn [Rank.bool_int negb]; lia |].
  split; [intros -> -> -> -> ->; cbn [Rank.bool_int negb]; lia |].
  split; [intros -> -> -> -> -> ->; cbn [Rank.bool_int negb]; lia |].
  intros -> -> -> -> ->. reflexivity.
Qed.

Lemma get_section_rank_order_witness :
  Rank.get_section_rank (mkShdr 1 3 0 0 10 32) < Rank.get_section_rank (mkShdr 1 6 0 0 100 16) /\
  Rank.get_section_rank (mkShdr 2 0 0 0 48 8) < Rank.get_section_rank (mkShdr 8 3 0 0 5000 8) /\
  Rank.get_section_rank (mkShdr 8 3 0 0 5000 8) < Rank.get_section_rank (mkShdr 1 3 0 0 10 32).
Proof.
  split; [| split].
  - exact (proj1 (proj2 (proj2 (get_section_rank_order (mkShdr 1 6 0 0 100 16)
             (mkShdr 1 3 0 0 10 32)))) eq_refl eq_refl eq_refl).
  - exact (proj1 (proj2 (get_section_rank_order (mkShdr 8 3 0 0 5000 8)
             (mkShdr 2 0 0 0 48 8))) eq_refl eq_refl).
  - exact (proj1 (proj2 (proj2 (proj2 (proj2 (proj2
             (get_section_rank_order (mkShdr 1 3 0 0 10 32) (mkShdr 8 3 0 0 5000 8)))))))
             eq_refl eq_refl eq_refl eq_refl eq_refl eq_refl).
Defined.

(** ** Alignment, file size and address order of the chunk layout *)

Section LayoutMore.
Import Layout Address.

Lemma record_header_align p c :
  sh_addralign (shdr (record_header p c)) = sh_addralign (shdr c).
Proof. unfold record_header. simpl. destruct (is_alloc c); reflexivity. Qed.

Lemma record_header_ptload p c :
  starts_new_ptload (record_header p c) = starts_new_ptload c.
Proof. reflexivity. Qed.

(** A [u64] rounded up to a power of two below 2^64 is a multiple of it
    even when the rounding wraps. *)
Lemma align_to_multiple v a :
  is_pow2 a = true -> a < 2 ^ 64 -> align_to v a mod a = 0.
Proof.
  intros Hp Ha. destruct (is_pow2_spec _ Hp) as (k & Hk & ->).
  unfold align_to, wrap64.
  assert (Hk64 : k < 64).
  { destruct (Z_lt_ge_dec k 64) as [H | H]; [exact H |].
    pose proof (Z.pow_le_mono_r 2 64 k ltac:(lia) ltac:(lia)). lia. }
  assert (Hpos : 0 < 2 ^ k) by (apply Z.pow_pos_nonneg; lia).
  rewrite Z.mod_mod_divide.
  - unfold align_up. apply Z.mod_mul. lia.
  - exists (2 ^ (64 - k)). rewrite <- Z.pow_add_r by lia. f_equal. lia.
Qed.

Lemma place_aligned cur c :
  is_pow2 (sh_addralign (shdr c)) = true -> sh_addralign (shdr c) < 2 ^ 64 ->
  fileoff (place cur c) mod sh_addralign (shdr c) = 0 /\
  vaddr (place cur c) mod sh_addralign (shdr c) = 0.
Proof.
  intros Hp Ha. unfold place. cbn [fileoff vaddr].
  split; apply align_to_multiple; assumption.
Qed.

Lemma place_page_aligned cur c :
  is_pow2 (sh_addralign (shdr c)) = true ->
  starts_new_ptload c = true ->
  vaddr (place cur c) mod PAGE_SIZE = 0.
Proof.
  intros Hp Hnew. unfold place. cbn [vaddr]. rewrite Hnew.
  rewrite (align_to_page_congr (align_to (vaddr cur) PAGE_SIZE) 0 _ Hp).
  - unfold align_to, align_up. rewrite wrap64_mod_page.
    pose proof (is_pow2_pos _ Hp) as H1.
    rewrite Z.add_0_l, Z.div_small by lia. reflexivity.
  - rewrite align_to_page_zero. reflexivity.
Qed.

Lemma run_forward_final chunks : forall cur,
  Forall chunk_sized chunks ->
  0 <= fileoff cur < 2 ^ 64 ->
  run_fits cur chunks = true ->
  fileoff cur <= fileoff (final_cursor cur chunks) < 2 ^ 64 /\
  Forall (fun it => fileoff (it_after it) <= fileoff (final_cursor cur chunks))
    (run cur chunks).
Proof.
  induction chunks as [| c cs IH]; intros cur Hs Hcur Hfit.
  { cbn. split; [lia | constructor]. }
  inversion Hs as [| ? ? Hc Hcs]; subst.
  cbn [run_fits] in Hfit. apply andb_prop in Hfit as [Hf Hrest].
  destruct (iterate_forward cur c Hc Hcur Hf) as (Hpl & Hadv & Hrange).
  destruct (IH _ Hcs Hrange Hrest) as [IHle IHall].
  cbn [iterate it_after] in IHle, IHall.
  cbn [final_cursor run iterate it_after]. split.
  - destruct Hc as [_ Hsz]. destruct (is_nobits c); lia.
  - constructor; [| eapply List.Forall_impl; [| exact IHall]; cbn beta; intros; lia].
    cbn [iterate it_after]. lia.
Qed.

Lemma iterate_address cur c :
  chunk_sized c ->
  0 <= vaddr cur < 2 ^ 64 ->
  vaddr_fits cur c = true ->
  vaddr cur <= vaddr (place cur c) /\
  vaddr (advance (place cur c) c) =
    vaddr (place cur c) + (if is_tbss c then 0 else sh_size (shdr c)) /\
  0 <= vaddr (advance (place cur c) c) < 2 ^ 64.
Proof.
  intros [Ha Hs] Hcur Hfit. unfold vaddr_fits in Hfit. unfold place, advance.
  cbn [fileoff vaddr].
  apply andb_prop in Hfit as [Hfit H3]. apply andb_prop in Hfit as [H1 H2].
  apply Z.ltb_lt in H1, H2, H3.
  pose proof (align_up_bounds (vaddr cur) PAGE_SIZE ltac:(unfold PAGE_SIZE; lia)) as Hup.
  set (page_exact := if starts_new_ptload c then _ else _) in H1, H2, H3.
  set (page_real := if starts_new_ptload c then _ else vaddr cur).
  assert (Hpage : page_real = page_exact /\ vaddr cur <= page_exact).
  { unfold page_real, page_exact in *. destruct (starts_new_ptload c); [| lia].
    unfold align_to. rewrite wrap64_small by lia. lia. }
  destruct Hpage as [-> Hge].
  pose proof (align_up_bounds page_exact (sh_addralign (shdr c)) Ha) as Hal.
  unfold align_to. rewrite (wrap64_small (align_up page_exact _)) by lia.
  destruct (is_tbss c); cbn [negb] in *.
  - lia.
  - rewrite wrap64_small by lia. lia.
Qed.

Lemma run_address chunks : forall cur,
  Forall chunk_sized chunks ->
  0 <= vaddr cur < 2 ^ 64 ->
  run_vaddr_fits cur chunks = true ->
  Forall (fun it => vaddr cur <= vaddr (it_before it) /\ address_step it)
    (run cur chunks) /\
  (forall (i j : nat) iti itj, (i < j)%nat ->
     run cur chunks !! i = Some iti -> run cur chunks !! j = Some itj ->
     vaddr (it_after iti) <= vaddr (it_before itj)).
Proof.
  induction chunks as [| c cs IH]; intros cur Hs Hcur Hfit.
  { split; [constructor |]. intros i j iti itj _ Hi. destruct i; discriminate Hi. }
  inversion Hs as [| ? ? Hc Hcs]; subst.
  cbn [run_vaddr_fits] in Hfit. apply andb_prop in Hfit as [Hf Hrest].
  destruct (iterate_address cur c Hc Hcur Hf) as (Hpl & Hadv & Hrange).
  destruct (IH _ Hcs Hrange Hrest) as [IHall IHpair].
  cbn [iterate it_after] in IHall, IHpair.
  assert (Hstep : address_step (iterate cur c)).
  { unfold address_step. cbn [iterate it_before it_placed it_chunk it_after].
    rewrite record_header_tbss, record_header_size. auto. }
  cbn [run iterate it_after]. split.
  - constructor; [split; [cbn; lia | exact Hstep] |].
    eapply List.Forall_impl; [| exact IHall]. intros it [Hit Hst]. split; [| exact Hst].
    destruct Hc as [_ Hsz]. destruct (is_tbss c); lia.
  - intros i j iti itj Hij Hi Hj. destruct j as [| j]; [lia |].
    cbn in Hj. destruct i as [| i].
    + cbn in Hi. injection Hi as <-. cbn [it_after].
      rewrite List.Forall_forall in IHall.
      apply IHall. apply list_elem_of_In. eapply list_elem_of_lookup_2. exact Hj.
    + cbn in Hi. apply (IHpair i j); [lia | assumption | assumption].
Qed.

Lemma run_it_chunk chunks : forall cur it,
  In it (run cur chunks) ->
  exists c, In c chunks /\ it_chunk it = record_header (it_placed it) c /\
            it_placed it = place (it_before it) c.
Proof.
  induction chunks as [| c cs IH]; intros cur it Hin; [destruct Hin |].
  cbn [run] in Hin. destruct Hin as [<- | Hin].
  - exists c. split; [left; reflexivity |]. split; reflexivity.
  - destruct (IH _ _ Hin) as (c' & Hc' & H). exists c'. split; [right; exact Hc' | exact H].
Qed.

End LayoutMore.

(** X4. [set_osec_offsets] gives every chunk whose alignment is a power
    of two (below 2^64) an [sh_offset] that is a multiple of
    [sh_addralign], and every such SHF_ALLOC chunk an [sh_addr] that is a
    multiple of it too; this holds even if an addition wraps.  The list
    keeps its length, and type, flags, size, alignment and the PT_LOAD
    mark of every chunk are left as they were. *)
Theorem set_osec_offsets_aligned (chunks : list OutputChunk) :
  Forall (fun c => is_pow2 (sh_addralign (shdr c)) = true /\
                   sh_addralign (shdr c) < 2 ^ 64) chunks ->
  Forall (fun c =>
    sh_offset (shdr c) mod sh_addralign (shdr c) = 0 /\
    (is_alloc c = true -> sh_addr (shdr c) mod sh_addralign (shdr c) = 0))
    (fst (Layout.set_osec_offsets chunks)) /\
  Forall2 (fun c c' =>
    sh_type (shdr c') = sh_type (shdr c) /\ sh_flags (shdr c') = sh_flags (shdr c) /\
    sh_size (shdr c') = sh_size (shdr c) /\
    sh_addralign (shdr c') = sh_addralign (shdr c) /\
    starts_new_ptload c' = starts_new_ptload c /\
    (is_alloc c = false -> sh_addr (shdr c') = sh_addr (shdr c)))
    chunks (fst (Layout.set_osec_offsets chunks)).
Proof.
  intros Hp. unfold Layout.set_osec_offsets. cbn [fst].
  generalize Layout.start_cursor as cur.
  induction Hp as [| c cs [Hc Ha] Hcs IH]; intros cur; [split; constructor |].
  cbn [Layout.run map Layout.iterate Layout.it_chunk Layout.it_after].
  destruct (IH (Layout.advance (Layout.place cur c) c)) as [IH1 IH2].
  split; constructor; try assumption.
  - rewrite record_header_align, record_header_offset, record_header_alloc.
    destruct (place_aligned cur c Hc Ha) as [Hf Hv].
    split; [exact Hf |]. intros Hal. rewrite (record_header_addr _ _ Hal). exact Hv.
  - rewrite record_header_type, record_header_flags, record_header_size,
      record_header_align.
    repeat (split; [reflexivity |]). apply record_header_addr_kept.
Qed.

Lemma set_osec_offsets_aligned_witness :
  Forall (fun c =>
    sh_offset (shdr c) mod sh_addralign (shdr c) = 0 /\
    (is_alloc c = true -> sh_addr (shdr c) mod sh_addralign (shdr c) = 0))
    (fst (Layout.set_osec_offsets Layout.sample_chunks)).
Proof.
  apply (set_osec_offsets_aligned Layout.sample_chunks).
  repeat constructor.
Defined.

(** X5. In [set_osec_offsets] a chunk that starts a new PT_LOAD and has a
    power-of-two alignment is placed at a page boundary: if it is
    SHF_ALLOC its [sh_addr] is a multiple of 4096, and if it is not
    SHT_NOBITS its [sh_offset] is a multiple of 4096. *)
Theorem set_osec_offsets_ptload_page_aligned (chunks : list OutputChunk) :
  Forall (fun c => is_pow2 (sh_addralign (shdr c)) = true) chunks ->
  Forall (fun c =>
    starts_new_ptload c = true ->
    (is_alloc c = true -> sh_addr (shdr c) mod 4096 = 0) /\
    (is_nobits c = false -> sh_offset (shdr c) mod 4096 = 0))
    (fst (Layout.set_osec_offsets chunks)).
Proof.
  intros Hp. unfold Layout.set_osec_offsets. cbn [fst].
  generalize Layout.start_cursor as cur.
  induction Hp as [| c cs Hc Hcs IH]; intros cur; [constructor |].
  cbn [Layout.run map Layout.iterate Layout.it_chunk Layout.it_after].
  constructor; [| apply IH].
  rewrite record_header_ptload, record_header_alloc, record_header_nobits,
    record_header_offset.
  intros Hnew. pose proof (place_page_aligned cur c Hc Hnew) as Hv.
  split.
  - intros Hal. rewrite (record_header_addr _ _ Hal). exact Hv.
  - intros Hnb. pose proof (place_congruent cur c Hc Hnb) as Hcg.
    unfold PAGE_SIZE in *. rewrite Hcg. exact Hv.
Qed.

Lemma set_osec_offsets_ptload_page_aligned_witness :
  Forall (fun c =>
    starts_new_ptload c = true ->
    (is_alloc c = true -> sh_addr (shdr c) mod 4096 = 0) /\
    (is_nobits c = false -> sh_offset (shdr c) mod 4096 = 0))
    (fst (Layout.set_osec_offsets Layout.sample_chunks)).
Proof.
  apply (set_osec_offsets_ptload_page_aligned Layout.sample_chunks).
  repeat constructor.
Defined.

(** X6. When no 64-bit addition on the file offset wraps, the size that
    [set_osec_offsets] returns covers every chunk: it is below 2^64, every
    chunk's [sh_offset] is at most the returned size, and for a chunk that
    is not SHT_NOBITS the whole range [sh_offset, sh_offset + sh_size)
    lies inside the file.  The first chunk is placed at offset 0. *)
Theorem set_osec_offsets_filesize_covers (chunks : list OutputChunk) :
  Forall Layout.chunk_sized chunks ->
  Layout.run_fits Layout.start_cursor chunks = true ->
  let filesize := snd (Layout.set_osec_offsets chunks) in
  0 <= filesize < 2 ^ 64 /\
  Forall (fun c =>
    0 <= sh_offset (shdr c) <= filesize /\
    (is_nobits c = false -> sh_offset (shdr c) + sh_size (shdr c) <= filesize))
    (fst (Layout.set_osec_offsets chunks)) /\
  (forall c, fst (Layout.set_osec_offsets chunks) !! 0%nat = Some c ->
     sh_offset (shdr c) = 0).
Proof.
  intros Hs Hfit filesize.
  destruct (run_forward chunks Layout.start_cursor Hs ltac:(cbn; lia) Hfit)
    as [Hall _].
  destruct (run_forward_final chunks Layout.start_cursor Hs ltac:(cbn; lia) Hfit)
    as [Hfin Hafter].
  unfold filesize, Layout.set_osec_offsets. cbn [fst snd].
  change (Layout.fileoff Layout.start_cursor) with 0 in *.
  split; [lia |]. split.
  - apply List.Forall_forall. intros c Hin. apply in_map_iff in Hin as (it & <- & Hit).
    rewrite List.Forall_forall in Hall, Hafter.
    destruct (Hall it Hit) as (Hb & H1 & H2 & H3 & H4). specialize (Hafter it Hit).
    rewrite H2. destruct (is_nobits (Layout.it_chunk it)); split;
      intros; try discriminate; lia.
  - intros c Hc. destruct chunks as [| c0 cs]; [discriminate Hc |].
    cbn in Hc. injection Hc as <-. rewrite record_header_offset.
    inversion Hs as [| ? ? [Ha _] _]; subst.
    unfold Layout.place. cbn [Layout.fileoff Layout.vaddr Layout.start_cursor].
    assert (Hv : (if starts_new_ptload c0 then align_to 2097152 PAGE_SIZE else 2097152)
                 mod PAGE_SIZE = 0).
    { destruct (starts_new_ptload c0); reflexivity. }
    rewrite Hv. change (0 mod PAGE_SIZE) with 0. cbn [Z.gtb Z.ltb Z.compare].
    assert (Hz : align_to 0 (sh_addralign (shdr c0)) = 0).
    { unfold align_to, align_up. rewrite Z.add_0_l, Z.div_small by lia. reflexivity. }
    destruct (negb (is_nobits c0)); exact Hz.
Qed.

Lemma set_osec_offsets_filesize_covers_witness :
  Forall (fun c =>
    0 <= sh_offset (shdr c) <= snd (Layout.set_osec_offsets Layout.sample_chunks) /\
    (is_nobits c = false ->
       sh_offset (shdr c) + sh_size (shdr c) <=
       snd (Layout.set_osec_offsets Layout.sample_chunks)))
    (fst (Layout.set_osec_offsets Layout.sample_chunks)).
Proof.
  refine (proj1 (proj2 (set_osec_offsets_filesize_covers Layout.sample_chunks _ _))).
  - repeat constructor; cbn; lia.
  - vm_compute. reflexivity.
Defined.

(** X7. When no 64-bit addition on the address wraps, [set_osec_offsets]
    hands out addresses in list order from the image base 0x200000: every
    SHF_ALLOC chunk has [sh_addr] of at least 0x200000, and of two
    SHF_ALLOC chunks the earlier one, unless it is a tbss chunk (NOBITS
    with SHF_TLS), ends at or before the address of the later one.  A tbss
    chunk takes no address space: the running address after it is the
    address where it was placed. *)
Theorem set_osec_offsets_address_order (chunks : list OutputChunk) :
  Forall Layout.chunk_sized chunks ->
  Address.run_vaddr_fits Layout.start_cursor chunks = true ->
  Forall (fun c => is_alloc c = true -> 2097152 <= sh_addr (shdr c))
    (fst (Layout.set_osec_offsets chunks)) /\
  (forall (i j : nat) ci cj, (i < j)%nat ->
     fst (Layout.set_osec_offsets chunks) !! i = Some ci ->
     fst (Layout.set_osec_offsets chunks) !! j = Some cj ->
     is_alloc ci = true -> is_alloc cj = true ->
     (is_tbss ci = false -> sh_addr (shdr ci) + sh_size (shdr ci) <= sh_addr (shdr cj)) /\
     (is_tbss ci = true -> sh_addr (shdr ci) <= sh_addr (shdr cj))) /\
  Forall (fun it =>
    is_tbss (Layout.it_chunk it) = true ->
    Layout.vaddr (Layout.it_after it) = Layout.vaddr (Layout.it_placed it))
    (Layout.run Layout.start_cursor chunks).
Proof.
  intros Hs Hfit.
  destruct (run_address chunks Layout.start_cursor Hs ltac:(cbn; lia) Hfit)
    as [Hall Hpair].
  change (Layout.vaddr Layout.start_cursor) with 2097152 in Hall.
  assert (Haddr : forall it, In it (Layout.run Layout.start_cursor chunks) ->
            is_alloc (Layout.it_chunk it) = true ->
            sh_addr (shdr (Layout.it_chunk it)) = Layout.vaddr (Layout.it_placed it)).
  { intros it Hit Hal. destruct (run_it_chunk _ _ _ Hit) as (c & _ & Hc & _).
    rewrite Hc in Hal |- *. rewrite record_header_alloc in Hal.
    apply (record_header_addr _ _ Hal). }
  rewrite List.Forall_forall in Hall.
  split; [| split].
  - apply List.Forall_forall. intros c Hin. unfold Layout.set_osec_offsets in Hin.
    cbn [fst] in Hin. apply in_map_iff in Hin as (it & <- & Hit). intros Hal.
    rewrite (Haddr it Hit Hal). destruct (Hall it Hit) as (Hb & Hp & _). lia.
  - intros i j ci cj Hij Hi Hj Hai Haj.
    unfold Layout.set_osec_offsets in Hi, Hj. cbn [fst] in Hi, Hj.
    rewrite list_lookup_fmap in Hi, Hj.
    destruct (Layout.run Layout.start_cursor chunks !! i) as [iti |] eqn:Ei;
      [| discriminate Hi].
    destruct (Layout.run Layout.start_cursor chunks !! j) as [itj |] eqn:Ej;
      [| discriminate Hj].
    cbn in Hi, Hj. injection Hi as <-. injection Hj as <-.
    assert (Hini : In iti (Layout.run Layout.start_cursor chunks))
      by (apply list_elem_of_In; eapply list_elem_of_lookup_2; exact Ei).
    assert (Hinj : In itj (Layout.run Layout.start_cursor chunks))
      by (apply list_elem_of_In; eapply list_elem_of_lookup_2; exact Ej).
    rewrite (Haddr iti Hini Hai), (Haddr itj Hinj Haj).
    pose proof (Hpair i j iti itj Hij Ei Ej) as Hle.
    destruct (Hall iti Hini) as (_ & _ & A2). destruct (Hall itj Hinj) as (_ & B1 & _).
    split; intros Ht; rewrite Ht in A2; lia.
  - apply List.Forall_forall. intros it Hit Ht.
    destruct (Hall it Hit) as (_ & _ & A2). rewrite Ht in A2. lia.
Qed.

Lemma set_osec_offsets_address_order_witness :
  Forall (fun c => is_alloc c = true -> 2097152 <= sh_addr (shdr c))
    (fst (Layout.set_osec_offsets Layout.sample_chunks)).
Proof.
  refine (proj1 (set_osec_offsets_address_order Layout.sample_chunks _ _)).
  - repeat constructor; cbn; lia.
  - vm_compute. reflexivity.
Defined.

(** ** Clearing the padding between chunks *)

Section PaddingFacts.
Import Layout Padding.

Ltac split_tests :=
  repeat match goal with
  | |- context [?a <=? ?b] => destruct (Z.leb_spec a b)
  | |- context [?a <? ?b] => destruct (Z.ltb_spec a b)
  end; cbn [andb orb negb].

Lemma memset_lookup buf pos c len buf' :
  0 <= pos -> 0 <= len ->
  memset buf pos c len = Some buf' ->
  length buf' = length buf /\
  forall k : nat,
    buf' !! k =
    if (pos <=? Z.of_nat k) && (Z.of_nat k <? pos + len) then Some c else buf !! k.
Proof.
  intros Hpos Hlen H. unfold memset in H.
  destruct (Z.leb_spec (pos + len) (Z.of_nat (length buf))) as [Hle | Hgt];
    [| discriminate H].
  injection H as <-. split.
  - rewrite !length_app, length_take, length_replicate, length_drop. lia.
  - intros k.
    destruct (Z.leb_spec pos (Z.of_nat k)) as [H1 | H1]; cbn [andb].
    + rewrite lookup_app_r by (rewrite length_take; lia).
      rewrite length_take.
      destruct (Z.ltb_spec (Z.of_nat k) (pos + len)) as [H2 | H2].
      * rewrite lookup_app_l by (rewrite length_replicate; lia).
        apply lookup_replicate_2. lia.
      * rewrite lookup_app_r by (rewrite length_replicate; lia).
        rewrite length_replicate, lookup_drop. f_equal. lia.
    + rewrite lookup_app_l by (rewrite length_take; lia).
      apply lookup_take_lt. lia.
Qed.

Lemma clear_step_none chunks idxs : foldl (clear_step chunks) None idxs = None.
Proof. induction idxs as [| i idxs IH]; [reflexivity | exact IH]. Qed.

Lemma clear_step_shift c chunks idxs : forall acc,
  Forall (fun i => (1 <= i)%nat) idxs ->
  foldl (clear_step (c :: chunks)) acc (S <$> idxs) =
  foldl (clear_step chunks) acc idxs.
Proof.
  induction idxs as [| i idxs IH]; intros acc Hall; [reflexivity |].
  inversion Hall as [| ? ? Hi Hrest]; subst.
  cbn [fmap list_fmap foldl]. rewrite <- (IH _ Hrest). f_equal.
  unfold clear_step. destruct i as [| i]; [lia |].
  cbn [Nat.sub]. rewrite Nat.sub_0_r. reflexivity.
Qed.

(** The loop peels off its first adjacent pair. *)
Lemma clear_padding_cons buf c c' rest filesize :
  clear_padding buf (c :: c' :: rest) filesize =
  match zero buf c (sh_offset (shdr c')) with
  | Some b => clear_padding b (c' :: rest) filesize
  | None => None
  end.
Proof.
  unfold clear_padding.
  change (length (c :: c' :: rest) - 1)%nat with (S (length rest)).
  change (length (c' :: rest) - 1)%nat with (length rest - 0)%nat.
  rewrite Nat.sub_0_r.
  change (seq 1 (S (length rest))) with (1%nat :: seq 2 (length rest)).
  cbn [foldl]. rewrite <- (fmap_S_seq 1).
  rewrite clear_step_shift
    by (apply List.Forall_forall; intros i Hi; apply in_seq in Hi; lia).
  change (clear_step (c :: c' :: rest) (Some buf) 1)
    with (zero buf c (sh_offset (shdr c'))).
  change (last (c :: c' :: rest)) with (last (c' :: rest)).
  destruct (zero buf c (sh_offset (shdr c'))) as [b |]; [reflexivity |].
  rewrite clear_step_none. reflexivity.
Qed.

Lemma in_payload_below lo k laid :
  Forall (fun c => lo <= sh_offset (shdr c)) laid ->
  k < lo -> in_payload k laid = false.
Proof.
  intros Hall Hk. induction Hall as [| c l Hc Hl IH]; [reflexivity |].
  cbn [in_payload existsb]. fold (in_payload k l). rewrite IH, orb_false_r.
  destruct (Z.leb_spec (sh_offset (shdr c)) k); [lia |].
  rewrite andb_false_r. reflexivity.
Qed.

(** The position from which [zero] clears is the running file offset
    after the chunk. *)
Lemma zero_pos cur c :
  (if negb (is_nobits (record_header (place cur c) c))
   then wrap64 (sh_offset (shdr (record_header (place cur c) c)) +
                sh_size (shdr (record_header (place cur c) c)))
   else sh_offset (shdr (record_header (place cur c) c))) =
  fileoff (advance (place cur c) c).
Proof.
  rewrite record_header_nobits, record_header_offset, record_header_size.
  reflexivity.
Qed.

Lemma run_offsets_lower chunks cur :
  Forall chunk_sized chunks ->
  0 <= fileoff cur < 2 ^ 64 ->
  run_fits cur chunks = true ->
  Forall (fun c => fileoff cur <= sh_offset (shdr c)) (map it_chunk (run cur chunks)).
Proof.
  intros Hs Hcur Hfit.
  destruct (run_forward chunks cur Hs Hcur Hfit) as [Hall _].
  apply List.Forall_forall. intros c Hin. apply in_map_iff in Hin as (it & <- & Hit).
  rewrite List.Forall_forall in Hall.
  destruct (Hall it Hit) as (Hb & H1 & H2 & _). lia.
Qed.

Lemma clear_padding_run chunks : forall c0 cur buf,
  Forall chunk_sized (c0 :: chunks) ->
  0 <= fileoff cur < 2 ^ 64 ->
  run_fits cur (c0 :: chunks) = true ->
  fileoff (final_cursor cur (c0 :: chunks)) <= Z.of_nat (length buf) ->
  exists buf',
    clear_padding buf (map it_chunk (run cur (c0 :: chunks)))
      (fileoff (final_cursor cur (c0 :: chunks))) = Some buf' /\
    length buf' = length buf /\
    forall k : nat,
      buf' !! k =
      if (fileoff (place cur c0) <=? Z.of_nat k) &&
         (Z.of_nat k <? fileoff (final_cursor cur (c0 :: chunks))) &&
         negb (in_payload (Z.of_nat k) (map it_chunk (run cur (c0 :: chunks))))
      then Some 0 else buf !! k.
Proof.
  induction chunks as [| c1 cs IH]; intros c0 cur buf Hs Hcur Hfit Hlen.
  - (* a single chunk: only the call on the last chunk, which clears nothing *)
    inversion Hs as [| ? ? Hc _]; subst.
    cbn [run_fits] in Hfit. apply andb_prop in Hfit as [Hf _].
    destruct (iterate_forward cur c0 Hc Hcur Hf) as (Hpl & Hadv & Hrange).
    cbn [final_cursor run map iterate it_chunk it_after] in *.
    unfold clear_padding. cbn [length Nat.sub seq foldl last].
    unfold zero. rewrite zero_pos, Z.sub_diag.
    change (wrap64 0) with 0.
    destruct (memset buf (fileoff (advance (place cur c0) c0)) 0 0) as [buf' |] eqn:E.
    2:{ unfold memset in E.
        destruct (Z.leb_spec (fileoff (advance (place cur c0) c0) + 0)
                    (Z.of_nat (length buf))); [discriminate E | lia]. }
    destruct (memset_lookup _ _ _ _ _ (proj1 Hrange) (Z.le_refl 0) E) as [Hl Hk].
    exists buf'. split; [reflexivity |]. split; [exact Hl |].
    intros k. rewrite (Hk k), Z.add_0_r.
    cbn [in_payload existsb]. rewrite orb_false_r.
    rewrite record_header_nobits, record_header_offset, record_header_size.
    destruct Hc as [_ Hsz].
    destruct (is_nobits c0); cbn [negb andb]; split_tests;
      try reflexivity; exfalso; lia.
  - inversion Hs as [| ? ? Hc Hs1]; subst.
    inversion Hs1 as [| ? ? Hc1 _]; subst.
    pose proof Hfit as Hfit0.
    cbn [run_fits] in Hfit. apply andb_prop in Hfit as [Hf Hrest].
    destruct (iterate_forward cur c0 Hc Hcur Hf) as (Hpl & Hadv & Hrange).
    set (cur1 := it_after (iterate cur c0)) in *.
    change (fileoff (advance (place cur c0) c0)) with (fileoff cur1) in Hadv, Hrange.
    pose proof Hrest as Hrest1.
    change (run_fits cur1 (c1 :: cs)) with (fits cur1 c1 && run_fits (it_after (iterate cur1 c1)) cs)
      in Hrest1.
    apply andb_prop in Hrest1 as [Hf1 _].
    destruct (iterate_forward cur1 c1 Hc1 Hrange Hf1) as (Hpl1 & Hadv1 & Hrange1).
    destruct (run_forward_final (c1 :: cs) cur1 Hs1 Hrange Hrest) as [Hfin Hafter].
    inversion Hafter as [| ? ? Ha1 _]; subst.
    change (fileoff (it_after (iterate cur1 c1))) with (fileoff (advance (place cur1 c1) c1)) in Ha1.
    change (final_cursor cur (c0 :: c1 :: cs)) with (final_cursor cur1 (c1 :: cs)) in *.
    change (map it_chunk (run cur (c0 :: c1 :: cs)))
      with (record_header (place cur c0) c0 ::
            record_header (place cur1 c1) c1 ::
            map it_chunk (run (it_after (iterate cur1 c1)) cs)).
    rewrite clear_padding_cons.
    change (record_header (place cur1 c1) c1 ::
            map it_chunk (run (it_after (iterate cur1 c1)) cs))
      with (map it_chunk (run cur1 (c1 :: cs))).
    unfold zero at 1. rewrite zero_pos, record_header_offset.
    change (fileoff (advance (place cur c0) c0)) with (fileoff cur1).
    assert (Hsz1 : 0 <= sh_size (shdr c1)) by (destruct Hc1; assumption).
    assert (Hp1 : fileoff (place cur1 c1) <= fileoff (advance (place cur1 c1) c1)).
    { rewrite Hadv1. destruct (is_nobits c1); lia. }
    rewrite (wrap64_small (fileoff (place cur1 c1) - fileoff cur1)) by lia.
    destruct (memset buf (fileoff cur1) 0 (fileoff (place cur1 c1) - fileoff cur1))
      as [b1 |] eqn:E.
    2:{ unfold memset in E.
        destruct (Z.leb_spec (fileoff cur1 + (fileoff (place cur1 c1) - fileoff cur1))
                    (Z.of_nat (length buf))); [discriminate E | lia]. }
    assert (Hgap : 0 <= fileoff (place cur1 c1) - fileoff cur1) by lia.
    destruct (memset_lookup _ _ _ _ _ (proj1 Hrange) Hgap E) as [Hl1 Hk1].
    destruct (IH c1 cur1 b1 Hs1 Hrange Hrest ltac:(rewrite Hl1; exact Hlen))
      as (buf' & Hclear & Hl' & Hk').
    exists buf'. split; [exact Hclear |]. split; [congruence |].
    intros k. rewrite (Hk' k), (Hk1 k).
    replace (fileoff cur1 + (fileoff (place cur1 c1) - fileoff cur1))
      with (fileoff (place cur1 c1)) by lia.
    set (laid1 := map it_chunk (run cur1 (c1 :: cs))).
    set (F := fileoff (final_cursor cur1 (c1 :: cs))) in *.
    assert (Hlow : Forall (fun c => fileoff (place cur1 c1) <= sh_offset (shdr c)) laid1).
    { subst laid1. cbn [run map]. constructor.
      - cbn [iterate it_chunk]. rewrite record_header_offset. lia.
      - eapply List.Forall_impl;
          [| apply (run_offsets_lower cs (it_after (iterate cur1 c1)))].
        + cbn beta. intros c Hle. cbn [iterate it_after] in Hle. lia.
        + inversion Hs1; assumption.
        + exact Hrange1.
        + change (run_fits cur1 (c1 :: cs))
            with (fits cur1 c1 && run_fits (it_after (iterate cur1 c1)) cs) in Hrest.
          apply andb_prop in Hrest as [_ Hr]. exact Hr. }
    cbn [in_payload existsb]. fold (in_payload (Z.of_nat k) laid1).
    rewrite record_header_nobits, record_header_offset, record_header_size.
    destruct Hc as [_ Hsz].
    destruct (Z.ltb_spec (Z.of_nat k) (fileoff (place cur1 c1))) as [Hk | Hk].
    + (* before the second chunk *)
      rewrite (in_payload_below _ _ _ Hlow Hk), orb_false_r.
      destruct (is_nobits c0); cbn [negb andb]; split_tests;
        try reflexivity; exfalso; lia.
    + (* from the second chunk on *)
      destruct (in_payload (Z.of_nat k) laid1);
        destruct (is_nobits c0); cbn [negb andb orb]; split_tests;
        try reflexivity; exfalso; lia.
Qed.

End PaddingFacts.

(** X8. [clear_padding] after [set_osec_offsets] (no wrap-around on the
    file offset, no zero alignment, at least one chunk, a buffer of the
    returned file size): every [memset] stays inside the buffer, so the
    call is defined; the buffer keeps its length; every byte inside the
    file range [sh_offset, sh_offset + sh_size) of a chunk that is not
    SHT_NOBITS is left as it was; and every other byte of the file is
    zero afterwards, whatever the buffer held before. *)
Theorem clear_padding_after_layout (chunks : list OutputChunk) (buf : list Z) :
  chunks <> [] ->
  Forall Layout.chunk_sized chunks ->
  Layout.run_fits Layout.start_cursor chunks = true ->
  Z.of_nat (length buf) = snd (Layout.set_osec_offsets chunks) ->
  exists buf',
    Padding.clear_padding buf (fst (Layout.set_osec_offsets chunks))
      (snd (Layout.set_osec_offsets chunks)) = Some buf' /\
    length buf' = length buf /\
    forall k : nat, (k < length buf)%nat ->
      buf' !! k =
      if Padding.in_payload (Z.of_nat k) (fst (Layout.set_osec_offsets chunks))
      then buf !! k else Some 0.
Proof.
  intros Hne Hs Hfit Hlen. destruct chunks as [| c0 chunks]; [congruence |].
  unfold Layout.set_osec_offsets in *. cbn [fst snd] in *.
  destruct (clear_padding_run chunks c0 Layout.start_cursor buf Hs ltac:(cbn; lia) Hfit
              ltac:(lia)) as (buf' & Hclear & Hl & Hk).
  exists buf'. split; [exact Hclear |]. split; [exact Hl |].
  intros k Hklt. rewrite (Hk k).
  assert (H0 : Layout.fileoff (Layout.place Layout.start_cursor c0) = 0).
  { inversion Hs as [| ? ? [Ha _] _]; subst.
    unfold Layout.place. cbn [Layout.fileoff Layout.vaddr Layout.start_cursor].
    assert (Hv : (if starts_new_ptload c0 then align_to 2097152 PAGE_SIZE else 2097152)
                 mod PAGE_SIZE = 0).
    { destruct (starts_new_ptload c0); reflexivity. }
    rewrite Hv. change (0 mod PAGE_SIZE) with 0. cbn [Z.gtb Z.ltb Z.compare].
    assert (Hz : align_to 0 (sh_addralign (shdr c0)) = 0).
    { unfold align_to, align_up. rewrite Z.add_0_l, Z.div_small by lia. reflexivity. }
    destruct (negb (is_nobits c0)); exact Hz. }
  rewrite H0.
  destruct (Z.leb_spec 0 (Z.of_nat k)) as [_ | ?]; [| lia].
  destruct (Z.ltb_spec (Z.of_nat k)
              (Layout.fileoff (Layout.final_cursor Layout.start_cursor (c0 :: chunks))))
    as [_ | ?]; [| lia].
  cbn [andb].
  destruct (Padding.in_payload _ _); reflexivity.
Qed.

Lemma clear_padding_after_layout_witness :
  exists buf',
    Padding.clear_padding [255; 255; 255; 255; 255; 255]
      (fst (Layout.set_osec_offsets Padding.two_chunks))
      (snd (Layout.set_osec_offsets Padding.two_chunks)) = Some buf' /\
    length buf' = 6%nat.
Proof.
  destruct (clear_padding_after_layout Padding.two_chunks [255; 255; 255; 255; 255; 255])
    as (buf' & H1 & H2 & _).
  - discriminate.
  - repeat constructor; cbn; lia.
  - vm_compute. reflexivity.
  - vm_compute. reflexivity.
  - exists buf'. split; [exact H1 | exact H2].
Defined.

(** ** What the scan passes leave untouched, and the TLS slots *)

Section ScanMore.
Import Scan.

Lemma dynamic_body_meta id sym f : same_meta sym (fst (dynamic_body id (sym, f))).
Proof.
  unfold dynamic_body. cbn [fst snd].
  set (p1 := if has_flag (rels sym) HAS_GOT_REL then _ else _).
  assert (H1 : same_meta sym (fst (fst p1))).
  { subst p1. destruct (has_flag _ HAS_GOT_REL); cbn [fst]; [| apply same_meta_refl].
    apply (assign_keeps SGot 1 (sym, f)). }
  clearbody p1. destruct p1 as [st1 n1]. cbn [fst] in H1.
  set (p2 := if has_flag (rels sym) HAS_PLT_REL then _ else _).
  assert (H2 : same_meta sym (fst (fst p2))).
  { subst p2. destruct (has_flag _ HAS_PLT_REL); cbn [fst]; [| exact H1].
    destruct (_ =? -1).
    - eapply same_meta_trans; [| apply assign_keeps].
      eapply same_meta_trans; [| apply assign_keeps].
      eapply same_meta_trans; [exact H1 | apply assign_keeps].
    - eapply same_meta_trans; [exact H1 | apply assign_keeps]. }
  clearbody p2. destruct p2 as [st2 n2]. cbn [fst] in H2.
  set (p3 := if has_flag (rels sym) HAS_TLSGD_REL then _ else _).
  assert (H3 : same_meta sym (fst (fst p3))).
  { subst p3. destruct (has_flag _ HAS_TLSGD_REL); cbn [fst]; [| exact H2].
    eapply same_meta_trans; [exact H2 | apply assign_keeps]. }
  clearbody p3. destruct p3 as [st3 n3]. cbn [fst] in H3.
  set (p4 := if has_flag (rels sym) HAS_TLSLD_REL then _ else _).
  assert (H4 : same_meta sym (fst (fst p4))).
  { subst p4. destruct (has_flag _ HAS_TLSLD_REL); cbn [fst]; [| exact H3].
    eapply same_meta_trans; [exact H3 | apply assign_keeps]. }
  clearbody p4. destruct p4 as [st4 n4]. cbn [fst] in H4.
  set (st5 := if has_flag (rels sym) HAS_GOTTP_REL then _ else _).
  assert (H5 : same_meta sym (fst st5)).
  { subst st5. destruct (has_flag _ HAS_GOTTP_REL); [| exact H4].
    eapply same_meta_trans; [exact H4 | apply assign_keeps]. }
  clearbody st5. destruct n4; exact H5.
Qed.

Lemma dynamic_visit_meta st (id : nat) :
  Forall2 same_meta (fst st) (fst (dynamic_visit st id)).
Proof.
  unfold dynamic_visit. destruct (fst st !! id) as [sym |] eqn:Hid;
    [| apply Forall2_same_meta_refl].
  destruct (defined_by (snd st) sym); [| apply Forall2_same_meta_refl].
  pose proof (dynamic_body_meta id sym (snd st)) as Hm.
  destruct (dynamic_body id (sym, snd st)) as [sym' f']. cbn [fst] in *.
  rewrite <- (list_insert_id (fst st) id sym Hid) at 1.
  apply Forall2_insert; [apply Forall2_same_meta_refl | exact Hm].
Qed.

Lemma dynamic_fold_meta ids : forall st,
  Forall2 same_meta (fst st) (fst (foldl dynamic_visit st ids)).
Proof.
  induction ids as [| id ids IH]; intros st; cbn [foldl];
    [apply Forall2_same_meta_refl |].
  eapply Forall2_trans; [| apply dynamic_visit_meta | apply IH].
  intros x y z. apply same_meta_trans.
Qed.

(** The static loop body never stores a TLSGD slot. *)
Lemma static_body_gotgd sym f st' :
  static_body (sym, f) = Done st' -> gotgd_idx (fst st') = gotgd_idx sym.
Proof.
  unfold static_body. cbn [fst snd].
  destruct (has_flag (rels sym) HAS_GOT_REL);
  destruct (has_flag (rels sym) HAS_PLT_REL);
  destruct (has_flag (rels sym) HAS_TLSGD_REL); try discriminate;
  destruct (has_flag (rels sym) HAS_TLSLD_REL); try discriminate;
  destruct (has_flag (rels sym) HAS_GOTTP_REL); cbn [andb fst snd assign];
  try destruct (_ =? STT_GNU_IFUNC);
  intros E; injection E as <-; reflexivity.
Qed.

Lemma visit_all_gotgd ids : forall st st',
  visit_all st ids = Done st' ->
  Forall2 (fun a b => gotgd_idx b = gotgd_idx a) (fst st) (fst st').
Proof.
  assert (Hrefl : forall store : list Symbol,
            Forall2 (fun a b => gotgd_idx b = gotgd_idx a) store store).
  { intros store. apply Forall2_same_length_lookup_2; [reflexivity |].
    intros i a b Ha Hb. congruence. }
  induction ids as [| id ids IH]; intros st st' H; cbn [visit_all] in H.
  - injection H as <-. apply Hrefl.
  - destruct (static_visit st id) as [st1 | msg] eqn:Hv; [| discriminate].
    assert (H1 : Forall2 (fun a b => gotgd_idx b = gotgd_idx a) (fst st) (fst st1)).
    { unfold static_visit in Hv. destruct (fst st !! id) as [sym |] eqn:Hid.
      2: { injection Hv as <-. apply Hrefl. }
      destruct (defined_by (snd st) sym).
      2: { injection Hv as <-. apply Hrefl. }
      destruct (static_body (sym, snd st)) as [[sym' f'] | msg] eqn:Hb; [| discriminate].
      injection Hv as <-. cbn [fst].
      rewrite <- (list_insert_id (fst st) id sym Hid) at 1.
      apply Forall2_insert; [apply Hrefl |].
      apply (static_body_gotgd _ _ _ Hb). }
    eapply Forall2_trans; [| exact H1 | apply (IH _ _ H)].
    intros x y z Hxy Hyz. cbn in *. congruence.
Qed.

(** After the dynamic loop body a symbol with a TLSGD or TLSLD need has
    its slot in [gotgd_idx]. *)
Lemma dynamic_body_gotgd id sym f :
  pair_inv (sym, f) ->
  tls_need (fst (dynamic_body id (sym, f))) = true ->
  0 <= gotgd_idx (fst (dynamic_body id (sym, f))).
Proof.
  intros Hinv. pose proof (since_start sym f Hinv) as H0.
  pose proof (dynamic_body_meta id sym f) as (_ & _ & Hrels & _).
  unfold tls_need. rewrite Hrels. clear Hrels.
  unfold dynamic_body. cbn [fst snd].
  set (p1 := if has_flag (rels sym) HAS_GOT_REL then _ else _).
  assert (H1 : since sym f (fst p1)).
  { subst p1. destruct (has_flag _ HAS_GOT_REL); cbn [fst]; [| exact H0].
    apply since_bump_reldyn; [lia |]. apply since_assign; [lia | exact H0]. }
  clearbody p1. destruct p1 as [st1 n1]. cbn [fst] in H1.
  set (p2 := if has_flag (rels sym) HAS_PLT_REL then _ else _).
  assert (H2 : since sym f (fst p2)).
  { subst p2. destruct (has_flag _ HAS_PLT_REL); cbn [fst]; [| exact H1].
    destruct (_ =? -1); repeat (apply since_assign; [lia |]); exact H1. }
  clearbody p2. destruct p2 as [st2 n2]. cbn [fst] in H2.
  set (p3 := if has_flag (rels sym) HAS_TLSGD_REL then _ else _).
  assert (H3 : since sym f (fst p3) /\
               (has_flag (rels sym) HAS_TLSGD_REL = true -> 0 <= gotgd_idx (fst (fst p3)))).
  { subst p3. destruct (has_flag _ HAS_TLSGD_REL); cbn [fst]; [| split; [exact H2 | discriminate]].
    split; [apply since_bump_reldyn; [lia |]; apply since_assign; [lia | exact H2] |].
    intros _. destruct H2 as (Hp & _). destruct st2 as [s2 f2].
    pose proof (pair_inv_counts _ _ Hp). cbn. lia. }
  clearbody p3. destruct p3 as [st3 n3]. cbn [fst] in H3. destruct H3 as [H3 G3].
  set (p4 := if has_flag (rels sym) HAS_TLSLD_REL then _ else _).
  assert (H4 : has_flag (rels sym) HAS_TLSGD_REL || has_flag (rels sym) HAS_TLSLD_REL = true ->
               0 <= gotgd_idx (fst (fst p4))).
  { subst p4. destruct (has_flag _ HAS_TLSLD_REL); cbn [fst].
    - intros _. destruct H3 as (Hp & _). destruct st3 as [s3 f3].
      pose proof (pair_inv_counts _ _ Hp). cbn. lia.
    - rewrite orb_false_r. exact G3. }
  clearbody p4. destruct p4 as [st4 n4]. cbn [fst] in H4.
  intros Ht. specialize (H4 Ht).
  assert (H5 : 0 <= gotgd_idx
                 (fst (if has_flag (rels sym) HAS_GOTTP_REL then assign SGotTp 1 st4 else st4))).
  { destruct (has_flag _ HAS_GOTTP_REL); [| exact H4]. destruct st4; exact H4. }
  destruct n4; exact H5.
Qed.

End ScanMore.

(** X9. The slot-assignment pass of [scan_rels], [scan_rels_static] or
    [scan_rels_dynamic] run on file after file, never writes [gotld_idx]
    or [dynsym_idx]: when the pass returns, in a static or a dynamic
    link, every symbol has the [gotld_idx], [dynsym_idx], defining file,
    type and relocation bits it had before.  (The TLSLD branch of
    [scan_rels_dynamic] stores its slot in [gotgd_idx]; what
    [DynsymSection::add_symbols], called at the end of [scan_rels], does
    to [dynsym_idx] is not in main.cc and not part of this.) *)
Theorem scan_passes_never_assign_gotld (is_static : bool)
    (files : list Scan.ObjectFile) : forall (store store' : list Scan.Symbol)
    (files' : list Scan.ObjectFile),
  Scan.scan_files is_static store files = Done (store', files') ->
  Forall2 (fun a b =>
    Scan.gotld_idx b = Scan.gotld_idx a /\ Scan.dynsym_idx b = Scan.dynsym_idx a /\
    Scan.sym_file b = Scan.sym_file a /\ Scan.sym_type b = Scan.sym_type a /\
    Scan.rels b = Scan.rels a) store store'.
Proof.
  assert (Hweak : forall s s' : list Scan.Symbol, Forall2 Scan.same_meta s s' ->
            Forall2 (fun a b =>
              Scan.gotld_idx b = Scan.gotld_idx a /\ Scan.dynsym_idx b = Scan.dynsym_idx a /\
              Scan.sym_file b = Scan.sym_file a /\ Scan.sym_type b = Scan.sym_type a /\
              Scan.rels b = Scan.rels a) s s').
  { intros s s' H. eapply Forall2_impl; [exact H |].
    intros a b (M1 & M2 & M3 & M4 & M5). auto. }
  destruct is_static.
  { intros store store' files' H. apply Hweak.
    apply (proj1 (scan_files_static_kept _ _ _ _ H)). }
  induction files as [| f rest IH]; intros store store' files' H; cbn [Scan.scan_files] in H.
  { injection H as <- _. apply Hweak. apply Forall2_same_meta_refl. }
  unfold Scan.scan_file in H.
  destruct (Scan.scan_rels_dynamic store f) as [store1 f1] eqn:Hf.
  destruct (Scan.scan_files false store1 rest) as [[store2 rest'] | msg] eqn:Hr;
    [| discriminate].
  injection H as <- _.
  assert (H1 : Forall2 Scan.same_meta store store1).
  { pose proof (dynamic_fold_meta (Scan.symbols f) (store, f)) as Hm.
    fold (Scan.scan_rels_dynamic store f) in Hm. rewrite Hf in Hm. exact Hm. }
  apply Hweak in H1. pose proof (IH _ _ _ Hr) as H2.
  eapply Forall2_trans; [| exact H1 | exact H2].
  intros x y z (A1 & A2 & A3 & A4 & A5) (B1 & B2 & B3 & B4 & B5).
  repeat split; congruence.
Qed.

Lemma scan_passes_never_assign_gotld_witness :
  Scan.scan_files false
    [Scan.new_symbol (Some 0%nat) 6 Scan.HAS_TLSLD_REL] [Scan.new_file 0 [0%nat]]
    = Done ([Scan.mkSymbol (Some 0%nat) 6 16 (-1) (-1) (-1) (-1) (-1) 0 (-1) (-1)],
            [Scan.mkFile 0 [0%nat] 1 0 0 0 1 0 0 0 0 0 [0%nat]]) /\
  Forall2 (fun a b =>
    Scan.gotld_idx b = Scan.gotld_idx a /\ Scan.dynsym_idx b = Scan.dynsym_idx a /\
    Scan.sym_file b = Scan.sym_file a /\ Scan.sym_type b = Scan.sym_type a /\
    Scan.rels b = Scan.rels a)
    [Scan.new_symbol (Some 0%nat) 6 Scan.HAS_TLSLD_REL]
    [Scan.mkSymbol (Some 0%nat) 6 16 (-1) (-1) (-1) (-1) (-1) 0 (-1) (-1)].
Proof.
  assert (H : Scan.scan_files false
      [Scan.new_symbol (Some 0%nat) 6 Scan.HAS_TLSLD_REL] [Scan.new_file 0 [0%nat]]
      = Done ([Scan.mkSymbol (Some 0%nat) 6 16 (-1) (-1) (-1) (-1) (-1) 0 (-1) (-1)],
              [Scan.mkFile 0 [0%nat] 1 0 0 0 1 0 0 0 0 0 [0%nat]]))
    by (vm_compute; reflexivity).
  split; [exact H |].
  exact (scan_passes_never_assign_gotld _ _ _ _ _ H).
Defined.

(** ** The writer pass after the scan *)

Section WriterAfterScan.
Import Scan.
Variables get_addr get_got_addr get_gotplt_addr get_plt_addr : Symbol -> Z.
Variable tls_end : Z.
Variable is_static : bool.
Variable out : Writer.Sections.

Lemma write_symbol_message file (id : nat) sym r msg :
  Writer.write_symbol get_addr get_got_addr get_gotplt_addr get_plt_addr
      tls_end is_static out file id sym r = Fatal msg ->
  msg = "unimplemented"%string.
Proof.
  unfold Writer.write_symbol.
  set (p1 := if negb (got_idx sym =? -1) then _ else _). destruct p1 as [w1 r1].
  destruct (negb (gotgd_idx sym =? -1)); [intros E; injection E as <-; reflexivity |].
  destruct (negb (gotld_idx sym =? -1)); [intros E; injection E as <-; reflexivity |].
  discriminate.
Qed.

Lemma write_symbol_gotgd file (id : nat) sym r :
  gotgd_idx sym <> -1 ->
  Writer.write_symbol get_addr get_got_addr get_gotplt_addr get_plt_addr
      tls_end is_static out file id sym r = Fatal "unimplemented".
Proof.
  intros Hgd. unfold Writer.write_symbol.
  set (p1 := if negb (got_idx sym =? -1) then _ else _). destruct p1 as [w1 r1].
  destruct (Z.eqb_spec (gotgd_idx sym) (-1)) as [E | _]; [contradiction | reflexivity].
Qed.

Lemma write_symbols_message store file ids : forall r msg,
  Writer.write_symbols get_addr get_got_addr get_gotplt_addr get_plt_addr
      tls_end is_static out store file ids r = Fatal msg ->
  msg = "unimplemented"%string.
Proof.
  induction ids as [| id ids IH]; intros r msg H; cbn [Writer.write_symbols] in H;
    [discriminate |].
  destruct (store !! id) as [sym |]; [| apply (IH _ _ H)].
  destruct (defined_by file sym); [| apply (IH _ _ H)].
  destruct (Writer.write_symbol get_addr get_got_addr get_gotplt_addr get_plt_addr
      tls_end is_static out file id sym r) as [[ws0 r1] | msg0] eqn:Hw.
  - destruct (Writer.write_symbols get_addr get_got_addr get_gotplt_addr get_plt_addr
      tls_end is_static out store file ids r1) as [ws1 | msg1] eqn:Hrest; [discriminate |].
    injection H as <-. apply (IH _ _ Hrest).
  - injection H as <-. apply (write_symbol_message _ _ _ _ _ Hw).
Qed.

Lemma write_symbols_gotgd store file ids : forall r (id : nat) sym,
  In id ids -> store !! id = Some sym -> defined_by file sym = true ->
  gotgd_idx sym <> -1 ->
  Writer.write_symbols get_addr get_got_addr get_gotplt_addr get_plt_addr
      tls_end is_static out store file ids r = Fatal "unimplemented".
Proof.
  intros r id sym Hin Hs Hd Hgd.
  destruct (Writer.write_symbols get_addr get_got_addr get_gotplt_addr get_plt_addr
      tls_end is_static out store file ids r) as [ws | msg] eqn:H.
  - destruct (write_symbols_member _ _ _ _ _ _ _ _ _ _ _ _ _ _ H Hin Hs Hd)
      as (r0 & ws0 & r1 & Hw & _).
    rewrite (write_symbol_gotgd file id sym r0 Hgd) in Hw. discriminate Hw.
  - f_equal. apply (write_symbols_message _ _ _ _ _ H).
Qed.

Lemma write_symbol_done file (id : nat) sym r :
  gotgd_idx sym = -1 -> gotld_idx sym = -1 ->
  exists ws r',
    Writer.write_symbol get_addr get_got_addr get_gotplt_addr get_plt_addr
      tls_end is_static out file id sym r = Done (ws, r').
Proof.
  intros Hgd Hld. unfold Writer.write_symbol.
  set (p1 := if negb (got_idx sym =? -1) then _ else _). destruct p1 as [w1 r1].
  rewrite Hgd, Hld. cbn [Z.eqb negb]. eexists _, _. reflexivity.
Qed.

Lemma write_symbols_done store file ids : forall r,
  (forall (id : nat) sym, In id ids -> store !! id = Some sym ->
     defined_by file sym = true -> gotgd_idx sym = -1 /\ gotld_idx sym = -1) ->
  exists ws,
    Writer.write_symbols get_addr get_got_addr get_gotplt_addr get_plt_addr
      tls_end is_static out store file ids r = Done ws.
Proof.
  induction ids as [| id ids IH]; intros r Hno; cbn [Writer.write_symbols];
    [eexists; reflexivity |].
  assert (Hrest : forall (id' : nat) sym, In id' ids -> store !! id' = Some sym ->
            defined_by file sym = true -> gotgd_idx sym = -1 /\ gotld_idx sym = -1).
  { intros id' sym Hin. apply Hno. right. exact Hin. }
  destruct (store !! id) as [sym |] eqn:Hs; [| apply (IH _ Hrest)].
  destruct (defined_by file sym) eqn:Hd; [| apply (IH _ Hrest)].
  destruct (Hno id sym (or_introl eq_refl) Hs Hd) as [Hgd Hld].
  destruct (write_symbol_done file id sym r Hgd Hld) as (ws0 & r1 & ->).
  destruct (IH r1 Hrest) as (ws1 & ->). eexists. reflexivity.
Qed.

(** Every effect of the loop comes from the body run on one of the
    file's own symbols. *)
Lemma write_symbols_origin store file ids : forall r ws w,
  Writer.write_symbols get_addr get_got_addr get_gotplt_addr get_plt_addr
      tls_end is_static out store file ids r = Done ws ->
  In w ws ->
  exists (id : nat) sym r0 ws0 r1,
    In id ids /\ store !! id = Some sym /\ defined_by file sym = true /\
    Writer.write_symbol get_addr get_got_addr get_gotplt_addr get_plt_addr
      tls_end is_static out file id sym r0 = Done (ws0, r1) /\ In w ws0.
Proof.
  induction ids as [| id ids IH]; intros r ws w H Hin; cbn [Writer.write_symbols] in H.
  { injection H as <-. destruct Hin. }
  assert (Hlift : (exists (id' : nat) sym r0 ws0 r1,
            In id' ids /\ store !! id' = Some sym /\ defined_by file sym = true /\
            Writer.write_symbol get_addr get_got_addr get_gotplt_addr get_plt_addr
              tls_end is_static out file id' sym r0 = Done (ws0, r1) /\ In w ws0) ->
          exists (id' : nat) sym r0 ws0 r1,
            In id' (id :: ids) /\ store !! id' = Some sym /\ defined_by file sym = true /\
            Writer.write_symbol get_addr get_got_addr get_gotplt_addr get_plt_addr
              tls_end is_static out file id' sym r0 = Done (ws0, r1) /\ In w ws0).
  { intros (id' & sym & r0 & ws0 & r1 & H1 & H2). exists id', sym, r0, ws0, r1.
    split; [right; exact H1 | exact H2]. }
  destruct (store !! id) as [sym |] eqn:Hs; [| apply Hlift, (IH _ _ _ H Hin)].
  destruct (defined_by file sym) eqn:Hd; [| apply Hlift, (IH _ _ _ H Hin)].
  destruct (Writer.write_symbol get_addr get_got_addr get_gotplt_addr get_plt_addr
      tls_end is_static out file id sym r) as [[ws0 r1] | msg] eqn:Hw; [| discriminate].
  destruct (Writer.write_symbols get_addr get_got_addr get_gotplt_addr get_plt_addr
      tls_end is_static out store file ids r1) as [ws1 | msg] eqn:Hrest; [| discriminate].
  injection H as <-. apply in_app_or in Hin as [Hin | Hin].
  - exists id, sym, r, ws0, r1. split; [left; reflexivity |]. auto.
  - apply Hlift, (IH _ _ _ Hrest Hin).
Qed.

End WriterAfterScan.

Section StaticWrites.
Import Scan.
Variables get_addr get_got_addr get_gotplt_addr get_plt_addr : Symbol -> Z.
Variable tls_end : Z.
Variable out : Writer.Sections.

(** The GOT stores of the body in a static link. *)
Lemma write_symbol_static_got file (id : nat) sym r ws r' :
  Writer.write_symbol get_addr get_got_addr get_gotplt_addr get_plt_addr
      tls_end true out file id sym r = Done (ws, r') ->
  let got := Writer.got_sh_offset out + got_offset file in
  (got_idx sym <> -1 ->
     In (Writer.Store64 (got + got_idx sym * GOT_SIZE) (get_addr sym)) ws) /\
  (gottp_idx sym <> -1 ->
     In (Writer.Store64 (got + gottp_idx sym * GOT_SIZE)
           (wrap64 (get_addr sym - tls_end))) ws).
Proof.
  unfold Writer.write_symbol. intros H.
  destruct (negb (gotgd_idx sym =? -1)); [destruct (negb (got_idx sym =? -1)); discriminate |].
  destruct (negb (gotld_idx sym =? -1)); [destruct (negb (got_idx sym =? -1)); discriminate |].
  cbv zeta. split; intros Hne.
  - destruct (Z.eqb_spec (got_idx sym) (-1)) as [E | _]; [contradiction |].
    cbn [negb] in H. injection H as <- _. left. reflexivity.
  - destruct (Z.eqb_spec (gottp_idx sym) (-1)) as [E | _]; [contradiction |].
    cbn [negb] in H.
    destruct (negb (got_idx sym =? -1)); injection H as <- _.
    + right. left. reflexivity.
    + left. reflexivity.
Qed.

(** Every 64-bit store of the body in a static link, for a symbol whose
    RELPLT slot (if any) belongs to an IFUNC, is a GOT store. *)
Lemma write_symbol_static_stores file (id : nat) sym r ws r' pos v :
  Writer.write_symbol get_addr get_got_addr get_gotplt_addr get_plt_addr
      tls_end true out file id sym r = Done (ws, r') ->
  (relplt_idx sym <> -1 -> sym_type sym = STT_GNU_IFUNC) ->
  In (Writer.Store64 pos v) ws ->
  let got := Writer.got_sh_offset out + got_offset file in
  (got_idx sym <> -1 /\ pos = got + got_idx sym * GOT_SIZE) \/
  (gottp_idx sym <> -1 /\ pos = got + gottp_idx sym * GOT_SIZE).
Proof.
  unfold Writer.write_symbol. intros H Hif Hin.
  destruct (negb (gotgd_idx sym =? -1)); [destruct (negb (got_idx sym =? -1)); discriminate |].
  destruct (negb (gotld_idx sym =? -1)); [destruct (negb (got_idx sym =? -1)); discriminate |].
  cbv zeta.
  assert (H4 : forall w4,
            w4 = (if negb (relplt_idx sym =? -1) then
                    if sym_type sym =? STT_GNU_IFUNC then
                      [Writer.StoreRela
                         (Writer.relplt_sh_offset out + relplt_offset file +
                          relplt_idx sym * sizeof_Rela) R_X86_64_IRELATIVE
                         (get_gotplt_addr sym) (dynsym_idx sym) (get_addr sym)]
                    else
                      [Writer.StoreRela
                         (Writer.relplt_sh_offset out + relplt_offset file +
                          relplt_idx sym * sizeof_Rela) R_X86_64_JUMP_SLOT
                         (get_gotplt_addr sym) (dynsym_idx sym) 0;
                       Writer.Store64
                         (Writer.gotplt_sh_offset out + gotplt_offset file +
                          gotplt_idx sym * sizeof_Sym) (wrap64 (get_plt_addr sym + 6))]
                  else []) ->
            ~ In (Writer.Store64 pos v) w4).
  { intros w4 ->. destruct (Z.eqb_spec (relplt_idx sym) (-1)) as [E | Hne]; cbn [negb];
      [intros [] |].
    rewrite (Hif Hne), Z.eqb_refl. intros [E | []]. discriminate E. }
  assert (H3 : ~ In (Writer.Store64 pos v)
                 (if negb (plt_idx sym =? -1) then [Writer.PltEntry id] else [])).
  { destruct (negb (plt_idx sym =? -1)); [intros [E | []]; discriminate E | intros []]. }
  destruct (Z.eqb_spec (got_idx sym) (-1)) as [Eg | Hg]; cbn [negb] in H;
    injection H as <- _.
  - cbn [app] in Hin. apply in_app_or in Hin as [Hin | Hin].
    + right. destruct (Z.eqb_spec (gottp_idx sym) (-1)) as [E | Hne]; cbn [negb] in Hin;
        [destruct Hin |].
      destruct Hin as [E | []]. injection E as <- _. split; [exact Hne | reflexivity].
    + apply in_app_or in Hin as [Hin | Hin]; [destruct (H3 Hin) |].
      destruct (H4 _ eq_refl Hin).
  - cbn [app] in Hin. destruct Hin as [E | Hin].
    + left. injection E as <- _. split; [exact Hg | reflexivity].
    + apply in_app_or in Hin as [Hin | Hin].
      * right. destruct (Z.eqb_spec (gottp_idx sym) (-1)) as [E | Hne]; cbn [negb] in Hin;
          [destruct Hin |].
        destruct Hin as [E | []]. injection E as <- _. split; [exact Hne | reflexivity].
      * apply in_app_or in Hin as [Hin | Hin]; [destruct (H3 Hin) |].
        destruct (H4 _ eq_refl Hin).
Qed.

End StaticWrites.

(** X10. A dynamic link of a file that defines, and lists, a symbol with
    a TLSGD or TLSLD need cannot be written: [scan_rels_dynamic], started
    on symbols without slots, leaves the symbol with a [gotgd_idx] (and
    the [gotld_idx] it had), and [write_got_plt] on the scanned file then
    ends with the fatal error "unimplemented", whatever the other symbols
    are. *)
Theorem dynamic_tls_symbol_is_unimplemented
    (get_addr get_got_addr get_gotplt_addr get_plt_addr : Scan.Symbol -> Z)
    (tls_end : Z) (out : Writer.Sections)
    (store : list Scan.Symbol) (f : Scan.ObjectFile) (id : nat) (sym : Scan.Symbol) :
  Forall Scan.unassigned store ->
  (forall t, Scan.count t f = 0) ->
  In id (Scan.symbols f) -> store !! id = Some sym -> Scan.defined_by f sym = true ->
  Scan.tls_need sym = true ->
  (exists sym', fst (Scan.scan_rels_dynamic store f) !! id = Some sym' /\
                0 <= Scan.gotgd_idx sym' /\ Scan.gotld_idx sym' = Scan.gotld_idx sym) /\
  Writer.write_file get_addr get_got_addr get_gotplt_addr get_plt_addr tls_end false out
    (fst (Scan.scan_rels_dynamic store f)) (snd (Scan.scan_rels_dynamic store f)) =
  Fatal "unimplemented".
Proof.
  intros Hun Hzero Hin Hs Hd Ht.
  pose proof (store_inv_unassigned store f Hun Hzero) as Hinv.
  set (P := fun a => Scan.tls_need a = true -> 0 <= Scan.gotgd_idx a).
  assert (Hv0 : Scan.visited (fun _ => True) P (store, f) (fun _ => False)).
  { split; [intros; exact I | intros i a []]. }
  pose proof (dynamic_fold_visited (fun _ => True) P (fun _ _ => I) (Scan.symbols f)
                (fun id sym f Hp _ => dynamic_body_gotgd id sym f Hp)
                (store, f) _ Hinv Hv0) as (_ & HPost).
  pose proof (dynamic_fold_ok (Scan.symbols f) (store, f) Hinv)
    as (_ & (_ & Hfid & Hsyms & _) & Hev).
  fold (Scan.scan_rels_dynamic store f) in HPost, Hfid, Hsyms, Hev.
  cbn [fst snd] in Hfid, Hsyms, Hev.
  destruct (Forall2_lookup_l _ _ _ _ _ Hev Hs) as (sym' & Hs' & (M1 & M2 & M3 & M4 & _) & _).
  assert (Hd' : Scan.defined_by (snd (Scan.scan_rels_dynamic store f)) sym' = true).
  { rewrite <- Hd. apply defined_by_same; assumption. }
  assert (Ht' : Scan.tls_need sym' = true) by (unfold Scan.tls_need; rewrite M3; exact Ht).
  pose proof (HPost id sym' (or_intror Hin) Hs' Hd' Ht') as Hgd.
  split.
  - exists sym'. split; [exact Hs' |]. split; [exact Hgd | exact M4].
  - unfold Writer.write_file. rewrite Hsyms.
    apply (write_symbols_gotgd _ _ _ _ _ _ _ _ _ _ _ id sym' Hin Hs' Hd'). lia.
Qed.

Lemma dynamic_tls_symbol_is_unimplemented_witness :
  Writer.write_file (fun _ => 0) (fun _ => 0) (fun _ => 0) (fun _ => 0) 0 false
    (Writer.mkSections 0 0 0 0 0)
    (fst (Scan.scan_rels_dynamic
            [Scan.new_symbol (Some 0%nat) 6 Scan.HAS_TLSLD_REL] (Scan.new_file 0 [0%nat])))
    (snd (Scan.scan_rels_dynamic
            [Scan.new_symbol (Some 0%nat) 6 Scan.HAS_TLSLD_REL] (Scan.new_file 0 [0%nat]))) =
  Fatal "unimplemented".
Proof.
  refine (proj2 (dynamic_tls_symbol_is_unimplemented _ _ _ _ _ _
            [Scan.new_symbol (Some 0%nat) 6 Scan.HAS_TLSLD_REL] (Scan.new_file 0 [0%nat])
            0%nat (Scan.new_symbol (Some 0%nat) 6 Scan.HAS_TLSLD_REL) _ _ _ _ _ _)).
  - repeat constructor; intros s; destruct s; reflexivity.
  - intros t; destruct t; reflexivity.
  - left. reflexivity.
  - reflexivity.
  - reflexivity.
  - reflexivity.
Defined.

(** X11. A static link after a successful [scan_rels_static] (started on
    symbols without slots): [write_got_plt] on the scanned file does not
    hit "unimplemented"; for every listed symbol the file defines it
    stores the symbol's address at its GOT slot and the address minus
    [tls_end] at its GOTTP slot; and every 64-bit store of the pass goes
    to a slot of the file's own GOT range, [got_offset + k * 8] with
    [0 <= k < num_got]. *)
Theorem static_writes_stay_in_got
    (get_addr get_got_addr get_gotplt_addr get_plt_addr : Scan.Symbol -> Z)
    (tls_end : Z) (out : Writer.Sections)
    (store store' : list Scan.Symbol) (f f' : Scan.ObjectFile) :
  Forall Scan.unassigned store ->
  Forall (fun a => Scan.gotld_idx a = -1) store ->
  (forall t, Scan.count t f = 0) ->
  Scan.scan_rels_static store f = Done (store', f') ->
  let got := Writer.got_sh_offset out + Scan.got_offset f' in
  exists ws,
    Writer.write_file get_addr get_got_addr get_gotplt_addr get_plt_addr tls_end true out
      store' f' = Done ws /\
    (forall (id : nat) sym,
       In id (Scan.symbols f') -> store' !! id = Some sym ->
       Scan.defined_by f' sym = true ->
       (Scan.got_idx sym <> -1 ->
          In (Writer.Store64 (got + Scan.got_idx sym * Scan.GOT_SIZE) (get_addr sym)) ws) /\
       (Scan.gottp_idx sym <> -1 ->
          In (Writer.Store64 (got + Scan.gottp_idx sym * Scan.GOT_SIZE)
                (wrap64 (get_addr sym - tls_end))) ws)) /\
    (forall pos v, In (Writer.Store64 pos v) ws ->
       exists k, 0 <= k < Scan.num_got f' /\ pos = got + k * Scan.GOT_SIZE).
Proof.
  intros Hun Hld Hzero Hscan got.
  pose proof (store_inv_unassigned store f Hun Hzero) as Hinv.
  unfold Scan.scan_rels_static in Hscan.
  pose proof (visit_all_ok (Scan.symbols f) (store, f) (store', f') Hinv Hscan)
    as ((Hrange & _) & (_ & Hfid & Hsyms & _) & Hev).
  pose proof (visit_all_gotgd _ _ _ Hscan) as Hgd.
  cbn [fst snd] in *.
  assert (Hv0 : Scan.visited (fun a => Scan.no_plt_triple a \/ Scan.static_plt_slots a)
                  Scan.static_plt_slots (store, f) (fun _ => False)).
  { split; [| intros i a []]. intros i a Hi _. left.
    rewrite List.Forall_forall in Hun.
    assert (Ha : Scan.unassigned a)
      by (apply Hun, list_elem_of_In; eapply list_elem_of_lookup_2; exact Hi).
    repeat split; [apply (Ha Scan.SPlt) | apply (Ha Scan.SGotPlt) | apply (Ha Scan.SRelPlt)]. }
  pose proof (visit_all_visited _ _ (fun a H => or_intror H) (Scan.symbols f)
                static_body_plt_slots (store, f) (store', f') _ Hinv Hv0 Hscan)
    as (HQ & _).
  cbn [fst snd] in HQ.
  assert (Hifunc : forall (id : nat) sym, store' !! id = Some sym ->
            Scan.defined_by f' sym = true ->
            Scan.relplt_idx sym <> -1 -> Scan.sym_type sym = STT_GNU_IFUNC).
  { intros id sym Hs Hd Hrel. destruct (HQ id sym Hs Hd) as [(_ & _ & Q3) | Hp]; [contradiction |].
    unfold Scan.static_plt_slots in Hp.
    destruct (has_flag (Scan.rels sym) Scan.HAS_PLT_REL); [| cbn in Hp; tauto].
    destruct (Z.eqb_spec (Scan.sym_type sym) STT_GNU_IFUNC); [assumption | cbn in Hp; tauto]. }
  assert (Hclean : forall (id : nat) sym, In id (Scan.symbols f') -> store' !! id = Some sym ->
            Scan.defined_by f' sym = true ->
            Scan.gotgd_idx sym = -1 /\ Scan.gotld_idx sym = -1).
  { intros id sym _ Hs _.
    destruct (Forall2_lookup_r _ _ _ _ _ Hev Hs) as (a & Ha & (_ & _ & _ & M4 & _) & _).
    destruct (Forall2_lookup_r _ _ _ _ _ Hgd Hs) as (a' & Ha' & G).
    rewrite Ha in Ha'. injection Ha' as <-.
    rewrite List.Forall_forall in Hun, Hld.
    assert (Hin : In a store)
      by (apply list_elem_of_In; eapply list_elem_of_lookup_2; exact Ha).
    split; [rewrite G; apply (Hun a Hin Scan.SGotGd) | rewrite M4; apply (Hld a Hin)]. }
  destruct (write_symbols_done get_addr get_got_addr get_gotplt_addr get_plt_addr tls_end
              true out store' f' (Scan.symbols f') 0 Hclean) as (ws & Hws).
  exists ws. split; [exact Hws |]. split.
  - intros id sym Hin Hs Hd.
    destruct (write_symbols_member _ _ _ _ _ _ _ _ _ _ _ _ _ _ Hws Hin Hs Hd)
      as (r0 & ws0 & r1 & Hw & Hsub).
    destruct (write_symbol_static_got _ _ _ _ _ _ _ _ _ _ _ _ Hw) as [Hg Htp].
    split; intros Hne; apply Hsub; [apply (Hg Hne) | apply (Htp Hne)].
  - intros pos v Hin.
    destruct (write_symbols_origin _ _ _ _ _ _ _ _ _ _ _ _ _ Hws Hin)
      as (id & sym & r0 & ws0 & r1 & Hid & Hs & Hd & Hw & Hin0).
    destruct (write_symbol_static_stores _ _ _ _ _ _ _ _ _ _ _ _ _ _ Hw
                (Hifunc id sym Hs Hd) Hin0) as [[Hne ->] | [Hne ->]].
    + exists (Scan.got_idx sym). split; [| reflexivity].
      pose proof (Hrange id sym Hs Hd Scan.SGot) as Hr. cbn in Hr. lia.
    + exists (Scan.gottp_idx sym). split; [| reflexivity].
      pose proof (Hrange id sym Hs Hd Scan.SGotTp) as Hr. cbn in Hr. lia.
Qed.

Lemma static_writes_stay_in_got_witness :
  exists store' f' ws,
    Scan.scan_rels_static Scan.sample_store (Scan.new_file 1 [3; 4; 0]%nat) =
      Done (store', f') /\
    Writer.write_file (fun _ => 4096) (fun _ => 0) (fun _ => 0) (fun _ => 0) 8192 true
      (Writer.mkSections 64 0 0 0 0) store' f' = Done ws /\
    (forall pos v, In (Writer.Store64 pos v) ws ->
       exists k, 0 <= k < Scan.num_got f' /\
                 pos = Writer.got_sh_offset (Writer.mkSections 64 0 0 0 0) +
                       Scan.got_offset f' + k * Scan.GOT_SIZE).
Proof.
  destruct (Scan.scan_rels_static Scan.sample_store (Scan.new_file 1 [3; 4; 0]%nat))
    as [[store' f'] | msg] eqn:E; [| vm_compute in E; discriminate E].
  destruct (static_writes_stay_in_got (fun _ => 4096) (fun _ => 0) (fun _ => 0) (fun _ => 0)
              8192 (Writer.mkSections 64 0 0 0 0) Scan.sample_store store'
              (Scan.new_file 1 [3; 4; 0]%nat) f') as (ws & H1 & _ & H3).
  - repeat constructor; intros s; destruct s; reflexivity.
  - repeat constructor.
  - intros t; destruct t; reflexivity.
  - exact E.
  - exists store', f', ws. split; [reflexivity |]. split; [exact H1 | exact H3].
Defined.

(** ** The counters after a scan pass *)

Section DemandFacts.
Import Scan Demand.

Lemma only_same t : only t t = 1.
Proof. destruct t; reflexivity. Qed.

Lemma only_other t0 t : t <> t0 -> only t0 t = 0.
Proof. destruct t0, t; try reflexivity; congruence. Qed.

Lemma static_body_counts sym f st' :
  static_body (sym, f) = Done st' ->
  forall t, count t (snd st') = count t f + static_need t sym.
Proof.
  unfold static_body, static_need, flag_count. cbn [fst snd].
  set (st1 := if has_flag (rels sym) HAS_GOT_REL then _ else _).
  assert (H1 : (forall t, count t (snd st1) = count t f +
                  (if has_flag (rels sym) HAS_GOT_REL then only TGot t else 0)) /\
               sym_type (fst st1) = sym_type sym).
  { subst st1. destruct (has_flag _ HAS_GOT_REL); cbn [fst snd assign].
    - split; [intros t; destruct t; cbn; lia | reflexivity].
    - split; [intros t; lia | reflexivity]. }
  clearbody st1. destruct st1 as [s1 f1]. cbn [fst snd] in H1 |- *.
  destruct H1 as [H1 T1]. rewrite T1.
  set (st2 := if _ && _ then _ else (s1, f1)).
  assert (H2 : forall t, count t (snd st2) = count t f1 +
                 (if has_flag (rels sym) HAS_PLT_REL && (sym_type sym =? STT_GNU_IFUNC)
                  then only TPlt t + only TGotPlt t + only TRelPlt t else 0)).
  { subst st2. destruct (_ && _); cbn [fst snd assign].
    - intros t; destruct t; cbn; lia.
    - intros t; lia. }
  clearbody st2. destruct st2 as [s2 f2]. cbn [fst snd] in H2.
  destruct (has_flag _ HAS_TLSGD_REL); [discriminate |].
  destruct (has_flag _ HAS_TLSLD_REL); [discriminate |].
  intros E. injection E as <-.
  assert (H3 : forall t,
            count t (snd (if has_flag (rels sym) HAS_GOTTP_REL
                          then assign SGotTp 1 (s2, f2) else (s2, f2))) =
            count t f2 + (if has_flag (rels sym) HAS_GOTTP_REL then only TGot t else 0)).
  { destruct (has_flag _ HAS_GOTTP_REL); cbn [fst snd assign].
    - intros t; destruct t; cbn; lia.
    - intros t; lia. }
  intros t. rewrite H3, H2, H1.
  generalize (has_flag (rels sym) HAS_GOT_REL) (has_flag (rels sym) HAS_GOTTP_REL)
    (has_flag (rels sym) HAS_PLT_REL && (sym_type sym =? STT_GNU_IFUNC)).
  intros [] [] []; destruct t; cbn; lia.
Qed.

Lemma effect_start sym f : effect sym f (fun _ => 0) (got_idx sym) (sym, f).
Proof. repeat split. intros t. cbn. lia. Qed.

Lemma effect_assign sym0 f0 d g s n st :
  s <> SGot -> effect sym0 f0 d g st ->
  effect sym0 f0 (fun t => d t + n * only (slot_table s) t) g (assign s n st).
Proof.
  intros Hs (Hc & Hd & Hg & Hr). destruct st as [sym f]. cbn [fst snd] in *.
  split; [| split; [| split]].
  - intros t. cbn [assign snd].
    destruct (decide (t = slot_table s)) as [-> | Hne].
    + rewrite count_bump_same, Hc, only_same. lia.
    + rewrite count_bump_other by congruence. rewrite Hc, only_other by exact Hne. lia.
  - destruct s; exact Hd.
  - destruct s; try exact Hg. congruence.
  - destruct s; exact Hr.
Qed.

Lemma effect_assign_got sym0 f0 d g st :
  effect sym0 f0 d g st ->
  effect sym0 f0 (fun t => d t + only TGot t) (count TGot f0 + d TGot) (assign SGot 1 st).
Proof.
  intros (Hc & Hd & Hg & Hr). destruct st as [sym f]. cbn [fst snd] in *.
  split; [| split; [| split]].
  - intros t. cbn [assign snd slot_table].
    destruct (decide (t = TGot)) as [-> | Hne].
    + rewrite count_bump_same, Hc, only_same. lia.
    + rewrite count_bump_other by congruence. rewrite Hc, only_other by exact Hne. lia.
  - exact Hd.
  - cbn. apply (Hc TGot).
  - exact Hr.
Qed.

Lemma effect_bump_reldyn sym0 f0 d g n st :
  effect sym0 f0 d g st ->
  effect sym0 f0 (fun t => d t + n * only TRelDyn t) g (fst st, bump_reldyn n (snd st)).
Proof.
  intros (Hc & Hd & Hg & Hr). destruct st as [sym f]. cbn [fst snd] in *.
  split; [| split; [| split]]; try assumption.
  intros t. cbn [fst snd]. unfold bump_reldyn.
  destruct (decide (t = TRelDyn)) as [-> | Hne].
  - rewrite count_bump_same, Hc, only_same. lia.
  - rewrite count_bump_other by congruence. rewrite Hc, only_other by exact Hne. lia.
Qed.

Lemma effect_ext sym0 f0 d d' g g' st :
  (forall t, d t = d' t) -> g = g' -> effect sym0 f0 d g st -> effect sym0 f0 d' g' st.
Proof.
  intros Hd <- (Hc & H2). split; [| exact H2]. intros t. rewrite Hc, Hd. reflexivity.
Qed.

Lemma dynamic_body_counts id sym f :
  pair_inv (sym, f) -> got_by_need sym ->
  (forall t, count t (snd (dynamic_body id (sym, f))) = count t f + dynamic_need t sym) /\
  dynsyms (snd (dynamic_body id (sym, f))) =
    dynsyms f ++ (if needs_dynsym sym then [id] else []) /\
  got_by_need (fst (dynamic_body id (sym, f))).
Proof.
  intros Hinv Hgot.
  pose proof (proj1 Hinv SGot) as Hr. cbn in Hr.
  pose proof (effect_start sym f) as H0.
  unfold dynamic_body. cbn [fst snd].
  set (FG := has_flag (rels sym) HAS_GOT_REL) in *.
  set (FP := has_flag (rels sym) HAS_PLT_REL) in *.
  set (FD := has_flag (rels sym) HAS_TLSGD_REL) in *.
  set (FL := has_flag (rels sym) HAS_TLSLD_REL) in *.
  set (FT := has_flag (rels sym) HAS_GOTTP_REL) in *.
  set (d1 := fun t => if FG then only TGot t + only TRelDyn t else 0).
  set (g1 := if FG then num_got f else -1).
  set (p1 := if FG then _ else _).
  assert (H1 : effect sym f d1 g1 (fst p1) /\ snd p1 = FG).
  { subst p1 d1 g1. unfold got_by_need in Hgot. fold FG in Hgot.
    destruct FG; cbn [fst snd]; (split; [| reflexivity]).
    - pose proof (effect_bump_reldyn _ _ _ _ 1 _ (effect_assign_got _ _ _ _ _ H0)) as HH.
      eapply effect_ext; [| | exact HH].
      + intros t. cbn beta. lia.
      + cbn. lia.
    - eapply effect_ext; [| | exact H0]; [reflexivity |].
      destruct (Z.eq_dec (got_idx sym) (-1)) as [E | Hne]; [exact E |].
      specialize (Hgot Hne). discriminate Hgot. }
  clearbody p1. destruct p1 as [st1 n1]. cbn [fst snd] in H1. destruct H1 as [H1 N1].
  set (d2 := fun t => d1 t + (if FP then only TPlt t +
                                (if FG then 0 else only TGotPlt t + only TRelPlt t)
                              else 0)).
  set (p2 := if FP then _ else _).
  assert (H2 : effect sym f d2 g1 (fst p2) /\ snd p2 = (FG || FP)).
  { subst p2 d2. destruct FP; cbn [fst snd].
    - split; [| rewrite orb_true_r; reflexivity].
      pose proof (effect_assign _ _ _ _ SPlt 1 _ ltac:(discriminate) H1) as HP.
      destruct HP as (Hc & Hd & Hg & Hrel).
      rewrite Hg. subst g1. destruct FG.
      + destruct (Z.eqb_spec (num_got f) (-1)) as [E | _]; [lia |].
        eapply effect_ext; [| reflexivity | exact (conj Hc (conj Hd (conj Hg Hrel)))].
        intros t. cbn beta. cbn [slot_table]. lia.
      + cbn [Z.eqb].
        pose proof (effect_assign _ _ _ _ SRelPlt 1 _ ltac:(discriminate)
                      (effect_assign _ _ _ _ SGotPlt 1 _ ltac:(discriminate)
                         (conj Hc (conj Hd (conj Hg Hrel))))) as HH.
        eapply effect_ext; [| reflexivity | exact HH].
        intros t. cbn beta. cbn [slot_table]. lia.
    - split; [| rewrite orb_false_r; exact N1].
      eapply effect_ext; [| reflexivity | exact H1]. intros t. cbn beta. lia. }
  clearbody p2. destruct p2 as [st2 n2]. cbn [fst snd] in H2. destruct H2 as [H2 N2].
  set (d3 := fun t => d2 t + (if FD then 2 * only TGot t + 2 * only TRelDyn t else 0)).
  set (p3 := if FD then _ else _).
  assert (H3 : effect sym f d3 g1 (fst p3) /\ snd p3 = (FG || FP || FD)).
  { subst p3 d3. destruct FD; cbn [fst snd].
    - split; [| rewrite orb_true_r; reflexivity].
      pose proof (effect_bump_reldyn _ _ _ _ 2 _
                    (effect_assign _ _ _ _ SGotGd 2 _ ltac:(discriminate) H2)) as HH.
      eapply effect_ext; [| reflexivity | exact HH].
      intros t. cbn beta. cbn [slot_table]. lia.
    - split; [| rewrite orb_false_r; exact N2].
      eapply effect_ext; [| reflexivity | exact H2]. intros t. cbn beta. lia. }
  clearbody p3. destruct p3 as [st3 n3]. cbn [fst snd] in H3. destruct H3 as [H3 N3].
  set (d4 := fun t => d3 t + (if FL then only TGot t + only TRelDyn t else 0)).
  set (p4 := if FL then _ else _).
  assert (H4 : effect sym f d4 g1 (fst p4) /\ snd p4 = (FG || FP || FD || FL)).
  { subst p4 d4. destruct FL; cbn [fst snd].
    - split; [| rewrite orb_true_r; reflexivity].
      pose proof (effect_bump_reldyn _ _ _ _ 1 _
                    (effect_assign _ _ _ _ SGotGd 1 _ ltac:(discriminate) H3)) as HH.
      eapply effect_ext; [| reflexivity | exact HH].
      intros t. cbn beta. cbn [slot_table]. lia.
    - split; [| rewrite orb_false_r; exact N3].
      eapply effect_ext; [| reflexivity | exact H3]. intros t. cbn beta. lia. }
  clearbody p4. destruct p4 as [st4 n4]. cbn [fst snd] in H4. destruct H4 as [H4 N4].
  set (d5 := fun t => d4 t + (if FT then only TGot t else 0)).
  set (st5 := if FT then _ else _).
  assert (H5 : effect sym f d5 g1 st5).
  { subst st5 d5. destruct FT.
    - pose proof (effect_assign _ _ _ _ SGotTp 1 _ ltac:(discriminate) H4) as HH.
      eapply effect_ext; [| reflexivity | exact HH].
      intros t. cbn beta. cbn [slot_table]. lia.
    - eapply effect_ext; [| reflexivity | exact H4]. intros t. cbn beta. lia. }
  clearbody st5. destruct st5 as [s5 f5].
  destruct H5 as (Hc & Hd & Hg & Hrel). cbn [fst snd] in Hc, Hd, Hg, Hrel.
  assert (Hneed : forall t, d5 t = dynamic_need t sym).
  { intros t. subst d5 d4 d3 d2 d1. unfold dynamic_need, flag_count.
    fold FG FP FD FL FT. clearbody FG FP FD FL FT.
    destruct FG, FP, FD, FL, FT, t; reflexivity. }
  assert (Hgb : got_by_need s5).
  { unfold got_by_need. rewrite Hg, Hrel. fold FG. subst g1.
    destruct FG; [reflexivity | intros H; contradiction H; reflexivity]. }
  unfold needs_dynsym. fold FG FP FD FL. rewrite <- N4.
  destruct n4; cbn [fst snd].
  - split; [| split; [| exact Hgb]].
    + intros t. rewrite <- Hneed, <- Hc. destruct t; reflexivity.
    + cbn. rewrite Hd. reflexivity.
  - split; [| split; [| exact Hgb]].
    + intros t. rewrite <- Hneed. apply Hc.
    + rewrite app_nil_r. exact Hd.
Qed.

(** The loops see the same symbols, with the same bits and type, after a
    pass that keeps them. *)
Lemma visited_symbol_kept store store' f f' (id : nat) :
  Forall2 same_meta store store' -> file_id f' = file_id f ->
  option_Forall2 same_meta (visited_symbol store f id) (visited_symbol store' f' id).
Proof.
  intros Hm Hfid. unfold visited_symbol.
  destruct (store !! id) as [a |] eqn:Ha.
  - destruct (Forall2_lookup_l _ _ _ _ _ Hm Ha) as (b & Hb & Hab). rewrite Hb.
    rewrite (defined_by_same f f' a b Hfid (proj1 Hab)).
    destruct (defined_by f a); constructor. exact Hab.
  - assert (Hb : store' !! id = None).
    { apply lookup_ge_None. apply lookup_ge_None in Ha.
      rewrite <- (Forall2_length _ _ _ Hm). exact Ha. }
    rewrite Hb. constructor.
Qed.

Lemma total_need_kept need store store' f f' ids :
  (forall a b, same_meta a b -> need b = need a) ->
  Forall2 same_meta store store' -> file_id f' = file_id f ->
  total_need need store' f' ids = total_need need store f ids.
Proof.
  intros Hneed Hm Hfid. induction ids as [| id ids IH]; [reflexivity |].
  cbn [total_need fold_right]. fold (total_need need store f ids).
  fold (total_need need store' f' ids). rewrite IH. f_equal.
  destruct (visited_symbol_kept store store' f f' id Hm Hfid) as [a b Hab |];
    [apply (Hneed a b Hab) | reflexivity].
Qed.

Lemma dynsym_ids_kept store store' f f' ids :
  Forall2 same_meta store store' -> file_id f' = file_id f ->
  dynsym_ids store' f' ids = dynsym_ids store f ids.
Proof.
  intros Hm Hfid. induction ids as [| id ids IH]; [reflexivity |].
  unfold dynsym_ids in *. cbn [omap list_omap]. rewrite IH.
  destruct (visited_symbol_kept store store' f f' id Hm Hfid) as [a b Hab |];
    [| reflexivity].
  unfold needs_dynsym. destruct Hab as (_ & _ & -> & _). reflexivity.
Qed.

Lemma static_need_meta t a b : same_meta a b -> static_need t b = static_need t a.
Proof.
  intros (_ & Ht & Hr & _). unfold static_need, flag_count. rewrite Ht, Hr. reflexivity.
Qed.

Lemma dynamic_need_meta t a b : same_meta a b -> dynamic_need t b = dynamic_need t a.
Proof.
  intros (_ & _ & Hr & _). unfold dynamic_need, flag_count. rewrite Hr. reflexivity.
Qed.

Lemma visit_all_counts ids : forall st st',
  visit_all st ids = Done st' ->
  forall t, count t (snd st') =
            count t (snd st) + total_need (static_need t) (fst st) (snd st) ids.
Proof.
  induction ids as [| id ids IH]; intros st st' H t; cbn [visit_all] in H.
  { injection H as <-. cbn. lia. }
  destruct (static_visit st id) as [st1 | msg] eqn:Hv; [| discriminate].
  rewrite (IH _ _ H t).
  pose proof (static_visit_kept _ _ _ Hv) as (Hm & (Hfid & _) & _).
  rewrite (total_need_kept _ _ _ _ _ ids (static_need_meta t) Hm Hfid).
  cbn [total_need fold_right]. fold (total_need (static_need t) (fst st) (snd st) ids).
  assert (Hstep : count t (snd st1) =
            count t (snd st) +
            match visited_symbol (fst st) (snd st) id with
            | Some sym => static_need t sym
            | None => 0
            end).
  { unfold static_visit in Hv. unfold visited_symbol.
    destruct (fst st !! id) as [sym |]; [| injection Hv as <-; lia].
    destruct (defined_by (snd st) sym); [| injection Hv as <-; lia].
    destruct (static_body (sym, snd st)) as [[sym' f'] | msg] eqn:Hb; [| discriminate].
    injection Hv as <-. apply (static_body_counts _ _ _ Hb t). }
  rewrite Hstep. lia.
Qed.

Lemma dynamic_fold_counts ids : forall st,
  store_inv (fst st) (snd st) ->
  visited got_by_need got_by_need st (fun _ => False) ->
  (forall t, count t (snd (foldl dynamic_visit st ids)) =
             count t (snd st) + total_need (dynamic_need t) (fst st) (snd st) ids) /\
  dynsyms (snd (foldl dynamic_visit st ids)) =
    dynsyms (snd st) ++ dynsym_ids (fst st) (snd st) ids.
Proof.
  induction ids as [| id ids IH]; intros st Hinv Hv; cbn [foldl].
  { split; [intros t; cbn; lia | cbn; rewrite app_nil_r; reflexivity]. }
  pose proof (dynamic_visit_ok st id Hinv) as (Hinv1 & (_ & Hfid & _) & _).
  pose proof (dynamic_visit_meta st id) as Hm.
  assert (Hv1 : visited got_by_need got_by_need (dynamic_visit st id) (fun _ => False)).
  { eapply visited_weaken;
      [| apply (dynamic_visit_visited got_by_need got_by_need (fun a H => H) st
                  (fun _ => False) id); [| exact Hinv | exact Hv]].
    - intros i [].
    - intros sym f Hp Hq. apply (dynamic_body_counts id sym f Hp Hq). }
  destruct (IH _ Hinv1 Hv1) as [IHc IHd].
  assert (Hstep :
    (forall t, count t (snd (dynamic_visit st id)) =
       count t (snd st) +
       match visited_symbol (fst st) (snd st) id with
       | Some sym => dynamic_need t sym
       | None => 0
       end) /\
    dynsyms (snd (dynamic_visit st id)) =
      dynsyms (snd st) ++
      match visited_symbol (fst st) (snd st) id with
      | Some sym => if needs_dynsym sym then [id] else []
      | None => []
      end).
  { unfold dynamic_visit, visited_symbol.
    destruct (fst st !! id) as [sym |] eqn:Hs;
      [| split; [intros; lia | rewrite app_nil_r; reflexivity]].
    destruct (defined_by (snd st) sym) eqn:Hd;
      [| split; [intros; lia | rewrite app_nil_r; reflexivity]].
    pose proof (pair_inv_of_store _ _ _ _ Hinv Hs Hd) as Hp.
    destruct (dynamic_body_counts id sym (snd st) Hp (proj1 Hv id sym Hs Hd))
      as (Hc & Hdy & _).
    destruct (dynamic_body id (sym, snd st)) as [sym' f']. cbn [fst snd] in *.
    split; assumption. }
  destruct Hstep as [Hc Hd]. split.
  - intros t. rewrite IHc, Hc.
    rewrite (total_need_kept _ _ _ _ _ ids (dynamic_need_meta t) Hm Hfid).
    cbn [total_need fold_right].
    fold (total_need (dynamic_need t) (fst st) (snd st) ids). lia.
  - rewrite IHd, Hd, (dynsym_ids_kept _ _ _ _ ids Hm Hfid).
    rewrite <- app_assoc. f_equal. unfold dynsym_ids. cbn [omap list_omap].
    destruct (visited_symbol (fst st) (snd st) id) as [sym |]; [| reflexivity].
    destruct (needs_dynsym sym); reflexivity.
Qed.

End DemandFacts.

(** X12. The counters a scan pass leaves in a file are the sums of what
    its symbols need.  After [scan_rels_static], every counter has grown
    by the sum, over the entries of [file->symbols] that the file
    defines, of: one GOT entry for the GOT bit and one for the GOTTP bit;
    one PLT, one GOTPLT and one RELPLT entry for an IFUNC with the PLT
    bit; no RELDYN entry.  After [scan_rels_dynamic], started on symbols
    without slots and zero counters: one GOT and one RELDYN entry for the
    GOT bit, two of each for TLSGD, one of each for TLSLD, one GOT entry
    for GOTTP, one PLT entry for the PLT bit, and a GOTPLT and a RELPLT
    entry for the PLT bit without the GOT bit; and [dynsyms] has grown by
    the visited entries with a GOT, PLT, TLSGD or TLSLD bit, in order (a
    GOTTP bit alone does not put a symbol into [dynsyms]). *)
Theorem scan_counters_are_sums_of_needs :
  (forall store f store' f' t,
     Scan.scan_rels_static store f = Done (store', f') ->
     Scan.count t f' =
     Scan.count t f + Demand.total_need (Demand.static_need t) store f (Scan.symbols f)) /\
  (forall store f,
     Forall Scan.unassigned store -> (forall t, Scan.count t f = 0) ->
     (forall t,
        Scan.count t (snd (Scan.scan_rels_dynamic store f)) =
        Demand.total_need (Demand.dynamic_need t) store f (Scan.symbols f)) /\
     Scan.dynsyms (snd (Scan.scan_rels_dynamic store f)) =
       Scan.dynsyms f ++ Demand.dynsym_ids store f (Scan.symbols f)).
Proof.
  split.
  - intros store f store' f' t H.
    apply (visit_all_counts (Scan.symbols f) (store, f) (store', f') H t).
  - intros store f Hun Hzero.
    pose proof (store_inv_unassigned store f Hun Hzero) as Hinv.
    assert (Hv : Scan.visited Demand.got_by_need Demand.got_by_need (store, f)
                   (fun _ => False)).
    { split; [| intros i a []]. intros i a Hi _ Hne. exfalso. apply Hne.
      rewrite List.Forall_forall in Hun.
      apply (Hun a (proj1 (list_elem_of_In _ _) (list_elem_of_lookup_2 _ _ _ Hi)) Scan.SGot). }
    destruct (dynamic_fold_counts (Scan.symbols f) (store, f) Hinv Hv) as [Hc Hd].
    split; [| exact Hd]. intros t. unfold Scan.scan_rels_dynamic.
    rewrite (Hc t). cbn [fst snd]. rewrite (Hzero t). lia.
Qed.

Lemma scan_counters_are_sums_of_needs_witness :
  (forall t,
     Scan.count t (snd (Scan.scan_rels_dynamic Scan.sample_store
                          (Scan.new_file 0 [0; 1; 2; 5]%nat))) =
     Demand.total_need (Demand.dynamic_need t) Scan.sample_store
       (Scan.new_file 0 [0; 1; 2; 5]%nat) [0; 1; 2; 5]%nat) /\
  Scan.dynsyms (snd (Scan.scan_rels_dynamic Scan.sample_store
                       (Scan.new_file 0 [0; 1; 2; 5]%nat))) = [0; 1; 2]%nat.
Proof.
  destruct (proj2 scan_counters_are_sums_of_needs Scan.sample_store
              (Scan.new_file 0 [0; 1; 2; 5]%nat)) as [Hc Hd].
  - repeat constructor; intros s; destruct s; reflexivity.
  - intros t; destruct t; reflexivity.
  - split; [exact Hc | exact Hd].
Defined.

(** ** The GLOB_DAT records of a dynamic link *)

Section RelocFacts.
Import Scan Demand Relocs.
Variables get_addr get_got_addr get_gotplt_addr get_plt_addr : Symbol -> Z.
Variable tls_end : Z.
Variable out : Writer.Sections.

Lemma rela_positions_app type ws1 ws2 :
  rela_positions type (ws1 ++ ws2) = rela_positions type ws1 ++ rela_positions type ws2.
Proof. unfold rela_positions. apply omap_app. Qed.

Lemma rela_slots_cons buf first n :
  rela_slots buf first (S n) = (buf + first * sizeof_Rela) :: rela_slots buf (first + 1) n.
Proof.
  unfold rela_slots. cbn [seq map]. f_equal; [f_equal; lia |].
  rewrite <- fmap_S_seq. rewrite <- list_fmap_compose.
  apply list_fmap_ext. intros i x _. cbn. f_equal. lia.
Qed.

(** The body in a dynamic link, for a symbol without TLS slots: one
    GLOB_DAT record at the running index if the symbol has a GOT slot. *)
Lemma write_symbol_glob_dat file (id : nat) sym r :
  gotgd_idx sym = -1 -> gotld_idx sym = -1 ->
  exists ws,
    Writer.write_symbol get_addr get_got_addr get_gotplt_addr get_plt_addr
      tls_end false out file id sym r =
    Done (ws, r + (if got_idx sym =? -1 then 0 else 1)) /\
    rela_positions R_X86_64_GLOB_DAT ws =
    if got_idx sym =? -1 then []
    else [Writer.reldyn_sh_offset out + reldyn_offset file + r * sizeof_Rela].
Proof.
  intros Hgd Hld. unfold Writer.write_symbol. rewrite Hgd, Hld. cbn [Z.eqb negb].
  destruct (got_idx sym =? -1); cbn [negb]; eexists; (split; [rewrite ?Z.add_0_r; reflexivity |]).
  - rewrite !rela_positions_app. cbn [app].
    destruct (negb (gottp_idx sym =? -1)), (negb (plt_idx sym =? -1)),
      (negb (relplt_idx sym =? -1)), (sym_type sym =? STT_GNU_IFUNC); reflexivity.
  - rewrite !rela_positions_app.
    destruct (negb (gottp_idx sym =? -1)), (negb (plt_idx sym =? -1)),
      (negb (relplt_idx sym =? -1)), (sym_type sym =? STT_GNU_IFUNC); reflexivity.
Qed.

Lemma total_need_nonneg need store f ids :
  (forall a, 0 <= need a) -> 0 <= total_need need store f ids.
Proof.
  intros Hn. induction ids as [| id ids IH]; [cbn; lia |].
  cbn [total_need fold_right]. fold (total_need need store f ids).
  destruct (visited_symbol store f id) as [a |]; [specialize (Hn a) |]; lia.
Qed.

Lemma flag_count_range sym flag : 0 <= flag_count sym flag <= 1.
Proof. unfold flag_count. destruct (has_flag _ _); lia. Qed.

Lemma write_symbols_glob_dat store file ids : forall r,
  (forall (id : nat) sym, In id ids -> store !! id = Some sym ->
     defined_by file sym = true -> got_only sym) ->
  exists ws,
    Writer.write_symbols get_addr get_got_addr get_gotplt_addr get_plt_addr
      tls_end false out store file ids r = Done ws /\
    rela_positions R_X86_64_GLOB_DAT ws =
    rela_slots (Writer.reldyn_sh_offset out + reldyn_offset file) r
      (Z.to_nat (total_need (fun a => flag_count a HAS_GOT_REL) store file ids)).
Proof.
  induction ids as [| id ids IH]; intros r Hok; cbn [Writer.write_symbols].
  { eexists. split; reflexivity. }
  assert (Hrest : forall (id' : nat) sym, In id' ids -> store !! id' = Some sym ->
            defined_by file sym = true -> got_only sym).
  { intros id' sym Hin. apply Hok. right. exact Hin. }
  cbn [total_need fold_right].
  fold (total_need (fun a => flag_count a HAS_GOT_REL) store file ids).
  pose proof (total_need_nonneg (fun a => flag_count a HAS_GOT_REL) store file ids
                (fun a => proj1 (flag_count_range a HAS_GOT_REL))) as Hnn.
  unfold visited_symbol.
  destruct (store !! id) as [sym |] eqn:Hs; [| rewrite Z.add_0_l; apply (IH _ Hrest)].
  destruct (defined_by file sym) eqn:Hd; [| rewrite Z.add_0_l; apply (IH _ Hrest)].
  destruct (Hok id sym (or_introl eq_refl) Hs Hd) as (Hgd & Hld & Hgot).
  destruct (write_symbol_glob_dat file id sym r Hgd Hld) as (ws0 & -> & Hpos).
  destruct (IH (r + (if got_idx sym =? -1 then 0 else 1)) Hrest) as (ws1 & -> & Hpos1).
  eexists. split; [reflexivity |].
  rewrite rela_positions_app, Hpos, Hpos1.
  set (T := total_need (fun a => flag_count a HAS_GOT_REL) store file ids) in *.
  unfold flag_count.
  destruct (Z.eqb_spec (got_idx sym) (-1)) as [E | Hne].
  - assert (Hf : has_flag (rels sym) HAS_GOT_REL = false).
    { destruct (has_flag (rels sym) HAS_GOT_REL); [| reflexivity].
      destruct (proj1 Hgot eq_refl E). }
    rewrite Hf, Z.add_0_r, Z.add_0_l. reflexivity.
  - rewrite (proj2 Hgot Hne).
    replace (Z.to_nat (1 + T)) with (S (Z.to_nat T)) by lia.
    rewrite rela_slots_cons. reflexivity.
Qed.

Lemma total_need_ext need1 need2 store f ids :
  (forall (id : nat) sym, In id ids -> store !! id = Some sym ->
     defined_by f sym = true -> need1 sym = need2 sym) ->
  total_need need1 store f ids = total_need need2 store f ids.
Proof.
  induction ids as [| id ids IH]; intros Hext; [reflexivity |].
  cbn [total_need fold_right]. fold (total_need need1 store f ids).
  fold (total_need need2 store f ids).
  rewrite IH by (intros id' sym Hin; apply Hext; right; exact Hin).
  f_equal. unfold visited_symbol.
  destruct (store !! id) as [sym |] eqn:Hs; [| reflexivity].
  destruct (defined_by f sym) eqn:Hd; [| reflexivity].
  apply (Hext id sym (or_introl eq_refl) Hs Hd).
Qed.

(** Without the TLSGD and TLSLD bits the dynamic loop body leaves the
    TLSGD slot alone. *)
Lemma dynamic_body_no_tls id sym f :
  tls_need sym = false ->
  gotgd_idx (fst (dynamic_body id (sym, f))) = gotgd_idx sym.
Proof.
  unfold tls_need. intros Ht. apply orb_false_elim in Ht as [Hd Hl].
  unfold dynamic_body. cbn [fst snd]. rewrite Hd, Hl.
  set (p1 := if has_flag (rels sym) HAS_GOT_REL then _ else _).
  assert (H1 : gotgd_idx (fst (fst p1)) = gotgd_idx sym).
  { subst p1. destruct (has_flag _ HAS_GOT_REL); reflexivity. }
  clearbody p1. destruct p1 as [[s1 f1] n1]. cbn [fst] in H1.
  set (p2 := if has_flag (rels sym) HAS_PLT_REL then _ else _).
  assert (H2 : gotgd_idx (fst (fst p2)) = gotgd_idx sym).
  { subst p2. destruct (has_flag _ HAS_PLT_REL); cbn [fst]; [| exact H1].
    destruct (_ =? -1); exact H1. }
  clearbody p2. destruct p2 as [[s2 f2] n2]. cbn [fst] in H2.
  destruct (has_flag _ HAS_GOTTP_REL); destruct n2; exact H2.
Qed.

End RelocFacts.

(** X13. A dynamic link of a file none of whose own listed symbols has a
    TLSGD or TLSLD need, scanned from symbols without slots and zero
    counters: [write_got_plt] on the scanned file succeeds, and the
    GLOB_DAT records it writes are at the slots 0, 1, ...,
    [num_reldyn - 1] of the file's part of [.rela.dyn], in this order:
    the pass fills exactly the range that [scan_rels] reserved. *)
Theorem dynamic_glob_dat_fills_reldyn
    (get_addr get_got_addr get_gotplt_addr get_plt_addr : Scan.Symbol -> Z)
    (tls_end : Z) (out : Writer.Sections)
    (store : list Scan.Symbol) (f : Scan.ObjectFile) :
  Forall Scan.unassigned store ->
  Forall (fun a => Scan.gotld_idx a = -1) store ->
  (forall t, Scan.count t f = 0) ->
  (forall (id : nat) sym, In id (Scan.symbols f) -> store !! id = Some sym ->
     Scan.defined_by f sym = true -> Scan.tls_need sym = false) ->
  let store' := fst (Scan.scan_rels_dynamic store f) in
  let f' := snd (Scan.scan_rels_dynamic store f) in
  exists ws,
    Writer.write_file get_addr get_got_addr get_gotplt_addr get_plt_addr tls_end false out
      store' f' = Done ws /\
    Relocs.rela_positions R_X86_64_GLOB_DAT ws =
    Relocs.rela_slots (Writer.reldyn_sh_offset out + Scan.reldyn_offset f') 0
      (Z.to_nat (Scan.num_reldyn f')).
Proof.
  intros Hun Hld Hzero Hnotls store' f'.
  pose proof (store_inv_unassigned store f Hun Hzero) as Hinv.
  pose proof (dynamic_fold_ok (Scan.symbols f) (store, f) Hinv)
    as (_ & (_ & Hfid & Hsyms & _) & _).
  pose proof (dynamic_fold_meta (Scan.symbols f) (store, f)) as Hm.
  fold (Scan.scan_rels_dynamic store f) in Hfid, Hsyms, Hm.
  fold store' in Hm. fold f' in Hfid, Hsyms. cbn [fst snd] in Hfid, Hsyms, Hm.
  rewrite List.Forall_forall in Hun, Hld.
  (* the GOT slot follows the GOT bit *)
  assert (Hv0 : Scan.visited (fun a => Scan.no_plt_slots a \/ Scan.dynamic_plt_slots a)
                  Scan.dynamic_plt_slots (store, f) (fun _ => False)).
  { split; [| intros i a []]. intros i a Hi _. left.
    assert (Ha : Scan.unassigned a)
      by (apply Hun, list_elem_of_In; eapply list_elem_of_lookup_2; exact Hi).
    repeat split; [apply (Ha Scan.SGot) | apply (Ha Scan.SPlt) | apply (Ha Scan.SGotPlt)
                  | apply (Ha Scan.SRelPlt)]. }
  pose proof (dynamic_fold_visited _ _ (fun a H => or_intror H) (Scan.symbols f)
                dynamic_body_plt_slots (store, f) _ Hinv Hv0) as (_ & HPost).
  fold (Scan.scan_rels_dynamic store f) in HPost. fold store' f' in HPost.
  (* the TLSGD slot stays free *)
  set (P := fun a => Scan.tls_need a = false -> Scan.gotgd_idx a = -1).
  assert (Hg0 : Scan.visited P P (store, f) (fun _ => False)).
  { split; [| intros i a []]. intros i a Hi _ _.
    apply (Hun a (proj1 (list_elem_of_In _ _) (list_elem_of_lookup_2 _ _ _ Hi)) Scan.SGotGd). }
  assert (Hbody : forall id sym f0, Scan.pair_inv (sym, f0) -> P sym ->
            P (fst (Scan.dynamic_body id (sym, f0)))).
  { intros id sym f0 _ Hq Ht.
    pose proof (dynamic_body_meta id sym f0) as (_ & _ & Hr & _).
    assert (Ht0 : Scan.tls_need sym = false)
      by (unfold Scan.tls_need in *; rewrite <- Hr; exact Ht).
    rewrite (dynamic_body_no_tls id sym f0 Ht0). apply (Hq Ht0). }
  pose proof (dynamic_fold_visited P P (fun a H => H) (Scan.symbols f) Hbody
                (store, f) _ Hinv Hg0) as (HG & _).
  fold (Scan.scan_rels_dynamic store f) in HG. fold store' f' in HG.
  assert (Hok : forall (id : nat) sym, In id (Scan.symbols f') -> store' !! id = Some sym ->
            Scan.defined_by f' sym = true -> Relocs.got_only sym).
  { intros id sym Hin Hs Hd. rewrite Hsyms in Hin.
    destruct (Forall2_lookup_r _ _ _ _ _ Hm Hs) as (a & Ha & (M1 & _ & M3 & M4 & _)).
    assert (Hda : Scan.defined_by f a = true).
    { rewrite <- Hd. symmetry. apply defined_by_same; assumption. }
    assert (Ht : Scan.tls_need sym = false).
    { unfold Scan.tls_need. rewrite M3. apply (Hnotls id a Hin Ha Hda). }
    split; [apply (HG id sym Hs Hd Ht) |]. split.
    - rewrite M4. apply Hld, list_elem_of_In. eapply list_elem_of_lookup_2. exact Ha.
    - destruct (HPost id sym (or_intror Hin) Hs Hd) as (_ & Hgot).
      destruct (has_flag (Scan.rels sym) Scan.HAS_GOT_REL); split; intros H;
        try assumption; try reflexivity; try discriminate. contradiction. }
  destruct (write_symbols_glob_dat get_addr get_got_addr get_gotplt_addr get_plt_addr
              tls_end out store' f' (Scan.symbols f') 0 Hok) as (ws & Hws & Hpos).
  exists ws. split; [exact Hws |]. rewrite Hpos. f_equal. f_equal.
  (* the reserved count is the number of GOT slots *)
  assert (Hv : Scan.visited Demand.got_by_need Demand.got_by_need (store, f)
                 (fun _ => False)).
  { split; [| intros i a []]. intros i a Hi _ Hne. exfalso. apply Hne.
    apply (Hun a (proj1 (list_elem_of_In _ _) (list_elem_of_lookup_2 _ _ _ Hi)) Scan.SGot). }
  destruct (dynamic_fold_counts (Scan.symbols f) (store, f) Hinv Hv) as [Hc _].
  specialize (Hc Scan.TRelDyn). fold (Scan.scan_rels_dynamic store f) in Hc.
  fold f' in Hc. cbn [fst snd Scan.count] in Hc.
  pose proof (Hzero Scan.TRelDyn) as Hz. cbn [Scan.count] in Hz.
  rewrite Hc, Hz, Z.add_0_l, Hsyms.
  rewrite (total_need_kept (fun a => Demand.flag_count a Scan.HAS_GOT_REL)
             store store' f f' (Scan.symbols f)); [| | exact Hm | exact Hfid].
  - apply total_need_ext. intros id sym Hin Hs Hd.
    pose proof (Hnotls id sym Hin Hs Hd) as Ht. unfold Scan.tls_need in Ht.
    apply orb_false_elim in Ht as [Hd1 Hl1].
    unfold Demand.dynamic_need, Demand.flag_count. rewrite Hd1, Hl1. lia.
  - intros a b (_ & _ & Hr & _). unfold Demand.flag_count. rewrite Hr. reflexivity.
Qed.

Lemma dynamic_glob_dat_fills_reldyn_witness :
  exists ws,
    Writer.write_file (fun _ => 0) (fun _ => 0) (fun _ => 0) (fun _ => 0) 0 false
      (Writer.mkSections 0 0 0 0 4096)
      (fst (Scan.scan_rels_dynamic Scan.sample_store (Scan.new_file 0 [0; 1; 2; 5]%nat)))
      (snd (Scan.scan_rels_dynamic Scan.sample_store (Scan.new_file 0 [0; 1; 2; 5]%nat))) =
    Done ws /\
    Relocs.rela_positions R_X86_64_GLOB_DAT ws = [4096; 4120].
Proof.
  destruct (dynamic_glob_dat_fills_reldyn (fun _ => 0) (fun _ => 0) (fun _ => 0) (fun _ => 0)
              0 (Writer.mkSections 0 0 0 0 4096) Scan.sample_store
              (Scan.new_file 0 [0; 1; 2; 5]%nat)) as (ws & H1 & H2).
  - repeat constructor; intros s; destruct s; reflexivity.
  - repeat constructor.
  - intros t; destruct t; reflexivity.
  - intros id sym Hin Hs _. cbn in Hin.
    destruct Hin as [<- | [<- | [<- | [<- | []]]]]; cbn in Hs; injection Hs as <-; reflexivity.
  - exists ws. split; [exact H1 |]. rewrite H2. vm_compute. reflexivity.
Defined.

(** ** File priorities *)

Section PriorityFacts.
Import Priority.

Lemma count_kind_cons archive f files :
  count_kind archive (f :: files) =
  (if Bool.eqb (is_in_archive f) archive then 1 else 0) + count_kind archive files.
Proof.
  unfold count_kind. cbn [List.filter].
  destruct (Bool.eqb (is_in_archive f) archive); cbn [length]; lia.
Qed.

Lemma count_kind_nonneg archive files : 0 <= count_kind archive files.
Proof. unfold count_kind. lia. Qed.

Lemma count_kind_take_le archive files (i : nat) :
  count_kind archive (take i files) <= count_kind archive files.
Proof.
  revert i. induction files as [| f files IH]; intros i; [destruct i; cbn; lia |].
  destruct i as [| i]; [cbn [take]; pose proof (count_kind_nonneg archive (f :: files));
                        unfold count_kind at 1; cbn; lia |].
  cbn [take]. rewrite !count_kind_cons. specialize (IH i). lia.
Qed.

(** A later file of the same kind has more files of its kind before it. *)
Lemma count_kind_take_lt archive files (i j : nat) f :
  (i < j)%nat -> files !! i = Some f -> is_in_archive f = archive ->
  count_kind archive (take i files) < count_kind archive (take j files).
Proof.
  revert i j. induction files as [| g files IH]; intros i j Hij Hi Ha; [discriminate Hi |].
  destruct j as [| j]; [lia |]. destruct i as [| i].
  - cbn in Hi. injection Hi as ->. cbn [take]. rewrite count_kind_cons, Ha, eqb_reflx.
    pose proof (count_kind_nonneg archive (take j files)).
    unfold count_kind at 1. cbn. lia.
  - cbn in Hi. cbn [take]. rewrite !count_kind_cons.
    specialize (IH i j ltac:(lia) Hi Ha). lia.
Qed.

(** What one loop does: the files of its kind are numbered from
    [priority] on in list order, the others are left alone. *)
Lemma number_files_spec archive files : forall p,
  snd (number_files archive p files) = p + count_kind archive files /\
  map is_in_archive (fst (number_files archive p files)) = map is_in_archive files /\
  forall (i : nat) f, files !! i = Some f ->
    exists f', fst (number_files archive p files) !! i = Some f' /\
      is_in_archive f' = is_in_archive f /\
      priority f' =
        if Bool.eqb (is_in_archive f) archive
        then p + count_kind archive (take i files) else priority f.
Proof.
  induction files as [| g files IH]; intros p.
  { cbn. split; [unfold count_kind; cbn; lia |]. split; [reflexivity |].
    intros i f Hi. discriminate Hi. }
  cbn [number_files]. rewrite count_kind_cons.
  destruct (Bool.eqb (is_in_archive g) archive) eqn:Hg; cbn [fst snd].
  - destruct (IH (p + 1)) as (Hs & Hm & Hl). split; [lia |].
    split; [cbn [map]; rewrite Hm; reflexivity |].
    intros i f Hi. destruct i as [| i].
    + cbn in Hi. injection Hi as <-. exists (set_priority g p).
      split; [reflexivity |]. split; [reflexivity |]. rewrite Hg.
      cbn. unfold count_kind. cbn. lia.
    + cbn in Hi. destruct (Hl i f Hi) as (f' & Hf' & Ha & Hp).
      exists f'. split; [exact Hf' |]. split; [exact Ha |]. rewrite Hp.
      cbn [take]. rewrite count_kind_cons, Hg.
      destruct (Bool.eqb (is_in_archive f) archive); lia.
  - destruct (IH p) as (Hs & Hm & Hl). split; [lia |].
    split; [cbn [map]; rewrite Hm; reflexivity |].
    intros i f Hi. destruct i as [| i].
    + cbn in Hi. injection Hi as <-. exists g.
      split; [reflexivity |]. split; [reflexivity |]. rewrite Hg. reflexivity.
    + cbn in Hi. destruct (Hl i f Hi) as (f' & Hf' & Ha & Hp).
      exists f'. split; [exact Hf' |]. split; [exact Ha |]. rewrite Hp.
      cbn [take]. rewrite count_kind_cons, Hg.
      destruct (Bool.eqb (is_in_archive f) archive); lia.
Qed.

Lemma count_kind_same_kinds archive l1 l2 :
  map is_in_archive l1 = map is_in_archive l2 ->
  count_kind archive l1 = count_kind archive l2.
Proof.
  revert l2. induction l1 as [| a l1 IH]; intros [| b l2] H; try discriminate H;
    [reflexivity |].
  cbn [map] in H. injection H as Ha Hl. rewrite !count_kind_cons, Ha, (IH l2 Hl).
  reflexivity.
Qed.

Lemma count_kind_total files :
  count_kind false files + count_kind true files = Z.of_nat (length files).
Proof.
  induction files as [| f files IH]; [reflexivity |].
  rewrite !count_kind_cons. cbn [length]. destruct (is_in_archive f); cbn; lia.
Qed.

End PriorityFacts.

(** X14. The priorities set in [main]: the file at position [i] gets one
    more than the number of files of its own kind before it, plus, for an
    archive member, the number of files given directly.  So the
    priorities are exactly 1 .. N, no two files share one, every file
    given directly has a lower priority than every archive member, within
    each kind the list order is kept, and the running priority ends at
    N + 1, which is what the internal file gets. *)
Theorem set_priorities_numbering (files : list Priority.InputFile) :
  let result := fst (Priority.set_priorities files) in
  let direct := Priority.count_kind false files in
  snd (Priority.set_priorities files) = Z.of_nat (length files) + 1 /\
  map Priority.is_in_archive result = map Priority.is_in_archive files /\
  (forall (i : nat) f, result !! i = Some f ->
     Priority.priority f =
       (if Priority.is_in_archive f then direct else 0) + 1 +
       Priority.count_kind (Priority.is_in_archive f) (take i files)) /\
  (forall (i : nat) f, result !! i = Some f ->
     1 <= Priority.priority f <= Z.of_nat (length files)) /\
  (forall (i j : nat) f g, result !! i = Some f -> result !! j = Some g ->
     Priority.priority f = Priority.priority g -> i = j) /\
  (forall (i j : nat) f g, result !! i = Some f -> result !! j = Some g ->
     Priority.is_in_archive f = false -> Priority.is_in_archive g = true ->
     Priority.priority f < Priority.priority g) /\
  (forall (i j : nat) f g, (i < j)%nat -> result !! i = Some f -> result !! j = Some g ->
     Priority.is_in_archive f = Priority.is_in_archive g ->
     Priority.priority f < Priority.priority g).
Proof.
  intros result direct. unfold Priority.set_priorities in *.
  destruct (number_files_spec false files 1) as (Hs1 & Hm1 & Hl1).
  set (files1 := fst (Priority.number_files false 1 files)) in *.
  destruct (number_files_spec true files1 (snd (Priority.number_files false 1 files)))
    as (Hs2 & Hm2 & Hl2).
  fold result in Hm2, Hl2.
  pose proof (count_kind_total files) as Htot.
  assert (Hck : forall a (i : nat),
            Priority.count_kind a (take i files1) = Priority.count_kind a (take i files)).
  { intros a i. apply count_kind_same_kinds. rewrite <- !List.firstn_map.
    f_equal. exact Hm1. }
  assert (Hformula : forall (i : nat) f, result !! i = Some f ->
            exists f0, files !! i = Some f0 /\
              Priority.is_in_archive f0 = Priority.is_in_archive f /\
              Priority.priority f =
                (if Priority.is_in_archive f then direct else 0) + 1 +
                Priority.count_kind (Priority.is_in_archive f) (take i files)).
  { intros i f Hi.
    assert (Hlt : (i < length files)%nat).
    { apply lookup_lt_Some in Hi.
      assert (Hlen : length result = length files).
      { rewrite <- (length_map Priority.is_in_archive result), Hm2, Hm1, length_map.
        reflexivity. }
      lia. }
    destruct (lookup_lt_is_Some_2 files i Hlt) as [f0 Hf0].
    destruct (Hl1 i f0 Hf0) as (f1 & Hf1 & Ha1 & Hp1).
    destruct (Hl2 i f1 Hf1) as (f2 & Hf2 & Ha2 & Hp2).
    rewrite Hi in Hf2. injection Hf2 as <-.
    exists f0. split; [exact Hf0 |]. split; [congruence |].
    rewrite Hp2, Hs1, Hp1, Hck, Ha2, Ha1.
    fold direct. destruct (Priority.is_in_archive f0); cbn; lia. }
  split; [| split; [| split; [| split; [| split; [| split]]]]].
  - rewrite Hs2, Hs1. rewrite (count_kind_same_kinds true files1 files Hm1). lia.
  - rewrite Hm2. exact Hm1.
  - intros i f Hi. destruct (Hformula i f Hi) as (_ & _ & _ & H). exact H.
  - intros i f Hi. destruct (Hformula i f Hi) as (f0 & Hf0 & Ha & ->).
    pose proof (count_kind_nonneg (Priority.is_in_archive f) (take i files)).
    pose proof (count_kind_nonneg false files).
    pose proof (count_kind_nonneg true files).
    assert (Hlt : Priority.count_kind (Priority.is_in_archive f) (take i files) <
                  Priority.count_kind (Priority.is_in_archive f) files).
    { rewrite <- (firstn_all files) at 2.
      apply (count_kind_take_lt _ files i (length files) f0);
        [eapply lookup_lt_Some; exact Hf0 | exact Hf0 | exact Ha]. }
    unfold direct in *. destruct (Priority.is_in_archive f); lia.
  - intros i j f g Hi Hj Heq.
    destruct (Hformula i f Hi) as (f0 & Hf0 & Haf & Hpf).
    destruct (Hformula j g Hj) as (g0 & Hg0 & Hag & Hpg).
    assert (Hbound : forall a (k : nat) h, files !! k = Some h ->
              Priority.is_in_archive h = a ->
              0 <= Priority.count_kind a (take k files) < Priority.count_kind a files).
    { intros a k h Hk Ha. split; [apply count_kind_nonneg |].
      rewrite <- (firstn_all files) at 2.
      apply (count_kind_take_lt _ files k (length files) h);
        [eapply lookup_lt_Some; exact Hk | exact Hk | exact Ha]. }
    pose proof (Hbound _ i f0 Hf0 Haf) as Bf. pose proof (Hbound _ j g0 Hg0 Hag) as Bg.
    destruct (Priority.is_in_archive f) eqn:Ef, (Priority.is_in_archive g) eqn:Eg;
      unfold direct in *; try lia.
    + destruct (Nat.lt_trichotomy i j) as [Hlt | [-> | Hgt]]; [| reflexivity |].
      * pose proof (count_kind_take_lt true files i j f0 Hlt Hf0 Haf). lia.
      * pose proof (count_kind_take_lt true files j i g0 Hgt Hg0 Hag). lia.
    + destruct (Nat.lt_trichotomy i j) as [Hlt | [-> | Hgt]]; [| reflexivity |].
      * pose proof (count_kind_take_lt false files i j f0 Hlt Hf0 Haf). lia.
      * pose proof (count_kind_take_lt false files j i g0 Hgt Hg0 Hag). lia.
  - intros i j f g Hi Hj Ef Eg.
    destruct (Hformula i f Hi) as (f0 & Hf0 & Haf & Hpf).
    destruct (Hformula j g Hj) as (g0 & Hg0 & Hag & Hpg).
    rewrite Hpf, Hpg, Ef, Eg. rewrite Ef in Haf.
    assert (Hlt : Priority.count_kind false (take i files) < Priority.count_kind false files).
    { rewrite <- (firstn_all files) at 2.
      apply (count_kind_take_lt _ files i (length files) f0);
        [eapply lookup_lt_Some; exact Hf0 | exact Hf0 | exact Haf]. }
    pose proof (count_kind_nonneg true (take j files)). unfold direct. lia.
  - intros i j f g Hij Hi Hj Heq.
    destruct (Hformula i f Hi) as (f0 & Hf0 & Haf & Hpf).
    destruct (Hformula j g Hj) as (g0 & Hg0 & Hag & Hpg).
    rewrite Hpf, Hpg, <- Heq.
    pose proof (count_kind_take_lt _ files i j f0 Hij Hf0 Haf). lia.
Qed.

Lemma set_priorities_numbering_witness :
  map Priority.priority (fst (Priority.set_priorities Priority.sample_inputs)) =
    [1; 4; 2; 5; 3] /\
  forall (i j : nat) f g,
    fst (Priority.set_priorities Priority.sample_inputs) !! i = Some f ->
    fst (Priority.set_priorities Priority.sample_inputs) !! j = Some g ->
    Priority.priority f = Priority.priority g -> i = j.
Proof.
  split; [reflexivity |].
  exact (proj1 (proj2 (proj2 (proj2 (proj2
           (set_priorities_numbering Priority.sample_inputs)))))).
Defined.

(** ** The chunk list of [main] *)

Section ChunkFacts.
Import Chunks.

Lemma insert_chunk_perm c l : Permutation (insert_chunk c l) (c :: l).
Proof.
  induction l as [| x l IH]; [reflexivity |].
  cbn [insert_chunk]. destruct (rank c <? rank x); [| reflexivity].
  rewrite IH. apply perm_swap.
Qed.

Lemma stable_sort_perm l : Permutation (stable_sort l) l.
Proof.
  induction l as [| c l IH]; [reflexivity |].
  cbn [stable_sort fold_right]. fold (stable_sort l).
  rewrite insert_chunk_perm, IH. reflexivity.
Qed.

Lemma insert_chunk_descending c l : descending l -> descending (insert_chunk c l).
Proof.
  induction l as [| x l IH]; intros Hd; [cbn; split; [constructor | exact I] |].
  cbn [insert_chunk]. destruct Hd as [Hx Hl].
  destruct (Z.ltb_spec (rank c) (rank x)) as [Hlt | Hge].
  - cbn [descending]. split; [| apply IH, Hl].
    apply List.Forall_forall. intros y Hy.
    apply (Permutation_in _ (insert_chunk_perm c l)) in Hy. destruct Hy as [<- | Hy]; [lia |].
    rewrite List.Forall_forall in Hx. apply Hx, Hy.
  - cbn [descending]. split; [| split; [exact Hx | exact Hl]].
    constructor; [lia |]. eapply List.Forall_impl; [| exact Hx]. cbn. intros; lia.
Qed.

Lemma stable_sort_descending l : descending (stable_sort l).
Proof.
  induction l as [| c l IH]; [exact I |].
  cbn [stable_sort fold_right]. apply insert_chunk_descending, IH.
Qed.

Lemma descending_lookup l : descending l ->
  forall (i j : nat) x y, (i < j)%nat -> l !! i = Some x -> l !! j = Some y ->
    rank y <= rank x.
Proof.
  induction l as [| z l IH]; intros Hd i j x y Hij Hi Hj; [discriminate Hi |].
  destruct Hd as [Hz Hl]. destruct j as [| j]; [lia |]. cbn in Hj.
  destruct i as [| i].
  - cbn in Hi. injection Hi as <-. rewrite List.Forall_forall in Hz.
    apply Hz, list_elem_of_In. eapply list_elem_of_lookup_2. exact Hj.
  - cbn in Hi. apply (IH Hl i j); [lia | assumption | assumption].
Qed.

(** Chunks of one rank keep their order. *)
Lemma insert_chunk_stable r c l :
  List.filter (fun x => rank x =? r) (insert_chunk c l) =
  List.filter (fun x => rank x =? r) (c :: l).
Proof.
  induction l as [| x l IH]; [reflexivity |].
  cbn [insert_chunk]. destruct (Z.ltb_spec (rank c) (rank x)) as [Hlt | Hge]; [| reflexivity].
  cbn [List.filter] in *. rewrite IH.
  destruct (Z.eqb_spec (rank c) r) as [Hc | Hc]; [| reflexivity].
  destruct (Z.eqb_spec (rank x) r) as [Hx | Hx]; [lia | reflexivity].
Qed.

Lemma stable_sort_stable r l :
  List.filter (fun x => rank x =? r) (stable_sort l) = List.filter (fun x => rank x =? r) l.
Proof.
  induction l as [| c l IH]; [reflexivity |].
  cbn [stable_sort fold_right]. fold (stable_sort l).
  rewrite insert_chunk_stable. cbn [List.filter]. rewrite IH. reflexivity.
Qed.

Lemma indexed_cons c l :
  indexed (c :: l) = (if is_header c then 0 else 1) + indexed l.
Proof. unfold indexed. cbn [List.filter]. destruct (is_header c); cbn [negb length]; lia. Qed.

Lemma set_indices_spec chunks : forall next (p : nat) c,
  chunks !! p = Some c ->
  exists c', set_indices next chunks !! p = Some c' /\
    body c' = body c /\ kind c' = kind c /\ name c' = name c /\
    shndx c' = if is_header c then shndx c else next + indexed (take p chunks).
Proof.
  induction chunks as [| x chunks IH]; intros next p c Hp; [discriminate Hp |].
  cbn [set_indices]. destruct p as [| p].
  - cbn in Hp. injection Hp as <-. destruct (is_header x) eqn:Hx.
    + exists x. repeat split.
    + exists (set_shndx x next). split; [reflexivity |].
      repeat split. cbn. unfold indexed. cbn. lia.
  - cbn in Hp. cbn [take]. rewrite indexed_cons. destruct (is_header x).
    + destruct (IH next p c Hp) as (c' & H1 & H2). exists c'. split; [exact H1 |].
      rewrite Z.add_0_l. exact H2.
    + destruct (IH (next + 1) p c Hp) as (c' & H1 & H2 & H3 & H4 & H5).
      exists c'. split; [exact H1 |]. repeat (split; [assumption |]).
      rewrite H5. destruct (is_header c); lia.
Qed.

Lemma set_indices_length chunks : forall next,
  length (set_indices next chunks) = length chunks.
Proof.
  induction chunks as [| x chunks IH]; intros next; [reflexivity |].
  cbn [set_indices]. destruct (is_header x); cbn [length]; rewrite IH; reflexivity.
Qed.

Lemma set_indices_app l1 : forall next l2,
  set_indices next (l1 ++ l2) =
  set_indices next l1 ++ set_indices (next + indexed l1) l2.
Proof.
  induction l1 as [| x l1 IH]; intros next l2.
  - cbn [app set_indices]. unfold indexed. cbn. rewrite Z.add_0_r. reflexivity.
  - cbn [app set_indices]. rewrite indexed_cons. destruct (is_header x).
    + rewrite IH, Z.add_0_l. reflexivity.
    + rewrite IH. cbn [app]. do 3 f_equal. lia.
Qed.

Lemma indexed_all l :
  Forall (fun c => is_header c = false) l -> indexed l = Z.of_nat (length l).
Proof.
  induction l as [| c l IH]; intros Hall; [reflexivity |].
  inversion Hall as [| ? ? Hc Hl]; subst.
  rewrite indexed_cons, Hc, (IH Hl). cbn [length]. lia.
Qed.

End ChunkFacts.

(** X15. The chunk sort of [main] (a stable sort by descending
    [get_section_rank]) keeps every chunk exactly once, leaves the ranks
    in descending order, and keeps the input order among chunks of equal
    rank; so in the sorted list no chunk without SHF_ALLOC comes before a
    chunk with SHF_ALLOC, and among the SHF_ALLOC chunks no writable one
    comes before a read-only one. *)
Theorem stable_sort_by_rank (chunks : list Chunks.Chunk) :
  let sorted := Chunks.stable_sort chunks in
  Permutation sorted chunks /\
  (forall (i j : nat) x y, (i < j)%nat -> sorted !! i = Some x -> sorted !! j = Some y ->
     Chunks.rank y <= Chunks.rank x) /\
  (forall r, List.filter (fun x => Chunks.rank x =? r) sorted =
             List.filter (fun x => Chunks.rank x =? r) chunks) /\
  (forall (i j : nat) x y, (i < j)%nat -> sorted !! i = Some x -> sorted !! j = Some y ->
     (is_alloc (Chunks.body y) = true -> is_alloc (Chunks.body x) = true) /\
     (is_alloc (Chunks.body y) = true ->
      has_flag (sh_flags (shdr (Chunks.body y))) SHF_WRITE = false ->
      has_flag (sh_flags (shdr (Chunks.body x))) SHF_WRITE = false)).
Proof.
  intros sorted.
  pose proof (descending_lookup sorted (stable_sort_descending chunks)) as Hdesc.
  split; [apply stable_sort_perm |]. split; [exact Hdesc |].
  split; [intros r; apply stable_sort_stable |].
  intros i j x y Hij Hi Hj. specialize (Hdesc i j x y Hij Hi Hj).
  unfold Chunks.rank in Hdesc. rewrite !get_section_rank_value in Hdesc.
  unfold is_alloc.
  pose proof (bool_int_range (negb (has_flag (sh_flags (shdr (Chunks.body x))) SHF_WRITE))).
  pose proof (bool_int_range (negb (has_flag (sh_flags (shdr (Chunks.body y))) SHF_WRITE))).
  pose proof (bool_int_range (negb (has_flag (sh_flags (shdr (Chunks.body x))) SHF_EXECINSTR))).
  pose proof (bool_int_range (negb (has_flag (sh_flags (shdr (Chunks.body y))) SHF_EXECINSTR))).
  pose proof (bool_int_range (has_flag (sh_flags (shdr (Chunks.body x))) SHF_TLS)).
  pose proof (bool_int_range (has_flag (sh_flags (shdr (Chunks.body y))) SHF_TLS)).
  pose proof (bool_int_range (negb (sh_type (shdr (Chunks.body x)) =? SHT_NOBITS))).
  pose proof (bool_int_range (negb (sh_type (shdr (Chunks.body y)) =? SHT_NOBITS))).
  assert (Ha : has_flag (sh_flags (shdr (Chunks.body y))) SHF_ALLOC = true ->
               has_flag (sh_flags (shdr (Chunks.body x))) SHF_ALLOC = true).
  { intros Hy. rewrite Hy in Hdesc.
    destruct (has_flag (sh_flags (shdr (Chunks.body x))) SHF_ALLOC); [reflexivity |].
    cbn [Rank.bool_int] in Hdesc. lia. }
  split; [exact Ha |]. intros Hy Hw. rewrite (Ha Hy), Hy, Hw in Hdesc.
  destruct (has_flag (sh_flags (shdr (Chunks.body x))) SHF_WRITE); [| reflexivity].
  cbn [Rank.bool_int negb] in Hdesc. lia.
Qed.

Lemma stable_sort_by_rank_witness :
  map Chunks.name
    (Chunks.stable_sort
       [ Chunks.mkEntry (mkChunk (mkShdr 1 3 0 0 10 32) false) Chunks.REGULAR 0 ".data";
         Chunks.mkEntry (mkChunk (mkShdr 2 0 0 0 48 8) false) Chunks.SYNTHETIC 0 ".symtab";
         Chunks.mkEntry (mkChunk (mkShdr 1 6 0 0 100 16) false) Chunks.REGULAR 0 ".text";
         Chunks.mkEntry (mkChunk (mkShdr 1 3 0 0 8 8) false) Chunks.SYNTHETIC 0 ".got" ]) =
    [".text"; ".data"; ".got"; ".symtab"]%string /\
  forall x y,
    Chunks.stable_sort
       [ Chunks.mkEntry (mkChunk (mkShdr 1 3 0 0 10 32) false) Chunks.REGULAR 0 ".data";
         Chunks.mkEntry (mkChunk (mkShdr 2 0 0 0 48 8) false) Chunks.SYNTHETIC 0 ".symtab";
         Chunks.mkEntry (mkChunk (mkShdr 1 6 0 0 100 16) false) Chunks.REGULAR 0 ".text";
         Chunks.mkEntry (mkChunk (mkShdr 1 3 0 0 8 8) false) Chunks.SYNTHETIC 0 ".got" ]
       !! 0%nat = Some x ->
    Chunks.stable_sort
       [ Chunks.mkEntry (mkChunk (mkShdr 1 3 0 0 10 32) false) Chunks.REGULAR 0 ".data";
         Chunks.mkEntry (mkChunk (mkShdr 2 0 0 0 48 8) false) Chunks.SYNTHETIC 0 ".symtab";
         Chunks.mkEntry (mkChunk (mkShdr 1 6 0 0 100 16) false) Chunks.REGULAR 0 ".text";
         Chunks.mkEntry (mkChunk (mkShdr 1 3 0 0 8 8) false) Chunks.SYNTHETIC 0 ".got" ]
       !! 3%nat = Some y ->
    Chunks.rank y <= Chunks.rank x.
Proof.
  split; [vm_compute; reflexivity |].
  intros x y.
  apply (proj1 (proj2 (stable_sort_by_rank _)) 0%nat 3%nat x y). lia.
Defined.

(** X16. The section indices set in [main]: a header chunk keeps its
    [shndx]; any other chunk gets 1 plus the number of non-header chunks
    before it; nothing else of a chunk changes.  In the list that [main]
    builds (the ELF header, the program header, [.interp] if present, the
    sorted sections, the section header; the three headers being of kind
    HEADER and nothing else) the ELF and program headers are the first
    two chunks, the section header is the last, and every other chunk has
    its list position minus one as section index, so the indices are
    1, 2, ... without gaps. *)
Theorem section_indices (ehdr phdr shdr : Chunks.Chunk) (interp : option Chunks.Chunk)
    (osecs merged : list Chunks.Chunk) (synthetic : list (option Chunks.Chunk)) :
  (forall next chunks (p : nat) c, chunks !! p = Some c ->
     exists c', Chunks.set_indices next chunks !! p = Some c' /\
       Chunks.body c' = Chunks.body c /\ Chunks.kind c' = Chunks.kind c /\
       Chunks.name c' = Chunks.name c /\
       Chunks.shndx c' =
         if Chunks.is_header c then Chunks.shndx c
         else next + Chunks.indexed (take p chunks)) /\
  (Chunks.kind ehdr = Chunks.HEADER -> Chunks.kind phdr = Chunks.HEADER ->
   Chunks.kind shdr = Chunks.HEADER ->
   (forall c, interp = Some c -> Chunks.is_header c = false) ->
   Forall (fun c => Chunks.is_header c = false) osecs ->
   Forall (fun c => Chunks.is_header c = false) merged ->
   Forall (fun c => Chunks.is_header c = false) (omap id synthetic) ->
   let chunks := Chunks.assemble ehdr phdr shdr interp osecs merged synthetic in
   chunks !! 0%nat = Some ehdr /\ chunks !! 1%nat = Some phdr /\
   last chunks = Some shdr /\
   forall (p : nat) c, chunks !! p = Some c -> Chunks.is_header c = false ->
     Chunks.shndx c = Z.of_nat p - 1).
Proof.
  split; [intros next chunks p c; apply set_indices_spec |].
  intros He Hp Hs Hi Ho Hm Hsy chunks.
  set (sorted := Chunks.stable_sort
                   ((List.filter Chunks.has_size osecs ++ List.filter Chunks.has_size merged) ++
                    omap id synthetic)).
  set (mid := match interp with Some i => [i] | None => [] end ++ sorted).
  assert (Hmid : Forall (fun c => Chunks.is_header c = false) mid).
  { apply Forall_app. split.
    - destruct interp as [i |]; [constructor; [apply Hi; reflexivity | constructor] | constructor].
    - apply List.Forall_forall. intros c Hc.
      apply (Permutation_in _ (stable_sort_perm _)) in Hc.
      rewrite List.Forall_forall in Ho, Hm, Hsy.
      apply in_app_or in Hc as [Hc | Hc]; [| apply Hsy, Hc].
      apply in_app_or in Hc as [Hc | Hc]; apply filter_In in Hc as [Hc _];
        [apply Ho, Hc | apply Hm, Hc]. }
  assert (Hch : chunks = Chunks.set_indices 1 (ehdr :: phdr :: mid ++ [shdr])).
  { unfold chunks, Chunks.assemble. fold sorted. subst mid.
    cbn [app]. rewrite <- app_assoc. reflexivity. }
  assert (Hhe : Chunks.is_header ehdr = true) by (unfold Chunks.is_header; rewrite He; reflexivity).
  assert (Hhp : Chunks.is_header phdr = true) by (unfold Chunks.is_header; rewrite Hp; reflexivity).
  assert (Hhs : Chunks.is_header shdr = true) by (unfold Chunks.is_header; rewrite Hs; reflexivity).
  rewrite Hch. cbn [Chunks.set_indices]. rewrite Hhe, Hhp.
  split; [reflexivity |]. split; [reflexivity |]. split.
  - rewrite set_indices_app. cbn [Chunks.set_indices]. rewrite Hhs.
    rewrite !last_cons, last_snoc. reflexivity.
  - intros p c Hc Hnh. destruct p as [| [| p]].
    + cbn in Hc. injection Hc as <-. congruence.
    + cbn in Hc. injection Hc as <-. congruence.
    + change (Chunks.set_indices 1 (mid ++ [shdr]) !! p = Some c) in Hc.
      assert (Hlt : (p < length (mid ++ [shdr]))%nat).
      { apply lookup_lt_Some in Hc. rewrite set_indices_length in Hc. exact Hc. }
      destruct (lookup_lt_is_Some_2 _ _ Hlt) as [c0 Hc0].
      destruct (set_indices_spec (mid ++ [shdr]) 1 p c0 Hc0) as (c' & H1 & H2 & H3 & H4 & H5).
      rewrite Hc in H1. injection H1 as <-.
      assert (Hh0 : Chunks.is_header c0 = false).
      { unfold Chunks.is_header in *. rewrite <- H3. exact Hnh. }
      rewrite Hh0 in H5. rewrite H5.
      assert (Hpm : (p < length mid)%nat).
      { rewrite length_app in Hlt. cbn [length] in Hlt.
        destruct (decide (p = length mid)) as [-> | Hne]; [| lia].
        rewrite lookup_app_r in Hc0 by lia. rewrite Nat.sub_diag in Hc0.
        cbn in Hc0. injection Hc0 as <-. congruence. }
      rewrite take_app_le by lia.
      rewrite indexed_all.
      * rewrite length_take. lia.
      * apply Forall_take. exact Hmid.
Qed.

Lemma section_indices_witness :
  map Chunks.shndx
    (Chunks.assemble
       (Chunks.mkEntry (mkChunk (mkShdr 0 2 0 0 64 8) true) Chunks.HEADER 0 "")
       (Chunks.mkEntry (mkChunk (mkShdr 0 2 0 0 56 8) false) Chunks.HEADER 0 "")
       (Chunks.mkEntry (mkChunk (mkShdr 0 0 0 0 64 8) false) Chunks.HEADER 0 "")
       None
       [ Chunks.mkEntry (mkChunk (mkShdr 1 3 0 0 10 32) false) Chunks.REGULAR 0 ".data";
         Chunks.mkEntry (mkChunk (mkShdr 1 6 0 0 100 16) false) Chunks.REGULAR 0 ".text" ]
       []
       [ Some (Chunks.mkEntry (mkChunk (mkShdr 1 3 0 0 8 8) false) Chunks.SYNTHETIC 0 ".got");
         None ]) = [0; 0; 1; 2; 3; 0] /\
  forall (p : nat) c,
    Chunks.assemble
       (Chunks.mkEntry (mkChunk (mkShdr 0 2 0 0 64 8) true) Chunks.HEADER 0 "")
       (Chunks.mkEntry (mkChunk (mkShdr 0 2 0 0 56 8) false) Chunks.HEADER 0 "")
       (Chunks.mkEntry (mkChunk (mkShdr 0 0 0 0 64 8) false) Chunks.HEADER 0 "")
       None
       [ Chunks.mkEntry (mkChunk (mkShdr 1 3 0 0 10 32) false) Chunks.REGULAR 0 ".data";
         Chunks.mkEntry (mkChunk (mkShdr 1 6 0 0 100 16) false) Chunks.REGULAR 0 ".text" ]
       []
       [ Some (Chunks.mkEntry (mkChunk (mkShdr 1 3 0 0 8 8) false) Chunks.SYNTHETIC 0 ".got");
         None ] !! p = Some c ->
    Chunks.is_header c = false -> Chunks.shndx c = Z.of_nat p - 1.
Proof.
  split; [vm_compute; reflexivity |].
  refine (proj2 (proj2 (proj2 (proj2 (section_indices _ _ _ None _ [] _) _ _ _ _ _ _ _)))).
  - reflexivity.
  - reflexivity.
  - reflexivity.
  - intros c H. discriminate H.
  - repeat constructor.
  - constructor.
  - repeat constructor.
Defined.

(** ** The offsets of the symbol table *)

Section SymtabFacts.
Import Symtab.

Lemma wrap64_add_l a b : wrap64 (wrap64 a + b) = wrap64 (a + b).
Proof. unfold wrap64. apply Zplus_mod_idemp_l. Qed.

Lemma wrap64_add_r a b : wrap64 (a + wrap64 b) = wrap64 (a + b).
Proof. unfold wrap64. apply Zplus_mod_idemp_r. Qed.

Lemma offsets_length sizes : forall first,
  length (offsets first sizes) = S (length sizes).
Proof.
  induction sizes as [| s sizes IH]; intros first; [reflexivity |].
  cbn [offsets length]. rewrite IH. reflexivity.
Qed.

Lemma offsets_last sizes : forall first d,
  List.last (offsets first sizes) d = wrap64 (wrap64 first + sum sizes) \/
  (sizes = [] /\ List.last (offsets first sizes) d = first).
Proof.
  induction sizes as [| s sizes IH]; intros first d; [right; split; reflexivity |].
  left. cbn [offsets]. rewrite last_cons_shift.
  destruct (IH (wrap64 (first + s)) first) as [H | [-> H]].
  - rewrite H. cbn [sum fold_right]. fold (sum sizes).
    rewrite !wrap64_add_l. f_equal. lia.
  - rewrite H. cbn [sum fold_right]. rewrite Z.add_0_r, wrap64_add_l. reflexivity.
Qed.

Lemma offsets_last_wrapped sizes first d :
  0 <= first < 2 ^ 64 ->
  List.last (offsets first sizes) d = wrap64 (first + sum sizes).
Proof.
  intros Hf. destruct (offsets_last sizes first d) as [H | [-> H]].
  - rewrite H, wrap64_add_l. reflexivity.
  - rewrite H. cbn [sum fold_right]. rewrite Z.add_0_r, wrap64_small by lia. reflexivity.
Qed.

Lemma sum_app l1 l2 : sum (l1 ++ l2) = sum l1 + sum l2.
Proof. induction l1 as [| x l1 IH]; cbn; [reflexivity |]. fold (sum (l1 ++ l2)) (sum l1). lia. Qed.

Lemma sum_nonneg l : Forall (fun s => 0 <= s) l -> 0 <= sum l.
Proof. induction 1 as [| x l Hx Hl IH]; cbn; [lia |]. fold (sum l). lia. Qed.

Lemma sum_take_le l (i : nat) : Forall (fun s => 0 <= s) l -> 0 <= sum (take i l) <= sum l.
Proof.
  intros Hl. rewrite <- (take_drop i l) at 3. rewrite sum_app.
  pose proof (sum_nonneg (take i l) ltac:(apply Forall_take; exact Hl)).
  pose proof (sum_nonneg (drop i l) ltac:(apply Forall_drop; exact Hl)). lia.
Qed.

(** Without wrap-around the vector holds the prefix sums. *)
Lemma offsets_lookup sizes : forall first (i : nat),
  0 <= first -> Forall (fun s => 0 <= s) sizes -> first + sum sizes < 2 ^ 64 ->
  (i <= length sizes)%nat ->
  offsets first sizes !! i = Some (first + sum (take i sizes)).
Proof.
  induction sizes as [| s sizes IH]; intros first i Hf Hs Hb Hi.
  { destruct i; [| cbn in Hi; lia]. cbn. rewrite Z.add_0_r. reflexivity. }
  inversion Hs as [| ? ? Hs0 Hrest]; subst.
  cbn [sum fold_right] in Hb. fold (sum sizes) in Hb.
  pose proof (sum_nonneg _ Hrest) as Hnn.
  cbn [offsets]. destruct i as [| i]; [cbn; rewrite Z.add_0_r; reflexivity |].
  cbn [take]. change ((first :: offsets (wrap64 (first + s)) sizes) !! S i)
    with (offsets (wrap64 (first + s)) sizes !! i).
  rewrite wrap64_small by lia.
  rewrite IH by (try assumption; cbn [length] in Hi; lia).
  cbn [sum fold_right]. fold (sum (take i sizes)). f_equal. lia.
Qed.

Lemma add_sizes_total files : forall s t,
  add_sizes s t files =
  (wrap64 (wrap64 s + sum (map (fun f => local_symtab_size f + global_symtab_size f) files)),
   wrap64 (wrap64 t + sum (map (fun f => local_strtab_size f + global_strtab_size f) files))) \/
  (files = [] /\ add_sizes s t files = (s, t)).
Proof.
  induction files as [| f files IH]; intros s t; [right; split; reflexivity |].
  left. cbn [add_sizes foldl fst snd].
  set (s1 := wrap64 (s + wrap64 (local_symtab_size f + global_symtab_size f))).
  set (t1 := wrap64 (t + wrap64 (local_strtab_size f + global_strtab_size f))).
  fold (add_sizes s1 t1 files).
  assert (Hs1 : wrap64 s1 = s1) by (unfold s1, wrap64; rewrite Z.mod_mod by lia; reflexivity).
  assert (Ht1 : wrap64 t1 = t1) by (unfold t1, wrap64; rewrite Z.mod_mod by lia; reflexivity).
  cbn [map sum fold_right].
  fold (sum (map (fun f => local_symtab_size f + global_symtab_size f) files)).
  fold (sum (map (fun f => local_strtab_size f + global_strtab_size f) files)).
  destruct (IH s1 t1) as [H | [-> H]]; rewrite H.
  - rewrite Hs1, Ht1. unfold s1, t1. rewrite !wrap64_add_r, !wrap64_add_l. f_equal; f_equal; lia.
  - cbn [map sum fold_right]. unfold s1, t1.
    rewrite !wrap64_add_r, !wrap64_add_l, !Z.add_0_r. reflexivity.
Qed.

Lemma sum_map_add {A} (f g : A -> Z) l :
  sum (map (fun x => f x + g x) l) = sum (map f l) + sum (map g l).
Proof.
  induction l as [| x l IH]; [reflexivity |]. cbn [map sum fold_right].
  fold (sum (map (fun x => f x + g x) l)) (sum (map f l)) (sum (map g l)). lia.
Qed.

Lemma wrap64_eq_shift a b c :
  0 <= a < 2 ^ 64 -> 0 <= b < 2 ^ 64 -> wrap64 (a + c) = wrap64 (b + c) -> a = b.
Proof.
  unfold wrap64. intros Ha Hb H.
  assert (Hd : (a - b) mod 2 ^ 64 = 0).
  { replace (a - b) with ((a + c) - (b + c)) by lia.
    rewrite Zminus_mod, H, Z.sub_diag. reflexivity. }
  apply Z.mod_divide in Hd; [| lia]. destruct Hd as [q Hq]. nia.
Qed.

End SymtabFacts.

(** X17. [write_symtab] and the size loop of [main].  The two [assert]s
    of [write_symtab] hold after [main] has added the sizes of all files
    exactly when [.symtab] had 24 bytes (one null symbol) and [.strtab]
    had 1 byte before the loop.  Then, when the sizes are unsigned and
    the totals stay below 2^64: the local offset of file [i] is 24 (resp.
    1) plus the local sizes of the files before it, so the local parts of
    the files follow each other without gap; the global offset of file
    [i] is where the local parts end plus the global sizes of the files
    before it, so all local symbols precede all global ones and the last
    global part ends at [sh_size]; and if every local size is a multiple
    of 24 and [sh_info] fits 32 bits, [sh_info] is the index of the first
    global symbol. *)
Theorem write_symtab_offsets (files : list Symtab.FileSizes) (s0 t0 : Z) :
  0 <= s0 < 2 ^ 64 -> 0 <= t0 < 2 ^ 64 ->
  let sizes := Symtab.add_sizes s0 t0 files in
  let locals := map Symtab.local_symtab_size files in
  let globals := map Symtab.global_symtab_size files in
  (Symtab.write_symtab files (fst sizes) (snd sizes) <> None <-> s0 = 24 /\ t0 = 1) /\
  (Forall (fun s => 0 <= s) locals -> Forall (fun s => 0 <= s) globals ->
   24 + Symtab.sum locals + Symtab.sum globals < 2 ^ 64 ->
   let p := Symtab.plan files in
   (forall i : nat, (i <= length files)%nat ->
      Symtab.local_symtab_off p !! i = Some (24 + Symtab.sum (take i locals)) /\
      Symtab.global_symtab_off p !! i =
        Some (24 + Symtab.sum locals + Symtab.sum (take i globals))) /\
   (forall (i j : nat) a b, (i <= length files)%nat -> (j <= length files)%nat ->
      Symtab.local_symtab_off p !! i = Some a ->
      Symtab.global_symtab_off p !! j = Some b -> a <= b) /\
   (s0 = 24 ->
    Symtab.global_symtab_off p !! length files = Some (fst sizes)) /\
   (Forall (fun s => s mod 24 = 0) locals -> 24 + Symtab.sum locals < 24 * 2 ^ 32 ->
    Symtab.sh_info p * 24 = 24 + Symtab.sum locals)).
Proof.
  intros Hs0 Ht0 sizes locals globals.
  assert (Hlsym : List.last (Symtab.offsets sizeof_Sym locals) 0 =
                  wrap64 (24 + Symtab.sum locals)).
  { apply offsets_last_wrapped. unfold sizeof_Sym. lia. }
  assert (Hlstr : List.last (Symtab.offsets 1 (map Symtab.local_strtab_size files)) 0 =
                  wrap64 (1 + Symtab.sum (map Symtab.local_strtab_size files))).
  { apply offsets_last_wrapped. lia. }
  assert (Hgsym : List.last (Symtab.global_symtab_off (Symtab.plan files)) 0 =
                  wrap64 (24 + Symtab.sum (map (fun f => Symtab.local_symtab_size f +
                                                  Symtab.global_symtab_size f) files))).
  { unfold Symtab.plan. cbn [Symtab.global_symtab_off].
    rewrite offsets_last_wrapped by (fold locals; rewrite Hlsym; apply wrap64_range).
    fold locals. rewrite Hlsym, wrap64_add_l, sum_map_add. fold locals globals.
    f_equal. lia. }
  assert (Hgstr : List.last (Symtab.global_strtab_off (Symtab.plan files)) 0 =
                  wrap64 (1 + Symtab.sum (map (fun f => Symtab.local_strtab_size f +
                                                 Symtab.global_strtab_size f) files))).
  { unfold Symtab.plan. cbn [Symtab.global_strtab_off].
    rewrite offsets_last_wrapped by (rewrite Hlstr; apply wrap64_range).
    rewrite Hlstr, wrap64_add_l, sum_map_add. f_equal. lia. }
  assert (Hsizes : sizes =
            (wrap64 (s0 + Symtab.sum (map (fun f => Symtab.local_symtab_size f +
                                             Symtab.global_symtab_size f) files)),
             wrap64 (t0 + Symtab.sum (map (fun f => Symtab.local_strtab_size f +
                                             Symtab.global_strtab_size f) files)))).
  { unfold sizes. destruct (add_sizes_total files s0 t0) as [H | [-> H]]; rewrite H.
    - rewrite !wrap64_add_l. reflexivity.
    - cbn [map Symtab.sum fold_right]. rewrite !Z.add_0_r, !wrap64_small by lia.
      reflexivity. }
  split.
  - unfold Symtab.write_symtab. rewrite Hgsym, Hgstr, Hsizes. cbn [fst snd]. split.
    + intros H.
      destruct (Z.eqb_spec
                  (wrap64 (24 + Symtab.sum (map (fun f => Symtab.local_symtab_size f +
                                                   Symtab.global_symtab_size f) files)))
                  (wrap64 (s0 + Symtab.sum (map (fun f => Symtab.local_symtab_size f +
                                                   Symtab.global_symtab_size f) files))))
        as [E1 | _]; [| contradiction H; reflexivity].
      destruct (Z.eqb_spec
                  (wrap64 (1 + Symtab.sum (map (fun f => Symtab.local_strtab_size f +
                                                  Symtab.global_strtab_size f) files)))
                  (wrap64 (t0 + Symtab.sum (map (fun f => Symtab.local_strtab_size f +
                                                   Symtab.global_strtab_size f) files))))
        as [E2 | _]; [| contradiction H; reflexivity].
      split; symmetry; [apply (wrap64_eq_shift 24 s0 _ ltac:(lia) Hs0 E1)
                       | apply (wrap64_eq_shift 1 t0 _ ltac:(lia) Ht0 E2)].
    + intros [-> ->]. rewrite !Z.eqb_refl. discriminate.
  - intros Hl Hg Hb p.
    pose proof (sum_nonneg _ Hl) as Hln. pose proof (sum_nonneg _ Hg) as Hgn.
    assert (Hlen_l : length locals = length files) by apply length_map.
    assert (Hlen_g : length globals = length files) by apply length_map.
    assert (Hoff : forall i : nat, (i <= length files)%nat ->
              Symtab.local_symtab_off p !! i = Some (24 + Symtab.sum (take i locals)) /\
              Symtab.global_symtab_off p !! i =
                Some (24 + Symtab.sum locals + Symtab.sum (take i globals))).
    { intros i Hi. unfold p, Symtab.plan.
      cbn [Symtab.local_symtab_off Symtab.global_symtab_off]. fold locals globals.
      rewrite Hlsym, (wrap64_small (24 + Symtab.sum locals)) by lia. split.
      - apply offsets_lookup; try assumption; unfold sizeof_Sym; lia.
      - apply offsets_lookup; try assumption; lia. }
    split; [exact Hoff |]. split; [| split].
    + intros i j a b Hi Hj Ha Hbj.
      destruct (Hoff i Hi) as [Ea _]. destruct (Hoff j Hj) as [_ Eb].
      rewrite Ea in Ha. rewrite Eb in Hbj. injection Ha as <-. injection Hbj as <-.
      pose proof (sum_take_le locals i Hl). pose proof (sum_take_le globals j Hg). lia.
    + intros ->. destruct (Hoff (length files) (le_n _)) as [_ Eg]. rewrite Eg. f_equal.
      rewrite Hsizes. cbn [fst]. rewrite sum_map_add. fold locals globals.
      rewrite <- Hlen_g, firstn_all. rewrite wrap64_small by lia. lia.
    + intros Hmul Hfit. unfold p, Symtab.plan. cbn [Symtab.sh_info]. fold locals.
      rewrite Hlsym, (wrap64_small (24 + Symtab.sum locals)) by lia.
      assert (Hdiv : (24 | 24 + Symtab.sum locals)).
      { apply Z.divide_add_r; [exists 1; lia |].
        clear -Hmul. induction Hmul as [| x l Hx Hl IH]; [exists 0; reflexivity |].
        cbn [Symtab.sum fold_right]. fold (Symtab.sum l).
        apply Z.divide_add_r; [apply Z.mod_divide; [lia | exact Hx] | exact IH]. }
      destruct Hdiv as [q Hq]. unfold sizeof_Sym. rewrite Hq, Z.div_mul by lia.
      unfold wrap32. rewrite Z.mod_small by lia. reflexivity.
Qed.

Lemma write_symtab_offsets_witness :
  Symtab.write_symtab Symtab.sample_sizes
    (fst (Symtab.add_sizes 24 1 Symtab.sample_sizes))
    (snd (Symtab.add_sizes 24 1 Symtab.sample_sizes)) <> None /\
  Symtab.sh_info (Symtab.plan Symtab.sample_sizes) * 24 =
    24 + Symtab.sum (map Symtab.local_symtab_size Symtab.sample_sizes).
Proof.
  destruct (write_symtab_offsets Symtab.sample_sizes 24 1 ltac:(lia) ltac:(lia))
    as [H1 H2].
  split; [apply (proj2 H1); split; reflexivity |].
  refine (proj2 (proj2 (proj2 (H2 _ _ _))) _ _).
  - cbn. repeat constructor; lia.
  - cbn. repeat constructor; lia.
  - vm_compute. reflexivity.
  - cbn. repeat constructor.
  - vm_compute. reflexivity.
Defined.

(** ** The end symbols *)

Section SyntheticFacts.
Import Chunks Synthetic.

(** The address order of the laid-out chunks, pairwise. *)
Lemma address_order_pair (chunks : list OutputChunk) :
  Forall Layout.chunk_sized chunks ->
  Address.run_vaddr_fits Layout.start_cursor chunks = true ->
  forall (i j : nat) ci cj, (i < j)%nat ->
    fst (Layout.set_osec_offsets chunks) !! i = Some ci ->
    fst (Layout.set_osec_offsets chunks) !! j = Some cj ->
    is_alloc ci = true -> is_alloc cj = true ->
    0 <= sh_size (shdr cj) /\
    sh_addr (shdr ci) + (if is_tbss ci then 0 else sh_size (shdr ci)) <= sh_addr (shdr cj).
Proof.
  intros Hs Hfit i j ci cj Hij Hi Hj Hai Haj.
  destruct (run_address chunks Layout.start_cursor Hs ltac:(cbn; lia) Hfit)
    as [Hall Hpair].
  unfold Layout.set_osec_offsets in Hi, Hj. cbn [fst] in Hi, Hj.
  rewrite list_lookup_fmap in Hi, Hj.
  destruct (Layout.run Layout.start_cursor chunks !! i) as [iti |] eqn:Ei;
    [| discriminate Hi].
  destruct (Layout.run Layout.start_cursor chunks !! j) as [itj |] eqn:Ej;
    [| discriminate Hj].
  cbn in Hi, Hj. injection Hi as <-. injection Hj as <-.
  assert (Hini : In iti (Layout.run Layout.start_cursor chunks))
    by (apply list_elem_of_In; eapply list_elem_of_lookup_2; exact Ei).
  assert (Hinj : In itj (Layout.run Layout.start_cursor chunks))
    by (apply list_elem_of_In; eapply list_elem_of_lookup_2; exact Ej).
  assert (Haddr : forall it, In it (Layout.run Layout.start_cursor chunks) ->
            is_alloc (Layout.it_chunk it) = true ->
            sh_addr (shdr (Layout.it_chunk it)) = Layout.vaddr (Layout.it_placed it) /\
            0 <= sh_size (shdr (Layout.it_chunk it))).
  { intros it Hit Hal. destruct (run_it_chunk _ _ _ Hit) as (c & Hc & Hch & _).
    rewrite Hch in Hal |- *. rewrite record_header_alloc in Hal.
    rewrite record_header_size. split; [apply (record_header_addr _ _ Hal) |].
    rewrite List.Forall_forall in Hs. apply (Hs c Hc). }
  destruct (Haddr iti Hini Hai) as [-> _]. destruct (Haddr itj Hinj Haj) as [-> Hsz].
  split; [exact Hsz |].
  pose proof (Hpair i j iti itj Hij Ei Ej) as Hle.
  rewrite List.Forall_forall in Hall.
  destruct (Hall iti Hini) as (_ & _ & A2). destruct (Hall itj Hinj) as (_ & B1 & _).
  lia.
Qed.

Lemma lay_out_lookup chunks (i : nat) c' :
  fst (lay_out chunks) !! i = Some c' ->
  exists c b, chunks !! i = Some c /\
    fst (Layout.set_osec_offsets (map body chunks)) !! i = Some b /\
    c' = set_body c b.
Proof.
  unfold lay_out. cbn [fst]. intros H.
  apply lookup_zip_with_Some in H as (c & b & -> & Hc & Hb).
  exists c, b. auto.
Qed.

(** The loop keeps the last chunk that sets a symbol. *)
Lemma end_symbols_snoc l c :
  end_symbols (l ++ [c]) = mark (end_symbols l) c.
Proof. unfold end_symbols. rewrite foldl_app. reflexivity. Qed.

Lemma mark_end m c :
  end_sym (mark m c) = if sets_end c then Some (stop c) else end_sym m.
Proof.
  unfold mark, sets_end, is_alloc, is_nobits.
  destruct (is_header c); [reflexivity |]. cbn [negb andb].
  destruct (has_flag (sh_flags (shdr (body c))) SHF_ALLOC),
    (has_flag (sh_flags (shdr (body c))) SHF_EXECINSTR),
    (sh_type (shdr (body c)) =? SHT_NOBITS); reflexivity.
Qed.

Lemma mark_edata m c :
  edata_sym (mark m c) = if sets_edata c then Some (stop c) else edata_sym m.
Proof.
  unfold mark, sets_edata, is_alloc, is_nobits.
  destruct (is_header c); [reflexivity |]. cbn [negb andb].
  destruct (has_flag (sh_flags (shdr (body c))) SHF_ALLOC),
    (has_flag (sh_flags (shdr (body c))) SHF_EXECINSTR),
    (sh_type (shdr (body c)) =? SHT_NOBITS); reflexivity.
Qed.

(** The symbol holds the [stop] value of the last chunk of its kind. *)
Lemma end_symbols_last (sets : Chunk -> bool) (proj : Ends -> option (Z * Z)) :
  (forall m c, proj (mark m c) = if sets c then Some (stop c) else proj m) ->
  proj (mkEnds None None None) = None ->
  forall l,
    (proj (end_symbols l) = None /\ Forall (fun c => sets c = false) l) \/
    (exists (j : nat) cj, l !! j = Some cj /\ sets cj = true /\
       proj (end_symbols l) = Some (stop cj) /\
       forall (i : nat) ci, l !! i = Some ci -> sets ci = true -> (i <= j)%nat).
Proof.
  intros Hmark Hinit l. induction l as [| c l IH] using rev_ind.
  { left. split; [exact Hinit | constructor]. }
  rewrite end_symbols_snoc, Hmark. destruct (sets c) eqn:Hc.
  - right. exists (length l), c. split; [apply list_lookup_middle; reflexivity |].
    split; [exact Hc |]. split; [reflexivity |].
    intros i ci Hi _. apply lookup_lt_Some in Hi. rewrite length_app in Hi.
    cbn [length] in Hi. lia.
  - destruct IH as [[Hn Hall] | (j & cj & Hj & Hs & Hv & Hmax)].
    + left. split; [exact Hn |]. apply Forall_app. split; [exact Hall |].
      constructor; [exact Hc | constructor].
    + right. exists j, cj. split; [apply lookup_app_l_Some; exact Hj |].
      split; [exact Hs |]. split; [exact Hv |].
      intros i ci Hi Hsi. destruct (decide (i < length l)%nat) as [Hlt | Hge].
      * rewrite lookup_app_l in Hi by exact Hlt. apply (Hmax i ci Hi Hsi).
      * rewrite lookup_app_r in Hi by lia.
        destruct (i - length l)%nat; [| discriminate Hi].
        cbn in Hi. injection Hi as <-. congruence.
Qed.

End SyntheticFacts.

(** X18. [_end] and [_edata] after [set_osec_offsets] (no wrap-around on
    the address, no zero alignment, and no laid-out chunk whose
    [sh_addr + sh_size] leaves 64 bits): if some non-header SHF_ALLOC
    chunk exists, [fix_synthetic_symbols] stores for [_end] the end
    address of the last one, and this is at or above the end of every
    non-header SHF_ALLOC chunk that is not tbss; [_edata] is the end of
    the last non-header SHF_ALLOC chunk that is not SHT_NOBITS, it is at
    or above the end of every such chunk, and it is at most [_end].  If
    no such chunk exists the symbol is not touched. *)
Theorem end_symbols_cover_the_image (chunks : list Chunks.Chunk) :
  Forall Layout.chunk_sized (map Chunks.body chunks) ->
  Address.run_vaddr_fits Layout.start_cursor (map Chunks.body chunks) = true ->
  let laid := fst (Synthetic.lay_out chunks) in
  Forall (fun c => sh_addr (shdr (Chunks.body c)) + sh_size (shdr (Chunks.body c)) < 2 ^ 64)
    laid ->
  let m := Synthetic.end_symbols laid in
  ((exists c, In c laid /\ Synthetic.sets_end c = true) ->
   exists idx v, Synthetic.end_sym m = Some (idx, v) /\
     forall c, In c laid -> Synthetic.sets_end c = true -> is_tbss (Chunks.body c) = false ->
       sh_addr (shdr (Chunks.body c)) + sh_size (shdr (Chunks.body c)) <= v) /\
  ((forall c, In c laid -> Synthetic.sets_end c = false) -> Synthetic.end_sym m = None) /\
  ((exists c, In c laid /\ Synthetic.sets_edata c = true) ->
   exists idx v idx' v', Synthetic.edata_sym m = Some (idx, v) /\
     Synthetic.end_sym m = Some (idx', v') /\ v <= v' /\
     forall c, In c laid -> Synthetic.sets_edata c = true ->
       sh_addr (shdr (Chunks.body c)) + sh_size (shdr (Chunks.body c)) <= v) /\
  ((forall c, In c laid -> Synthetic.sets_edata c = false) -> Synthetic.edata_sym m = None).
Proof.
  intros Hs Hfit laid Hnw m.
  pose proof (address_order_pair (map Chunks.body chunks) Hs Hfit) as Horder.
  (* the order, on the chunk list *)
  assert (Hpair : forall (i j : nat) ci cj, (i < j)%nat ->
            laid !! i = Some ci -> laid !! j = Some cj ->
            is_alloc (Chunks.body ci) = true -> is_alloc (Chunks.body cj) = true ->
            0 <= sh_size (shdr (Chunks.body cj)) /\
            sh_addr (shdr (Chunks.body ci)) +
              (if is_tbss (Chunks.body ci) then 0 else sh_size (shdr (Chunks.body ci))) <=
            sh_addr (shdr (Chunks.body cj))).
  { intros i j ci cj Hij Hi Hj Hai Haj.
    destruct (lay_out_lookup _ _ _ Hi) as (c1 & b1 & _ & Hb1 & ->).
    destruct (lay_out_lookup _ _ _ Hj) as (c2 & b2 & _ & Hb2 & ->).
    cbn [Chunks.set_body Chunks.body] in *.
    apply (Horder i j b1 b2 Hij Hb1 Hb2 Hai Haj). }
  (* an allocated chunk has an address from 0x200000 on and an unsigned size *)
  assert (Hstop : forall (i : nat) c, laid !! i = Some c -> is_alloc (Chunks.body c) = true ->
            0 <= sh_size (shdr (Chunks.body c)) /\
            snd (Synthetic.stop c) =
            sh_addr (shdr (Chunks.body c)) + sh_size (shdr (Chunks.body c))).
  { intros i c Hi Hal.
    rewrite List.Forall_forall in Hnw.
    pose proof (Hnw c (proj1 (list_elem_of_In _ _) (list_elem_of_lookup_2 _ _ _ Hi))) as Hlt.
    destruct (lay_out_lookup _ _ _ Hi) as (c1 & b1 & Hc1 & Hb1 & ->).
    cbn [Chunks.set_body Chunks.body] in *.
    unfold Synthetic.stop. cbn [snd Chunks.body].
    unfold Layout.set_osec_offsets in Hb1. cbn [fst] in Hb1.
    rewrite list_lookup_fmap in Hb1.
    destruct (Layout.run Layout.start_cursor (map Chunks.body chunks) !! i) as [it |] eqn:Ei;
      [| discriminate Hb1].
    cbn in Hb1. injection Hb1 as <-.
    assert (Hit : In it (Layout.run Layout.start_cursor (map Chunks.body chunks)))
      by (apply list_elem_of_In; eapply list_elem_of_lookup_2; exact Ei).
    destruct (run_it_chunk _ _ _ Hit) as (c0 & Hc0 & Hch & _).
    pose proof (proj1 (List.Forall_forall _ _) Hs c0 Hc0) as [_ Hsz].
    rewrite Hch in Hal, Hlt |- *. rewrite record_header_alloc in Hal.
    rewrite record_header_size in Hlt |- *.
    rewrite (record_header_addr _ _ Hal) in Hlt |- *.
    destruct (run_address _ Layout.start_cursor Hs ltac:(cbn; lia) Hfit) as [Hall _].
    rewrite List.Forall_forall in Hall. destruct (Hall it Hit) as (Hb & Hp & _).
    cbn in Hb. cbn [Chunks.set_body Chunks.body].
    rewrite record_header_size, (record_header_addr _ _ Hal).
    split; [exact Hsz |]. apply wrap64_small. lia. }
  assert (Hend_alloc : forall c, Synthetic.sets_end c = true -> is_alloc (Chunks.body c) = true).
  { intros c H. unfold Synthetic.sets_end in H. apply andb_prop in H as [_ H]. exact H. }
  assert (Hedata_end : forall c, Synthetic.sets_edata c = true ->
            Synthetic.sets_end c = true /\ is_tbss (Chunks.body c) = false).
  { intros c H. unfold Synthetic.sets_edata in H. unfold Synthetic.sets_end, is_tbss.
    apply andb_prop in H as [H Ha]. apply andb_prop in H as [Hh Hn].
    rewrite Hh, Ha. apply negb_true_iff in Hn. rewrite Hn. split; reflexivity. }
  (* a symbol set by the last chunk of its kind is above the other chunks of the kind *)
  assert (Habove : forall (sets : Chunks.Chunk -> bool) (j : nat) cj,
            (forall c, sets c = true -> is_alloc (Chunks.body c) = true) ->
            laid !! j = Some cj -> sets cj = true ->
            (forall (i : nat) ci, laid !! i = Some ci -> sets ci = true -> (i <= j)%nat) ->
            forall c, In c laid -> sets c = true -> is_tbss (Chunks.body c) = false ->
              sh_addr (shdr (Chunks.body c)) + sh_size (shdr (Chunks.body c)) <=
              snd (Synthetic.stop cj)).
  { intros sets j cj Hal Hj Hsj Hmax c Hc Hsc Htb.
    destruct (Hstop j cj Hj (Hal cj Hsj)) as [Hszj ->].
    apply list_elem_of_In, list_elem_of_lookup_1 in Hc as [i Hi].
    pose proof (Hmax i c Hi Hsc) as Hle.
    destruct (decide (i = j)) as [-> | Hne].
    - rewrite Hj in Hi. injection Hi as <-. lia.
    - destruct (Hpair i j c cj ltac:(lia) Hi Hj (Hal c Hsc) (Hal cj Hsj)) as [_ Hp].
      rewrite Htb in Hp. lia. }
  pose proof (end_symbols_last Synthetic.sets_end Synthetic.end_sym mark_end eq_refl laid)
    as Hend.
  pose proof (end_symbols_last Synthetic.sets_edata Synthetic.edata_sym mark_edata eq_refl laid)
    as Hedata.
  fold m in Hend, Hedata.
  split; [| split; [| split]].
  - intros (c & Hc & Hsc).
    destruct Hend as [[_ Hall] | (j & cj & Hj & Hsj & Hv & Hmax)].
    { rewrite List.Forall_forall in Hall. rewrite (Hall c Hc) in Hsc. discriminate Hsc. }
    exists (Chunks.shndx cj), (snd (Synthetic.stop cj)). split; [exact Hv |].
    apply (Habove Synthetic.sets_end j cj Hend_alloc Hj Hsj Hmax).
  - intros Hnone. destruct Hend as [[Hn _] | (j & cj & Hj & Hsj & _)]; [exact Hn |].
    rewrite (Hnone cj (proj1 (list_elem_of_In _ _) (list_elem_of_lookup_2 _ _ _ Hj))) in Hsj.
    discriminate Hsj.
  - intros (c & Hc & Hsc).
    destruct Hedata as [[_ Hall] | (j & cj & Hj & Hsj & Hv & Hmax)].
    { rewrite List.Forall_forall in Hall. rewrite (Hall c Hc) in Hsc. discriminate Hsc. }
    destruct (Hedata_end cj Hsj) as [Hej Htj].
    assert (Hcj : In cj laid) by (apply list_elem_of_In; eapply list_elem_of_lookup_2; exact Hj).
    destruct Hend as [[_ Hall] | (k & ck & Hk & Hsk & Hvk & Hmaxk)].
    { rewrite List.Forall_forall in Hall. rewrite (Hall cj Hcj) in Hej. discriminate Hej. }
    exists (Chunks.shndx cj), (snd (Synthetic.stop cj)),
           (Chunks.shndx ck), (snd (Synthetic.stop ck)).
    split; [exact Hv |]. split; [exact Hvk |]. split.
    + destruct (Hstop j cj Hj (Hend_alloc cj Hej)) as [_ ->].
      apply (Habove Synthetic.sets_end k ck Hend_alloc Hk Hsk Hmaxk cj Hcj Hej Htj).
    + intros c0 Hc0 Hs0.
      apply (Habove Synthetic.sets_edata j cj
               (fun x Hx => Hend_alloc x (proj1 (Hedata_end x Hx))) Hj Hsj Hmax c0 Hc0 Hs0
               (proj2 (Hedata_end c0 Hs0))).
  - intros Hnone. destruct Hedata as [[Hn _] | (j & cj & Hj & Hsj & _)]; [exact Hn |].
    rewrite (Hnone cj (proj1 (list_elem_of_In _ _) (list_elem_of_lookup_2 _ _ _ Hj))) in Hsj.
    discriminate Hsj.
Qed.

Lemma end_symbols_cover_the_image_witness :
  Synthetic.end_sym (Synthetic.end_symbols (fst (Synthetic.lay_out Synthetic.sample_list))) =
    Some (5, 2118536) /\
  Synthetic.edata_sym (Synthetic.end_symbols (fst (Synthetic.lay_out Synthetic.sample_list))) =
    Some (4, 2105386) /\
  exists idx v,
    Synthetic.end_sym (Synthetic.end_symbols (fst (Synthetic.lay_out Synthetic.sample_list))) =
      Some (idx, v) /\
    forall c, In c (fst (Synthetic.lay_out Synthetic.sample_list)) ->
      Synthetic.sets_end c = true -> is_tbss (Chunks.body c) = false ->
      sh_addr (shdr (Chunks.body c)) + sh_size (shdr (Chunks.body c)) <= v.
Proof.
  split; [vm_compute; reflexivity |]. split; [vm_compute; reflexivity |].
  refine (proj1 (end_symbols_cover_the_image Synthetic.sample_list _ _ _) _).
  - repeat constructor; cbn; lia.
  - vm_compute. reflexivity.
  - repeat constructor; vm_compute; reflexivity.
  - eexists. split; [right; left; reflexivity | reflexivity].
Defined.

(** ** The owner of a mergeable string piece *)

Section MergeFacts.
Import Merge.

Lemma claimed_idempotent files me piece :
  claimed files me (claimed files me piece) = claimed files me piece.
Proof.
  unfold claimed. destruct (isec piece) as [cur |] eqn:Hc; cbn [isec].
  - destruct (Z.gtb_spec (file_priority files cur) (file_priority files me)) as [Hgt | Hle].
    + cbn [isec]. rewrite Z.gtb_ltb, Z.ltb_irrefl. reflexivity.
    + rewrite Hc. destruct (Z.gtb_spec (file_priority files cur) (file_priority files me));
        [lia | reflexivity].
  - cbn [isec]. rewrite Z.gtb_ltb, Z.ltb_irrefl. reflexivity.
Qed.

Lemma claim_length files me store (ref : nat) :
  length (claim files me store ref) = length store.
Proof.
  unfold claim. destruct (store !! ref); [apply length_insert | reflexivity].
Qed.

Lemma claim_lookup files me store (ref p : nat) :
  claim files me store ref !! p =
  if decide (p = ref) then claimed files me <$> store !! p else store !! p.
Proof.
  unfold claim. destruct (decide (p = ref)) as [-> | Hne].
  - destruct (store !! ref) as [piece |] eqn:Hr; [| rewrite Hr; reflexivity].
    rewrite list_lookup_insert_eq by (eapply lookup_lt_Some; exact Hr). reflexivity.
  - destruct (store !! ref) as [piece |]; [| reflexivity].
    apply list_lookup_insert_ne. congruence.
Qed.

Lemma claimed_keeps files me piece :
  data (claimed files me piece) = data piece /\
  output_offset (claimed files me piece) = output_offset piece.
Proof.
  unfold claimed. destruct (isec piece) as [cur |]; [| split; reflexivity].
  destruct (file_priority files cur >? file_priority files me); split; reflexivity.
Qed.

Lemma beats_refl files s : beats files s s.
Proof. right. split; [reflexivity | lia]. Qed.

Lemma same_content_refl store : same_content store store.
Proof. split; [reflexivity |]. intros p piece Hp. exists piece. auto. Qed.

Lemma same_content_trans a b c :
  same_content a b -> same_content b c -> same_content a c.
Proof.
  intros [L1 H1] [L2 H2]. split; [congruence |].
  intros p piece2 Hp. destruct (H2 p piece2 Hp) as (piece1 & Hp1 & D2 & O2).
  destruct (H1 p piece1 Hp1) as (piece0 & Hp0 & D1 & O1).
  exists piece0. split; [exact Hp0 |]. split; congruence.
Qed.

Lemma claim_same_content files me store (ref : nat) :
  same_content store (claim files me store ref).
Proof.
  split; [apply claim_length |]. intros p piece' Hp. rewrite claim_lookup in Hp.
  destruct (decide (p = ref)); [| exists piece'; auto].
  destruct (store !! p) as [piece |]; [| discriminate Hp].
  cbn in Hp. injection Hp as <-. exists piece. split; [reflexivity |].
  apply claimed_keeps.
Qed.

Lemma run_events_snoc files store steps e :
  run_events files store (steps ++ [e]) =
  claim files (fst e) (run_events files store steps) (snd e).
Proof. unfold run_events. rewrite foldl_app. reflexivity. Qed.

Lemma run_events_same_content files store steps :
  same_content store (run_events files store steps).
Proof.
  induction steps as [| e steps IH] using rev_ind; [apply same_content_refl |].
  rewrite run_events_snoc. eapply same_content_trans; [exact IH |].
  apply claim_same_content.
Qed.

(** *** The events of a task *)

Lemma events_from_In fi sections : forall si (e : Event),
  In e (events_from fi si sections) <->
  exists (k : nat) sec, sections !! k = Some sec /\
    fst e = (fi, (si + k)%nat) /\ In (snd e) (pieces sec).
Proof.
  induction sections as [| sec rest IH]; intros si e; cbn [events_from].
  { split; [intros [] | intros (k & sec & Hk & _)]. destruct k; discriminate Hk. }
  rewrite List.in_app_iff, IH, List.in_map_iff. split.
  - intros [(p & <- & Hp) | (k & sec' & Hk & Hf & Hp)].
    + exists 0%nat, sec. cbn [fst snd]. rewrite Nat.add_0_r. auto.
    + exists (S k), sec'. split; [exact Hk |]. split; [| exact Hp].
      rewrite Hf. f_equal. lia.
  - intros (k & sec' & Hk & Hf & Hp). destruct k as [| k].
    + left. cbn in Hk. injection Hk as <-. exists (snd e). split; [| exact Hp].
      rewrite Nat.add_0_r in Hf. rewrite <- Hf. destruct e; reflexivity.
    + right. exists k, sec'. split; [exact Hk |]. split; [| exact Hp].
      rewrite Hf. f_equal. lia.
Qed.

Lemma events_of_file_In files fi (s : SectionRef) (p : nat) :
  In (s, p) (events_of_file files fi) <-> fst s = fi /\ In p (refs_of files s).
Proof.
  unfold events_of_file, refs_of. split.
  - destruct (files !! fi) as [file |] eqn:Hfile; [| intros []].
    intros H. apply events_from_In in H as (k & sec & Hk & Hf & Hp).
    cbn [fst snd Nat.add] in Hf, Hp. subst s. cbn [fst snd]. rewrite Hfile, Hk. auto.
  - intros [<- Hp]. destruct (files !! fst s) as [file |]; [| destruct Hp].
    destruct (mergeable_sections file !! snd s) as [sec |] eqn:Hk; [| destruct Hp].
    apply events_from_In. exists (snd s), sec. cbn [fst snd].
    split; [exact Hk |]. split; [destruct s; reflexivity | exact Hp].
Qed.

(** A task visits its sections in ascending order. *)
Lemma events_from_ascending fi sections : forall si A (e : Event) B,
  events_from fi si sections = A ++ e :: B ->
  forall e1 : Event, In e1 A -> (snd (fst e1) <= snd (fst e))%nat.
Proof.
  induction sections as [| sec rest IH]; intros si A e B Heq e1 H1; cbn [events_from] in Heq.
  { destruct A; discriminate Heq. }
  assert (Hhead : forall x : Event, In x (map (pair (fi, si)) (pieces sec)) ->
            snd (fst x) = si).
  { intros x Hx. apply List.in_map_iff in Hx as (p & <- & _). reflexivity. }
  assert (Htail : forall x : Event, In x (events_from fi (S si) rest) ->
            (si < snd (fst x))%nat).
  { intros x Hx. apply events_from_In in Hx as (k & _ & _ & Hf & _). rewrite Hf. cbn. lia. }
  apply List.app_eq_app in Heq as [l [[HM HR] | [HA HR]]].
  - assert (He : In e (map (pair (fi, si)) (pieces sec) ++ events_from fi (S si) rest)).
    { rewrite List.in_app_iff. destruct l as [| x l].
      - right. cbn in HR. rewrite <- HR. left. reflexivity.
      - left. cbn in HR. injection HR as -> _. rewrite HM. rewrite List.in_app_iff.
        right. left. reflexivity. }
    rewrite (Hhead e1) by (rewrite HM, List.in_app_iff; left; exact H1).
    apply List.in_app_iff in He as [He | He]; [rewrite (Hhead e He); lia |].
    specialize (Htail e He). lia.
  - rewrite HA in H1. apply List.in_app_iff in H1 as [H1 | H1].
    + rewrite (Hhead e1 H1).
      assert (He : In e (events_from fi (S si) rest)).
      { rewrite HR, List.in_app_iff. right. left. reflexivity. }
      specialize (Htail e He). lia.
    + apply (IH (S si) l e B HR e1 H1).
Qed.

Lemma interleaving_file files steps (fi : nat) :
  interleaving files steps -> (fi < length files)%nat ->
  List.filter (of_file fi) steps = events_of_file files fi.
Proof.
  intros [_ H] Hfi. rewrite List.Forall_forall in H. apply H.
  apply List.in_seq. lia.
Qed.

(** An event of the schedule is an event of a task, and conversely. *)
Lemma interleaving_In files steps (s : SectionRef) (p : nat) :
  interleaving files steps ->
  (In (s, p) steps <-> In p (refs_of files s)).
Proof.
  intros Hi. split.
  - intros Hin.
    assert (Hfi : (fst s < length files)%nat).
    { destruct Hi as [Hv _]. rewrite List.Forall_forall in Hv. apply (Hv _ Hin). }
    assert (H : In (s, p) (List.filter (of_file (fst s)) steps)).
    { apply List.filter_In. split; [exact Hin |]. unfold of_file. cbn [fst].
      apply Nat.eqb_refl. }
    rewrite (interleaving_file _ _ _ Hi Hfi) in H.
    apply events_of_file_In in H. apply H.
  - intros Hp.
    assert (Hfi : (fst s < length files)%nat).
    { unfold refs_of in Hp. destruct (files !! fst s) eqn:E; [| destruct Hp].
      eapply lookup_lt_Some. exact E. }
    assert (H : In (s, p) (events_of_file files (fst s))).
    { apply events_of_file_In. auto. }
    rewrite <- (interleaving_file _ _ _ Hi Hfi) in H.
    apply List.filter_In in H. apply H.
Qed.

(** Two events of one file happen in the order of their sections. *)
Lemma interleaving_ascending files pre (e : Event) post :
  interleaving files (pre ++ e :: post) ->
  forall e1 : Event, In e1 pre -> fst (fst e1) = fst (fst e) ->
    (snd (fst e1) <= snd (fst e))%nat.
Proof.
  intros Hi e1 H1 Hf.
  assert (Hfi : (fst (fst e) < length files)%nat).
  { destruct Hi as [Hv _]. rewrite List.Forall_forall in Hv. apply Hv.
    rewrite List.in_app_iff. right. left. reflexivity. }
  pose proof (interleaving_file _ _ _ Hi Hfi) as Hfilter.
  rewrite List.filter_app in Hfilter. cbn [List.filter] in Hfilter.
  unfold of_file at 2 in Hfilter. rewrite Nat.eqb_refl in Hfilter.
  unfold events_of_file in Hfilter.
  destruct (files !! fst (fst e)) as [file |]; [| destruct (List.filter _ pre); discriminate].
  symmetry in Hfilter. eapply events_from_ascending; [exact Hfilter |].
  apply List.filter_In. split; [exact H1 |]. unfold of_file. apply Nat.eqb_eq. exact Hf.
Qed.

(** *** The election *)

(** One event: the election extends to it. *)
Lemma elected_step files done store (e : Event) :
  distinct_priorities files ->
  (forall x : Event, In x (done ++ [e]) -> (fst (fst x) < length files)%nat) ->
  (forall e1 : Event, In e1 done -> fst (fst e1) = fst (fst e) ->
     (snd (fst e1) <= snd (fst e))%nat) ->
  elected files done store ->
  elected files (done ++ [e]) (claim files (fst e) store (snd e)).
Proof.
  intros Hdp Hvalid Hearlier Hel p piece' Hp. destruct e as [me q]. cbn [fst snd] in *.
  rewrite claim_lookup in Hp.
  assert (Hgrow : forall s, In (s, p) (done ++ [(me, q)]) <->
            In (s, p) done \/ (s = me /\ p = q)).
  { intros s. rewrite List.in_app_iff. cbn [In]. split.
    - intros [H | [H | []]]; [left; exact H | right]. injection H as -> ->. auto.
    - intros [H | [-> ->]]; [left; exact H | right; left; reflexivity]. }
  destruct (decide (p = q)) as [-> | Hne].
  - destruct (store !! q) as [piece |] eqn:Hs; [| discriminate Hp].
    cbn in Hp. injection Hp as <-. specialize (Hel q piece Hs).
    unfold claimed. destruct (isec piece) as [m |] eqn:Hm.
    + destruct Hel as (Hmd & Hbest).
      destruct (Z.gtb_spec (file_priority files m) (file_priority files me))
        as [Hgt | Hle]; cbn [isec].
      * split; [apply Hgrow; right; auto |].
        intros s Hs'. apply Hgrow in Hs' as [Hs' | [-> _]]; [| apply beats_refl].
        left. destruct (Hbest s Hs') as [Hlt | [Hf _]]; [lia |].
        unfold file_priority in *. rewrite <- Hf. lia.
      * rewrite Hm. split; [apply Hgrow; left; exact Hmd |].
        intros s Hs'. apply Hgrow in Hs' as [Hs' | [-> _]]; [apply (Hbest s Hs') |].
        destruct (Z.eq_dec (file_priority files m) (file_priority files me))
          as [Heq | Hneq]; [| left; lia].
        right.
        assert (Hf : fst m = fst me).
        { unfold file_priority in Heq.
          assert (Hvm : (fst m < length files)%nat).
          { apply (Hvalid (m, q)). rewrite List.in_app_iff. left. exact Hmd. }
          assert (Hve : (fst me < length files)%nat).
          { apply (Hvalid (me, q)). rewrite List.in_app_iff. right. left. reflexivity. }
          destruct (lookup_lt_is_Some_2 files (fst m) Hvm) as [fm Hfm].
          destruct (lookup_lt_is_Some_2 files (fst me) Hve) as [fe Hfe].
          rewrite Hfm, Hfe in Heq. apply (Hdp _ _ _ _ Hfm Hfe Heq). }
        split; [exact Hf |]. apply (Hearlier (m, q) Hmd Hf).
    + cbn [isec]. split; [apply Hgrow; right; auto |].
      intros s Hs'. apply Hgrow in Hs' as [Hs' | [-> _]]; [| apply beats_refl].
      destruct (Hel s Hs').
  - specialize (Hel p piece' Hp). destruct (isec piece') as [m |].
    + destruct Hel as (Hmd & Hbest). split; [apply Hgrow; left; exact Hmd |].
      intros s Hs'. apply Hgrow in Hs' as [Hs' | [_ E]]; [apply (Hbest s Hs') | congruence].
    + intros s Hs'. apply Hgrow in Hs' as [Hs' | [_ E]]; [apply (Hel s Hs') | congruence].
Qed.

(** The election holds after every prefix of a schedule. *)
Lemma elected_prefix files store steps :
  distinct_priorities files ->
  Forall (fun piece => isec piece = None) store ->
  interleaving files steps ->
  forall pre post, steps = pre ++ post ->
    elected files pre (run_events files store pre).
Proof.
  intros Hdp Hnone Hi pre. induction pre as [| e pre IH] using rev_ind; intros post Hsteps.
  - intros p piece Hp. cbn in Hp. rewrite List.Forall_forall in Hnone.
    rewrite (Hnone piece (proj1 (list_elem_of_In _ _) (list_elem_of_lookup_2 _ _ _ Hp))).
    intros s [].
  - rewrite run_events_snoc. rewrite <- List.app_assoc in Hsteps. cbn [app] in Hsteps.
    apply elected_step.
    + exact Hdp.
    + intros x Hx. destruct Hi as [Hv _]. rewrite List.Forall_forall in Hv. apply Hv.
      rewrite Hsteps. rewrite List.in_app_iff in Hx |- *.
      destruct Hx as [Hx | [<- | []]]; [left; exact Hx | right; left; reflexivity].
    + rewrite Hsteps in Hi. apply (interleaving_ascending _ _ _ _ Hi).
    + apply (IH (e :: post) Hsteps).
Qed.

Lemma filter_all {A} (f : A -> bool) (l : list A) :
  (forall x, In x l -> f x = true) -> List.filter f l = l.
Proof.
  induction l as [| x l IH]; intros H; [reflexivity |]. cbn [List.filter].
  rewrite (H x (or_introl eq_refl)), IH; [reflexivity |].
  intros y Hy. apply H. right. exact Hy.
Qed.

Lemma filter_none {A} (f : A -> bool) (l : list A) :
  (forall x, In x l -> f x = false) -> List.filter f l = [].
Proof.
  induction l as [| x l IH]; intros H; [reflexivity |]. cbn [List.filter].
  rewrite (H x (or_introl eq_refl)). apply IH. intros y Hy. apply H. right. exact Hy.
Qed.

Lemma events_of_file_owner files fi (e : Event) :
  In e (events_of_file files fi) -> fst (fst e) = fi /\ (fi < length files)%nat.
Proof.
  intros H. destruct e as [s p]. pose proof H as H'.
  apply events_of_file_In in H as [Hf _]. split; [exact Hf |].
  unfold events_of_file in H'. destruct (files !! fi) eqn:E; [| destruct H'].
  eapply lookup_lt_Some. exact E.
Qed.

Lemma filter_sequential files (fi : nat) : forall n a,
  List.filter (of_file fi) (concat (map (events_of_file files) (seq a n))) =
  if decide (a <= fi < a + n)%nat then events_of_file files fi else [].
Proof.
  induction n as [| n IH]; intros a; cbn [seq map concat].
  { destruct (decide (a <= fi < a + 0)%nat); [lia | reflexivity]. }
  rewrite List.filter_app, IH.
  destruct (decide (a = fi)) as [-> | Hne].
  - rewrite filter_all.
    + destruct (decide (S fi <= fi < S fi + n)%nat); [lia |].
      destruct (decide (fi <= fi < fi + S n)%nat); [| lia]. apply List.app_nil_r.
    + intros x Hx. apply events_of_file_owner in Hx as [Hx _].
      unfold of_file. apply Nat.eqb_eq. exact Hx.
  - rewrite filter_none.
    + cbn [app]. destruct (decide (S a <= fi < S a + n)%nat);
        destruct (decide (a <= fi < a + S n)%nat); try reflexivity; lia.
    + intros x Hx. apply events_of_file_owner in Hx as [Hx _].
      unfold of_file. apply Nat.eqb_neq. congruence.
Qed.

(** The run on one thread is one of the schedules. *)
Lemma sequential_interleaving files : interleaving files (sequential files).
Proof.
  unfold sequential. split.
  - apply List.Forall_forall. intros e He. apply List.in_concat in He as (l & Hl & He).
    apply List.in_map_iff in Hl as (fi & <- & _).
    apply events_of_file_owner in He as [-> Hlt]. exact Hlt.
  - apply List.Forall_forall. intros fi Hfi. apply List.in_seq in Hfi.
    rewrite filter_sequential. destruct (decide (0 <= fi < 0 + length files)%nat); [| lia].
    reflexivity.
Qed.

Lemma refs_of_valid files s (p : nat) :
  In p (refs_of files s) -> (fst s < length files)%nat.
Proof.
  unfold refs_of. destruct (files !! fst s) eqn:E; [| intros []].
  intros _. eapply lookup_lt_Some. exact E.
Qed.

(** Two sections that beat each other are one section. *)
Lemma beats_antisym files (m s : SectionRef) :
  distinct_priorities files ->
  (fst m < length files)%nat -> (fst s < length files)%nat ->
  beats files m s -> beats files s m -> m = s.
Proof.
  intros Hdp Hm Hs H1 H2.
  assert (Hf : fst m = fst s).
  { destruct H1 as [H1 | [H1 _]]; [| exact H1].
    destruct H2 as [H2 | [H2 _]]; [lia | auto]. }
  assert (Hp : file_priority files m = file_priority files s).
  { unfold file_priority. rewrite Hf. reflexivity. }
  destruct H1 as [H1 | [_ H1]]; [lia |]. destruct H2 as [H2 | [_ H2]]; [lia |].
  destruct m, s. cbn [fst snd] in *. f_equal; lia.
Qed.

End MergeFacts.

(** X19 (handle_mergeable_strings, first pass). Whatever the order in
    which the tasks of the files take their steps, the pass keeps every
    piece's bytes and [output_offset] and leaves it without an owner if no
    section refers to it, and otherwise owned by a section that refers to
    it, whose file has the lowest priority among the sections that refer
    to it, and which is the first such section of its file. *)
Theorem string_piece_owner files store steps :
  Merge.distinct_priorities files ->
  Forall (fun piece => Merge.isec piece = None) store ->
  Merge.interleaving files steps ->
  Merge.same_content store (Merge.run_events files store steps) /\
  forall (p : nat) piece', Merge.run_events files store steps !! p = Some piece' ->
    match Merge.isec piece' with
    | None => forall s, ~ In p (Merge.refs_of files s)
    | Some m =>
      In p (Merge.refs_of files m) /\
      forall s, In p (Merge.refs_of files s) ->
        Merge.file_priority files m <= Merge.file_priority files s /\
        (fst s = fst m -> (snd m <= snd s)%nat)
    end.
Proof.
  intros Hdp Hnone Hi. split; [apply run_events_same_content |]. intros p piece' Hp.
  pose proof (elected_prefix files store steps Hdp Hnone Hi steps []
                (eq_sym (List.app_nil_r steps)) p piece' Hp) as Hel.
  destruct (Merge.isec piece') as [m |].
  - destruct Hel as (Hmd & Hbest).
    split; [apply (interleaving_In _ _ _ _ Hi); exact Hmd |].
    intros s Hs. apply (interleaving_In _ _ _ _ Hi) in Hs.
    destruct (Hbest s Hs) as [Hlt | [Hf Hle]].
    + split; [lia |]. intros Hf. unfold Merge.file_priority in Hlt.
      rewrite Hf in Hlt. lia.
    + split; [| intros _; exact Hle]. unfold Merge.file_priority. rewrite Hf. lia.
  - intros s Hs. apply (interleaving_In _ _ _ _ Hi) in Hs. apply (Hel s Hs).
Qed.

Lemma sample_distinct_priorities : Merge.distinct_priorities Merge.sample_files.
Proof.
  intros i j fi fj Hi Hj.
  destruct i as [| [| [| i]]]; cbn in Hi; try discriminate Hi; injection Hi as <-;
    destruct j as [| [| [| j]]]; cbn in Hj; try discriminate Hj; injection Hj as <-;
    cbn; intros H; try reflexivity; discriminate H.
Qed.

Lemma sample_interleaving : Merge.interleaving Merge.sample_files Merge.sample_steps.
Proof. split; cbn; repeat constructor. Qed.

Lemma string_piece_owner_witness :
  Merge.distinct_priorities Merge.sample_files /\
  Merge.interleaving Merge.sample_files Merge.sample_steps /\
  map Merge.isec (Merge.run_events Merge.sample_files Merge.sample_pieces Merge.sample_steps)
    = [Some (0, 0); Some (1, 0); Some (1, 1)]%nat /\
  In 1%nat (Merge.refs_of Merge.sample_files (1, 0)%nat).
Proof.
  split; [exact sample_distinct_priorities |]. split; [exact sample_interleaving |].
  split; [vm_compute; reflexivity |].
  exact (proj1 (proj2 (string_piece_owner Merge.sample_files Merge.sample_pieces
           Merge.sample_steps sample_distinct_priorities
           ltac:(repeat constructor) sample_interleaving) 1%nat
           (Merge.mkPiece [104; 105; 0] (Some (1, 0)%nat) (-1)) eq_refl)).
Defined.

(** X20 (handle_mergeable_strings, first pass). The outcome of the
    parallel loop does not depend on the schedule: every interleaving of
    the tasks leaves the store that a run on one thread, file after file,
    leaves. *)
Theorem string_owner_schedule_independent files store steps :
  Merge.distinct_priorities files ->
  Forall (fun piece => Merge.isec piece = None) store ->
  Merge.interleaving files steps ->
  Merge.run_events files store steps =
  Merge.run_events files store (Merge.sequential files).
Proof.
  intros Hdp Hnone Hi. pose proof (sequential_interleaving files) as Hi2.
  destruct (run_events_same_content files store steps) as [L1 C1].
  destruct (run_events_same_content files store (Merge.sequential files)) as [L2 C2].
  apply list_eq. intros p.
  destruct (Merge.run_events files store steps !! p) as [a |] eqn:Ha.
  - destruct (lookup_lt_is_Some_2 (Merge.run_events files store (Merge.sequential files)) p)
      as [b Hb]; [rewrite L2, <- L1; eapply lookup_lt_Some; exact Ha |].
    rewrite Hb. f_equal.
    destruct (C1 p a Ha) as (x & Hx & Da & Oa). destruct (C2 p b Hb) as (y & Hy & Db & Ob).
    assert (x = y) by congruence. subst y.
    pose proof (elected_prefix files store steps Hdp Hnone Hi steps []
                  (eq_sym (List.app_nil_r steps)) p a Ha) as Ea.
    pose proof (elected_prefix files store _ Hdp Hnone Hi2 (Merge.sequential files) []
                  (eq_sym (List.app_nil_r _)) p b Hb) as Eb.
    assert (Hisec : Merge.isec a = Merge.isec b).
    { destruct (Merge.isec a) as [m |], (Merge.isec b) as [n |].
      - destruct Ea as [Hma Hbest_a], Eb as [Hnb Hbest_b]. f_equal.
        pose proof (proj1 (interleaving_In _ _ _ _ Hi) Hma) as Rm.
        pose proof (proj1 (interleaving_In _ _ _ _ Hi2) Hnb) as Rn.
        apply (beats_antisym files m n Hdp (refs_of_valid _ _ _ Rm) (refs_of_valid _ _ _ Rn)).
        + apply Hbest_a. apply (interleaving_In _ _ _ _ Hi). exact Rn.
        + apply Hbest_b. apply (interleaving_In _ _ _ _ Hi2). exact Rm.
      - destruct Ea as [Hma _]. exfalso. apply (Eb m).
        apply (interleaving_In _ _ _ _ Hi2). apply (interleaving_In _ _ _ _ Hi). exact Hma.
      - destruct Eb as [Hnb _]. exfalso. apply (Ea n).
        apply (interleaving_In _ _ _ _ Hi). apply (interleaving_In _ _ _ _ Hi2). exact Hnb.
      - reflexivity. }
    destruct a, b. cbn in *. congruence.
  - symmetry. apply lookup_ge_None. rewrite L2, <- L1. apply lookup_ge_None. exact Ha.
Qed.

Lemma string_owner_schedule_independent_witness :
  Merge.distinct_priorities Merge.sample_files /\
  Merge.interleaving Merge.sample_files Merge.sample_steps /\
  Merge.sample_steps <> Merge.sequential Merge.sample_files /\
  Merge.run_events Merge.sample_files Merge.sample_pieces Merge.sample_steps =
  Merge.run_events Merge.sample_files Merge.sample_pieces
    (Merge.sequential Merge.sample_files).
Proof.
  split; [exact sample_distinct_priorities |]. split; [exact sample_interleaving |].
  split; [intros H; discriminate H |].
  apply (string_owner_schedule_independent Merge.sample_files Merge.sample_pieces
           Merge.sample_steps sample_distinct_priorities
           ltac:(repeat constructor) sample_interleaving).
Defined.

(** ** The layout of the merged strings *)

Section PlaceFacts.
Import Merge.

Lemma same_section_eq (a b : SectionRef) : same_section a b = true <-> a = b.
Proof.
  unfold same_section. rewrite andb_true_iff, !Nat.eqb_eq.
  destruct a, b; cbn [fst snd]. split; [intros [-> ->]; reflexivity |].
  intros E. injection E as -> ->. auto.
Qed.

Lemma owned_by_eq me piece : owned_by me piece = true <-> isec piece = Some me.
Proof.
  unfold owned_by. destruct (isec piece) as [m |].
  - rewrite same_section_eq. split; congruence.
  - split; discriminate.
Qed.

Lemma data_size_nonneg piece : 0 <= data_size piece.
Proof. unfold data_size. lia. Qed.

Lemma retained_refl who store : retained who store store.
Proof. split; [reflexivity |]. intros p piece Hp. exists piece. auto. Qed.

Lemma retained_trans who a b c : retained who a b -> retained who b c -> retained who a c.
Proof.
  intros [L1 H1] [L2 H2]. split; [congruence |]. intros p z Hz.
  destruct (H2 p z Hz) as (y & Hy & Iz & Dz & Kz).
  destruct (H1 p y Hy) as (x & Hx & Iy & Dy & Ky).
  exists x. split; [exact Hx |]. split; [congruence |]. split; [congruence |].
  intros Hc. specialize (Ky Hc). subst y. apply Kz. exact Hc.
Qed.

Lemma retained_weaken (who who' : SectionRef -> Prop) a b :
  (forall m, who m -> who' m) -> retained who a b -> retained who' a b.
Proof.
  intros Hsub [L H]. split; [exact L |]. intros p y Hy.
  destruct (H p y Hy) as (x & Hx & I & D & K). exists x.
  split; [exact Hx |]. split; [exact I |]. split; [exact D |].
  intros Hc. apply K. intros m Hm Hw. apply (Hc m Hm). apply Hsub. exact Hw.
Qed.

Lemma retained_lookup_None who a b (p : nat) : retained who a b -> a !! p = None -> b !! p = None.
Proof.
  intros [L _] H. apply lookup_ge_None. rewrite L. apply lookup_ge_None. exact H.
Qed.

Lemma retained_lookup_Some who a b (p : nat) x :
  retained who a b -> a !! p = Some x ->
  exists y, b !! p = Some y /\ isec y = isec x /\ data y = data x /\
    ((forall m, isec x = Some m -> who m -> output_offset x <> -1) -> y = x).
Proof.
  intros [L H] Hx.
  destruct (lookup_lt_is_Some_2 b p) as [y Hy];
    [rewrite L; eapply lookup_lt_Some; exact Hx |].
  destruct (H p y Hy) as (x' & Hx' & I & D & K).
  assert (x' = x) by congruence. subst x'. exists y. auto.
Qed.

Lemma bytes_of_retained who a b refs : retained who a b -> bytes_of b refs = bytes_of a refs.
Proof.
  intros Hk. induction refs as [| r refs IH]; [reflexivity |]. cbn [bytes_of foldr].
  fold (bytes_of a refs). fold (bytes_of b refs). rewrite IH.
  destruct (a !! r) as [x |] eqn:Hx.
  - destruct (retained_lookup_Some _ _ _ _ _ Hk Hx) as (y & -> & _ & D & _).
    unfold data_size. rewrite D. reflexivity.
  - rewrite (retained_lookup_None _ _ _ _ Hk Hx). reflexivity.
Qed.

Lemma bytes_of_nonneg store refs : 0 <= bytes_of store refs.
Proof.
  induction refs as [| r refs IH]; [cbn; lia |]. cbn [bytes_of foldr].
  fold (bytes_of store refs). destruct (store !! r) as [x |]; [| exact IH].
  pose proof (data_size_nonneg x). lia.
Qed.

(** One step of the loop either places a piece of its section that was
    not placed, or changes nothing. *)
Lemma place_cases me store off (r : nat) :
  (exists piece, store !! r = Some piece /\ isec piece = Some me /\
     output_offset piece = -1 /\
     place me (store, off) r =
       (<[r := set_output_offset piece off]> store, wrap32 (off + data_size piece))) \/
  (place me (store, off) r = (store, off) /\
   forall piece, store !! r = Some piece -> isec piece = Some me ->
     output_offset piece <> -1).
Proof.
  unfold place. cbn [fst snd]. destruct (store !! r) as [piece |] eqn:Hr.
  - destruct (owned_by me piece) eqn:Ho; cbn [andb].
    + destruct (Z.eqb_spec (output_offset piece) (-1)) as [E | N].
      * left. exists piece. apply owned_by_eq in Ho. auto.
      * right. split; [reflexivity |]. intros x Hx _. congruence.
    + right. split; [reflexivity |]. intros x Hx Hi. injection Hx as <-.
      apply owned_by_eq in Hi. congruence.
  - right. split; [reflexivity |]. intros x Hx. discriminate Hx.
Qed.

Lemma retained_place me store (r : nat) piece off :
  store !! r = Some piece -> isec piece = Some me -> output_offset piece = -1 ->
  retained (eq me) store (<[r := set_output_offset piece off]> store).
Proof.
  intros Hr Hi Ho. split; [apply length_insert |]. intros p y Hy.
  destruct (decide (p = r)) as [-> | Hne].
  - rewrite list_lookup_insert_eq in Hy by (eapply lookup_lt_Some; exact Hr).
    injection Hy as <-. exists piece. split; [exact Hr |].
    split; [reflexivity |]. split; [reflexivity |].
    intros Hc. destruct (Hc me Hi eq_refl Ho).
  - rewrite list_lookup_insert_ne in Hy by congruence. exists y. auto.
Qed.

(** The loop of one section, from the offset [off]. *)
Lemma place_fold me refs : forall store off,
  0 <= off -> off + bytes_of store refs < 2 ^ 31 ->
  below me store off -> apart me store ->
  off <= snd (foldl (place me) (store, off) refs) /\
  snd (foldl (place me) (store, off) refs) <= off + bytes_of store refs /\
  retained (eq me) store (fst (foldl (place me) (store, off) refs)) /\
  below me (fst (foldl (place me) (store, off) refs))
           (snd (foldl (place me) (store, off) refs)) /\
  apart me (fst (foldl (place me) (store, off) refs)) /\
  (forall (p : nat) piece, In p refs ->
     fst (foldl (place me) (store, off) refs) !! p = Some piece ->
     isec piece = Some me -> output_offset piece <> -1).
Proof.
  induction refs as [| r refs IH]; intros store off Hoff Hbound Hbelow Hapart.
  { cbn [foldl fst snd bytes_of foldr]. split; [lia |]. split; [lia |].
    split; [apply retained_refl |]. split; [exact Hbelow |]. split; [exact Hapart |].
    intros p piece []. }
  cbn [foldl]. cbn [bytes_of foldr] in Hbound |- *. fold (bytes_of store refs) in Hbound |- *.
  destruct (place_cases me store off r) as [(piece & Hr & Hi & Ho & ->) | [-> Hno]].
  - rewrite Hr in Hbound |- *.
    pose proof (data_size_nonneg piece) as Hsz.
    pose proof (bytes_of_nonneg store refs) as Hb.
    assert (Hw : wrap32 (off + data_size piece) = off + data_size piece).
    { unfold wrap32. apply Z.mod_small. lia. }
    rewrite Hw.
    pose proof (retained_place me store r piece off Hr Hi Ho) as Hk1.
    set (store1 := <[r := set_output_offset piece off]> store) in *.
    assert (Hr1 : store1 !! r = Some (set_output_offset piece off)).
    { unfold store1. apply list_lookup_insert_eq. eapply lookup_lt_Some. exact Hr. }
    assert (Hne1 : forall p : nat, p <> r -> store1 !! p = store !! p).
    { intros p Hp. unfold store1. apply list_lookup_insert_ne. congruence. }
    destruct (IH store1 (off + data_size piece)) as (I1 & I2 & I3 & I4 & I5 & I6).
    + lia.
    + rewrite (bytes_of_retained _ _ _ refs Hk1). lia.
    + intros p x Hx Hown. destruct (decide (p = r)) as [-> | Hp].
      * rewrite Hr1 in Hx. injection Hx as <-. right. cbn. unfold data_size. cbn. lia.
      * rewrite (Hne1 p Hp) in Hx. destruct (Hbelow p x Hx Hown) as [E | [E1 E2]];
          [left; exact E | right; lia].
    + intros p q a b Hpq Ha Hb' Oa Ob Pa Pb.
      destruct (decide (p = r)) as [-> | Hp]; destruct (decide (q = r)) as [-> | Hq].
      * congruence.
      * rewrite Hr1 in Ha. injection Ha as <-. rewrite (Hne1 q Hq) in Hb'.
        destruct (Hbelow q b Hb' Ob) as [E | [E1 E2]]; [congruence |].
        right. cbn. exact E2.
      * rewrite Hr1 in Hb'. injection Hb' as <-. rewrite (Hne1 p Hp) in Ha.
        destruct (Hbelow p a Ha Oa) as [E | [E1 E2]]; [congruence |].
        left. cbn. exact E2.
      * rewrite (Hne1 p Hp) in Ha. rewrite (Hne1 q Hq) in Hb'.
        apply (Hapart p q a b Hpq Ha Hb' Oa Ob Pa Pb).
    + rewrite (bytes_of_retained _ _ _ refs Hk1) in I2.
      split; [lia |]. split; [lia |].
      split; [eapply retained_trans; [exact Hk1 | exact I3] |].
      split; [exact I4 |]. split; [exact I5 |].
      intros p x [<- | Hin] Hx Hix; [| apply (I6 p x Hin Hx Hix)].
      destruct (retained_lookup_Some _ _ _ _ _ I3 Hr1) as (y & Hy & _ & _ & Ky).
      assert (y = x) by congruence. subst y.
      rewrite Ky; [cbn; lia |]. intros m _ _. cbn. lia.
  - destruct (IH store off Hoff) as (I1 & I2 & I3 & I4 & I5 & I6);
      [| exact Hbelow | exact Hapart |].
    { destruct (store !! r) as [x |]; [pose proof (data_size_nonneg x) |]; lia. }
    assert (Hle : bytes_of store refs <=
              match store !! r with
              | Some piece => data_size piece + bytes_of store refs
              | None => bytes_of store refs
              end).
    { destruct (store !! r) as [x |]; [pose proof (data_size_nonneg x) |]; lia. }
    split; [lia |]. split; [lia |]. split; [exact I3 |].
    split; [exact I4 |]. split; [exact I5 |].
    intros p x [<- | Hin] Hx Hix; [| apply (I6 p x Hin Hx Hix)].
    destruct (store !! r) as [y |] eqn:Hy.
    + destruct (retained_lookup_Some _ _ _ _ _ I3 Hy) as (x' & Hx' & Ix & _ & Kx).
      assert (x' = x) by congruence. subst x'.
      assert (Hyo : output_offset y <> -1) by (apply (Hno y eq_refl); congruence).
      rewrite Kx; [exact Hyo |]. intros m _ _. exact Hyo.
    + rewrite (retained_lookup_None _ _ _ _ I3 Hy) in Hx. discriminate Hx.
Qed.

(** The second pass on one section whose pieces are not placed yet. *)
Lemma size_section_spec me sec store :
  unplaced me store -> bytes_of store (pieces sec) < 2 ^ 31 ->
  exists sz,
    fst (size_section me sec store) = set_size sec sz /\
    0 <= sz <= bytes_of store (pieces sec) /\
    retained (eq me) store (snd (size_section me sec store)) /\
    laid_out (snd (size_section me sec store)) me (pieces sec) sz.
Proof.
  intros Hun Hbound. unfold size_section. cbn [fst snd].
  destruct (place_fold me (pieces sec) store 0) as (I1 & I2 & I3 & I4 & I5 & I6).
  - lia.
  - lia.
  - intros p x Hx Ho. left. apply (Hun p x Hx Ho).
  - intros p q a b _ Ha _ Oa _ Pa _. destruct (Pa (Hun p a Ha Oa)).
  - exists (snd (foldl (place me) (store, 0) (pieces sec))).
    split; [reflexivity |]. split; [lia |]. split; [exact I3 |]. split.
    + intros p x Hin Hx Ho. pose proof Ho as Ho'. apply owned_by_eq in Ho'.
      destruct (I4 p x Hx Ho) as [E | E]; [destruct (I6 p x Hin Hx Ho' E) | exact E].
    + intros p q a b Hp Hq Hpq Ha Hb Oa Ob. apply (I5 p q a b Hpq Ha Hb Oa Ob).
      * apply (I6 p a Hp Ha). apply owned_by_eq. exact Oa.
      * apply (I6 q b Hq Hb). apply owned_by_eq. exact Ob.
Qed.

End PlaceFacts.

(** ** Loops over the sections *)

Section VisitFacts.
Import Merge.
Context {State : Type}.
Variable body : SectionRef -> MergeableSection -> State -> MergeableSection * State.

Lemma visit_flat_app l1 : forall l2 st,
  visit_flat body (l1 ++ l2) st =
  (fst (visit_flat body l1 st) ++ fst (visit_flat body l2 (snd (visit_flat body l1 st))),
   snd (visit_flat body l2 (snd (visit_flat body l1 st)))).
Proof.
  induction l1 as [| x l1 IH]; intros l2 st; cbn [visit_flat app fst snd].
  { destruct (visit_flat body l2 st); reflexivity. }
  rewrite IH. reflexivity.
Qed.

Lemma visit_sections_flat fi sections : forall si st,
  tagged_from fi si (fst (visit_sections body fi si sections st)) =
    fst (visit_flat body (tagged_from fi si sections) st) /\
  snd (visit_sections body fi si sections st) =
    snd (visit_flat body (tagged_from fi si sections) st).
Proof.
  induction sections as [| sec rest IH]; intros si st;
    cbn [visit_sections tagged_from visit_flat fst snd]; [split; reflexivity |].
  destruct (IH (S si) (snd (body (fi, si) sec st))) as [-> ->]. split; reflexivity.
Qed.

(** The nested loops are the loop over the sections in file-then-section
    order. *)
Lemma visit_files_flat files : forall fi st,
  tagged_files fi (fst (visit_files body fi files st)) =
    fst (visit_flat body (tagged_files fi files) st) /\
  snd (visit_files body fi files st) =
    snd (visit_flat body (tagged_files fi files) st).
Proof.
  induction files as [| file rest IH]; intros fi st;
    cbn [visit_files tagged_files visit_flat fst snd mergeable_sections];
    [split; reflexivity |].
  rewrite visit_flat_app. cbn [fst snd].
  destruct (visit_sections_flat fi (mergeable_sections file) 0 st) as [-> E].
  rewrite E. destruct (IH (S fi) (snd (visit_flat body (tagged_from fi 0 (mergeable_sections file)) st)))
    as [-> ->]. split; reflexivity.
Qed.

End VisitFacts.

Section TaggedFacts.
Import Merge.

Lemma tagged_from_In fi sections : forall si (s : SectionRef) sec,
  In (s, sec) (tagged_from fi si sections) <->
  fst s = fi /\ (si <= snd s)%nat /\ sections !! (snd s - si)%nat = Some sec.
Proof.
  induction sections as [| x rest IH]; intros si s sec; cbn [tagged_from In].
  { split; [intros [] | intros (_ & _ & H); discriminate H]. }
  rewrite IH. split.
  - intros [E | (Hf & Hle & Hl)].
    + injection E as <- <-. cbn [fst snd]. rewrite Nat.sub_diag. auto.
    + split; [exact Hf |]. split; [lia |].
      replace (snd s - si)%nat with (S (snd s - S si)) by lia. exact Hl.
  - intros (Hf & Hle & Hl). destruct (decide (snd s = si)) as [E | Hne].
    + left. rewrite E, Nat.sub_diag in Hl. cbn in Hl. injection Hl as <-.
      destruct s as [a b]; cbn [fst snd] in *. subst a b. reflexivity.
    + right. split; [exact Hf |]. split; [lia |].
      replace (snd s - si)%nat with (S (snd s - S si)) in Hl by lia. exact Hl.
Qed.

Lemma tagged_files_In files : forall fi (s : SectionRef) sec,
  In (s, sec) (tagged_files fi files) <->
  (fi <= fst s)%nat /\
  exists file, files !! (fst s - fi)%nat = Some file /\
    mergeable_sections file !! snd s = Some sec.
Proof.
  induction files as [| x rest IH]; intros fi s sec; cbn [tagged_files].
  { split; [intros [] | intros (_ & file & H & _); discriminate H]. }
  rewrite List.in_app_iff, IH, tagged_from_In. split.
  - intros [(Hf & _ & Hl) | (Hle & file & Hfile & Hl)].
    + split; [lia |]. exists x. rewrite Hf, Nat.sub_diag. rewrite Nat.sub_0_r in Hl. auto.
    + split; [lia |]. exists file.
      replace (fst s - fi)%nat with (S (fst s - S fi)) by lia. auto.
  - intros (Hle & file & Hfile & Hl). destruct (decide (fst s = fi)) as [E | Hne].
    + left. rewrite E, Nat.sub_diag in Hfile. cbn in Hfile. injection Hfile as <-.
      rewrite Nat.sub_0_r. split; [exact E |]. split; [lia | exact Hl].
    + right. split; [lia |]. exists file.
      replace (fst s - fi)%nat with (S (fst s - S fi)) in Hfile by lia. auto.
Qed.

(** The tagged list holds the section at every address, once. *)
Lemma tagged_In files (s : SectionRef) sec :
  In (s, sec) (tagged files) <->
  exists file, files !! fst s = Some file /\ mergeable_sections file !! snd s = Some sec.
Proof.
  unfold tagged. rewrite tagged_files_In, Nat.sub_0_r. split.
  - intros [_ H]. exact H.
  - intros H. split; [lia | exact H].
Qed.

Lemma tagged_from_NoDup fi sections : forall si,
  NoDup (map fst (tagged_from fi si sections)).
Proof.
  induction sections as [| x rest IH]; intros si; cbn [tagged_from map fst];
    [apply NoDup_nil_2 |].
  apply NoDup_cons_2; [| apply IH]. intros Hin. apply list_elem_of_In in Hin.
  apply List.in_map_iff in Hin as ([s sec] & E & Hin). cbn [fst] in E. subst s.
  apply tagged_from_In in Hin as (_ & Hle & _). cbn [snd] in Hle. lia.
Qed.

Lemma tagged_files_NoDup files : forall fi, NoDup (map fst (tagged_files fi files)).
Proof.
  induction files as [| x rest IH]; intros fi; cbn [tagged_files map];
    [apply NoDup_nil_2 |].
  rewrite List.map_app. apply NoDup_app. split; [apply tagged_from_NoDup |].
  split; [| apply IH]. intros s H1 H2.
  apply list_elem_of_In in H1. apply list_elem_of_In in H2.
  apply List.in_map_iff in H1 as ([s1 sec1] & E1 & H1). cbn [fst] in E1. subst s1.
  apply List.in_map_iff in H2 as ([s2 sec2] & E2 & H2). cbn [fst] in E2. subst s2.
  apply tagged_from_In in H1 as (Hf & _). apply tagged_files_In in H2 as (Hle & _). lia.
Qed.

End TaggedFacts.

(** ** The second and the third pass over all sections *)

Section PassFacts.
Import Merge.

Lemma laid_out_retained (who : SectionRef -> Prop) store store' me refs sz :
  retained who store store' -> ~ who me ->
  laid_out store me refs sz -> laid_out store' me refs sz.
Proof.
  intros [L H] Hme [H1 H2].
  assert (Hback : forall (p : nat) y, store' !! p = Some y -> owned_by me y = true ->
            store !! p = Some y).
  { intros p y Hy Ho. destruct (H p y Hy) as (x & Hx & I & _ & K).
    rewrite K; [exact Hx |]. intros m Hm Hw. apply owned_by_eq in Ho.
    assert (m = me) by congruence. subst m. contradiction. }
  split.
  - intros p y Hin Hy Ho. apply (H1 p y Hin (Hback p y Hy Ho) Ho).
  - intros p q a b Hp Hq Hpq Ha Hb Oa Ob.
    apply (H2 p q a b Hp Hq Hpq (Hback p a Ha Oa) (Hback q b Hb Ob) Oa Ob).
Qed.

Lemma unplaced_retained (who : SectionRef -> Prop) store store' me :
  retained who store store' -> ~ who me -> unplaced me store -> unplaced me store'.
Proof.
  intros [L H] Hme Hun p y Hy Ho. destruct (H p y Hy) as (x & Hx & I & _ & K).
  rewrite K; [apply (Hun p x Hx); unfold owned_by in *; rewrite <- I; exact Ho |].
  intros m Hm Hw. apply owned_by_eq in Ho.
  assert (m = me) by congruence. subst m. contradiction.
Qed.

(** The second pass over a list of distinct sections whose pieces are not
    placed. *)
Lemma size_flat l : forall store,
  NoDup (map fst l) ->
  (forall x, In x l -> unplaced (fst x) store) ->
  (forall x, In x l -> bytes_of store (pieces (snd x)) < 2 ^ 31) ->
  retained (fun m => In m (map fst l)) store (snd (visit_flat size_section l store)) /\
  Forall2 (sized store (snd (visit_flat size_section l store)))
          l (fst (visit_flat size_section l store)).
Proof.
  induction l as [| x rest IH]; intros store Hnd Hun Hbound; cbn [visit_flat fst snd map].
  { split; [apply retained_refl | constructor]. }
  cbn [map] in Hnd. apply NoDup_cons in Hnd as [Hfresh Hnd].
  rewrite list_elem_of_In in Hfresh.
  destruct (size_section_spec (fst x) (snd x) store (Hun x (or_introl eq_refl))
              (Hbound x (or_introl eq_refl))) as (sz & Esz & Hsz & Hk1 & Hlay).
  set (store1 := snd (size_section (fst x) (snd x) store)) in *.
  destruct (IH store1 Hnd) as [Hk2 Hall].
  - intros y Hy. apply (unplaced_retained _ _ _ _ Hk1); [| apply Hun; right; exact Hy].
    intros E. apply Hfresh. rewrite E. apply List.in_map. exact Hy.
  - intros y Hy. rewrite (bytes_of_retained _ _ _ _ Hk1). apply Hbound. right. exact Hy.
  - split.
    + eapply retained_trans.
      * eapply retained_weaken; [| exact Hk1]. intros m <-. left. reflexivity.
      * eapply retained_weaken; [| exact Hk2]. intros m Hm. right. exact Hm.
    + constructor.
      * split; [reflexivity |]. exists sz. cbn [fst snd]. split; [exact Esz |].
        split; [exact Hsz |]. apply (laid_out_retained _ _ _ _ _ _ Hk2 Hfresh Hlay).
      * eapply Forall2_impl; [exact Hall |]. intros a b (Hf & s & Es & Hs & Hl).
        split; [exact Hf |]. exists s. split; [exact Es |].
        rewrite (bytes_of_retained _ _ _ _ Hk1) in Hs. auto.
Qed.

Lemma sizes_sum_nonneg l :
  (forall x, In x l -> 0 <= size (snd x)) -> 0 <= sizes_sum l.
Proof.
  induction l as [| x rest IH]; intros H; cbn [sizes_sum foldr]; [lia |].
  fold (sizes_sum rest). pose proof (H x (or_introl eq_refl)).
  pose proof (IH (fun y Hy => H y (or_intror Hy))). lia.
Qed.

(** The third pass over a list of sections, when no size wraps. *)
Lemma offset_flat l : forall merged,
  (forall x, In x l -> 0 <= size (snd x) /\ (parent (snd x) < length merged)%nat) ->
  (forall (q : nat) h, merged !! q = Some h ->
     0 <= sh_size h /\ sh_size h + sizes_sum l < 2 ^ 64) ->
  length (snd (visit_flat offset_section l merged)) = length merged /\
  (forall (q : nat) h, merged !! q = Some h ->
     exists v, snd (visit_flat offset_section l merged) !! q = Some (set_sh_size h v) /\
       sh_size h <= v <= sh_size h + sizes_sum l) /\
  Forall2 (offset_in merged (snd (visit_flat offset_section l merged)))
          l (fst (visit_flat offset_section l merged)) /\
  (forall (i j : nat) y z, (i < j)%nat ->
     fst (visit_flat offset_section l merged) !! i = Some y ->
     fst (visit_flat offset_section l merged) !! j = Some z ->
     parent (snd y) = parent (snd z) ->
     offset (snd y) + size (snd y) <= offset (snd z)).
Proof.
  induction l as [| x rest IH]; intros merged Hl Hm; cbn [visit_flat fst snd].
  { split; [reflexivity |]. split.
    - intros q h Hq. exists (sh_size h). split; [destruct h; exact Hq |].
      cbn [sizes_sum foldr]. lia.
    - split; [constructor |]. intros i j y z _ Hy. discriminate Hy. }
  destruct (Hl x (or_introl eq_refl)) as [Hsz Hpar].
  destruct (lookup_lt_is_Some_2 merged (parent (snd x)) Hpar) as [h Hh].
  destruct (Hm _ h Hh) as [Hh0 Hhb]. cbn [sizes_sum foldr] in Hhb, Hm |- *.
  fold (sizes_sum rest) in Hhb, Hm |- *.
  assert (Hrest : 0 <= sizes_sum rest).
  { apply sizes_sum_nonneg. intros y Hy. apply (Hl y). right. exact Hy. }
  assert (Hw : wrap64 (sh_size h + size (snd x)) = sh_size h + size (snd x)).
  { unfold wrap64. apply Z.mod_small. lia. }
  set (merged1 := <[parent (snd x) := set_sh_size h (sh_size h + size (snd x))]> merged).
  assert (Hstep : offset_section (fst x) (snd x) merged =
                  (set_offset (snd x) (sh_size h), merged1)).
  { unfold offset_section. rewrite Hh, Hw. reflexivity. }
  rewrite Hstep. cbn [fst snd].
  assert (H1 : merged1 !! parent (snd x) =
               Some (set_sh_size h (sh_size h + size (snd x)))).
  { unfold merged1. apply list_lookup_insert_eq. exact Hpar. }
  assert (Hne : forall q : nat, q <> parent (snd x) -> merged1 !! q = merged !! q).
  { intros q Hq. unfold merged1. apply list_lookup_insert_ne. congruence. }
  assert (Hlen1 : length merged1 = length merged) by apply length_insert.
  destruct (IH merged1) as (R1 & R2 & R3 & R4).
  { intros y Hy. rewrite Hlen1. apply Hl. right. exact Hy. }
  { intros q h1 Hq. destruct (decide (q = parent (snd x))) as [-> | Hq'].
    - rewrite H1 in Hq. injection Hq as <-. cbn. lia.
    - rewrite (Hne q Hq') in Hq. destruct (Hm q h1 Hq). lia. }
  set (final := snd (visit_flat offset_section rest merged1)) in *.
  assert (Hgrow : forall (q : nat) h0, merged !! q = Some h0 ->
            exists h1, merged1 !! q = Some h1 /\ sh_size h0 <= sh_size h1).
  { intros q h0 Hq. destruct (decide (q = parent (snd x))) as [-> | Hq'].
    - exists (set_sh_size h (sh_size h + size (snd x))). split; [exact H1 |].
      assert (h0 = h) by congruence. subst h0. cbn. lia.
    - exists h0. rewrite (Hne q Hq'). split; [exact Hq | lia]. }
  split; [congruence |]. split; [| split].
  - intros q h0 Hq. destruct (decide (q = parent (snd x))) as [-> | Hq'].
    + assert (h0 = h) by congruence. subst h0.
      destruct (R2 _ _ H1) as (v & Hv & Hvb). exists v. split; [exact Hv |].
      cbn in Hvb. lia.
    + rewrite <- (Hne q Hq') in Hq. destruct (R2 _ _ Hq) as (v & Hv & Hvb).
      exists v. split; [exact Hv | lia].
  - constructor.
    + split; [reflexivity |]. destruct (R2 _ _ H1) as (v & Hv & Hvb).
      exists h, (set_sh_size (set_sh_size h (sh_size h + size (snd x))) v).
      cbn [fst snd]. split; [exact Hh |]. split; [exact Hv |].
      split; [reflexivity |]. cbn in Hvb |- *. lia.
    + eapply Forall2_impl; [exact R3 |]. intros a b (Hf & h1 & h' & Ha & Hb & E & Lo & Hi).
      split; [exact Hf |].
      assert (Hpa : (parent (snd a) < length merged)%nat).
      { rewrite <- Hlen1. eapply lookup_lt_Some. exact Ha. }
      destruct (lookup_lt_is_Some_2 merged _ Hpa) as [h0 Hh0'].
      destruct (Hgrow _ _ Hh0') as (h1' & Hh1' & Hle).
      assert (h1' = h1) by congruence. subst h1'.
      exists h0, h'. split; [exact Hh0' |]. split; [exact Hb |]. split; [exact E |]. lia.
  - intros i j y z Hij Hy Hz Hp. destruct j as [| j]; [lia |]. cbn in Hz.
    destruct i as [| i].
    + cbn in Hy. injection Hy as <-. cbn [snd] in *.
      destruct (Forall2_lookup_r _ _ _ _ _ R3 Hz) as (a & Ha & Hf & h1 & h' & Ha1 & _ & E & Lo & _).
      assert (Hpz : parent (snd z) = parent (snd a)) by (rewrite E; reflexivity).
      assert (h1 = set_sh_size h (sh_size h + size (snd x))).
      { rewrite <- Hpz, <- Hp in Ha1. cbn in Ha1. congruence. }
      subst h1. cbn in Lo |- *. lia.
    + cbn in Hy. apply (R4 i j y z ltac:(lia) Hy Hz Hp).
Qed.

End PassFacts.

(** ** The copies of write_merged_strings *)

Section CopyFacts.
Import Merge.

Lemma memcpy_lookup buf pos bytes buf' :
  memcpy buf pos bytes = Some buf' ->
  length buf' = length buf /\
  forall k : nat,
    buf' !! k =
    if (pos <=? Z.of_nat k) && (Z.of_nat k <? pos + Z.of_nat (length bytes))
    then bytes !! (k - Z.to_nat pos)%nat else buf !! k.
Proof.
  unfold memcpy. intros H.
  destruct (Z.leb_spec 0 pos) as [Hpos |]; [| discriminate H].
  destruct (Z.leb_spec (pos + Z.of_nat (length bytes)) (Z.of_nat (length buf)))
    as [Hle |]; [| discriminate H].
  cbn [andb] in H. injection H as <-. split.
  - rewrite !length_app, length_take, length_drop. lia.
  - intros k.
    destruct (Z.leb_spec pos (Z.of_nat k)) as [H1 | H1]; cbn [andb].
    + rewrite lookup_app_r by (rewrite length_take; lia).
      rewrite length_take.
      replace (k - Z.to_nat pos `min` length buf)%nat with (k - Z.to_nat pos)%nat by lia.
      destruct (Z.ltb_spec (Z.of_nat k) (pos + Z.of_nat (length bytes))) as [H2 | H2].
      * apply lookup_app_l. lia.
      * rewrite lookup_app_r by lia. rewrite lookup_drop. f_equal. lia.
    + rewrite lookup_app_l by (rewrite length_take; lia).
      apply lookup_take_lt. lia.
Qed.

Lemma memcpy_defined buf pos bytes :
  0 <= pos -> pos + Z.of_nat (length bytes) <= Z.of_nat (length buf) ->
  exists buf', memcpy buf pos bytes = Some buf'.
Proof.
  intros H1 H2. unfold memcpy.
  destruct (Z.leb_spec 0 pos); [| lia].
  destruct (Z.leb_spec (pos + Z.of_nat (length bytes)) (Z.of_nat (length buf))); [| lia].
  eexists. reflexivity.
Qed.

Lemma apply_copy_snoc acc cs c :
  foldl apply_copy acc (cs ++ [c]) = apply_copy (foldl apply_copy acc cs) c.
Proof. rewrite foldl_app. reflexivity. Qed.

(** Copies that stay in the buffer and are pairwise the same or apart:
    all of them are done, each one's bytes stand in the result, and the
    bytes outside of them are not touched. *)
Lemma copies_hold cs : forall buf,
  (forall c, In c cs -> 0 <= fst c /\ copy_end c <= Z.of_nat (length buf)) ->
  (forall c d, In c cs -> In d cs ->
     c = d \/ copy_end c <= fst d \/ copy_end d <= fst c) ->
  exists buf', foldl apply_copy (Some buf) cs = Some buf' /\
    length buf' = length buf /\
    (forall c, In c cs -> forall (i : nat) b, snd c !! i = Some b ->
       buf' !! (Z.to_nat (fst c) + i)%nat = Some b) /\
    (forall k : nat, (forall c, In c cs -> ~ (fst c <= Z.of_nat k < copy_end c)) ->
       buf' !! k = buf !! k).
Proof.
  induction cs as [| c cs IH] using rev_ind; intros buf Hin Hpair.
  { exists buf. split; [reflexivity |]. split; [reflexivity |].
    split; [intros c [] | reflexivity]. }
  destruct (IH buf) as (buf1 & E1 & L1 & Hold & Hout).
  { intros d Hd. apply Hin. apply List.in_app_iff. left. exact Hd. }
  { intros d e Hd He. apply Hpair; apply List.in_app_iff; left; assumption. }
  assert (Hc : In c (cs ++ [c])) by (apply List.in_app_iff; right; left; reflexivity).
  destruct (Hin c Hc) as [Hc0 Hc1]. unfold copy_end in Hc1.
  destruct (memcpy_defined buf1 (fst c) (snd c) Hc0 ltac:(rewrite L1; exact Hc1))
    as [buf2 E2].
  destruct (memcpy_lookup _ _ _ _ E2) as [L2 Hlook].
  exists buf2. rewrite apply_copy_snoc, E1. cbn [apply_copy].
  split; [exact E2 |]. split; [congruence |]. split.
  - intros d Hd i b Hb.
    assert (Hi : (i < length (snd d))%nat) by (eapply lookup_lt_Some; exact Hb).
    destruct (Hin d Hd) as [Hd0 _].
    assert (Hnew : d = c -> buf2 !! (Z.to_nat (fst d) + i)%nat = Some b).
    { intros ->. rewrite Hlook.
      destruct (Z.leb_spec (fst c) (Z.of_nat (Z.to_nat (fst c) + i))); [| lia].
      destruct (Z.ltb_spec (Z.of_nat (Z.to_nat (fst c) + i))
                  (fst c + Z.of_nat (length (snd c)))); [| lia].
      cbn [andb]. replace (Z.to_nat (fst c) + i - Z.to_nat (fst c))%nat with i by lia.
      exact Hb. }
    apply List.in_app_iff in Hd as [Hd | [<- | []]]; [| apply Hnew; reflexivity].
    destruct (Hpair d c ltac:(apply List.in_app_iff; left; exact Hd) Hc)
      as [E | Hdis]; [apply Hnew; exact E |].
    rewrite Hlook. unfold copy_end in Hdis.
    destruct (Z.leb_spec (fst c) (Z.of_nat (Z.to_nat (fst d) + i))) as [A | A];
      destruct (Z.ltb_spec (Z.of_nat (Z.to_nat (fst d) + i))
                  (fst c + Z.of_nat (length (snd c)))) as [B | B];
      cbn [andb]; try (apply (Hold d Hd i b Hb)).
    exfalso. lia.
  - intros k Hk. rewrite Hlook.
    destruct (Z.leb_spec (fst c) (Z.of_nat k)) as [A | A];
      destruct (Z.ltb_spec (Z.of_nat k) (fst c + Z.of_nat (length (snd c)))) as [B | B];
      cbn [andb].
    + exfalso. apply (Hk c Hc). unfold copy_end. lia.
    + apply Hout. intros d Hd. apply Hk. apply List.in_app_iff. left. exact Hd.
    + apply Hout. intros d Hd. apply Hk. apply List.in_app_iff. left. exact Hd.
    + apply Hout. intros d Hd. apply Hk. apply List.in_app_iff. left. exact Hd.
Qed.

(** The loop over the pieces of a section does the section's copies. *)
Lemma copy_fold store me base refs : forall acc,
  foldl (copy_piece store me base) acc refs =
  foldl apply_copy acc (omap (copy_of store me base) refs).
Proof.
  induction refs as [| r refs IH]; intros acc; [reflexivity |].
  cbn [foldl]. rewrite IH.
  change (omap (copy_of store me base) (r :: refs)) with
    (match copy_of store me base r with
     | Some c => c :: omap (copy_of store me base) refs
     | None => omap (copy_of store me base) refs
     end).
  unfold copy_piece at 1, copy_of at 2 3.
  destruct acc as [buf |], (store !! r) as [piece |]; try reflexivity;
    destruct (owned_by me piece); reflexivity.
Qed.

Lemma writer_flat store merged l : forall acc,
  snd (visit_flat (copy_section store merged) l acc) =
  foldl apply_copy acc (copies store merged l).
Proof.
  induction l as [| x rest IH]; intros acc; [reflexivity |].
  cbn [visit_flat snd]. rewrite IH. unfold copies. cbn [map concat].
  rewrite foldl_app. f_equal. unfold copy_section, copies_of_section.
  destruct (merged !! parent (snd x)) as [h |]; [| reflexivity].
  cbn [snd]. apply copy_fold.
Qed.

(** [write_merged_strings] does the copies of the sections, in
    file-then-section order. *)
Lemma write_merged_strings_copies buf files store merged :
  write_merged_strings buf files store merged =
  foldl apply_copy (Some buf) (copies store merged (tagged files)).
Proof.
  unfold write_merged_strings, tagged.
  rewrite (proj2 (visit_files_flat (copy_section store merged) files 0 (Some buf))).
  apply writer_flat.
Qed.

(** A copy is that of an owned piece of a section. *)
Lemma copies_In store merged l c :
  In c (copies store merged l) <->
  exists x h (p : nat) piece,
    In x l /\ merged !! parent (snd x) = Some h /\ In p (pieces (snd x)) /\
    store !! p = Some piece /\ isec piece = Some (fst x) /\
    c = (sh_offset h + offset (snd x) + output_offset piece, data piece).
Proof.
  unfold copies. rewrite List.in_concat. split.
  - intros (cs & Hcs & Hc). apply List.in_map_iff in Hcs as (x & <- & Hx).
    unfold copies_of_section in Hc.
    destruct (merged !! parent (snd x)) as [h |] eqn:Hh; [| destruct Hc].
    apply list_elem_of_In, list_elem_of_omap in Hc as (p & Hp & Hcp).
    unfold copy_of in Hcp. destruct (store !! p) as [piece |] eqn:Hpc; [| discriminate].
    destruct (owned_by (fst x) piece) eqn:Ho; [| discriminate]. injection Hcp as <-.
    exists x, h, p, piece. apply owned_by_eq in Ho. apply list_elem_of_In in Hp. auto 10.
  - intros (x & h & p & piece & Hx & Hh & Hp & Hpc & Ho & ->).
    exists (copies_of_section store merged x). split; [apply List.in_map; exact Hx |].
    unfold copies_of_section. rewrite Hh. apply list_elem_of_In, list_elem_of_omap.
    exists p. split; [apply list_elem_of_In; exact Hp |].
    unfold copy_of. rewrite Hpc. apply owned_by_eq in Ho. rewrite Ho. reflexivity.
Qed.

End CopyFacts.

(** ** The three passes together *)

Section PassesFacts.
Import Merge.

Lemma bytes_of_same_content a b refs :
  same_content a b -> bytes_of b refs = bytes_of a refs.
Proof.
  intros [L H]. induction refs as [| r refs IH]; [reflexivity |]. cbn [bytes_of foldr].
  fold (bytes_of a refs). fold (bytes_of b refs). rewrite IH.
  destruct (b !! r) as [y |] eqn:Hy.
  - destruct (H r y Hy) as (x & -> & D & _). unfold data_size. rewrite D. reflexivity.
  - assert (Hx : a !! r = None).
    { apply lookup_ge_None. rewrite <- L. apply lookup_ge_None. exact Hy. }
    rewrite Hx. reflexivity.
Qed.

Lemma total_bytes_same_content a b l :
  same_content a b -> total_bytes b l = total_bytes a l.
Proof.
  intros H. induction l as [| x l IH]; [reflexivity |]. cbn [total_bytes foldr].
  fold (total_bytes a l). fold (total_bytes b l).
  rewrite IH, (bytes_of_same_content _ _ _ H). reflexivity.
Qed.

Lemma total_bytes_nonneg store l : 0 <= total_bytes store l.
Proof.
  induction l as [| x l IH]; [cbn; lia |]. cbn [total_bytes foldr].
  fold (total_bytes store l). pose proof (bytes_of_nonneg store (pieces (snd x))). lia.
Qed.

Lemma total_bytes_In store l x :
  In x l -> bytes_of store (pieces (snd x)) <= total_bytes store l.
Proof.
  induction l as [| y l IH]; intros []; cbn [total_bytes foldr]; fold (total_bytes store l).
  - subst y. pose proof (total_bytes_nonneg store l). lia.
  - pose proof (bytes_of_nonneg store (pieces (snd y))). specialize (IH H). lia.
Qed.

Lemma sizes_sum_sized store0 store l l' :
  Forall2 (sized store0 store) l l' -> sizes_sum l' <= total_bytes store0 l.
Proof.
  induction 1 as [| x y l l' (_ & sz & E & Hsz & _) _ IH]; [cbn; lia |].
  cbn [sizes_sum total_bytes foldr]. fold (sizes_sum l'). fold (total_bytes store0 l).
  rewrite E. cbn. lia.
Qed.

(** The stores and lists after each pass of a run on fresh offsets. *)
Lemma passes_flat files store merged steps :
  Forall (fun piece => output_offset piece = -1) store ->
  (forall x, In x (tagged files) -> (parent (snd x) < length merged)%nat) ->
  (forall (q : nat) h, merged !! q = Some h ->
     0 <= sh_size h /\ sh_size h + total_bytes store (tagged files) < 2 ^ 31) ->
  retained (fun m => In m (map fst (tagged files))) (run_events files store steps)
       (snd (size_files files (run_events files store steps))) /\
  Forall2 (sized (run_events files store steps)
                 (snd (size_files files (run_events files store steps))))
          (tagged files) (tagged (fst (size_files files (run_events files store steps)))) /\
  length (snd (offset_files (fst (size_files files (run_events files store steps))) merged))
    = length merged /\
  (forall (q : nat) h, merged !! q = Some h ->
     exists v,
       snd (offset_files (fst (size_files files (run_events files store steps))) merged)
         !! q = Some (set_sh_size h v) /\
       sh_size h <= v <= sh_size h + total_bytes store (tagged files)) /\
  Forall2 (offset_in merged
             (snd (offset_files (fst (size_files files (run_events files store steps)))
                                merged)))
          (tagged (fst (size_files files (run_events files store steps))))
          (tagged (fst (offset_files (fst (size_files files (run_events files store steps)))
                                     merged))) /\
  (forall (i j : nat) y z, (i < j)%nat ->
     tagged (fst (offset_files (fst (size_files files (run_events files store steps)))
                               merged)) !! i = Some y ->
     tagged (fst (offset_files (fst (size_files files (run_events files store steps)))
                               merged)) !! j = Some z ->
     parent (snd y) = parent (snd z) ->
     offset (snd y) + size (snd y) <= offset (snd z)).
Proof.
  intros Hfresh Hpar Hm.
  pose proof (run_events_same_content files store steps) as Hsame.
  set (store1 := run_events files store steps) in *.
  assert (Hun : forall s, unplaced s store1).
  { intros s p y Hy _. destruct Hsame as [_ H]. destruct (H p y Hy) as (x & Hx & _ & ->).
    rewrite List.Forall_forall in Hfresh. apply Hfresh.
    apply list_elem_of_In. eapply list_elem_of_lookup_2. exact Hx. }
  assert (Htot : total_bytes store1 (tagged files) = total_bytes store (tagged files)).
  { apply total_bytes_same_content. exact Hsame. }
  assert (Hbound : forall x, In x (tagged files) ->
            bytes_of store1 (pieces (snd x)) < 2 ^ 31).
  { intros x Hx. pose proof (total_bytes_In store1 _ x Hx) as Hle.
    destruct (lookup_lt_is_Some_2 merged _ (Hpar x Hx)) as [h Hh].
    destruct (Hm _ h Hh). lia. }
  unfold size_files, offset_files, tagged in *.
  destruct (visit_files_flat size_section files 0 store1) as [E1 E2].
  rewrite E1, E2.
  destruct (size_flat (tagged_files 0 files) store1 (tagged_files_NoDup files 0)
              (fun x _ => Hun (fst x)) Hbound) as [Hk Hsized].
  split; [exact Hk |]. split; [exact Hsized |].
  set (files2 := fst (visit_files size_section 0 files store1)) in *.
  destruct (visit_files_flat offset_section files2 0 merged) as [E3 E4].
  rewrite E3, E4. rewrite E1 in *.
  set (l2 := fst (visit_flat size_section (tagged_files 0 files) store1)) in *.
  pose proof (sizes_sum_sized _ _ _ _ Hsized) as Hsum.
  destruct (offset_flat l2 merged) as (R1 & R2 & R3 & R4).
  { intros y Hy. apply list_elem_of_In, list_elem_of_lookup_1 in Hy as [i Hi].
    destruct (Forall2_lookup_r _ _ _ _ _ Hsized Hi) as (x & Hx & _ & sz & E & Hsz & _).
    rewrite E. cbn. split; [lia |]. apply Hpar.
    apply list_elem_of_In. eapply list_elem_of_lookup_2. exact Hx. }
  { intros q h Hh. destruct (Hm q h Hh). lia. }
  split; [exact R1 |]. split; [| split; [exact R3 | exact R4]].
  intros q h Hh. destruct (R2 q h Hh) as (v & Hv & Hvb). exists v.
  split; [exact Hv |]. lia.
Qed.

(** Two elements of a list with distinct tags that carry the same tag are
    the same element. *)
Lemma tagged_unique {A} (l : list (SectionRef * A)) x y :
  NoDup (map fst l) -> In x l -> In y l -> fst x = fst y -> x = y.
Proof.
  intros Hnd Hx Hy E.
  apply list_elem_of_In, list_elem_of_lookup_1 in Hx as [i Hi].
  apply list_elem_of_In, list_elem_of_lookup_1 in Hy as [j Hj].
  assert (i = j).
  { apply (NoDup_lookup _ i j (fst x) Hnd).
    - rewrite list_lookup_fmap, Hi. reflexivity.
    - rewrite list_lookup_fmap, Hj, E. reflexivity. }
  subst j. congruence.
Qed.

Lemma Forall2_tags {A B} (R : SectionRef * A -> SectionRef * B -> Prop) l l' :
  (forall x y, R x y -> fst y = fst x) -> Forall2 R l l' -> map fst l' = map fst l.
Proof.
  intros HR. induction 1 as [| x y l l' Hxy _ IH]; [reflexivity |].
  cbn [map]. rewrite IH, (HR x y Hxy). reflexivity.
Qed.

End PassesFacts.

(** ** The merged strings in the output *)

Section MergedStrings.
Import Merge.

(** A section after the three passes, and the section it was. *)
Lemma section_after_passes store1 store2 merged merged3 l l2 l3 s sec3 :
  Forall2 (sized store1 store2) l l2 ->
  Forall2 (offset_in merged merged3) l2 l3 ->
  In (s, sec3) l3 ->
  exists sec sz h h3,
    In (s, sec) l /\ sec3 = set_offset (set_size sec sz) (offset sec3) /\
    laid_out store2 s (pieces sec) sz /\
    merged !! parent sec = Some h /\ merged3 !! parent sec = Some h3 /\
    sh_size h <= offset sec3 /\ offset sec3 + sz <= sh_size h3.
Proof.
  intros H12 H23 Hin.
  apply list_elem_of_In, list_elem_of_lookup_1 in Hin as [i Hi].
  destruct (Forall2_lookup_r _ _ _ _ _ H23 Hi)
    as ([s2 sec2] & H2 & Hf2 & h & h3 & Hh & Hh3 & E3 & Lo & Hi3).
  destruct (Forall2_lookup_r _ _ _ _ _ H12 H2)
    as ([s1 sec] & H1 & Hf1 & sz & E2 & _ & Hlay).
  cbn [fst snd] in *. subst s2 s1. rewrite E2 in E3, Hh, Hh3, Hi3. cbn in Hh, Hh3, Hi3.
  exists sec, sz, h, h3. split.
  { apply list_elem_of_In. eapply list_elem_of_lookup_2. exact H1. }
  auto 10.
Qed.

(** The section it becomes. *)
Lemma section_before_passes store1 store2 merged merged3 l l2 l3 s sec :
  Forall2 (sized store1 store2) l l2 ->
  Forall2 (offset_in merged merged3) l2 l3 ->
  In (s, sec) l ->
  exists sec3, In (s, sec3) l3 /\ pieces sec3 = pieces sec /\ parent sec3 = parent sec.
Proof.
  intros H12 H23 Hin.
  apply list_elem_of_In, list_elem_of_lookup_1 in Hin as [i Hi].
  destruct (Forall2_lookup_l _ _ _ _ _ H12 Hi) as ([s2 sec2] & H2 & Hf2 & sz & E2 & _).
  destruct (Forall2_lookup_l _ _ _ _ _ H23 H2) as ([s3 sec3] & H3 & Hf3 & _ & _ & _ & _ & E3 & _).
  cbn [fst snd] in *. subst s2 s3. exists sec3.
  split; [apply list_elem_of_In; eapply list_elem_of_lookup_2; exact H3 |].
  rewrite E3, E2. split; reflexivity.
Qed.

(** Two sections of one parent do not overlap. *)
Lemma sections_apart (l3 : list (SectionRef * MergeableSection)) x y :
  (forall (i j : nat) y z, (i < j)%nat -> l3 !! i = Some y -> l3 !! j = Some z ->
     parent (snd y) = parent (snd z) ->
     offset (snd y) + size (snd y) <= offset (snd z)) ->
  In x l3 -> In y l3 -> fst x <> fst y -> parent (snd x) = parent (snd y) ->
  offset (snd x) + size (snd x) <= offset (snd y) \/
  offset (snd y) + size (snd y) <= offset (snd x).
Proof.
  intros H Hx Hy Hne Hp.
  apply list_elem_of_In, list_elem_of_lookup_1 in Hx as [i Hi].
  apply list_elem_of_In, list_elem_of_lookup_1 in Hy as [j Hj].
  destruct (Nat.lt_trichotomy i j) as [Hlt | [-> | Hgt]].
  - left. apply (H i j x y Hlt Hi Hj Hp).
  - congruence.
  - right. apply (H j i y x Hgt Hj Hi (eq_sym Hp)).
Qed.

Lemma holds_at_intro buf pos bytes :
  0 <= pos ->
  (forall (i : nat) b, bytes !! i = Some b -> buf !! (Z.to_nat pos + i)%nat = Some b) ->
  holds_at buf pos bytes.
Proof.
  intros Hpos H. split; [exact Hpos |]. apply list_eq. intros i.
  destruct (bytes !! i) as [b |] eqn:Hb.
  - rewrite lookup_take_lt by (eapply lookup_lt_Some; exact Hb).
    rewrite lookup_drop. apply (H i b Hb).
  - apply lookup_take_ge. apply lookup_ge_None. exact Hb.
Qed.

Lemma owned_by_set me x v : owned_by me (set_output_offset x v) = owned_by me x.
Proof. reflexivity. Qed.

(** X21 (handle_mergeable_strings, second pass). Steps of the loops of
    two different sections commute: whatever the store and the two local
    offsets are, doing the step of [a] on piece [p] and then the step of
    [b] on piece [q] leaves the store and the offsets that the other
    order leaves. *)
Theorem place_steps_commute (a b : SectionRef) store (oa ob : Z) (p q : nat) :
  a <> b ->
  fst (place b (fst (place a (store, oa) p), ob) q) =
    fst (place a (fst (place b (store, ob) q), oa) p) /\
  snd (place a (store, oa) p) = snd (place a (fst (place b (store, ob) q), oa) p) /\
  snd (place b (fst (place a (store, oa) p), ob) q) = snd (place b (store, ob) q).
Proof.
  intros Hab. unfold place. cbn [fst snd].
  destruct (decide (p = q)) as [<- | Hpq].
  - destruct (store !! p) as [x |] eqn:Hx; [| cbn [fst snd]; rewrite Hx; auto].
    destruct (owned_by a x) eqn:Oa, (owned_by b x) eqn:Ob;
      [exfalso; apply owned_by_eq in Oa, Ob; congruence | | |];
      destruct (output_offset x =? -1) eqn:E; cbn [andb fst snd];
      rewrite ?list_lookup_insert_eq by (eapply lookup_lt_Some; exact Hx);
      rewrite ?Hx; rewrite ?owned_by_set, ?Oa, ?Ob, ?E; cbn [andb fst snd]; auto.
  - destruct (store !! p) as [x |] eqn:Hx; destruct (store !! q) as [y |] eqn:Hy;
      try destruct (owned_by a x && (output_offset x =? -1)) eqn:Ca;
      try destruct (owned_by b y && (output_offset y =? -1)) eqn:Cb;
      cbn [fst snd]; rewrite ?list_lookup_insert_ne by congruence;
      rewrite ?Hx, ?Hy, ?Ca, ?Cb; cbn [fst snd]; auto.
    split; [apply list_insert_insert_ne; congruence | auto].
Qed.

Lemma place_steps_commute_witness :
  ((1, 0)%nat : SectionRef) <> (1, 1)%nat /\
  fst (place (1, 1)%nat
         (fst (place (1, 0)%nat
                 (run_events sample_files sample_pieces sample_steps, 0) 1%nat), 0) 2%nat)
  = fst (place (1, 0)%nat
           (fst (place (1, 1)%nat
                   (run_events sample_files sample_pieces sample_steps, 0) 2%nat), 0) 1%nat).
Proof.
  assert (H : ((1, 0)%nat : SectionRef) <> (1, 1)%nat) by (intros E; discriminate E).
  split; [exact H |].
  exact (proj1 (place_steps_commute (1, 0)%nat (1, 1)%nat
                  (run_events sample_files sample_pieces sample_steps) 0 0 1%nat 2%nat H)).
Defined.

(** X22 (handle_mergeable_strings, second and third pass). Run on pieces
    without offsets, with sections whose parents exist, and with every
    parent's [sh_size] plus the input bytes of all sections below 2 GiB,
    the passes keep the sections, their pieces and parents, and lay the
    strings out: every section gets a size and an offset with
    [offset, offset + size) inside what its parent gained, the pieces it
    owns and refers to lie inside [0, size) apart from each other, two
    sections of one parent do not overlap, and a parent's header changes
    in [sh_size] only, which grows by at most the input bytes. *)
Theorem merged_strings_layout files store merged steps files3 store2 merged3 :
  Forall (fun piece => output_offset piece = -1) store ->
  (forall x, In x (tagged files) -> (parent (snd x) < length merged)%nat) ->
  (forall (q : nat) h, merged !! q = Some h ->
     0 <= sh_size h /\ sh_size h + total_bytes store (tagged files) < 2 ^ 31) ->
  handle_mergeable_strings files store merged steps = (files3, store2, merged3) ->
  map fst (tagged files3) = map fst (tagged files) /\
  (forall s sec3, In (s, sec3) (tagged files3) ->
     exists sec h h3,
       In (s, sec) (tagged files) /\
       pieces sec3 = pieces sec /\ parent sec3 = parent sec /\
       merged !! parent sec = Some h /\ merged3 !! parent sec = Some h3 /\
       laid_out store2 s (pieces sec3) (size sec3) /\
       sh_size h <= offset sec3 /\ offset sec3 + size sec3 <= sh_size h3) /\
  (forall x y, In x (tagged files3) -> In y (tagged files3) ->
     fst x <> fst y -> parent (snd x) = parent (snd y) ->
     offset (snd x) + size (snd x) <= offset (snd y) \/
     offset (snd y) + size (snd y) <= offset (snd x)) /\
  (forall (q : nat) h, merged !! q = Some h ->
     exists v, merged3 !! q = Some (set_sh_size h v) /\
       sh_size h <= v <= sh_size h + total_bytes store (tagged files)).
Proof.
  intros Hfresh Hpar Hm Hrun.
  destruct (passes_flat files store merged steps Hfresh Hpar Hm)
    as (_ & H12 & _ & Hhdr & H23 & Hord).
  unfold handle_mergeable_strings in Hrun. injection Hrun as <- <- <-.
  split; [| split; [| split; [| exact Hhdr]]].
  - rewrite (Forall2_tags _ _ _ (fun x y H => proj1 H) H23).
    apply (Forall2_tags _ _ _ (fun x y H => proj1 H) H12).
  - intros s sec3 Hin.
    destruct (section_after_passes _ _ _ _ _ _ _ _ _ H12 H23 Hin)
      as (sec & sz & h & h3 & Hsec & E & Hlay & Hh & Hh3 & Lo & Hi).
    exists sec, h, h3. rewrite E. cbn. auto 10.
  - intros x y Hx Hy. apply (sections_apart _ x y Hord Hx Hy).
Qed.

Lemma sample_fresh :
  Forall (fun piece => isec piece = None /\ output_offset piece = -1) sample_pieces.
Proof. repeat constructor. Qed.

Lemma sample_parents x :
  In x (tagged sample_files) -> (parent (snd x) < length sample_merged)%nat.
Proof.
  cbn. intros H. repeat (destruct H as [<- | H]; [cbn; lia |]). destruct H.
Qed.

Lemma sample_bound (q : nat) h :
  sample_merged !! q = Some h ->
  0 <= sh_size h /\ sh_size h + total_bytes sample_pieces (tagged sample_files) < 2 ^ 31.
Proof.
  intros H. destruct q as [| q]; [| destruct q; discriminate H].
  injection H as <-. split; [cbn; lia | vm_compute; reflexivity].
Qed.

Lemma merged_strings_layout_witness :
  map (fun x => (offset (snd x), size (snd x)))
      (tagged (fst (fst (handle_mergeable_strings sample_files sample_pieces
                           sample_merged sample_steps))))
    = [(0, 2); (2, 3); (5, 1); (6, 0)] /\
  exists v,
    snd (handle_mergeable_strings sample_files sample_pieces sample_merged sample_steps)
      !! 0%nat = Some (set_sh_size (mkShdr 1 50 0 0 0 1) v) /\
    0 <= v <= 0 + total_bytes sample_pieces (tagged sample_files).
Proof.
  split; [vm_compute; reflexivity |].
  refine (proj2 (proj2 (proj2
    (merged_strings_layout sample_files sample_pieces sample_merged sample_steps
       _ _ _ _ sample_parents sample_bound eq_refl))) 0%nat _ eq_refl).
  eapply List.Forall_impl; [| exact sample_fresh]. intros piece H. apply H.
Defined.

(** X23 (write_merged_strings after handle_mergeable_strings). From
    fresh pieces, files of distinct priorities and any schedule of the
    first pass, with the parents' headers placed apart inside the buffer
    by the layout and sized as the third pass left them:
    [write_merged_strings] is defined; every piece that some section
    refers to stands in the output once, with its own bytes, at the
    place of its owner inside the owner's parent; the bytes outside the
    parents are not touched; and the copies give the same buffer in any
    order. *)
Theorem merged_strings_written files store merged steps files3 store2 merged3 out buf :
  distinct_priorities files ->
  Forall (fun piece => isec piece = None /\ output_offset piece = -1) store ->
  interleaving files steps ->
  (forall x, In x (tagged files) -> (parent (snd x) < length merged)%nat) ->
  (forall (q : nat) h, merged !! q = Some h ->
     0 <= sh_size h /\ sh_size h + total_bytes store (tagged files) < 2 ^ 31) ->
  handle_mergeable_strings files store merged steps = (files3, store2, merged3) ->
  Forall2 (fun h o => sh_size o = sh_size h) merged3 out ->
  (forall o, In o out ->
     0 <= sh_offset o /\ sh_offset o + sh_size o <= Z.of_nat (length buf)) ->
  (forall (i j : nat) a b, i <> j -> out !! i = Some a -> out !! j = Some b ->
     sh_offset a + sh_size a <= sh_offset b \/ sh_offset b + sh_size b <= sh_offset a) ->
  exists buf',
    write_merged_strings buf files3 store2 out = Some buf' /\
    length buf' = length buf /\
    (forall s0 (p : nat) piece0,
       In p (refs_of files s0) -> store !! p = Some piece0 ->
       exists s sec o piece,
         In (s, sec) (tagged files3) /\ In p (pieces sec) /\
         out !! parent sec = Some o /\
         store2 !! p = Some piece /\ isec piece = Some s /\
         0 <= offset sec + output_offset piece /\
         offset sec + output_offset piece + data_size piece <= sh_size o /\
         holds_at buf' (sh_offset o + offset sec + output_offset piece) (data piece0)) /\
    (forall k : nat,
       (forall o, In o out -> ~ (sh_offset o <= Z.of_nat k < sh_offset o + sh_size o)) ->
       buf' !! k = buf !! k) /\
    (forall cs, Permutation cs (copies store2 out (tagged files3)) ->
       foldl apply_copy (Some buf) cs = Some buf').
Proof.
  intros Hdp Hfresh Hi Hpar Hm Hrun Hout Hrange Hapart.
  assert (Hnone : Forall (fun piece => isec piece = None) store).
  { eapply List.Forall_impl; [| exact Hfresh]. intros x H. apply H. }
  assert (Hminus : Forall (fun piece => output_offset piece = -1) store).
  { eapply List.Forall_impl; [| exact Hfresh]. intros x H. apply H. }
  destruct (passes_flat files store merged steps Hminus Hpar Hm)
    as (Hk & H12 & Hlen3 & Hhdr & H23 & Hord).
  unfold handle_mergeable_strings in Hrun. injection Hrun as <- <- <-.
  set (store1 := run_events files store steps) in *.
  set (store2 := snd (size_files files store1)) in *.
  set (files3 := fst (offset_files (fst (size_files files store1)) merged)) in *.
  set (merged3 := snd (offset_files (fst (size_files files store1)) merged)) in *.
  assert (Htags : NoDup (map fst (tagged files3))).
  { rewrite (Forall2_tags _ _ _ (fun x y H => proj1 H) H23).
    rewrite (Forall2_tags _ _ _ (fun x y H => proj1 H) H12).
    apply tagged_files_NoDup. }
  (* where a copy goes *)
  assert (Hcopy : forall x o (p : nat) piece,
            In x (tagged files3) -> out !! parent (snd x) = Some o ->
            In p (pieces (snd x)) -> store2 !! p = Some piece ->
            isec piece = Some (fst x) ->
            0 <= offset (snd x) /\ 0 <= output_offset piece /\
            output_offset piece + data_size piece <= size (snd x) /\
            offset (snd x) + size (snd x) <= sh_size o).
  { intros [s sec3] o p piece Hx Ho Hp Hpc Hown. cbn [fst snd] in *.
    destruct (section_after_passes _ _ _ _ _ _ _ _ _ H12 H23 Hx)
      as (sec & sz & h & h3 & Hsec & E & [Hlay _] & Hh & Hh3 & Lo & Hi3).
    rewrite E in Hp, Ho |- *. cbn in Hp, Ho |- *.
    destruct (Forall2_lookup_l _ _ _ _ _ Hout Hh3) as (o' & Ho' & Hsz).
    assert (o' = o) by congruence. subst o'.
    destruct (Hlay p piece Hp Hpc (proj2 (owned_by_eq _ _) Hown)) as [A B].
    destruct (Hm _ h Hh). lia. }
  (* the copies stay in the buffer *)
  assert (Hin : forall c, In c (copies store2 out (tagged files3)) ->
            0 <= fst c /\ copy_end c <= Z.of_nat (length buf)).
  { intros c Hc. apply copies_In in Hc as (x & o & p & piece & Hx & Ho & Hp & Hpc & Hown & ->).
    destruct (Hcopy x o p piece Hx Ho Hp Hpc Hown) as (A & B & C & D).
    destruct (Hrange o) as [R1 R2];
      [apply list_elem_of_In; eapply list_elem_of_lookup_2; exact Ho |].
    unfold copy_end, data_size in *. cbn [fst snd]. lia. }
  (* two copies are the same or apart *)
  assert (Hpair : forall c d, In c (copies store2 out (tagged files3)) ->
            In d (copies store2 out (tagged files3)) ->
            c = d \/ copy_end c <= fst d \/ copy_end d <= fst c).
  { intros c d Hc Hd.
    apply copies_In in Hc as (x & o & p & a & Hx & Ho & Hp & Ha & Oa & ->).
    apply copies_In in Hd as (y & o' & q & b & Hy & Ho' & Hq & Hb & Ob & ->).
    destruct (Hcopy x o p a Hx Ho Hp Ha Oa) as (A1 & A2 & A3 & A4).
    destruct (Hcopy y o' q b Hy Ho' Hq Hb Ob) as (B1 & B2 & B3 & B4).
    unfold copy_end, data_size in *. cbn [fst snd].
    destruct (decide (fst x = fst y)) as [E | Hne].
    - assert (x = y) by (apply (tagged_unique _ _ _ Htags Hx Hy E)). subst y.
      assert (o' = o) by congruence. subst o'.
      destruct (decide (p = q)) as [-> | Hpq].
      + left. assert (a = b) by congruence. subst b. reflexivity.
      + right. destruct x as [s sec3]. cbn [fst snd] in *.
        destruct (section_after_passes _ _ _ _ _ _ _ _ _ H12 H23 Hx)
          as (sec & sz & _ & _ & _ & E3 & [_ Hap] & _).
        rewrite E3 in Hp, Hq. cbn in Hp, Hq.
        destruct (Hap p q a b Hp Hq Hpq Ha Hb (proj2 (owned_by_eq _ _) Oa)
                    (proj2 (owned_by_eq _ _) Ob)) as [H | H];
          unfold data_size in H; lia.
    - right. destruct (decide (parent (snd x) = parent (snd y))) as [Ep | Hnp].
      + assert (o' = o) by congruence. subst o'.
        destruct (sections_apart _ x y Hord Hx Hy Hne Ep) as [H | H]; lia.
      + destruct (Hapart _ _ o o' Hnp Ho Ho') as [H | H]; lia. }
  destruct (copies_hold _ buf Hin Hpair) as (buf' & Ebuf & Lbuf & Hold & Hrest).
  exists buf'. split; [rewrite write_merged_strings_copies; exact Ebuf |].
  split; [exact Lbuf |]. split; [| split].
  - (* every referenced piece *)
    intros s0 p piece0 Hp0 Hpc0.
    pose proof (run_events_same_content files store steps) as [Lsame Hsame].
    destruct (lookup_lt_is_Some_2 store1 p) as [piece1 Hpc1];
      [unfold store1; rewrite Lsame; eapply lookup_lt_Some; exact Hpc0 |].
    destruct (Hsame p piece1 Hpc1) as (z & Hz & D1 & _).
    assert (z = piece0) by congruence. subst z.
    pose proof (elected_prefix files store steps Hdp Hnone Hi steps []
                  (eq_sym (List.app_nil_r steps)) p piece1 Hpc1) as Hel.
    destruct (isec piece1) as [m |] eqn:Hown1.
    2:{ exfalso. apply (Hel s0). apply (interleaving_In _ _ _ _ Hi). exact Hp0. }
    destruct Hel as [Hmp _]. apply (interleaving_In _ _ _ _ Hi) in Hmp.
    destruct (retained_lookup_Some _ _ _ _ _ Hk Hpc1) as (piece & Hpc & I2 & D2 & _).
    assert (Hsec : exists sec, In (m, sec) (tagged files) /\ pieces sec = refs_of files m).
    { unfold refs_of in *. destruct (files !! fst m) as [file |] eqn:Hf; [| destruct Hmp].
      destruct (mergeable_sections file !! snd m) as [sec |] eqn:Hs; [| destruct Hmp].
      exists sec. split; [| reflexivity]. apply tagged_In. exists file. auto. }
    destruct Hsec as (sec & Hsec & Hrefs).
    destruct (section_before_passes _ _ _ _ _ _ _ _ _ H12 H23 Hsec)
      as (sec3 & Hsec3 & Hp3 & Hpar3).
    assert (Hpin : In p (pieces sec3)) by (rewrite Hp3, Hrefs; exact Hmp).
    assert (Hlt : (parent sec3 < length out)%nat).
    { rewrite <- (Forall2_length _ _ _ Hout), Hlen3, Hpar3. apply (Hpar _ Hsec). }
    destruct (lookup_lt_is_Some_2 out _ Hlt) as [o Ho].
    assert (Hown : isec piece = Some m) by congruence.
    destruct (Hcopy (m, sec3) o p piece Hsec3 Ho Hpin Hpc Hown) as (A & B & C & D).
    cbn [fst snd] in *.
    exists m, sec3, o, piece. split; [exact Hsec3 |]. split; [exact Hpin |].
    split; [exact Ho |]. split; [exact Hpc |]. split; [exact Hown |].
    split; [lia |]. split; [lia |].
    destruct (Hrange o) as [R1 R2];
      [apply list_elem_of_In; eapply list_elem_of_lookup_2; exact Ho |].
    apply holds_at_intro; [lia |]. intros i b Hb.
    apply (Hold (sh_offset o + offset sec3 + output_offset piece, data piece)).
    + apply copies_In. exists (m, sec3), o, p, piece. cbn [fst snd]. auto 10.
    + cbn [snd]. rewrite D2, D1. exact Hb.
  - (* outside the parents *)
    intros k Hk'. apply Hrest. intros c Hc Hck.
    apply copies_In in Hc as (x & o & p & piece & Hx & Ho & Hp & Hpc & Hown & ->).
    destruct (Hcopy x o p piece Hx Ho Hp Hpc Hown) as (A & B & C & D).
    apply (Hk' o); [apply list_elem_of_In; eapply list_elem_of_lookup_2; exact Ho |].
    unfold copy_end, data_size in *. cbn [fst snd] in Hck. lia.
  - (* any order *)
    intros cs Hperm.
    assert (Hin' : forall c, In c cs -> In c (copies store2 out (tagged files3))).
    { intros c Hc. apply list_elem_of_In. rewrite <- Hperm. apply list_elem_of_In. exact Hc. }
    destruct (copies_hold cs buf (fun c Hc => Hin c (Hin' c Hc))
                (fun c d Hc Hd => Hpair c d (Hin' c Hc) (Hin' d Hd)))
      as (buf2 & E2 & L2 & Hold2 & Hrest2).
    rewrite E2. f_equal. apply list_eq. intros k.
    destruct (decide (Exists (fun c => fst c <= Z.of_nat k < copy_end c) cs)) as [Hex | Hno].
    + apply Exists_exists in Hex as (c & Hc & Hck). apply list_elem_of_In in Hc.
      destruct (Hin c (Hin' c Hc)) as [C0 _]. unfold copy_end in Hck.
      destruct (lookup_lt_is_Some_2 (snd c) (k - Z.to_nat (fst c))%nat ltac:(lia)) as [b Hb].
      pose proof (Hold2 c Hc _ b Hb) as G2. pose proof (Hold c (Hin' c Hc) _ b Hb) as G1.
      replace (Z.to_nat (fst c) + (k - Z.to_nat (fst c)))%nat with k in G1, G2 by lia.
      congruence.
    + rewrite Hrest2, Hrest; [reflexivity | |].
      * intros c Hc Hck. apply Hno. apply Exists_exists. exists c.
        split; [| exact Hck]. rewrite Hperm. apply list_elem_of_In. exact Hc.
      * intros c Hc Hck. apply Hno. apply Exists_exists. exists c.
        split; [apply list_elem_of_In; exact Hc | exact Hck].
Qed.

Lemma merged_strings_written_witness :
  write_merged_strings sample_buf
    (fst (fst (handle_mergeable_strings sample_files sample_pieces sample_merged
                 sample_steps)))
    (snd (fst (handle_mergeable_strings sample_files sample_pieces sample_merged
                 sample_steps)))
    sample_out
  = Some [204; 204; 204; 204; 97; 0; 104; 105; 0; 0; 204; 204] /\
  exists buf',
    write_merged_strings sample_buf
      (fst (fst (handle_mergeable_strings sample_files sample_pieces sample_merged
                   sample_steps)))
      (snd (fst (handle_mergeable_strings sample_files sample_pieces sample_merged
                   sample_steps)))
      sample_out = Some buf' /\
    length buf' = length sample_buf.
Proof.
  split; [vm_compute; reflexivity |].
  destruct (merged_strings_written sample_files sample_pieces sample_merged sample_steps
              _ _ _ sample_out sample_buf
              sample_distinct_priorities sample_fresh sample_interleaving
              sample_parents sample_bound eq_refl) as (buf' & E & L & _).
  - vm_compute. repeat constructor.
  - intros o [<- | []]. vm_compute. split; discriminate.
  - intros i j a b Hij Ha Hb. destruct i as [| i]; [| destruct i; discriminate Ha].
    destruct j as [| j]; [congruence | destruct j; discriminate Hb].
  - exists buf'. split; [exact E | exact L].
Defined.

End MergedStrings.

(** ** The end of the TLS segment *)

Section TlsFacts.
Import Chunks Synthetic Tls.

(** The loop keeps what the last TLS chunk gives. *)
Lemma find_tls_end_last tls_end l :
  (find_tls_end tls_end l = tls_end /\ Forall (fun c => is_tls c = false) l) \/
  (exists (j : nat) cj, l !! j = Some cj /\ is_tls cj = true /\
     find_tls_end tls_end l = tls_mark tls_end cj /\
     forall (i : nat) ci, l !! i = Some ci -> is_tls ci = true -> (i <= j)%nat).
Proof.
  induction l as [| c l IH] using rev_ind.
  { left. split; [reflexivity | constructor]. }
  unfold find_tls_end in *. rewrite foldl_app. cbn [foldl].
  destruct (is_tls c) eqn:Hc.
  - right. exists (length l), c. split; [apply list_lookup_middle; reflexivity |].
    split; [exact Hc |]. split; [unfold tls_mark; rewrite Hc; reflexivity |].
    intros i ci Hi _. apply lookup_lt_Some in Hi. rewrite length_app in Hi.
    cbn [length] in Hi. lia.
  - assert (E : tls_mark (foldl tls_mark tls_end l) c = foldl tls_mark tls_end l)
      by (unfold tls_mark; rewrite Hc; reflexivity).
    rewrite E. clear E.
    destruct IH as [[Hn Hall] | (j & cj & Hj & Hs & Hv & Hmax)].
    + left. split; [exact Hn |]. apply Forall_app. split; [exact Hall |].
      constructor; [exact Hc | constructor].
    + right. exists j, cj. split; [apply lookup_app_l_Some; exact Hj |].
      split; [exact Hs |]. split; [exact Hv |].
      intros i ci Hi Hsi. destruct (decide (i < length l)%nat) as [Hlt | Hge].
      * rewrite lookup_app_l in Hi by exact Hlt. apply (Hmax i ci Hi Hsi).
      * rewrite lookup_app_r in Hi by lia.
        destruct (i - length l)%nat; [| discriminate Hi].
        cbn in Hi. injection Hi as <-. congruence.
Qed.

(** A laid-out SHF_ALLOC chunk has an address that is not negative, an
    unsigned size and a positive alignment. *)
Lemma laid_alloc_header chunks (i : nat) c :
  Forall Layout.chunk_sized (map body chunks) ->
  Address.run_vaddr_fits Layout.start_cursor (map body chunks) = true ->
  fst (lay_out chunks) !! i = Some c -> is_alloc (body c) = true ->
  0 <= sh_addr (shdr (body c)) /\ 0 <= sh_size (shdr (body c)) /\
  1 <= sh_addralign (shdr (body c)).
Proof.
  intros Hs Hfit Hi Hal.
  destruct (lay_out_lookup _ _ _ Hi) as (c1 & b1 & Hc1 & Hb1 & ->).
  cbn [set_body body] in *.
  unfold Layout.set_osec_offsets in Hb1. cbn [fst] in Hb1.
  rewrite list_lookup_fmap in Hb1.
  destruct (Layout.run Layout.start_cursor (map body chunks) !! i) as [it |] eqn:Ei;
    [| discriminate Hb1].
  cbn in Hb1. injection Hb1 as <-.
  assert (Hit : In it (Layout.run Layout.start_cursor (map body chunks)))
    by (apply list_elem_of_In; eapply list_elem_of_lookup_2; exact Ei).
  destruct (run_it_chunk _ _ _ Hit) as (c0 & Hc0 & Hch & _).
  pose proof (proj1 (List.Forall_forall _ _) Hs c0 Hc0) as [Hal0 Hsz].
  rewrite Hch in Hal |- *. rewrite record_header_alloc in Hal.
  rewrite record_header_size, record_header_align, (record_header_addr _ _ Hal).
  destruct (run_address _ Layout.start_cursor Hs ltac:(cbn; lia) Hfit) as [Hall _].
  rewrite List.Forall_forall in Hall. destruct (Hall it Hit) as (Hb & Hp & _).
  cbn in Hb. split; [lia |]. split; [exact Hsz | exact Hal0].
Qed.

End TlsFacts.

(** X24 (main, the loop on out::tls_end after set_osec_offsets). Without
    a TLS chunk [out::tls_end] keeps its value. Otherwise it is the
    aligned end of the last TLS chunk of the list; if that chunk is
    SHF_ALLOC and neither its end nor the rounding leaves 64 bits (no
    wrap-around in the layout), [tls_end] is a multiple of that chunk's
    alignment, lies less than one alignment above its end, and is at or
    above the end of every SHF_ALLOC TLS chunk before it that is not
    tbss. *)
Theorem tls_end_covers_tls_data (chunks : list Chunks.Chunk) (tls_end0 : Z) :
  Forall Layout.chunk_sized (map Chunks.body chunks) ->
  Address.run_vaddr_fits Layout.start_cursor (map Chunks.body chunks) = true ->
  let laid := fst (Synthetic.lay_out chunks) in
  let v := Tls.find_tls_end tls_end0 laid in
  ((forall c, In c laid -> Tls.is_tls c = false) -> v = tls_end0) /\
  ((exists c, In c laid /\ Tls.is_tls c = true) ->
   exists (j : nat) cj,
     laid !! j = Some cj /\ Tls.is_tls cj = true /\
     (forall (i : nat) ci, laid !! i = Some ci -> Tls.is_tls ci = true -> (i <= j)%nat) /\
     v = align_to (wrap64 (Tls.end_addr cj)) (sh_addralign (shdr (Chunks.body cj))) /\
     (is_alloc (Chunks.body cj) = true ->
      align_up (Tls.end_addr cj) (sh_addralign (shdr (Chunks.body cj))) < 2 ^ 64 ->
      v mod sh_addralign (shdr (Chunks.body cj)) = 0 /\
      Tls.end_addr cj <= v < Tls.end_addr cj + sh_addralign (shdr (Chunks.body cj)) /\
      forall c, In c laid -> Tls.is_tls c = true -> is_alloc (Chunks.body c) = true ->
        is_tbss (Chunks.body c) = false -> Tls.end_addr c <= v)).
Proof.
  intros Hs Hfit laid v.
  pose proof (address_order_pair (map Chunks.body chunks) Hs Hfit) as Horder.
  destruct (find_tls_end_last tls_end0 laid) as [[Hn Hall] | (j & cj & Hj & Htj & Hv & Hmax)].
  - split; [intros _; exact Hn |]. intros (c & Hc & Ht).
    rewrite List.Forall_forall in Hall. rewrite (Hall c Hc) in Ht. discriminate Ht.
  - split.
    { intros Hnone.
      rewrite (Hnone cj (proj1 (list_elem_of_In _ _) (list_elem_of_lookup_2 _ _ _ Hj))) in Htj.
      discriminate Htj. }
    intros _. exists j, cj. split; [exact Hj |]. split; [exact Htj |].
    split; [exact Hmax |].
    assert (Ev : v = align_to (wrap64 (Tls.end_addr cj))
                   (sh_addralign (shdr (Chunks.body cj)))).
    { unfold v. rewrite Hv. unfold Tls.tls_mark. rewrite Htj. reflexivity. }
    split; [exact Ev |]. intros Halj Hround.
    destruct (laid_alloc_header chunks j cj Hs Hfit Hj Halj) as (Ha & Hsz & Hal).
    pose proof (align_up_bounds (Tls.end_addr cj) _ Hal) as Hb.
    assert (Hend : 0 <= Tls.end_addr cj < 2 ^ 64) by (unfold Tls.end_addr in *; lia).
    assert (Ev' : v = align_up (Tls.end_addr cj) (sh_addralign (shdr (Chunks.body cj)))).
    { rewrite Ev, (wrap64_small _ Hend). unfold align_to. apply wrap64_small. lia. }
    split; [| split; [lia |]].
    + rewrite Ev'. unfold align_up. apply Z.mod_mul. lia.
    + intros c Hc Htc Halc Htb.
      apply list_elem_of_In, list_elem_of_lookup_1 in Hc as [i Hi].
      pose proof (Hmax i c Hi Htc) as Hle.
      destruct (decide (i = j)) as [-> | Hne].
      * assert (c = cj) by congruence. subst c. lia.
      * destruct (lay_out_lookup _ _ _ Hi) as (c1 & b1 & _ & Hb1 & Ec).
        destruct (lay_out_lookup _ _ _ Hj) as (c2 & b2 & _ & Hb2 & Ecj).
        pose proof (Horder i j b1 b2 ltac:(lia) Hb1 Hb2) as Hp.
        rewrite Ec, Ecj in *. cbn [Chunks.set_body Chunks.body] in *.
        destruct (Hp Halc Halj) as [_ Hp']. rewrite Htb in Hp'.
        unfold Tls.end_addr in *. cbn [Chunks.set_body Chunks.body] in *. lia.
Qed.

Lemma tls_end_covers_tls_data_witness :
  Tls.find_tls_end 0 (fst (Synthetic.lay_out Synthetic.sample_list)) = 2105400 /\
  exists (j : nat) cj,
    fst (Synthetic.lay_out Synthetic.sample_list) !! j = Some cj /\
    Tls.is_tls cj = true /\
    Tls.find_tls_end 0 (fst (Synthetic.lay_out Synthetic.sample_list)) =
      align_to (wrap64 (Tls.end_addr cj)) (sh_addralign (shdr (Chunks.body cj))).
Proof.
  split; [vm_compute; reflexivity |].
  destruct (proj2 (tls_end_covers_tls_data Synthetic.sample_list 0
                     ltac:(repeat constructor; cbn; lia) ltac:(vm_compute; reflexivity)))
    as (j & cj & Hj & Ht & _ & Hv & _).
  - eexists. split; [right; right; left; reflexivity | reflexivity].
  - exists j, cj. auto.
Defined.

(** ** The order of the output sections *)

Section SectionOrderFacts.
Import Chunks SectionOrder.

Lemma name_lt_irrefl a : name_lt a a = false.
Proof.
  induction a as [| x a IH]; [reflexivity |]. cbn [name_lt].
  rewrite N.ltb_irrefl. exact IH.
Qed.

Lemma N_of_ascii_inj x y : N_of_ascii x = N_of_ascii y -> x = y.
Proof.
  intros H. rewrite <- (ascii_N_embedding x), <- (ascii_N_embedding y), H. reflexivity.
Qed.

Lemma name_lt_total a : forall b,
  name_lt a b = false -> name_lt b a = false -> a = b.
Proof.
  induction a as [| x a IH]; intros [| y b]; cbn [name_lt]; try discriminate;
    [reflexivity |].
  destruct (N.ltb_spec (N_of_ascii x) (N_of_ascii y)) as [H1 | H1]; [discriminate |].
  destruct (N.ltb_spec (N_of_ascii y) (N_of_ascii x)) as [H2 | H2]; [discriminate |].
  intros Ha Hb. rewrite (N_of_ascii_inj x y ltac:(lia)), (IH b Ha Hb). reflexivity.
Qed.

Lemma name_lt_trans a : forall b c,
  name_lt a b = true -> name_lt b c = true -> name_lt a c = true.
Proof.
  induction a as [| x a IH]; intros [| y b] [| z c]; cbn [name_lt]; try discriminate;
    try reflexivity.
  destruct (N.ltb_spec (N_of_ascii x) (N_of_ascii y)) as [H1 | H1];
    destruct (N.ltb_spec (N_of_ascii y) (N_of_ascii x)) as [H2 | H2];
    destruct (N.ltb_spec (N_of_ascii y) (N_of_ascii z)) as [H3 | H3];
    destruct (N.ltb_spec (N_of_ascii z) (N_of_ascii y)) as [H4 | H4];
    destruct (N.ltb_spec (N_of_ascii x) (N_of_ascii z)) as [H5 | H5];
    destruct (N.ltb_spec (N_of_ascii z) (N_of_ascii x)) as [H6 | H6];
    try discriminate; try reflexivity; try lia.
  apply IH.
Qed.

Lemma tuple_lt_irrefl x : tuple_lt x x = false.
Proof. unfold tuple_lt. rewrite name_lt_irrefl, !Z.ltb_irrefl. reflexivity. Qed.

Lemma tuple_lt_total x y : tuple_lt x y = false -> tuple_lt y x = false -> x = y.
Proof.
  destruct x as [[n1 t1] f1], y as [[n2 t2] f2]. unfold tuple_lt. cbn [fst snd].
  destruct (name_lt n1 n2) eqn:A; [discriminate |].
  destruct (name_lt n2 n1) eqn:B; [discriminate |].
  rewrite (name_lt_total _ _ A B).
  destruct (Z.ltb_spec t1 t2); [discriminate |].
  destruct (Z.ltb_spec t2 t1); [discriminate |].
  destruct (Z.ltb_spec f1 f2); [discriminate |].
  destruct (Z.ltb_spec f2 f1); [discriminate |].
  intros _ _. repeat f_equal; lia.
Qed.

Lemma tuple_lt_trans x y z :
  tuple_lt x y = true -> tuple_lt y z = true -> tuple_lt x z = true.
Proof.
  destruct x as [[n1 t1] f1], y as [[n2 t2] f2], z as [[n3 t3] f3].
  unfold tuple_lt. cbn [fst snd].
  destruct (name_lt n1 n2) eqn:A12.
  - intros _. destruct (name_lt n2 n3) eqn:A23.
    + intros _. rewrite (name_lt_trans _ _ _ A12 A23). reflexivity.
    + destruct (name_lt n3 n2) eqn:A32; [discriminate |].
      rewrite <- (name_lt_total _ _ A23 A32), A12. reflexivity.
  - destruct (name_lt n2 n1) eqn:A21; [discriminate |].
    rewrite (name_lt_total _ _ A12 A21).
    destruct (name_lt n2 n3) eqn:A23; [reflexivity |].
    destruct (name_lt n3 n2) eqn:A32; [intros _ H; discriminate H |].
    destruct (Z.ltb_spec t1 t2), (Z.ltb_spec t2 t1), (Z.ltb_spec t2 t3),
      (Z.ltb_spec t3 t2), (Z.ltb_spec t1 t3), (Z.ltb_spec t3 t1),
      (Z.ltb_spec f1 f2), (Z.ltb_spec f2 f3), (Z.ltb_spec f1 f3);
      try discriminate; try reflexivity; try lia.
Qed.

Lemma tuple_lt_asym x y : tuple_lt x y = true -> tuple_lt y x = false.
Proof.
  intros H. destruct (tuple_lt y x) eqn:E; [| reflexivity].
  pose proof (tuple_lt_trans _ _ _ H E) as C. rewrite tuple_lt_irrefl in C. discriminate C.
Qed.

(** What is not smaller is at least as big, transitively. *)
Lemma tuple_ge_trans x y z :
  tuple_lt y x = false -> tuple_lt z y = false -> tuple_lt z x = false.
Proof.
  intros H1 H2. destruct (tuple_lt z x) eqn:E; [| reflexivity].
  destruct (tuple_lt x y) eqn:Exy.
  - rewrite (tuple_lt_trans _ _ _ E Exy) in H2. discriminate H2.
  - rewrite (tuple_lt_total _ _ H1 Exy), E in H2. discriminate H2.
Qed.

Lemma insert_section_perm c l : Permutation (insert_section c l) (c :: l).
Proof.
  induction l as [| x l IH]; [reflexivity |]. cbn [insert_section].
  destruct (section_compare x c); [| reflexivity].
  rewrite IH. apply perm_swap.
Qed.

Lemma sort_sections_perm l : Permutation (sort_sections l) l.
Proof.
  induction l as [| x l IH]; [reflexivity |]. cbn [sort_sections fold_right].
  fold (sort_sections l). rewrite insert_section_perm, IH. reflexivity.
Qed.

Lemma insert_section_ascending c l : ascending l -> ascending (insert_section c l).
Proof.
  induction l as [| x l IH]; intros Hl; [cbn; auto |]. cbn [insert_section].
  destruct Hl as [Hx Hl]. destruct (section_compare x c) eqn:E.
  - split; [| apply IH; exact Hl]. rewrite insert_section_perm.
    constructor; [apply tuple_lt_asym; exact E | exact Hx].
  - split; [| split; assumption]. constructor; [exact E |].
    eapply List.Forall_impl; [| exact Hx]. intros y Hy.
    unfold section_compare in *. apply (tuple_ge_trans _ _ _ E Hy).
Qed.

Lemma sort_sections_ascending l : ascending (sort_sections l).
Proof.
  induction l as [| x l IH]; [exact I |]. apply insert_section_ascending. exact IH.
Qed.

(** Two ascending arrangements of chunks with distinct keys are one. *)
Lemma ascending_unique l1 : forall l2,
  NoDup (map section_key l1) -> Permutation l1 l2 ->
  ascending l1 -> ascending l2 -> l1 = l2.
Proof.
  induction l1 as [| x l1 IH]; intros l2 Hnd Hp H1 H2.
  { apply Permutation_nil_l in Hp. subst l2. reflexivity. }
  destruct l2 as [| y l2]; [apply Permutation_nil_r in Hp; discriminate Hp |].
  destruct H1 as [Hx H1], H2 as [Hy H2].
  assert (Hkey : forall a b, In a (x :: l1) -> In b (x :: l1) ->
            section_key a = section_key b -> a = b).
  { intros a b Ha Hb E.
    apply list_elem_of_In, list_elem_of_lookup_1 in Ha as [i Hi].
    apply list_elem_of_In, list_elem_of_lookup_1 in Hb as [j Hj].
    assert (i = j).
    { apply (NoDup_lookup _ i j (section_key a) Hnd).
      - rewrite list_lookup_fmap, Hi. reflexivity.
      - rewrite list_lookup_fmap, Hj, E. reflexivity. }
    subst j. congruence. }
  assert (Hyin : In y (x :: l1)).
  { apply list_elem_of_In. rewrite Hp. left. }
  assert (Hxin : In x (y :: l2)).
  { apply list_elem_of_In. rewrite <- Hp. left. }
  assert (x = y).
  { apply (Hkey x y (or_introl eq_refl) Hyin). apply tuple_lt_total.
    - destruct Hxin as [<- | Hxin]; [apply tuple_lt_irrefl |].
      rewrite List.Forall_forall in Hy. specialize (Hy x Hxin).
      (* y is in front of x in l2 *)
      destruct Hyin as [<- | Hyin]; [apply tuple_lt_irrefl |].
      rewrite List.Forall_forall in Hx. specialize (Hx y Hyin).
      unfold section_compare in *.
      destruct (tuple_lt (section_key x) (section_key y)) eqn:E; [| reflexivity].
      congruence.
    - destruct Hyin as [<- | Hyin]; [apply tuple_lt_irrefl |].
      rewrite List.Forall_forall in Hx. apply (Hx y Hyin). }
  subst y. f_equal. apply IH.
  - cbn [map] in Hnd. apply NoDup_cons in Hnd as [_ Hnd]. exact Hnd.
  - apply (Permutation_cons_inv Hp).
  - exact H1.
  - exact H2.
Qed.

End SectionOrderFacts.

(** X25 (main, the sort of the output sections). The stable sort by
    [section_compare] keeps every section once and leaves the list in
    ascending order of (name, type, flags); since [section_compare] is a
    strict total order on these keys, the result does not depend on the
    order in which sections with distinct keys were created. *)
Theorem section_sort_deterministic (l : list Chunks.Chunk) :
  Permutation (SectionOrder.sort_sections l) l /\
  SectionOrder.ascending (SectionOrder.sort_sections l) /\
  (NoDup (map SectionOrder.section_key l) ->
   forall l', Permutation l l' ->
     SectionOrder.sort_sections l' = SectionOrder.sort_sections l).
Proof.
  split; [apply sort_sections_perm |]. split; [apply sort_sections_ascending |].
  intros Hnd l' Hp. apply ascending_unique.
  - assert (Hk : Permutation (map SectionOrder.section_key (SectionOrder.sort_sections l'))
                   (map SectionOrder.section_key l)).
    { apply Permutation_map. rewrite sort_sections_perm. symmetry. exact Hp. }
    rewrite Hk. exact Hnd.
  - rewrite !sort_sections_perm. symmetry. exact Hp.
  - apply sort_sections_ascending.
  - apply sort_sections_ascending.
Qed.

Lemma section_sort_deterministic_witness :
  NoDup (map SectionOrder.section_key SectionOrder.created_first) /\
  SectionOrder.created_first <> SectionOrder.created_second /\
  map Chunks.name (SectionOrder.sort_sections SectionOrder.created_first) =
    [".bss"; ".data"; ".data"; ".text"]%string /\
  SectionOrder.sort_sections SectionOrder.created_second =
    SectionOrder.sort_sections SectionOrder.created_first.
Proof.
  assert (Hnd : NoDup (map SectionOrder.section_key SectionOrder.created_first)).
  { vm_compute.
    repeat (apply NoDup_cons_2;
            [intros H; repeat (apply elem_of_cons in H as [H | H]; [discriminate H |]);
             apply elem_of_nil in H; exact H |]).
    apply NoDup_nil_2. }
  split; [exact Hnd |]. split; [intros E; discriminate E |].
  split; [vm_compute; reflexivity |].
  apply (proj2 (proj2 (section_sort_deterministic SectionOrder.created_first)) Hnd).
  unfold SectionOrder.created_first, SectionOrder.created_second.
  eapply Permutation_trans; [| apply perm_swap].
  apply (Permutation_app_comm [_; _] [_; _]).
Defined.
